(** * Antigravity-Proxy: credential pool, dispatcher and protocol mappers

    A shallow embedding of the Python sources under [backend/app] and the
    properties of their specification.

    Conventions of the embedding:
    - a Python [dict] is an association list in insertion order (the order
      the sources iterate in), a Python [list] is a [list];
    - [time.time()] readings are Python floats, embedded as the rationals
      they are; the one float operation on them, the difference of two
      readings in the sticky test, is exact when the readings are within
      a factor of two of one another, as readings of the epoch clock are;
    - a quota score is a Python float, that is a finite IEEE-754 binary64
      number: a score is given by a rational and stands for the double
      nearest to it ([double]), as a decimal literal does in Python, and
      the comparisons and the product of the selection are taken on the
      doubles; so is the quotient of two sizes;
    - [int(time.time())] is [Qfloor] (the clock reads seconds since the
      epoch, which are positive); Python integers are [Z] or [nat];
    - a function that may raise returns a [result];
    - every answer of the outside world (the clock, the OAuth endpoint, the
      metadata endpoint, the database, the upstream model API) is an explicit
      argument of the function that consumes it. *)

From Stdlib Require Import List String Ascii Bool Arith ZArith QArith Qround Qabs Qpower Lia Lqa.
Import ListNotations.

Local Close Scope Q_scope.
Local Open Scope list_scope.
Local Open Scope string_scope.

(* ================================================================== *)
(** * Part I. Definitions *)
(* ================================================================== *)

(** ** Python values *)

(** Exceptions, by the classes the handlers of the sources tell apart. *)
Inductive exn : Type :=
| ValueError (msg : string)
| HTTPStatusError (status : Z) (msg : string)
| UnboundLocalError (var : string)
| Exception (msg : string).

Inductive result (A : Type) : Type :=
| Ok (a : A)
| Raise (e : exn).
Arguments Ok {A} a.
Arguments Raise {A} e.

(** [str(e)] *)
Definition exn_str (e : exn) : string :=
  match e with
  | ValueError m => m
  | HTTPStatusError _ m => m
  | UnboundLocalError v =>
      "cannot access local variable '" ++ v ++ "' where it is not associated with a value"
  | Exception m => m
  end.

(** JSON documents as [json.loads] builds them. *)
#[local] Unset Elimination Schemes.
Inductive json : Type :=
| JNull
| JBool (b : bool)
| JInt (n : Z)
| JFloat (q : Q)
| JStr (s : string)
| JList (l : list json)
| JDict (d : list (string * json)).
#[local] Set Elimination Schemes.

(** Structural induction through the lists and dictionaries of a document. *)
Section JsonInduction.

Variable P : json -> Prop.
Hypothesis Hnull : P JNull.
Hypothesis Hbool : forall b, P (JBool b).
Hypothesis Hint : forall n, P (JInt n).
Hypothesis Hfloat : forall q, P (JFloat q).
Hypothesis Hstr : forall s, P (JStr s).
Hypothesis Hlist : forall l, Forall P l -> P (JList l).
Hypothesis Hdict : forall d, Forall (fun kv => P (snd kv)) d -> P (JDict d).

Fixpoint json_nested_ind (j : json) : P j :=
  match j with
  | JNull => Hnull
  | JBool b => Hbool b
  | JInt n => Hint n
  | JFloat q => Hfloat q
  | JStr s => Hstr s
  | JList l =>
      Hlist l ((fix items (l : list json) : Forall P l :=
                  match l with
                  | [] => Forall_nil _
                  | x :: r => Forall_cons x (json_nested_ind x) (items r)
                  end) l)
  | JDict d =>
      Hdict d ((fix entries (d : list (string * json)) : Forall (fun kv => P (snd kv)) d :=
                  match d with
                  | [] => Forall_nil _
                  | kv :: r => Forall_cons kv (json_nested_ind (snd kv)) (entries r)
                  end) d)
  end.

End JsonInduction.

(** [d.get(k)] on a dict in insertion order. *)
Fixpoint dict_get (k : string) (d : list (string * json)) : option json :=
  match d with
  | [] => None
  | (k', v) :: rest => if String.eqb k k' then Some v else dict_get k rest
  end.

(** [k in d] *)
Definition dict_has (k : string) (d : list (string * json)) : bool :=
  match dict_get k d with Some _ => true | None => false end.

(** Python truthiness of a JSON value. *)
Definition truthy (j : json) : bool :=
  match j with
  | JNull => false
  | JBool b => b
  | JInt n => negb (n =? 0)%Z
  | JFloat q => negb (Qeq_bool q 0)
  | JStr s => negb (String.eqb s "")
  | JList l => match l with [] => false | _ => true end
  | JDict d => match d with [] => false | _ => true end
  end.

(** Truthiness of an [Optional[str]]. *)
Definition str_truthy (o : option string) : bool :=
  match o with
  | Some s => negb (String.eqb s "")
  | None => false
  end.

(** ** Strings *)

(** [str.upper()] and [str.lower()], on the ASCII letters. *)
Definition upper_ascii (c : ascii) : ascii :=
  let n := nat_of_ascii c in
  if andb (97 <=? n)%nat (n <=? 122)%nat then ascii_of_nat (n - 32) else c.

Definition lower_ascii (c : ascii) : ascii :=
  let n := nat_of_ascii c in
  if andb (65 <=? n)%nat (n <=? 90)%nat then ascii_of_nat (n + 32) else c.

Fixpoint str_map (f : ascii -> ascii) (s : string) : string :=
  match s with
  | EmptyString => EmptyString
  | String c rest => String (f c) (str_map f rest)
  end.

Definition upper (s : string) : string := str_map upper_ascii s.
Definition lower (s : string) : string := str_map lower_ascii s.

(** [needle in s] for strings. *)
Definition str_contains (needle s : string) : bool :=
  match String.index 0 needle s with
  | Some _ => true
  | None => false
  end.

(** ** JSON-schema cleaners *)

(** [allowed_keys], the same set in both mappers. *)
Definition allowed_keys : list string :=
  ["type"; "description"; "properties"; "required"; "items"; "enum"; "format"; "nullable"].

Definition allowed (k : string) : bool := existsb (String.eqb k) allowed_keys.

(** Keep the entries satisfying [p] and rewrite each kept entry with [g]:
    [[g a for a in l if p a]]. *)
Definition keep_map {A B : Type} (p : A -> bool) (g : A -> B) (l : list A) : list B :=
  flat_map (fun a => if p a then [g a] else []) l.

(** One step of [openai_mapper._clean_json_schema] on a kept entry, with
    [rec] the recursive call. *)
Definition clean_property (rec : json -> json) (pv : string * json) : string * json :=
  match pv with
  | (name, prop_schema) =>
      (name, match prop_schema with JDict _ => rec prop_schema | _ => prop_schema end)
  end.

Definition clean_json_entry (rec : json -> json) (kv : string * json) : string * json :=
  match kv with
  | (k, v) =>
      if String.eqb k "type" then
        (k, match v with JStr s => JStr (upper s) | _ => v end)
      else if String.eqb k "properties" then
        (k, match v with JDict props => JDict (map (clean_property rec) props) | _ => v end)
      else if String.eqb k "items" then
        (k, match v with JDict _ => rec v | _ => v end)
      else (k, v)
  end.

(** [openai_mapper._clean_json_schema].  The source edits the dictionary in
    place in four steps: delete the keys outside [allowed_keys]; upper-case
    [schema["type"]] when it is a string; clean every dictionary among the
    values of [schema["properties"]] when that is a dictionary; clean
    [schema["items"]] when it is a dictionary.  The steps touch entries of
    different keys, so [clean_json_entry] states their effect entry by
    entry; the result is the dictionary left behind by the call.  (On a
    value that is not a dictionary the source raises at [schema.keys()]; the
    recursive calls are all guarded by [isinstance(..., dict)].) *)
Fixpoint _clean_json_schema (schema : json) : json :=
  match schema with
  | JDict d =>
      JDict (keep_map (fun kv => allowed (fst kv)) (clean_json_entry _clean_json_schema) d)
  | _ => schema
  end.

(** One step of the inner [clean] of [claude_mapper._clean_schema] on a kept
    entry: a string under ["type"] is upper-cased, and every value is then
    cleaned (cleaning a string leaves it as it is). *)
Definition clean_entry (rec : json -> json) (kv : string * json) : string * json :=
  match kv with
  | (k, v) =>
      (k, match v with
          | JStr s => if String.eqb k "type" then JStr (upper s) else v
          | _ => rec v
          end)
  end.

(** The inner [clean(obj)] of [claude_mapper._clean_schema]: on a dictionary,
    delete the keys outside [allowed_keys], upper-case a string under
    ["type"], then clean every value; on a list, clean every item. *)
Fixpoint clean (obj : json) : json :=
  match obj with
  | JDict d => JDict (keep_map (fun kv => allowed (fst kv)) (clean_entry clean) d)
  | JList l => JList (map clean l)
  | _ => obj
  end.

(** [claude_mapper._clean_schema]: [clean] applied to a deep copy, which is
    returned. *)
Definition _clean_schema (schema : json) : json := clean schema.

(** ** OAuth client ([core/oauth.py]) *)

(** What an [httpx] request comes back with: a response (status code, body
    text, and the body as [response.json()] decodes it, [None] when it is not
    JSON), or an exception of the transport. *)
Inductive http_result : Type :=
| Response (status : Z) (text : string) (body : option json)
| TransportError (msg : string).

(** What a database write comes back with: [None] when it commits, the
    message of the exception otherwise. *)
Definition db_result : Type := option string.

(** The pydantic model [TokenResponse]. *)
Record TokenResponse : Type := {
  tr_access_token : string;
  tr_expires_in : Z;
  tr_token_type : string;
  tr_refresh_token : option string;
  tr_scope : option string
}.

(** An [Optional[str]] value read from a JSON value that upstream sends as a
    string or leaves out. *)
Definition as_opt_str (j : option json) : option string :=
  match j with
  | Some (JStr s) => Some s
  | _ => None
  end.

(** An [Optional[str]] field of a pydantic model: a string, [null] or
    absent; anything else is a validation error. *)
Definition opt_str_field (j : option json) : result (option string) :=
  match j with
  | None => Ok None
  | Some JNull => Ok None
  | Some (JStr s) => Ok (Some s)
  | Some _ => Raise (ValueError "validation error for TokenResponse")
  end.

(** The constructor [TokenResponse] called on the keys of [json_data]:
    [access_token] and [expires_in] are required, a string and an integer;
    [token_type] is a string and defaults to ["Bearer"]; [refresh_token] and
    [scope] are optional strings.  A missing or ill-typed field is pydantic's
    [ValidationError], a [ValueError]. *)
Definition TokenResponse_of (json_data : list (string * json)) : result TokenResponse :=
  match dict_get "access_token" json_data, dict_get "expires_in" json_data with
  | Some (JStr tok), Some (JInt n) =>
      match dict_get "token_type" json_data with
      | Some (JStr _) | None =>
          match opt_str_field (dict_get "refresh_token" json_data),
                opt_str_field (dict_get "scope" json_data) with
          | Ok rt, Ok scope =>
              Ok {| tr_access_token := tok;
                    tr_expires_in := n;
                    tr_token_type := match dict_get "token_type" json_data with
                                     | Some (JStr ty) => ty
                                     | _ => "Bearer"
                                     end;
                    tr_refresh_token := rt;
                    tr_scope := scope |}
          | _, _ => Raise (ValueError "validation error for TokenResponse")
          end
      | Some _ => Raise (ValueError "validation error for TokenResponse")
      end
  | _, _ => Raise (ValueError "validation error for TokenResponse")
  end.

(** [json_data[k] = v] *)
Fixpoint dict_set (k : string) (v : json) (d : list (string * json)) : list (string * json) :=
  match d with
  | [] => [(k, v)]
  | (k', v') :: rest =>
      if String.eqb k k' then (k, v) :: rest else (k', v') :: dict_set k v rest
  end.

(** [oauth.refresh_access_token], given the reply of the token endpoint. *)
Definition refresh_access_token (refresh_token : string) (reply : http_result)
  : result TokenResponse :=
  match reply with
  | TransportError msg => Raise (Exception msg)
  | Response status text body =>
      if (status =? 200)%Z then
        match body with
        | None => Raise (ValueError "Expecting value")
        | Some (JDict json_data) =>
            let json_data :=
              if negb (dict_has "refresh_token" json_data)
              then dict_set "refresh_token" (JStr refresh_token) json_data
              else json_data in
            TokenResponse_of json_data
        | Some _ => Raise (Exception "TypeError")
        end
      else Raise (Exception ("Token refresh failed: " ++ text))
  end.

(** Fallback project id. *)
Definition fallback_project_id : string := "bamboo-precept-lgxtn".

(** [tier and tier.get("id")]: the id of a tier object, [Ok None] when the
    tier or its id is missing or falsy; on a truthy value that is not a
    dictionary [.get] raises. *)
Definition tier_id (tier : option json) : result (option json) :=
  match tier with
  | None => Ok None
  | Some t =>
      if truthy t then
        match t with
        | JDict td =>
            match dict_get "id" td with
            | Some i => if truthy i then Ok (Some i) else Ok None
            | None => Ok None
            end
        | _ => Raise (Exception "AttributeError")
        end
      else Ok None
  end.

(** [oauth.fetch_account_info], given the reply of [loadCodeAssist].  The
    whole request sits in [try ... except Exception]: every path that is not
    a well-formed 200 reply ends at the final [return] of the fallback, so
    the result is always [Ok]. *)
Definition fetch_account_info (access_token : string) (reply : http_result)
  : result (option string * option string) :=
  let fallback := Ok (Some fallback_project_id, None) in
  match reply with
  | Response status _ (Some (JDict data)) =>
      if (status =? 200)%Z then
        let project_id := dict_get "cloudaicompanionProject" data in
        match tier_id (dict_get "paidTier" data) with
        | Raise _ => fallback
        | Ok (Some i) => Ok (as_opt_str project_id, as_opt_str (Some i))
        | Ok None =>
            match tier_id (dict_get "currentTier" data) with
            | Raise _ => fallback
            | Ok i => Ok (as_opt_str project_id, as_opt_str i)
            end
        end
      else fallback
  | Response _ _ _ => fallback
  | TransportError _ => fallback
  end.

(** ** Token pool ([core/token_manager.py]) *)

Record ProxyToken : Type := {
  account_id : string;
  email : string;
  access_token : string;
  refresh_token : string;
  expires_in : Z;
  expiry_timestamp : Z;
  project_id : option string;
  subscription_tier : option string;
  average_quota : option Q
}.

(** The fields of [TokenManager] that selection reads and writes.  [_tokens]
    is the dictionary keyed by [account_id], in insertion order;
    [load_accounts] and [reload_account] store every token under its own
    [account_id]. *)
Record TokenManager : Type := {
  _tokens : list ProxyToken;
  _current_index : nat;
  _last_used : option (string * Q)
}.

(** The keys of a dictionary are pairwise distinct. *)
Fixpoint keys_distinct (ids : list string) : bool :=
  match ids with
  | [] => true
  | i :: rest => negb (existsb (String.eqb i) rest) && keys_distinct rest
  end.

Definition well_keyed (tm : TokenManager) : bool :=
  keys_distinct (map account_id (_tokens tm)).

(** [self._tokens[id]] and [id in self._tokens] *)
Definition lookup (id : string) (pool : list ProxyToken) : option ProxyToken :=
  find (fun t => String.eqb (account_id t) id) pool.

(** The tokens are objects shared between the pool and the local variables
    of the methods: an assignment to a field of [token] is seen through the
    pool.  [store] writes the new value of the object back into its slot. *)
Definition store (token : ProxyToken) (pool : list ProxyToken) : list ProxyToken :=
  map (fun t => if String.eqb (account_id t) (account_id token) then token else t) pool.

Definition with_pool (tm : TokenManager) (pool : list ProxyToken) : TokenManager :=
  {| _tokens := pool; _current_index := _current_index tm; _last_used := _last_used tm |}.

Definition Qlt_bool (x y : Q) : bool := negb (Qle_bool y x).

(** ** Python floats *)

(** [2 ** e] *)
Definition two_to (e : Z) : Q := Qpower 2 e.

(** The binary exponent of a positive rational: the [k] with
    [2 ** k <= q < 2 ** (k + 1)]. *)
Definition binade (q : Q) : Z :=
  let k := (Z.log2 (Qnum q) - Z.log2 (Zpos (Qden q)))%Z in
  if Qle_bool (two_to k) q then k else (k - 1)%Z.

(** The integer nearest to [q], the even one of the two at a tie. *)
Definition nearest_even (q : Q) : Z :=
  let f := Qfloor q in
  match Qcompare (q - inject_Z f) (1 # 2) with
  | Lt => f
  | Gt => (f + 1)%Z
  | Eq => if Z.even f then f else (f + 1)%Z
  end.

(** The binary64 number nearest to a positive rational: 53 bits of
    significand, the exponent of the last bit not below -1074 (the
    subnormal numbers), ties to the even significand. *)
Definition double_pos (q : Q) : Q :=
  let e := Z.max (binade q - 52) (-1074) in
  Qred (inject_Z (nearest_even (q / two_to e)) * two_to e).

(** Rounding to the nearest double, the rounding of every float operation
    and of every decimal literal of the sources.  The exponent is not
    bounded above here: a result of magnitude [2 ** 1024] or more is one
    that leaves the doubles, and the operations that can reach it test for
    it. *)
Definition double (q : Q) : Q :=
  match Qnum q with
  | Z0 => 0%Q
  | Zpos _ => double_pos q
  | Zneg _ => (- double_pos (- q))%Q
  end.

(** [t.average_quota is not None and t.average_quota > 0.05] *)
Definition has_quota (t : ProxyToken) : bool :=
  match average_quota t with
  | Some q => Qlt_bool (double (5 # 100)) (double q)
  | None => false
  end.

(** The sort key [t.average_quota or 0]. *)
Definition quota_key (t : ProxyToken) : Q :=
  match average_quota t with
  | Some q => double q
  | None => 0%Q
  end.

(** [l.sort(key=quota_key, reverse=True)]: descending and stable (entries of
    equal key keep their order). *)
Fixpoint insert_desc (t : ProxyToken) (l : list ProxyToken) : list ProxyToken :=
  match l with
  | [] => [t]
  | x :: rest =>
      if Qle_bool (quota_key x) (quota_key t) then t :: l else x :: insert_desc t rest
  end.

Definition sort_desc (l : list ProxyToken) : list ProxyToken :=
  fold_right insert_desc [] l.

(** [with self._lock: idx = self._current_index % len(l); self._current_index += 1]
    followed by [l[idx]].  Every call site passes a list that is not empty,
    so the index is in range. *)
Definition round_robin (tm : TokenManager) (l : list ProxyToken)
  : result ProxyToken * TokenManager :=
  let idx := (_current_index tm mod List.length l)%nat in
  let tm' := {| _tokens := _tokens tm;
                _current_index := S (_current_index tm);
                _last_used := _last_used tm |} in
  (match nth_error l idx with
   | Some t => Ok t
   | None => Raise (Exception "list index out of range")
   end, tm').

(** The tier test of the image branch:
    [t.subscription_tier and ('pro' in tier.lower() or 'ultra' in tier.lower())]. *)
Definition is_pro (t : ProxyToken) : bool :=
  match subscription_tier t with
  | Some tier =>
      negb (String.eqb tier "")
      && (str_contains "pro" (lower tier) || str_contains "ultra" (lower tier))
  | None => false
  end.

(** Step 1 of [get_token], the 60-second sticky window.  [now] is the
    reading of [time.time()] in the comparison. *)
Definition sticky (tm : TokenManager) (quota_group : string) (force_rotate : bool) (now : Q)
  : option ProxyToken :=
  if negb force_rotate && negb (String.eqb quota_group "image_gen") then
    match _last_used tm with
    | Some (last_id, last_time) =>
        if Qlt_bool (now - last_time) 60 then lookup last_id (_tokens tm) else None
    | None => None
    end
  else None.

(** [top_quota * 0.9]: the float product of the top key and the literal
    [0.9], which is the double nearest to nine tenths and not nine tenths. *)
Definition band_floor (top_quota : Q) : Q :=
  double (top_quota * double (9 # 10)).

(** The [similar] list of the normal branch: the entries among the first
    three whose key is at least [top_quota * 0.9]. *)
Definition similar (tokens_with_quota : list ProxyToken) : list ProxyToken :=
  match tokens_with_quota with
  | [] => []
  | top :: _ =>
      filter (fun t => Qle_bool (band_floor (quota_key top)) (quota_key t))
             (firstn 3 tokens_with_quota)
  end.

(** Step 2 of [get_token] for [quota_group == "image_gen"]. *)
Definition select_image (tm : TokenManager) (force_rotate : bool)
  : result ProxyToken * TokenManager :=
  let all_tokens := _tokens tm in
  let pro_tokens := filter is_pro all_tokens in
  if force_rotate then round_robin tm all_tokens
  else
    match pro_tokens with
    | _ :: _ =>
        match sort_desc (filter has_quota pro_tokens) with
        | best :: _ => (Ok best, tm)
        | [] => round_robin tm pro_tokens
        end
    | [] => round_robin tm all_tokens
    end.

(** Step 2 of [get_token] for the other quota groups, up to the choice of
    the token. *)
Definition select_normal (tm : TokenManager) : result ProxyToken * TokenManager :=
  match sort_desc (filter has_quota (_tokens tm)) with
  | (best :: _) as tokens_with_quota =>
      if (3 <=? List.length tokens_with_quota)%nat then
        if (1 <? List.length (similar tokens_with_quota))%nat
        then round_robin tm (similar tokens_with_quota)
        else (Ok best, tm)
      else (Ok best, tm)
  | [] => round_robin tm (_tokens tm)
  end.

(** The readings of [time.time()] made by one call of [get_token], in the
    order of the source lines: the sticky test, the sticky update, the
    expiry test, and the re-test inside [_refresh_token]; and the replies of
    the outside world to the requests the call may make. *)
Record World : Type := {
  t_sticky : Q;
  t_select : Q;
  t_check : Q;
  t_refresh : Q;
  refresh_reply : http_result;
  save_token_reply : db_result;
  metadata_reply : http_result;
  save_metadata_reply : db_result
}.

(** Steps 1 and 2 of [get_token]: the selected token and the manager after
    the counter and the sticky pair were updated. *)
Definition select_token (tm : TokenManager) (quota_group : string) (force_rotate : bool)
    (w : World) : result ProxyToken * TokenManager :=
  match sticky tm quota_group force_rotate (t_sticky w) with
  | Some selected => (Ok selected, tm)
  | None =>
      if String.eqb quota_group "image_gen" then select_image tm force_rotate
      else
        match select_normal tm with
        | (Ok selected, tm') =>
            (Ok selected,
             {| _tokens := _tokens tm';
                _current_index := _current_index tm';
                _last_used := Some (account_id selected, t_select w) |})
        | (Raise e, tm') => (Raise e, tm')
        end
  end.

(** The requests a call sends out, as a log. *)
Inductive call : Type :=
| CallRefresh (id : string)
| CallMetadata (id : string).

Definition set_refreshed (token : ProxyToken) (new_token : TokenResponse) (now : Z) : ProxyToken :=
  {| account_id := account_id token;
     email := email token;
     access_token := tr_access_token new_token;
     refresh_token := refresh_token token;
     expires_in := tr_expires_in new_token;
     expiry_timestamp := now + tr_expires_in new_token;
     project_id := project_id token;
     subscription_tier := subscription_tier token;
     average_quota := average_quota token |}.

(** [TokenManager._refresh_token]: the token object after the call (or the
    exception), the manager, and the requests sent. *)
Definition _refresh_token (tm : TokenManager) (token : ProxyToken) (w : World)
  : result ProxyToken * TokenManager * list call :=
  let now := Qfloor (t_refresh w) in
  if (now <? expiry_timestamp token - 300)%Z then (Ok token, tm, [])
  else
    match refresh_access_token (refresh_token token) (refresh_reply w) with
    | Ok new_token =>
        let token' := set_refreshed token new_token now in
        let tm' := with_pool tm (store token' (_tokens tm)) in
        match save_token_reply w with
        | None => (Ok token', tm', [CallRefresh (account_id token)])
        | Some msg => (Raise (Exception msg), tm', [CallRefresh (account_id token)])
        end
    | Raise e => (Raise e, tm, [CallRefresh (account_id token)])
    end.

Definition set_metadata (token : ProxyToken) (pid tier : option string) : ProxyToken :=
  {| account_id := account_id token;
     email := email token;
     access_token := access_token token;
     refresh_token := refresh_token token;
     expires_in := expires_in token;
     expiry_timestamp := expiry_timestamp token;
     project_id := pid;
     subscription_tier := tier;
     average_quota := average_quota token |}.

(** [TokenManager._fetch_metadata], given the reply of the metadata endpoint
    and of the database write.  It never raises: the [except] branch stores
    the fallback project id in the token as the [try] body left it. *)
Definition _fetch_metadata (tm : TokenManager) (token : ProxyToken)
    (reply : http_result) (saved : db_result)
  : ProxyToken * TokenManager * list call :=
  let token' :=
    match fetch_account_info (access_token token) reply with
    | Ok (pid, tier) =>
        let token' := set_metadata token pid tier in
        match saved with
        | None => token'
        | Some _ => set_metadata token' (Some fallback_project_id) (subscription_tier token')
        end
    | Raise _ => set_metadata token (Some fallback_project_id) (subscription_tier token)
    end in
  (token', with_pool tm (store token' (_tokens tm)), [CallMetadata (account_id token)]).

(** [TokenManager.get_token] up to its [return]: the selected token object
    as it is when the triple is built. *)
Definition get_token_entry (tm : TokenManager) (quota_group : string) (force_rotate : bool)
    (w : World) : result ProxyToken * TokenManager * list call :=
  match _tokens tm with
  | [] => (Raise (ValueError "Token pool is empty. Please add accounts first."), tm, [])
  | _ :: _ =>
      match select_token tm quota_group force_rotate w with
      | (Raise e, tm1) => (Raise e, tm1, [])
      | (Ok selected, tm1) =>
          let now := Qfloor (t_check w) in
          let '(refreshed, tm2, calls2) :=
            if (expiry_timestamp selected - 300 <=? now)%Z
            then _refresh_token tm1 selected w
            else (Ok selected, tm1, []) in
          match refreshed with
          | Raise e => (Raise e, tm2, calls2)
          | Ok selected =>
              if negb (str_truthy (project_id selected))
              then
                let '(selected, tm3, calls3) :=
                  _fetch_metadata tm2 selected (metadata_reply w) (save_metadata_reply w) in
                (Ok selected, tm3, (calls2 ++ calls3)%list)
              else (Ok selected, tm2, calls2)
          end
      end
  end.

(** [selected_token.project_id or "bamboo-precept-lgxtn"] *)
Definition project_or_fallback (token : ProxyToken) : string :=
  match project_id token with
  | Some p => if String.eqb p "" then fallback_project_id else p
  | None => fallback_project_id
  end.

(** [TokenManager.get_token]: the returned triple
    [(access_token, project_id, email)]. *)
Definition get_token (tm : TokenManager) (quota_group : string) (force_rotate : bool)
    (w : World) : result (string * string * string) * TokenManager * list call :=
  let '(r, tm', calls) := get_token_entry tm quota_group force_rotate w in
  (match r with
   | Ok token => Ok (access_token token, project_or_fallback token, email token)
   | Raise e => Raise e
   end, tm', calls).

(** One round of [TokenManager.update_quotas] on one token.  The poll of
    [fetchAvailableModels] enters as [polled]: the rounded mean of the
    fractions of the three representative models when the reply is a 200
    that reports at least one, [None] otherwise. *)
Record QuotaWorld : Type := {
  q_metadata_reply : http_result;
  q_save_metadata_reply : db_result;
  polled : option Q
}.

Definition set_average_quota (token : ProxyToken) (q : Q) : ProxyToken :=
  {| account_id := account_id token;
     email := email token;
     access_token := access_token token;
     refresh_token := refresh_token token;
     expires_in := expires_in token;
     expiry_timestamp := expiry_timestamp token;
     project_id := project_id token;
     subscription_tier := subscription_tier token;
     average_quota := Some q |}.

Definition update_quota_of (tm : TokenManager) (id : string) (w : QuotaWorld) : TokenManager :=
  match lookup id (_tokens tm) with
  | None => tm
  | Some token =>
      let '(token, tm1) :=
        if negb (str_truthy (subscription_tier token))
        then let '(t, tm', _) :=
               _fetch_metadata tm token (q_metadata_reply w) (q_save_metadata_reply w) in
             (t, tm')
        else (token, tm) in
      match polled w with
      | Some q => with_pool tm1 (store (set_average_quota token q) (_tokens tm1))
      | None => tm1
      end
  end.

(** [TokenManager.update_quotas]: the loop over a snapshot of the pool. *)
Definition update_quotas (tm : TokenManager) (w : string -> QuotaWorld) : TokenManager :=
  fold_left (fun tm id => update_quota_of tm id (w id)) (map account_id (_tokens tm)) tm.

(** ** Sequencing of calls that may raise *)

Definition bind {A B : Type} (r : result A) (k : A -> result B) : result B :=
  match r with
  | Ok a => k a
  | Raise e => Raise e
  end.

Notation "x <- r ;; k" := (bind r (fun x => k))
  (at level 61, r at next level, right associativity).

(** ** Upstream to OpenAI ([core/proxy/response_mapper.py]) *)

Record OpenAIFunctionCall : Type := {
  fc_name : string;
  fc_arguments : json  (* the document [json.dumps] serialises into [arguments] *)
}.

Record OpenAIToolCall : Type := {
  tc_id : string;
  tc_type : string;
  tc_function : OpenAIFunctionCall
}.

Record OpenAIUsage : Type := {
  prompt_tokens : Z;
  completion_tokens : Z;
  total_tokens : Z
}.

(** [OpenAIChatCompletionResponse] with its single choice flattened. *)
Record OpenAIChatCompletionResponse : Type := {
  resp_id : string;
  resp_object : string;
  resp_model : string;
  resp_content : option string;
  resp_tool_calls : option (list OpenAIToolCall);
  finish_reason : string;
  resp_usage : OpenAIUsage
}.

(** [d.get(k, default)] on a value that has to be a dictionary; [.get] on
    anything else raises [AttributeError]. *)
Definition get_or (k : string) (default : json) (j : json) : result json :=
  match j with
  | JDict d => Ok (match dict_get k d with Some v => v | None => default end)
  | _ => Raise (Exception "AttributeError")
  end.

(** The loop over [parts]: the texts and the function calls, in order.  A
    part is a dictionary; ["text"] is tested first, so a part carrying both
    keys counts as text.  [n] numbers the identifiers drawn from [uuid]. *)
Fixpoint collect_parts (uuid : nat -> string) (n : nat) (parts : list json)
  : result (list json * list OpenAIToolCall) :=
  match parts with
  | [] => Ok ([], [])
  | JDict part :: rest =>
      match dict_get "text" part with
      | Some text =>
          r <- collect_parts uuid n rest ;;
          Ok (text :: fst r, snd r)
      | None =>
          match dict_get "functionCall" part with
          | Some fc =>
              name <- get_or "name" (JStr "") fc ;;
              args <- get_or "args" (JDict []) fc ;;
              match name with
              | JStr name =>
                  r <- collect_parts uuid (S n) rest ;;
                  Ok (fst r,
                      {| tc_id := "call_" ++ uuid n;
                         tc_type := "function";
                         tc_function := {| fc_name := name; fc_arguments := args |} |}
                      :: snd r)
              | _ => Raise (ValueError "validation error for OpenAIFunctionCall")
              end
          | None => collect_parts uuid n rest
          end
      end
  | _ :: _ => Raise (Exception "TypeError")
  end.

(** ["".join(text_parts)] *)
Fixpoint join_texts (texts : list json) : result string :=
  match texts with
  | [] => Ok ""
  | JStr s :: rest => r <- join_texts rest ;; Ok (s ++ r)
  | _ :: _ => Raise (Exception "TypeError")
  end.

(** An integer field of [OpenAIUsage] read with [usage_meta.get(k, 0)]. *)
Definition usage_field (k : string) (usage_meta : json) : result Z :=
  v <- get_or k (JInt 0) usage_meta ;;
  match v with
  | JInt n => Ok n
  | _ => Raise (ValueError "validation error for OpenAIUsage")
  end.

(** [response_mapper.transform_gemini_to_openai].  [uuid] supplies the random
    identifiers. *)
Definition transform_gemini_to_openai (uuid : nat -> string)
    (gemini_response : list (string * json)) (model : string)
  : result OpenAIChatCompletionResponse :=
  let candidates :=
    match dict_get "candidates" gemini_response with Some c => c | None => JList [] end in
  choice <-
    (if truthy candidates then
       match candidates with
       | JList (candidate :: _) =>
           content_obj <- get_or "content" (JDict []) candidate ;;
           parts <- get_or "parts" (JList []) content_obj ;;
           match parts with
           | JList parts =>
               collected <- collect_parts uuid 1 parts ;;
               let '(text_parts, function_calls) := collected in
               content <-
                 match text_parts with
                 | [] => Ok None
                 | _ :: _ => s <- join_texts text_parts ;; Ok (Some s)
                 end ;;
               let tool_calls :=
                 match function_calls with [] => None | _ :: _ => Some function_calls end in
               let finish_reason :=
                 match function_calls with [] => "stop" | _ :: _ => "tool_calls" end in
               gemini_finish <- get_or "finishReason" (JStr "") candidate ;;
               let finish_reason :=
                 match gemini_finish with
                 | JStr f =>
                     if String.eqb f "STOP" then "stop"
                     else if String.eqb f "MAX_TOKENS" then "length"
                     else finish_reason
                 | _ => finish_reason
                 end in
               Ok (content, tool_calls, finish_reason)
           | _ => Raise (Exception "TypeError")
           end
       | _ => Raise (Exception "TypeError")
       end
     else Ok (None, None, "stop")) ;;
  let '(content, tool_calls, finish_reason) := choice in
  let usage_meta :=
    match dict_get "usageMetadata" gemini_response with Some u => u | None => JDict [] end in
  p <- usage_field "promptTokenCount" usage_meta ;;
  c <- usage_field "candidatesTokenCount" usage_meta ;;
  t <- usage_field "totalTokenCount" usage_meta ;;
  Ok {| resp_id := "chatcmpl-" ++ uuid 0;
        resp_object := "chat.completion";
        resp_model := model;
        resp_content := content;
        resp_tool_calls := tool_calls;
        finish_reason := finish_reason;
        resp_usage := {| prompt_tokens := p; completion_tokens := c; total_tokens := t |} |}.

(** ** OpenAI to upstream ([core/proxy/openai_mapper.py]) *)

Inductive stop_value : Type :=
| StopStr (s : string)
| StopList (l : list string).

(** The fields of [OpenAIRequest] that the generation config reads. *)
Record OpenAIRequest : Type := {
  max_tokens : option Z;
  temperature : option Q;
  top_p : option Q;
  stop : option stop_value;
  response_format : option string  (* [response_format.type] *)
}.

(** [x or default] on an [Optional[int]] and on an [Optional[float]]. *)
Definition int_or (x : option Z) (default : Z) : Z :=
  match x with
  | Some n => if (n =? 0)%Z then default else n
  | None => default
  end.

Definition float_or (x : option Q) (default : Q) : Q :=
  match x with
  | Some q => if Qeq_bool q 0 then default else q
  | None => default
  end.

(** Step 3 of [transform_openai_to_gemini]: the dictionary [gen_config]. *)
Definition gen_config (request : OpenAIRequest) : list (string * json) :=
  let gen_config :=
    [("maxOutputTokens", JInt (int_or (max_tokens request) 64000));
     ("temperature", JFloat (float_or (temperature request) 1));
     ("topP", JFloat (float_or (top_p request) 1))] in
  let gen_config :=
    match stop request with
    | Some (StopStr s) =>
        if negb (String.eqb s "")
        then dict_set "stopSequences" (JList [JStr s]) gen_config
        else gen_config
    | Some (StopList l) =>
        match l with
        | [] => gen_config
        | _ :: _ => dict_set "stopSequences" (JList (map JStr l)) gen_config
        end
    | None => gen_config
    end in
  match response_format request with
  | Some ty =>
      if String.eqb ty "json_object"
      then dict_set "responseMimeType" (JStr "application/json") gen_config
      else gen_config
  | None => gen_config
  end.

(** ** Retry dispatcher ([api/routes_openai.py], [api/routes_claude.py]) *)

(** What the endpoint answers: a JSON body, a stream, an [HTTPException],
    or an exception that escapes the handler (the framework answers 500). *)
Inductive http_response : Type :=
| JSONResponse (content : json)
| StreamingResponse
| HTTPException (status_code : Z) (detail : string)
| Uncaught (e : exn).

(** The outside world during one attempt: the world of the [get_token]
    call; whether building the upstream request raises; and, for a request
    that does not stream, the result of [_handle_non_streaming] (the upstream
    call and the translation of its response). *)
Record AttemptWorld : Type := {
  acquire_world : World;
  built : option exn;
  upstream : result json
}.

(** What the two handlers differ in. *)
Record Protocol : Type := {
  tag : string;
  quota_group : string;
  logs_exhaustion : bool  (* [log_usage(..., email, ...)] after the loop *)
}.

Definition openai : Protocol :=
  {| tag := "OpenAI"; quota_group := "gemini"; logs_exhaustion := true |}.
Definition claude : Protocol :=
  {| tag := "Claude"; quota_group := "claude"; logs_exhaustion := false |}.

(** One iteration of the loop, as the trace records it. *)
Record Attempt : Type := {
  attempt_index : nat;
  force_rotate_of : bool;
  acquired : option string;  (* the email [get_token] returned *)
  failure : option exn       (* the exception of the [try] body *)
}.

(** [status in [429, 403, 500, 502, 503, 504]] *)
Definition retry_status (status : Z) : bool :=
  existsb (Z.eqb status) [429; 403; 500; 502; 503; 504]%Z.

(** [any(x in error_msg.lower() for x in [...])] *)
Definition network_error (error_msg : string) : bool :=
  existsb (fun x => str_contains x (lower error_msg))
          ["name resolution"; "dns"; "connect"; "timeout"; "connection"].

(** The loop [for attempt in range(max_retries)] from iteration [attempt]
    on, with [remaining] iterations left.  [email] and [last_error] are the
    local variables of the handler; [email] is unbound ([None]) until a
    [get_token] call has returned, and the log lines of the two retrying
    handlers format it.  In the last handler the test [network_error] only
    chooses a log line: both of its branches [continue]. *)
Fixpoint retry_loop (proto : Protocol) (stream : bool) (worlds : nat -> AttemptWorld)
    (remaining attempt : nat) (tm : TokenManager)
    (email : option string) (last_error : option exn)
  : http_response * TokenManager * list Attempt :=
  match remaining with
  | O =>
      (* all retries exhausted *)
      let detail :=
        "All accounts exhausted: "
        ++ match last_error with Some e => exn_str e | None => "None" end in
      (match email, logs_exhaustion proto with
       | None, true => Uncaught (UnboundLocalError "email")
       | _, _ => HTTPException 429 detail
       end, tm, [])
  | S remaining' =>
      let force_rotate := (0 <? attempt)%nat in
      let w := worlds attempt in
      let '(got, tm1, _) := get_token tm (quota_group proto) force_rotate (acquire_world w) in
      let email1 :=
        match got with Ok (_, _, e) => Some e | Raise _ => email end in
      let body :=
        match got with
        | Ok _ =>
            match built w with
            | Some e => Raise e
            | None => if stream then Ok None else (r <- upstream w ;; Ok (Some r))
            end
        | Raise e => Raise e
        end in
      let record e :=
        {| attempt_index := attempt;
           force_rotate_of := force_rotate;
           acquired := match got with Ok (_, _, em) => Some em | Raise _ => None end;
           failure := e |} in
      let continue e :=
        let '(resp, tm2, trace) :=
          retry_loop proto stream worlds remaining' (S attempt) tm1 email1 (Some e) in
        (resp, tm2, record (Some e) :: trace) in
      match body with
      | Ok None => (StreamingResponse, tm1, [record None])
      | Ok (Some content) => (JSONResponse content, tm1, [record None])
      | Raise (HTTPStatusError status msg as e) =>
          match email1 with
          | None => (Uncaught (UnboundLocalError "email"), tm1, [record (Some e)])
          | Some _ =>
              if retry_status status then continue e
              else (HTTPException status ("Upstream error: " ++ msg), tm1, [record (Some e)])
          end
      | Raise (ValueError msg as e) => (HTTPException 503 msg, tm1, [record (Some e)])
      | Raise e =>
          match email1 with
          | None => (Uncaught (UnboundLocalError "email"), tm1, [record (Some e)])
          | Some _ => continue e
          end
      end
  end.

(** The handler after the request was parsed: [max_retries] is fixed from
    the size of the pool, then the loop runs. *)
Definition dispatch (proto : Protocol) (stream : bool) (worlds : nat -> AttemptWorld)
    (tm : TokenManager) : http_response * TokenManager * list Attempt :=
  let account_count := List.length (_tokens tm) in
  let max_retries := Nat.max account_count 5 in
  retry_loop proto stream worlds max_retries 0 tm None None.

(** [routes_openai.chat_completions] and [routes_claude.messages]. *)
Definition chat_completions := dispatch openai.
Definition messages := dispatch claude.

(** ** Sequences of operations on the pool *)

(** The operations that run against the in-memory pool between two
    requests: an acquisition, or a round of the quota scheduler. *)
Inductive event : Type :=
| Acquire (quota_group : string) (force_rotate : bool) (w : World)
| QuotaTick (w : string -> QuotaWorld).

Definition step (tm : TokenManager) (ev : event) : TokenManager :=
  match ev with
  | Acquire quota_group force_rotate w =>
      snd (fst (get_token_entry tm quota_group force_rotate w))
  | QuotaTick w => update_quotas tm w
  end.

Definition run (tm : TokenManager) (events : list event) : TokenManager :=
  fold_left step events tm.

Definition is_acquire (ev : event) : bool :=
  match ev with
  | Acquire _ _ _ => true
  | QuotaTick _ => false
  end.

(** The metadata request of a call fails: the endpoint does not answer 200,
    the transport raises, or the database write raises. *)
Definition metadata_fails (reply : http_result) (saved : db_result) : bool :=
  match reply with
  | Response status _ _ => negb (status =? 200)%Z
  | TransportError _ => true
  end
  || match saved with Some _ => true | None => false end.

(** A call that runs at a single instant [t] of the clock. *)
Definition instant (w : World) (t : Q) : Prop :=
  t_sticky w = t /\ t_select w = t /\ t_check w = t /\ t_refresh w = t.

(** ** The properties of the specification that the code does not have,
       as the specification words them *)

(** Sticky window, as specified: two acquisitions with [force_rotate=false]
    and a quota group other than [image_gen], less than 60 seconds apart on
    an unchanged pool, return the same identity. *)
Definition sticky_within_60s_of_previous_call : Prop :=
  forall tm qg1 qg2 w1 w2 t1 t2 r1 r2 tm1 tm2 c1 c2,
    well_keyed tm = true ->
    qg1 <> "image_gen" -> qg2 <> "image_gen" ->
    instant w1 t1 -> instant w2 t2 ->
    (t1 <= t2)%Q -> (t2 - t1 < 60)%Q ->
    get_token tm qg1 false w1 = (Ok r1, tm1, c1) ->
    get_token tm1 qg2 false w2 = (Ok r2, tm2, c2) ->
    _tokens tm1 = _tokens tm -> _tokens tm2 = _tokens tm ->
    snd r1 = snd r2.

(** Expiry margin, as specified: when a successful call returns, the expiry
    of the returned token is more than 300 seconds ahead, every refresh
    granting more than 300 seconds.  [t_return] is the reading of the clock
    at the return, which is not before the readings the call made. *)
Definition expires_later_at_return : Prop :=
  forall tm qg force w t_return tok pid em tm' calls,
    get_token tm qg force w = (Ok (tok, pid, em), tm', calls) ->
    (t_check w <= t_refresh w)%Q ->
    (t_refresh w <= t_return)%Q ->
    (forall rt new,
        refresh_access_token rt (refresh_reply w) = Ok new -> (300 < tr_expires_in new)%Z) ->
    exists entry,
      In entry (_tokens tm')
      /\ access_token entry = tok /\ email entry = em
      /\ (t_return + 300 < inject_Z (expiry_timestamp entry))%Q.

(** Weighted pick, as specified: the tie band of the first three entries
    applies whatever the size of [S]. *)
Definition select_normal_as_specified (tm : TokenManager)
  : result ProxyToken * TokenManager :=
  match sort_desc (filter has_quota (_tokens tm)) with
  | (best :: _) as S =>
      if (1 <? List.length (similar S))%nat
      then round_robin tm (similar S)
      else (Ok best, tm)
  | [] => round_robin tm (_tokens tm)
  end.

(** Weighted pick with the tie band restricted to three entries or more. *)
Definition select_normal_from_three (tm : TokenManager)
  : result ProxyToken * TokenManager :=
  match sort_desc (filter has_quota (_tokens tm)) with
  | (best :: _) as S =>
      if (3 <=? List.length S)%nat && (1 <? List.length (similar S))%nat
      then round_robin tm (similar S)
      else (Ok best, tm)
  | [] => round_robin tm (_tokens tm)
  end.

Definition is_2xx (status : Z) : bool := (200 <=? status)%Z && (status <? 300)%Z.

(** Metadata fetch, as specified: failure on every reply outside 2xx, and
    transport errors handed on as they are. *)
Definition metadata_fetch_fails_as_specified : Prop :=
  (forall tok status text body,
      is_2xx status = false ->
      exists e, fetch_account_info tok (Response status text body) = Raise e)
  /\ (forall tok msg,
         fetch_account_info tok (TransportError msg) = Raise (Exception msg)).

(** Fallback project id, as claimed: once a metadata fetch failed during an
    acquisition of entry [id], every later acquisition that selects [id]
    returns the fallback and sends no metadata request, whatever ran on the
    pool in between. *)
Definition fallback_is_permanent : Prop :=
  forall tm qg force w tok tm1 calls events qg' force' w' tok' tm2 calls',
    get_token_entry tm qg force w = (Ok tok, tm1, calls) ->
    In (CallMetadata (account_id tok)) calls ->
    metadata_fails (metadata_reply w) (save_metadata_reply w) = true ->
    get_token_entry (run tm1 events) qg' force' w' = (Ok tok', tm2, calls') ->
    account_id tok' = account_id tok ->
    project_or_fallback tok' = fallback_project_id
    /\ ~ In (CallMetadata (account_id tok)) calls'.

(** ** Predicates of the statements *)

(** The OpenAI-side cleaner is idempotent at [j]. *)
Definition openai_idem (j : json) : Prop :=
  _clean_json_schema (_clean_json_schema j) = _clean_json_schema j.

(** Descending order: every entry is at most each entry before it. *)
Fixpoint descending (l : list ProxyToken) : Prop :=
  match l with
  | [] => True
  | x :: rest => (forall y, In y rest -> (quota_key y <= quota_key x)%Q) /\ descending rest
  end.

(** The entries of the pool under key [id] carry the fallback project id. *)
Definition pinned (id : string) (tm : TokenManager) : Prop :=
  forall t, In t (_tokens tm) -> account_id t = id ->
            project_id t = Some fallback_project_id.

(** The errors the specification classifies as rotate-and-retry. *)
Definition rotate_eligible (e : exn) : bool :=
  match e with
  | HTTPStatusError status _ => retry_status status
  | Exception msg => network_error msg
  | _ => false
  end.

(** An attempt that acquired an identity and then failed with such an error. *)
Definition rotated (a : Attempt) : Prop :=
  acquired a <> None /\ exists e, failure a = Some e /\ rotate_eligible e = true.

Definition last_failure (trace : list Attempt) (last_error : option exn) : option exn :=
  last (map failure trace) last_error.

(** ** Concrete pools and worlds *)

Definition account (id : string) (expiry : Z) (pid : option string) (quota : option Q)
  : ProxyToken :=
  {| account_id := id;
     email := id ++ "@example.com";
     access_token := "access-" ++ id;
     refresh_token := "refresh-" ++ id;
     expires_in := 3599;
     expiry_timestamp := expiry;
     project_id := pid;
     subscription_tier := None;
     average_quota := quota |}.

(** A world at the single instant [t], with the given replies. *)
Definition world (t : Q) (refresh metadata : http_result) : World :=
  {| t_sticky := t; t_select := t; t_check := t; t_refresh := t;
     refresh_reply := refresh;
     save_token_reply := None;
     metadata_reply := metadata;
     save_metadata_reply := None |}.

Definition offline : http_result := TransportError "All connection attempts failed".

Definition quiet (t : Q) : World := world t offline offline.

Definition fresh_manager (pool : list ProxyToken) : TokenManager :=
  {| _tokens := pool; _current_index := 0; _last_used := None |}.

(** Two accounts without quota data, valid for a long time. *)
Definition two_plain : TokenManager :=
  fresh_manager [account "a" 100000 (Some "proj-a") None;
                 account "b" 100000 (Some "proj-b") None].

(** [two_plain] after one acquisition at time 0. *)
Definition two_plain_used : TokenManager :=
  snd (fst (get_token two_plain "gemini" false (quiet 0))).

(** Two accounts of equal score; the shared counter stands at 1. *)
Definition two_tied : TokenManager :=
  {| _tokens := [account "a" 100000 (Some "proj-a") (Some (8 # 10)%Q);
                 account "b" 100000 (Some "proj-b") (Some (8 # 10)%Q)];
     _current_index := 1;
     _last_used := None |}.

(** Three accounts, the first two within the tie band. *)
Definition three_scored : TokenManager :=
  fresh_manager [account "a" 100000 (Some "proj-a") (Some (8 # 10)%Q);
                 account "b" 100000 (Some "proj-b") (Some (75 # 100)%Q);
                 account "c" 100000 (Some "proj-c") (Some (2 # 10)%Q)].

(** Three accounts, the second at nine tenths of the first in decimals;
    the shared counter stands at 1. *)
Definition band_edge_up : TokenManager :=
  {| _tokens := [account "a" 100000 (Some "proj-a") (Some (8 # 10)%Q);
                 account "b" 100000 (Some "proj-b") (Some (72 # 100)%Q);
                 account "c" 100000 (Some "proj-c") (Some (2 # 10)%Q)];
     _current_index := 1;
     _last_used := None |}.

Definition band_edge_down : TokenManager :=
  {| _tokens := [account "a" 100000 (Some "proj-a") (Some (503 # 1000)%Q);
                 account "b" 100000 (Some "proj-b") (Some (4527 # 10000)%Q);
                 account "c" 100000 (Some "proj-c") (Some (2 # 10)%Q)];
     _current_index := 1;
     _last_used := None |}.

(** One account whose access token has expired. *)
Definition one_expired : TokenManager :=
  fresh_manager [account "a" 1000 (Some "proj-a") None].

(** One account that has no project id yet. *)
Definition one_without_project : TokenManager :=
  fresh_manager [account "a" 100000 None None].

(** A well-formed reply of the token endpoint that omits [refresh_token]. *)
Definition refresh_body : list (string * json) :=
  [("access_token", JStr "access-new"); ("expires_in", JInt 3599);
   ("token_type", JStr "Bearer")].

Definition refreshed : http_result := Response 200 "" (Some (JDict refresh_body)).

(** A reply of the token endpoint that grants 301 seconds. *)
Definition refreshed_briefly : http_result :=
  Response 200 ""
    (Some (JDict [("access_token", JStr "access-new"); ("expires_in", JInt 301);
                  ("token_type", JStr "Bearer")])).

(** A well-formed reply of the metadata endpoint. *)
Definition metadata_body : list (string * json) :=
  [("cloudaicompanionProject", JStr "real-project");
   ("paidTier", JDict [("id", JStr "PRO")])].

Definition quota_tick_ok (id : string) : QuotaWorld :=
  {| q_metadata_reply := Response 200 "" (Some (JDict metadata_body));
     q_save_metadata_reply := None;
     polled := None |}.

(** An upstream response with a function call that finishes with [STOP]. *)
Definition function_call_response : list (string * json) :=
  [("candidates",
    JList [JDict [("content",
                   JDict [("parts",
                           JList [JDict [("functionCall",
                                          JDict [("name", JStr "get_weather");
                                                 ("args", JDict [])])]])]);
                  ("finishReason", JStr "STOP")]])].

(** A request with [temperature = 0], [top_p = 0] and [max_tokens = 0]. *)
Definition zero_request : OpenAIRequest :=
  {| max_tokens := Some 0%Z;
     temperature := Some 0%Q;
     top_p := Some 0%Q;
     stop := None;
     response_format := None |}.

Definition sample_request : OpenAIRequest :=
  {| max_tokens := Some 256%Z;
     temperature := Some (7 # 10)%Q;
     top_p := Some (9 # 10)%Q;
     stop := Some (StopStr "END");
     response_format := Some "json_object" |}.

(** Every attempt meets the same world. *)
Definition always (w : World) (up : result json) : nat -> AttemptWorld :=
  fun _ => {| acquire_world := w; built := None; upstream := up |}.

(** ** More of the token pool *)

(** [TokenManager.refresh_all_expiring_tokens].  [now] is the reading of the
    clock before the loop; [w id] holds the readings and replies that the
    refresh of the token under key [id] meets.  The loop runs over a snapshot
    of the token objects and catches every exception; the result is the
    number of [_refresh_token] calls that returned. *)
Definition refresh_expiring_step (now : Q) (w : string -> World)
    (acc : nat * TokenManager * list call) (id : string)
  : nat * TokenManager * list call :=
  let '(refreshed, tm, calls) := acc in
  match lookup id (_tokens tm) with
  | None => acc
  | Some token =>
      if (expiry_timestamp token - 300 <=? Qfloor now)%Z then
        match _refresh_token tm token (w id) with
        | (Ok _, tm', c) => (S refreshed, tm', (calls ++ c)%list)
        | (Raise _, tm', c) => (refreshed, tm', (calls ++ c)%list)
        end
      else acc
  end.

Definition refresh_all_expiring_tokens (tm : TokenManager) (now : Q) (w : string -> World)
  : nat * TokenManager * list call :=
  fold_left (refresh_expiring_step now w) (map account_id (_tokens tm)) (0%nat, tm, []).

(** The rows of the database that the pool is loaded from: [Account] with
    its optional [Token]. *)
Record TokenRow : Type := {
  row_access_token : string;
  row_refresh_token : string;
  row_expires_in : Z;
  row_expiry_timestamp : Z;
  row_project_id : option string;
  row_subscription_tier : option string;
  row_average_quota : option Q
}.

Record Account : Type := {
  acc_id : string;
  acc_email : string;
  acc_token : option TokenRow
}.

(** The [ProxyToken] both loaders build from an account and its token. *)
Definition proxy_token_of (acc : Account) (token : TokenRow) : ProxyToken :=
  {| account_id := acc_id acc;
     email := acc_email acc;
     access_token := row_access_token token;
     refresh_token := row_refresh_token token;
     expires_in := row_expires_in token;
     expiry_timestamp := row_expiry_timestamp token;
     project_id := row_project_id token;
     subscription_tier := row_subscription_tier token;
     average_quota := row_average_quota token |}.

(** [self._tokens[token.account_id] = token]: the value under an existing
    key is replaced where it stands, a new key goes to the end. *)
Fixpoint pool_set (token : ProxyToken) (pool : list ProxyToken) : list ProxyToken :=
  match pool with
  | [] => [token]
  | t :: rest =>
      if String.eqb (account_id t) (account_id token) then token :: rest
      else t :: pool_set token rest
  end.

(** The test [acc.token and acc.token.access_token] of [load_accounts]. *)
Definition loadable (acc : Account) : option ProxyToken :=
  match acc_token acc with
  | Some token =>
      if negb (String.eqb (row_access_token token) "")
      then Some (proxy_token_of acc token)
      else None
  | None => None
  end.

(** [TokenManager.load_accounts], given the rows [select(Account)] returns:
    the count and the manager. *)
Definition load_accounts (tm : TokenManager) (accounts : list Account)
  : nat * TokenManager :=
  fold_left
    (fun (st : nat * TokenManager) acc =>
       match loadable acc with
       | Some token => (S (fst st), with_pool (snd st) (pool_set token (_tokens (snd st))))
       | None => st
       end)
    accounts (0%nat, tm).

(** [TokenManager.reload_account], given the row [session.get] finds. *)
Definition reload_account (tm : TokenManager) (found : option Account)
  : bool * TokenManager :=
  match found with
  | Some acc =>
      match acc_token acc with
      | Some token =>
          (true, with_pool tm (pool_set (proxy_token_of acc token) (_tokens tm)))
      | None => (false, tm)
      end
  | None => (false, tm)
  end.

(** A run of acquisitions with the same quota group and rotation flag: the
    results in order and the manager at the end. *)
Fixpoint acquisitions (tm : TokenManager) (quota_group : string) (force_rotate : bool)
    (ws : list World) : list (result ProxyToken) * TokenManager :=
  match ws with
  | [] => ([], tm)
  | w :: rest =>
      let '(r, tm', _) := get_token_entry tm quota_group force_rotate w in
      let '(rs, tm'') := acquisitions tm' quota_group force_rotate rest in
      (r :: rs, tm'')
  end.

(** No entry of the pool carries a usable score. *)
Definition unscored (pool : list ProxyToken) : bool :=
  forallb (fun t => negb (has_quota t)) pool.

(** ** User info of the OAuth client ([core/oauth.py]) *)

(** The names of a [UserInfo] are Python strings of which the white space
    matters, whatever the script: they are embedded by their code points. *)
Definition ustr : Type := list N.

(** The pydantic model [UserInfo]. *)
Record UserInfo : Type := {
  ui_email : string;
  ui_name : option ustr;
  ui_given_name : option ustr;
  ui_family_name : option ustr;
  ui_picture : option string
}.

(** [c.isspace()], the characters [str.strip()] removes: the controls
    U+0009 to U+000D and U+001C to U+001F, the space, U+0085, U+00A0,
    U+1680, U+2000 to U+200A, U+2028, U+2029, U+202F, U+205F and U+3000. *)
Definition is_space (c : N) : bool :=
  (((9 <=? c) && (c <=? 13)) || ((28 <=? c) && (c <=? 32))
   || (c =? 133) || (c =? 160) || (c =? 5760)
   || ((8192 <=? c) && (c <=? 8202))
   || (c =? 8232) || (c =? 8233) || (c =? 8239) || (c =? 8287) || (c =? 12288))%N.

(** [s.strip()] is falsy: [s] holds nothing but white space. *)
Definition blank (s : ustr) : bool := forallb is_space s.

(** The truth value of an optional string: set and not empty. *)
Definition ustr_truthy (o : option ustr) : bool :=
  match o with
  | Some (_ :: _) => true
  | _ => false
  end.

(** [[p for p in [given_name, family_name] if p]] *)
Definition truthy_strs (l : list (option ustr)) : list ustr :=
  flat_map (fun o => match o with
                     | Some ((_ :: _) as s) => [s]
                     | _ => []
                     end) l.

(** [" ".join(parts)] *)
Fixpoint join_space (parts : list ustr) : ustr :=
  match parts with
  | [] => []
  | [p] => p
  | p :: rest => (p ++ 32%N :: join_space rest)%list
  end.

(** [UserInfo.get_display_name] *)
Definition get_display_name (self : UserInfo) : option ustr :=
  match ui_name self with
  | Some name =>
      if ustr_truthy (Some name) && negb (blank name) then Some name
      else if ustr_truthy (ui_given_name self) || ustr_truthy (ui_family_name self)
      then Some (join_space (truthy_strs [ui_given_name self; ui_family_name self]))
      else None
  | None =>
      if ustr_truthy (ui_given_name self) || ustr_truthy (ui_family_name self)
      then Some (join_space (truthy_strs [ui_given_name self; ui_family_name self]))
      else None
  end.

(** ** More strings *)

(** The line feed. *)
Definition nl : string := String (ascii_of_nat 10) "".

(** [s.split(sep)] for a separator of one character. *)
Fixpoint split (sep : ascii) (s : string) : list string :=
  match s with
  | EmptyString => [""]
  | String c rest =>
      if Ascii.eqb c sep then "" :: split sep rest
      else match split sep rest with
           | first :: others => String c first :: others
           | [] => [String c ""]
           end
  end.

(** [s.split(sep, 1)] *)
Fixpoint split_once (sep : ascii) (s : string) : list string :=
  match s with
  | EmptyString => [""]
  | String c rest =>
      if Ascii.eqb c sep then [""; rest]
      else match split_once sep rest with
           | first :: others => String c first :: others
           | [] => [String c ""]
           end
  end.

(** [sep in s] for one character. *)
Fixpoint has_char (sep : ascii) (s : string) : bool :=
  match s with
  | EmptyString => false
  | String c rest => Ascii.eqb c sep || has_char sep rest
  end.

(** [sep.join(texts)] on a list that has to hold strings. *)
Fixpoint join_strs (sep : string) (texts : list json) : result string :=
  match texts with
  | [] => Ok ""
  | JStr s :: rest =>
      match rest with
      | [] => Ok s
      | _ :: _ => r <- join_strs sep rest ;; Ok (s ++ sep ++ r)
      end
  | _ :: _ => Raise (Exception "TypeError")
  end.

(** [v == s] for a value read with [.get] and a string literal. *)
Definition is_str (s : string) (v : option json) : bool :=
  match v with
  | Some (JStr t) => String.eqb t s
  | _ => false
  end.

(** [d.get(k, default)] on a dictionary. *)
Definition dict_get_or (k : string) (default : json) (d : list (string * json)) : json :=
  match dict_get k d with Some v => v | None => default end.

(** A loop that extends a list and may raise. *)
Fixpoint flat_map_r {A B : Type} (f : A -> result (list B)) (l : list A) : result (list B) :=
  match l with
  | [] => Ok []
  | a :: rest => x <- f a ;; r <- flat_map_r f rest ;; Ok (x ++ r)%list
  end.

(** [for x in v] on a JSON value: the items of a list, the keys of a
    dictionary, the characters of a string; anything else is not iterable. *)
Definition iterate (v : json) : result (list json) :=
  match v with
  | JList l => Ok l
  | JDict d => Ok (map (fun kv => JStr (fst kv)) d)
  | JStr s => Ok (map (fun c => JStr (String c "")) (list_ascii_of_string s))
  | _ => Raise (Exception "TypeError")
  end.

(** The five entries of [safetySettings], the same in both mappers. *)
Definition safety_settings : json :=
  JList (map (fun category => JDict [("category", JStr category); ("threshold", JStr "OFF")])
             ["HARM_CATEGORY_HARASSMENT"; "HARM_CATEGORY_HATE_SPEECH";
              "HARM_CATEGORY_SEXUALLY_EXPLICIT"; "HARM_CATEGORY_DANGEROUS_CONTENT";
              "HARM_CATEGORY_CIVIC_INTEGRITY"]).

(** The payload both mappers return. *)
Definition wrap_request (request_id project_id mapped_model : string)
    (inner_request : list (string * json)) : list (string * json) :=
  [("project", JStr project_id);
   ("requestId", JStr request_id);
   ("request", JDict inner_request);
   ("model", JStr mapped_model);
   ("userAgent", JStr "antigravity-py");
   ("requestType", JStr "generate_content")].

(** [payload["request"][k]], when it is there. *)
Definition request_field (k : string) (payload : list (string * json)) : option json :=
  match dict_get "request" payload with
  | Some (JDict inner_request) => dict_get k inner_request
  | _ => None
  end.

(** ** Upstream to Claude ([core/proxy/claude_response_mapper.py]) *)

Record ClaudeResponseContentBlock : Type := {
  block_type : string;
  block_text : option string;
  block_id : option string;
  block_name : option string;
  block_input : option (list (string * json))
}.

Record ClaudeUsage : Type := {
  input_tokens : Z;
  output_tokens : Z
}.

Record ClaudeMessagesResponse : Type := {
  msg_id : string;
  msg_type : string;
  msg_role : string;
  msg_model : string;
  msg_content : list ClaudeResponseContentBlock;
  stop_reason : string;
  msg_usage : ClaudeUsage
}.

(** Validation of the [Optional[str]] and [Optional[Dict[str, Any]]] fields
    of [ClaudeResponseContentBlock]. *)
Definition optional_str (v : json) : result (option string) :=
  match v with
  | JStr s => Ok (Some s)
  | JNull => Ok None
  | _ => Raise (ValueError "validation error for ClaudeResponseContentBlock")
  end.

Definition optional_dict (v : json) : result (option (list (string * json))) :=
  match v with
  | JDict d => Ok (Some d)
  | JNull => Ok None
  | _ => Raise (ValueError "validation error for ClaudeResponseContentBlock")
  end.

(** The loop over [parts]: [thought] is tested first, then ["text"], then
    ["functionCall"]; a part with none of them adds no block.  [n] numbers
    the identifiers drawn from [uuid]. *)
Fixpoint content_blocks (uuid : nat -> string) (n : nat) (parts : list json)
  : result (list ClaudeResponseContentBlock) :=
  match parts with
  | [] => Ok []
  | JDict part :: rest =>
      if truthy (dict_get_or "thought" JNull part) then
        text <- optional_str (dict_get_or "text" (JStr "") part) ;;
        blocks <- content_blocks uuid n rest ;;
        Ok ({| block_type := "thinking"; block_text := text; block_id := None;
               block_name := None; block_input := None |} :: blocks)
      else
        match dict_get "text" part with
        | Some v =>
            text <- optional_str v ;;
            blocks <- content_blocks uuid n rest ;;
            Ok ({| block_type := "text"; block_text := text; block_id := None;
                   block_name := None; block_input := None |} :: blocks)
        | None =>
            match dict_get "functionCall" part with
            | Some fc =>
                name <- get_or "name" (JStr "") fc ;;
                args <- get_or "args" (JDict []) fc ;;
                name <- optional_str name ;;
                input <- optional_dict args ;;
                blocks <- content_blocks uuid (S n) rest ;;
                Ok ({| block_type := "tool_use"; block_text := None;
                       block_id := Some ("toolu_" ++ uuid n);
                       block_name := name; block_input := input |} :: blocks)
            | None => content_blocks uuid n rest
            end
        end
  | _ :: _ => Raise (Exception "AttributeError")
  end.

(** The mapping of [finishReason]; [stop_reason] starts as ["end_turn"]. *)
Definition stop_reason_of (gemini_finish : json) : string :=
  match gemini_finish with
  | JStr f =>
      if String.eqb f "STOP" then "end_turn"
      else if String.eqb f "MAX_TOKENS" then "max_tokens"
      else if String.eqb f "TOOL_USE" then "tool_use"
      else "end_turn"
  | _ => "end_turn"
  end.

(** [b.model_dump(exclude_none=True)]: the fields that are set, in the order
    of the model. *)
Definition model_dump_set (b : ClaudeResponseContentBlock) : list (string * json) :=
  [("type", JStr (block_type b))]
  ++ match block_text b with Some s => [("text", JStr s)] | None => [] end
  ++ match block_id b with Some s => [("id", JStr s)] | None => [] end
  ++ match block_name b with Some s => [("name", JStr s)] | None => [] end
  ++ match block_input b with Some d => [("input", JDict d)] | None => [] end.

(** The constructor [ClaudeResponseContentBlock] called on a dictionary, as
    the validation of [ClaudeMessagesResponse.content] does. *)
Definition ClaudeResponseContentBlock_of (d : list (string * json))
  : result ClaudeResponseContentBlock :=
  match dict_get "type" d with
  | Some (JStr ty) =>
      text <- optional_str (dict_get_or "text" JNull d) ;;
      id <- optional_str (dict_get_or "id" JNull d) ;;
      name <- optional_str (dict_get_or "name" JNull d) ;;
      input <- optional_dict (dict_get_or "input" JNull d) ;;
      Ok {| block_type := ty; block_text := text; block_id := id;
            block_name := name; block_input := input |}
  | _ => Raise (ValueError "validation error for ClaudeResponseContentBlock")
  end.

(** A loop that maps and may raise. *)
Fixpoint map_r {A B : Type} (f : A -> result B) (l : list A) : result (list B) :=
  match l with
  | [] => Ok []
  | a :: rest => x <- f a ;; r <- map_r f rest ;; Ok (x :: r)
  end.

(** The parts the loops of the response mappers run over:
    [candidates[0].get("content", {}).get("parts", [])], nothing when
    [candidates] is missing or empty. *)
Definition candidate_parts (gemini_data : list (string * json)) : result (list json) :=
  let candidates := dict_get_or "candidates" (JList []) gemini_data in
  if truthy candidates then
    match candidates with
    | JList (candidate :: _) =>
        content_obj <- get_or "content" (JDict []) candidate ;;
        parts <- get_or "parts" (JList []) content_obj ;;
        iterate parts
    | JStr _ => Raise (Exception "AttributeError")
    | JDict _ => Raise (Exception "KeyError")
    | _ => Raise (Exception "TypeError")
    end
  else Ok [].

(** [claude_response_mapper.transform_gemini_to_claude].  [uuid] supplies the
    random identifiers. *)
Definition transform_gemini_to_claude (uuid : nat -> string)
    (gemini_response : list (string * json)) (model : string)
  : result ClaudeMessagesResponse :=
  let candidates := dict_get_or "candidates" (JList []) gemini_response in
  body <-
    (if truthy candidates then
       match candidates with
       | JList (candidate :: _) =>
           content_obj <- get_or "content" (JDict []) candidate ;;
           parts <- get_or "parts" (JList []) content_obj ;;
           parts <- iterate parts ;;
           blocks <- content_blocks uuid 1 parts ;;
           gemini_finish <- get_or "finishReason" (JStr "") candidate ;;
           Ok (blocks, stop_reason_of gemini_finish)
       | JStr _ => Raise (Exception "AttributeError")
       | JDict _ => Raise (Exception "KeyError")
       | _ => Raise (Exception "TypeError")
       end
     else Ok ([], "end_turn")) ;;
  let usage_meta := dict_get_or "usageMetadata" (JDict []) gemini_response in
  i <- usage_field "promptTokenCount" usage_meta ;;
  o <- usage_field "candidatesTokenCount" usage_meta ;;
  content <- map_r (fun b => ClaudeResponseContentBlock_of (model_dump_set b)) (fst body) ;;
  Ok {| msg_id := "msg_" ++ uuid 0;
        msg_type := "message";
        msg_role := "assistant";
        msg_model := model;
        msg_content := content;
        stop_reason := snd body;
        msg_usage := {| input_tokens := i; output_tokens := o |} |}.

(** A content block in [claude_response.model_dump()], the body the client
    receives: every field, [null] where it is not set. *)
Definition block_json (b : ClaudeResponseContentBlock) : list (string * json) :=
  let opt_str o := match o with Some s => JStr s | None => JNull end in
  [("type", JStr (block_type b));
   ("text", opt_str (block_text b));
   ("id", opt_str (block_id b));
   ("name", opt_str (block_name b));
   ("input", match block_input b with Some d => JDict d | None => JNull end)].

(** ** Claude to upstream ([core/proxy/claude_mapper.py]) *)

(** [Union[str, List[Dict[str, Any]]]] *)
Inductive content_value : Type :=
| ContentStr (s : string)
| ContentBlocks (blocks : list (list (string * json))).

Definition content_truthy (c : option content_value) : bool :=
  match c with
  | Some (ContentStr s) => negb (String.eqb s "")
  | Some (ContentBlocks blocks) => match blocks with [] => false | _ :: _ => true end
  | None => false
  end.

Record ClaudeMessage : Type := {
  cm_role : string;
  cm_content : content_value
}.

Record ClaudeTool : Type := {
  tool_name : string;
  tool_description : option string;
  tool_input_schema : option (list (string * json));
  tool_type : option string
}.

Record ClaudeThinkingConfig : Type := {
  thinking_type : string;
  budget_tokens : option Z
}.

Record ClaudeRequest : Type := {
  cr_model : string;
  cr_messages : list ClaudeMessage;
  cr_system : option content_value;
  cr_tools : option (list ClaudeTool);
  cr_stream : bool;
  cr_max_tokens : option Z;
  cr_temperature : option Q;
  cr_top_p : option Q;
  cr_top_k : option Z;
  cr_thinking : option ClaudeThinkingConfig
}.

(** The texts of the blocks of type ["text"]: [block.get("text", "")]. *)
Definition text_blocks (blocks : list (list (string * json))) : list json :=
  flat_map (fun block =>
              if is_str "text" (dict_get "type" block)
              then [dict_get_or "text" (JStr "") block]
              else []) blocks.

(** Step 1 of [transform_claude_to_gemini]: [system_text]. *)
Definition claude_system_text (system : option content_value) : result string :=
  if content_truthy system then
    match system with
    | Some (ContentStr s) => Ok s
    | Some (ContentBlocks blocks) => join_strs nl (text_blocks blocks)
    | None => Ok ""
    end
  else Ok "".

(** The parts one content block adds.  [py_str] is [str()] on a value that
    is no string. *)
Definition claude_block_parts (py_str : json -> string) (block : list (string * json))
  : result (list json) :=
  let block_type := dict_get_or "type" (JStr "") block in
  if is_str "text" (Some block_type) then
    let text := dict_get_or "text" (JStr "") block in
    Ok (if truthy text then [JDict [("text", text)]] else [])
  else if is_str "thinking" (Some block_type) then
    let thinking_text := dict_get_or "thinking" (JStr "") block in
    Ok (if truthy thinking_text
        then [JDict [("text", thinking_text); ("thought", JBool true)]]
        else [])
  else if is_str "image" (Some block_type) then
    let source := dict_get_or "source" (JDict []) block in
    ty <- get_or "type" JNull source ;;
    if is_str "base64" (Some ty) then
      media_type <- get_or "media_type" (JStr "image/jpeg") source ;;
      data <- get_or "data" (JStr "") source ;;
      Ok [JDict [("inlineData", JDict [("mimeType", media_type); ("data", data)])]]
    else Ok []
  else if is_str "tool_use" (Some block_type) then
    Ok [JDict [("functionCall",
                JDict [("name", dict_get_or "name" (JStr "") block);
                       ("args", dict_get_or "input" (JDict []) block)])]]
  else if is_str "tool_result" (Some block_type) then
    let tool_content := dict_get_or "content" (JStr "") block in
    let result_text :=
      match tool_content with
      | JStr s => s
      | _ => py_str tool_content
      end in
    Ok [JDict [("functionResponse",
                JDict [("name", JStr "tool");
                       ("response", JDict [("result", JStr result_text)])])]]
  else Ok [].

(** The entry of [contents] one message adds, if any. *)
Definition claude_content_entry (py_str : json -> string) (msg : ClaudeMessage)
  : result (list json) :=
  let role := if String.eqb (cm_role msg) "assistant" then "model" else "user" in
  parts <-
    match cm_content msg with
    | ContentStr s => Ok (if negb (String.eqb s "") then [JDict [("text", JStr s)]] else [])
    | ContentBlocks blocks => flat_map_r (claude_block_parts py_str) blocks
    end ;;
  Ok match parts with
     | [] => []
     | _ :: _ => [JDict [("role", JStr role); ("parts", JList parts)]]
     end.

(** Step 3: the generation config. *)
Definition claude_gen_config (request : ClaudeRequest) : list (string * json) :=
  let gen_config :=
    [("maxOutputTokens", JInt (int_or (cr_max_tokens request) 64000));
     ("temperature", JFloat (float_or (cr_temperature request) 1))] in
  let gen_config :=
    match cr_top_p request with
    | Some p => if Qeq_bool p 0 then gen_config else dict_set "topP" (JFloat p) gen_config
    | None => gen_config
    end in
  let gen_config :=
    match cr_top_k request with
    | Some k => if (k =? 0)%Z then gen_config else dict_set "topK" (JInt k) gen_config
    | None => gen_config
    end in
  match cr_thinking request with
  | Some thinking =>
      if String.eqb (thinking_type thinking) "enabled"
      then dict_set "thinkingConfig"
             (JDict [("thinkingBudget", JInt (int_or (budget_tokens thinking) 10000))])
             gen_config
      else gen_config
  | None => gen_config
  end.

(** A tool that stands for the web search. *)
Definition is_web_search (tool : ClaudeTool) : bool :=
  match tool_type tool with
  | Some ty => negb (String.eqb ty "") && String.prefix "web_search" ty
  | None => false
  end
  || String.eqb (tool_name tool) "web_search".

(** The declaration of a regular function tool. *)
Definition func_decl (tool : ClaudeTool) : json :=
  let decl :=
    [("name", JStr (tool_name tool));
     ("description", JStr (match tool_description tool with
                           | Some d => d   (* [d or ""] is [d] also when d is empty *)
                           | None => ""
                           end))] in
  JDict match tool_input_schema tool with
        | Some ((_ :: _) as schema) =>
            dict_set "parameters" (_clean_schema (JDict schema)) decl
        | _ => decl
        end.

(** Step 6: the value of [inner_request["tools"]], if the key is set. *)
Definition claude_tools (tools : option (list ClaudeTool)) : option (list json) :=
  match tools with
  | Some ((_ :: _) as tools) =>
      let function_declarations :=
        map func_decl (filter (fun tool => negb (is_web_search tool)) tools) in
      let inject_google_search := existsb is_web_search tools in
      let declared :=
        match function_declarations with
        | [] => None
        | _ :: _ => Some [JDict [("functionDeclarations", JList function_declarations)]]
        end in
      if inject_google_search then
        Some (match declared with Some l => l | None => [] end
              ++ [JDict [("googleSearch", JDict [])]])%list
      else declared
  | _ => None
  end.

(** [claude_mapper.transform_claude_to_gemini].  [uuid] is the random part
    of the request id. *)
Definition transform_claude_to_gemini (uuid : string) (py_str : json -> string)
    (request : ClaudeRequest) (project_id mapped_model : string)
  : result (list (string * json)) :=
  system_text <- claude_system_text (cr_system request) ;;
  contents <- flat_map_r (claude_content_entry py_str) (cr_messages request) ;;
  let inner_request :=
    [("contents", JList contents);
     ("generationConfig", JDict (claude_gen_config request));
     ("safetySettings", safety_settings)] in
  let inner_request :=
    if negb (String.eqb system_text "")
    then dict_set "systemInstruction"
           (JDict [("parts", JList [JDict [("text", JStr system_text)]])]) inner_request
    else inner_request in
  let inner_request :=
    match claude_tools (cr_tools request) with
    | Some tools => dict_set "tools" (JList tools) inner_request
    | None => inner_request
    end in
  Ok (wrap_request ("claude-" ++ uuid) project_id mapped_model inner_request).

(** ** OpenAI to upstream, the whole request ([core/proxy/openai_mapper.py]) *)

(** A tool call of a request message: [function.arguments] is a string. *)
Record RequestToolCall : Type := {
  call_id : string;
  call_type : string;
  call_name : string;
  call_arguments : string
}.

Record OpenAIMessage : Type := {
  om_role : string;
  om_content : option content_value;
  om_tool_calls : option (list RequestToolCall);
  om_tool_call_id : option string;
  om_name : option string
}.

(** [OpenAIRequest] with its messages and tools; [chat_config] holds the
    fields the generation config reads. *)
Record OpenAIChatRequest : Type := {
  chat_model : string;
  chat_messages : list OpenAIMessage;
  chat_stream : bool;
  chat_tools : option (list (list (string * json)));
  chat_config : OpenAIRequest
}.

(** Step 1: what one message adds to [system_instructions]. *)
Definition system_instructions_of (msg : OpenAIMessage) : list json :=
  if String.eqb (om_role msg) "system" && content_truthy (om_content msg) then
    match om_content msg with
    | Some (ContentStr s) => [JStr s]
    | Some (ContentBlocks blocks) => text_blocks blocks
    | None => []
    end
  else [].

(** The part of a [data:] URL, unless the URL is malformed. *)
Definition data_url_part (url : string) : option json :=
  match split_once "," url with
  | [meta; data] =>
      match nth_error (split ":" meta) 1 with
      | Some field =>
          let mime_type := hd "" (split ";" field) in
          Some (JDict [("inlineData",
                        JDict [("mimeType", JStr mime_type); ("data", JStr data)])])
      | None => None
      end
  | _ => None
  end.

(** The parts one content block adds. *)
Definition openai_block_parts (block : list (string * json)) : result (list json) :=
  if is_str "text" (dict_get "type" block) then
    Ok [JDict [("text", dict_get_or "text" (JStr "") block)]]
  else if is_str "image_url" (dict_get "type" block) then
    let image_url_data := dict_get_or "image_url" (JDict []) block in
    url <- get_or "url" (JStr "") image_url_data ;;
    match url with
    | JStr url =>
        if String.prefix "data:" url then
          Ok match data_url_part url with Some part => [part] | None => [] end
        else if String.prefix "http" url then
          Ok [JDict [("fileData",
                      JDict [("fileUri", JStr url); ("mimeType", JStr "image/jpeg")])]]
        else Ok []
    | _ => Raise (Exception "AttributeError")
    end
  else Ok [].

(** [x or "unknown"] *)
Definition or_unknown (x : option string) : string :=
  match x with
  | Some s => if String.eqb s "" then "unknown" else s
  | None => "unknown"
  end.

(** The parts of one message.  [loads] is [json.loads], [None] when it
    raises [JSONDecodeError]. *)
Definition message_parts (loads : string -> option json) (msg : OpenAIMessage)
  : result (list json) :=
  content_parts <-
    (if content_truthy (om_content msg) then
       match om_content msg with
       | Some (ContentStr s) => Ok [JDict [("text", JStr s)]]
       | Some (ContentBlocks blocks) => flat_map_r openai_block_parts blocks
       | None => Ok []
       end
     else Ok []) ;;
  let call_parts :=
    match om_tool_calls msg with
    | Some calls =>
        map (fun tc =>
               JDict [("functionCall",
                       JDict [("name", JStr (call_name tc));
                              ("args", match loads (call_arguments tc) with
                                       | Some args => args
                                       | None => JDict []
                                       end)])]) calls
    | None => []
    end in
  let response_parts :=
    if String.eqb (om_role msg) "tool" || String.eqb (om_role msg) "function" then
      let content_val :=
        match om_content msg with Some (ContentStr s) => s | _ => "" end in
      [JDict [("functionResponse",
               JDict [("name", JStr (or_unknown (om_name msg)));
                      ("id", JStr (or_unknown (om_tool_call_id msg)));
                      ("response", JDict [("result", JStr content_val)])])]]
    else [] in
  Ok (content_parts ++ call_parts ++ response_parts)%list.

(** The role of an entry of [contents]. *)
Definition gemini_role (role : string) : string :=
  if String.eqb role "assistant" then "model"
  else if existsb (String.eqb role) ["user"; "tool"; "function"] then "user"
  else role.

(** Step 2: the entry of [contents] one message adds, if any. *)
Definition openai_content_entry (loads : string -> option json) (msg : OpenAIMessage)
  : result (list json) :=
  if String.eqb (om_role msg) "system" then Ok []
  else
    parts <- message_parts loads msg ;;
    Ok match parts with
       | [] => []
       | _ :: _ => [JDict [("role", JStr (gemini_role (om_role msg))); ("parts", JList parts)]]
       end.

(** Step 5 for one tool: the declaration, and the tool as the step leaves
    it.  [func_copy] is a shallow copy, so the schema under ["parameters"]
    that [_clean_json_schema] edits in place is the one of the request. *)
Definition declare_function (tool : list (string * json))
  : result (json * list (string * json)) :=
  let func := dict_get_or "function" (JDict tool) tool in
  match func with
  | JDict func =>
      let func_copy :=
        filter (fun kv => negb (existsb (String.eqb (fst kv))
                                        ["type"; "strict"; "additionalProperties"])) func in
      match dict_get "parameters" func_copy with
      | Some (JDict schema) =>
          let cleaned := _clean_json_schema (JDict schema) in
          let func_after := dict_set "parameters" cleaned func in
          Ok (JDict (dict_set "parameters" cleaned func_copy),
              match dict_get "function" tool with
              | Some _ => dict_set "function" (JDict func_after) tool
              | None => func_after
              end)
      | Some _ => Raise (Exception "AttributeError")
      | None => Ok (JDict func_copy, tool)
      end
  | _ => Raise (Exception "AttributeError")
  end.

(** Step 5: the loop over [request.tools]. *)
Fixpoint declare_functions (tools : list (list (string * json)))
  : result (list json * list (list (string * json))) :=
  match tools with
  | [] => Ok ([], [])
  | tool :: rest =>
      d <- declare_function tool ;;
      r <- declare_functions rest ;;
      Ok (fst d :: fst r, snd d :: snd r)
  end.

(** Step 5 under its guard [if request.tools]: the declarations, and the
    tools as the step leaves them. *)
Definition declare_tools (tools : option (list (list (string * json))))
  : result (list json * option (list (list (string * json)))) :=
  match tools with
  | Some ((_ :: _) as tools) => r <- declare_functions tools ;; Ok (fst r, Some (snd r))
  | Some [] => Ok ([], Some [])
  | None => Ok ([], None)
  end.

(** [openai_mapper.transform_openai_to_gemini]: the payload, and the request
    as the call leaves it.  [uuid] is the random part of the request id. *)
Definition transform_openai_to_gemini (uuid : string) (loads : string -> option json)
    (request : OpenAIChatRequest) (project_id mapped_model : string)
  : result (list (string * json) * OpenAIChatRequest) :=
  let system_instructions := flat_map system_instructions_of (chat_messages request) in
  contents <- flat_map_r (openai_content_entry loads) (chat_messages request) ;;
  let inner_request :=
    [("contents", JList contents);
     ("generationConfig", JDict (gen_config (chat_config request)));
     ("safetySettings", safety_settings)] in
  declared <- declare_tools (chat_tools request) ;;
  let inner_request :=
    match fst declared with
    | [] => inner_request
    | _ :: _ =>
        dict_set "tools" (JList [JDict [("functionDeclarations", JList (fst declared))]])
                 inner_request
    end in
  inner_request <-
    match system_instructions with
    | [] => Ok inner_request
    | _ :: _ =>
        text <- join_strs (nl ++ nl) system_instructions ;;
        Ok (dict_set "systemInstruction"
              (JDict [("parts", JList [JDict [("text", JStr text)]])]) inner_request)
    end ;;
  Ok (wrap_request ("openai-" ++ uuid) project_id mapped_model inner_request,
      {| chat_model := chat_model request;
         chat_messages := chat_messages request;
         chat_stream := chat_stream request;
         chat_tools := snd declared;
         chat_config := chat_config request |}).

(** ** Model names ([api/routes_openai.py], [api/routes_claude.py]) *)

Definition MODEL_MAPPING : list (string * string) :=
  [("claude-opus-4-5-thinking", "claude-opus-4-5-thinking");
   ("claude-sonnet-4-5-thinking", "claude-sonnet-4-5-thinking");
   ("gemini-3-flash", "gemini-3-flash");
   ("gemini-3-pro-high", "gemini-3-pro-high");
   ("gemini-3-pro-low", "gemini-3-pro-low");
   ("gpt-oss-120b-medium", "gpt-oss-120b-medium");
   ("gpt-4", "gemini-3-pro-high");
   ("gpt-4-turbo", "gemini-3-pro-high");
   ("gpt-4o", "gemini-3-flash");
   ("gpt-3.5-turbo", "gemini-3-flash")].

Definition CLAUDE_MODEL_MAPPING : list (string * string) :=
  [("claude-opus-4-5-thinking", "claude-opus-4-5-thinking");
   ("claude-sonnet-4-5-thinking", "claude-sonnet-4-5-thinking");
   ("claude-3-5-sonnet-20241022", "claude-sonnet-4-5-thinking");
   ("claude-3-5-sonnet", "claude-sonnet-4-5-thinking");
   ("claude-sonnet-4-20250514", "claude-sonnet-4-5-thinking");
   ("claude-3-opus", "claude-opus-4-5-thinking");
   ("claude-3-haiku", "gemini-3-flash");
   ("claude-3-5-haiku", "gemini-3-flash")].

Fixpoint mapping_get (k : string) (table : list (string * string)) : option string :=
  match table with
  | [] => None
  | (k', v) :: rest => if String.eqb k k' then Some v else mapping_get k rest
  end.

(** [any(x in requested_model.lower() for x in ["gemini", "claude", "gpt"])] *)
Definition looks_valid (requested_model : string) : bool :=
  existsb (fun x => str_contains x (lower requested_model)) ["gemini"; "claude"; "gpt"].

(** [get_mapped_model] of the two routes, over its table.  [custom] is what
    the query of the custom mappings gives: the target model of the row
    found, [None] when there is no row or the query raises. *)
Definition get_mapped_model (table : list (string * string)) (custom : option string)
    (requested_model : string) : string :=
  match custom with
  | Some target_model => target_model
  | None =>
      match mapping_get requested_model table with
      | Some mapped => mapped
      | None => if looks_valid requested_model then requested_model else "gemini-3-flash"
      end
  end.

(** ** Image sizes ([api/routes_images.py]) *)

(** [w / h] on two integers, the true division of Python: the quotient
    rounded to the nearest double; [ZeroDivisionError] on a zero divisor
    and [OverflowError] when the rounded quotient is beyond the doubles. *)
Definition true_div (w h : Z) : result Q :=
  if (h =? 0)%Z then Raise (Exception "ZeroDivisionError")
  else
    let q := double (inject_Z w / inject_Z h) in
    if Qle_bool (two_to 1024) (Qabs q) then Raise (Exception "OverflowError")
    else Ok q.

(** The ratio of a width and a height: the body of the [try] block after
    the two conversions. *)
Definition ratio_of (w h : Z) : result string :=
  if (w =? h)%Z then Ok "1:1"
  else if (h <? w)%Z then
    match true_div w h with
    | Ok q => Ok (if Qlt_bool (15 # 10) q then "16:9" else "4:3")
    | Raise e => Raise e
    end
  else
    match true_div h w with
    | Ok q => Ok (if Qlt_bool (15 # 10) q then "9:16" else "3:4")
    | Raise e => Raise e
    end.

(** [parse_aspect_ratio].  [py_int] is [int()] on a string, [None] when it
    raises [ValueError]. *)
Definition parse_aspect_ratio (py_int : string -> option Z) (size_or_model : string)
  : result string :=
  if str_contains "-16x9" size_or_model then Ok "16:9"
  else if str_contains "-9x16" size_or_model then Ok "9:16"
  else if str_contains "-4x3" size_or_model then Ok "4:3"
  else if str_contains "-3x4" size_or_model then Ok "3:4"
  else if str_contains "-1x1" size_or_model then Ok "1:1"
  else if str_contains "x" size_or_model then
    match split "x" (lower size_or_model) with
    | [a; b] =>
        match py_int a with
        | Some w =>
            match py_int b with
            | Some h => ratio_of w h
            | None => Ok "1:1"
            end
        | None => Ok "1:1"
        end
    | _ => Ok "1:1"
    end
  else Ok "1:1".

(** ** Stream chunks ([api/routes_openai.py], [api/routes_claude.py]) *)

(** [k in v]: a key of a dictionary, a substring of a string, an item of a
    list. *)
Definition py_in (k : string) (v : json) : result bool :=
  match v with
  | JDict d => Ok (dict_has k d)
  | JStr s => Ok (str_contains k s)
  | JList l => Ok (existsb (fun x => is_str k (Some x)) l)
  | _ => Raise (Exception "TypeError")
  end.

(** [v[k]] for a string [k]. *)
Definition py_item (k : string) (v : json) : result json :=
  match v with
  | JDict d =>
      match dict_get k d with
      | Some x => Ok x
      | None => Raise (Exception "KeyError")
      end
  | _ => Raise (Exception "TypeError")
  end.

(** The loop of [_convert_stream_chunk]: [delta_content += part["text"]]. *)
Fixpoint delta_text (delta_content : string) (parts : list json) : result string :=
  match parts with
  | [] => Ok delta_content
  | part :: rest =>
      has <- py_in "text" part ;;
      if has then
        text <- py_item "text" part ;;
        match text with
        | JStr s => delta_text (delta_content ++ s) rest
        | _ => Raise (Exception "TypeError")
        end
      else delta_text delta_content rest
  end.

(** The dictionary [_convert_stream_chunk] returns.  [stamp] is the clock
    reading in the id, [created] the one in the field. *)
Definition stream_chunk (stamp : string) (created : Z) (model delta_content : string)
  : list (string * json) :=
  [("id", JStr ("chatcmpl-stream-" ++ stamp));
   ("object", JStr "chat.completion.chunk");
   ("created", JInt created);
   ("model", JStr model);
   ("choices",
    JList [JDict [("index", JInt 0);
                  ("delta", JDict (if negb (String.eqb delta_content "")
                                   then [("content", JStr delta_content)]
                                   else []));
                  ("finish_reason", JNull)]])].

(** [routes_openai._convert_stream_chunk] *)
Definition _convert_stream_chunk (stamp : string) (created : Z)
    (gemini_data : list (string * json)) (model : string) : result (list (string * json)) :=
  parts <- candidate_parts gemini_data ;;
  delta_content <- delta_text "" parts ;;
  Ok (stream_chunk stamp created model delta_content).

(** The loop of [_extract_text_delta]: the text of the first part that has
    one and is no thought. *)
Fixpoint first_text (parts : list json) : result json :=
  match parts with
  | [] => Ok (JStr "")
  | part :: rest =>
      has <- py_in "text" part ;;
      if has then
        thought <- get_or "thought" JNull part ;;
        if truthy thought then first_text rest else py_item "text" part
      else first_text rest
  end.

(** [routes_claude._extract_text_delta] *)
Definition _extract_text_delta (gemini_data : list (string * json)) : result json :=
  parts <- candidate_parts gemini_data ;;
  first_text parts.

(** ** What blocks and parts carry *)

(** The three kinds of content the Claude protocol and upstream exchange. *)
Inductive piece : Type :=
| Text (s : string)
| Thought (s : string)
| Call (name : string) (args : list (string * json)).

(** A content block of a Claude request carries the piece. *)
Definition block_carries (block : list (string * json)) (p : piece) : Prop :=
  match p with
  | Text s =>
      dict_get "type" block = Some (JStr "text")
      /\ dict_get "text" block = Some (JStr s) /\ s <> ""
  | Thought s =>
      dict_get "type" block = Some (JStr "thinking")
      /\ dict_get "thinking" block = Some (JStr s) /\ s <> ""
  | Call name args =>
      dict_get "type" block = Some (JStr "tool_use")
      /\ dict_get "name" block = Some (JStr name)
      /\ dict_get "input" block = Some (JDict args)
  end.

(** An upstream part carries the piece. *)
Definition part_carries (part : json) (p : piece) : Prop :=
  exists d, part = JDict d /\
  match p with
  | Text s =>
      truthy (dict_get_or "thought" JNull d) = false
      /\ dict_get "text" d = Some (JStr s)
  | Thought s =>
      truthy (dict_get_or "thought" JNull d) = true
      /\ dict_get "text" d = Some (JStr s)
  | Call name args =>
      truthy (dict_get_or "thought" JNull d) = false
      /\ dict_get "text" d = None
      /\ exists fc, dict_get "functionCall" d = Some (JDict fc)
                    /\ dict_get "name" fc = Some (JStr name)
                    /\ dict_get "args" fc = Some (JDict args)
  end.

(** A content block of a Claude response answers the piece. *)
Definition answers (b : ClaudeResponseContentBlock) (p : piece) : Prop :=
  match p with
  | Text s =>
      block_type b = "text" /\ block_text b = Some s
      /\ block_name b = None /\ block_input b = None
  | Thought s =>
      block_type b = "thinking" /\ block_text b = Some s
      /\ block_name b = None /\ block_input b = None
  | Call name args =>
      block_type b = "tool_use" /\ block_text b = None
      /\ block_name b = Some name /\ block_input b = Some args
  end.

(** The part a piece comes back as when the client sends the answer's
    blocks back. *)
Definition echo (p : piece) : list json :=
  match p with
  | Text s => if String.eqb s "" then [] else [JDict [("text", JStr s)]]
  | Thought _ => []
  | Call name args =>
      [JDict [("functionCall", JDict [("name", JStr name); ("args", JDict args)])]]
  end.

(** ** Images of the image endpoint ([api/routes_images.py]) *)

(** The pydantic model [Image]. *)
Record Image : Type := {
  image_url : option string;
  image_b64_json : option string;
  image_revised_prompt : option string
}.

(** A value inside an f-string.  [py_str] is [str()] on a value that is no
    string. *)
Definition format_value (py_str : json -> string) (v : json) : string :=
  match v with
  | JStr s => s
  | _ => py_str v
  end.

(** The image one part of the upstream response adds, if any. *)
Definition image_of_part (py_str : json -> string) (response_format : option string)
    (part : json) : result (list Image) :=
  inline_data <- get_or "inlineData" (JDict []) part ;;
  b64_data <- get_or "data" JNull inline_data ;;
  if truthy b64_data then
    if match response_format with Some f => String.eqb f "url" | None => false end then
      mime_type <- get_or "mimeType" (JStr "image/png") inline_data ;;
      Ok [{| image_url := Some ("data:" ++ format_value py_str mime_type
                                ++ ";base64," ++ format_value py_str b64_data);
             image_b64_json := None;
             image_revised_prompt := None |}]
    else
      match b64_data with
      | JStr s =>
          Ok [{| image_url := None; image_b64_json := Some s;
                 image_revised_prompt := None |}]
      | _ => Raise (ValueError "validation error for Image")
      end
  else Ok [].

(** The ratio with width and height exchanged. *)
Definition transposed (ratio : string) : string :=
  if String.eqb ratio "16:9" then "9:16"
  else if String.eqb ratio "9:16" then "16:9"
  else if String.eqb ratio "4:3" then "3:4"
  else if String.eqb ratio "3:4" then "4:3"
  else ratio.

(** No ratio suffix in the size or model name. *)
Definition no_ratio_suffix (s : string) : bool :=
  negb (existsb (fun suffix => str_contains suffix s)
                ["-16x9"; "-9x16"; "-4x3"; "-3x4"; "-1x1"]).

(** What the dispatcher may answer, for a request that streams or not,
    whose local [email] was bound or not when the loop was entered at
    iteration [attempt] with [remaining] iterations left. *)
Definition answer_allowed (stream : bool) (email : option string) (remaining attempt : nat)
    (resp : http_response) (trace : list Attempt) : Prop :=
  match resp with
  | JSONResponse _ => stream = false
  | StreamingResponse => stream = true
  | HTTPException status detail =>
      status = 429%Z \/ status = 503%Z \/ retry_status status = false
  | Uncaught e =>
      e = UnboundLocalError "email" /\ email = None
      /\ (remaining = 0%nat
          \/ exists a, trace = [a] /\ attempt_index a = attempt /\ acquired a = None)
  end.

(** ** The image endpoint and the Gemini-native endpoint
       ([api/routes_images.py], [api/routes_gemini.py]) *)

(** [s.rsplit(sep, 1)] *)
Fixpoint rsplit_once (sep : ascii) (s : string) : list string :=
  match s with
  | EmptyString => [""]
  | String c rest =>
      match rsplit_once sep rest with
      | [last] => if Ascii.eqb c sep then [""; last] else [String c last]
      | first :: others => String c first :: others
      | [] => [String c ""]
      end
  end.

(** The outside world during one attempt of these two handlers: the world
    of the [get_token] call, and what [call_gemini_api] returns or raises. *)
Record CallWorld : Type := {
  call_acquire : World;
  call_upstream : result json
}.

(** The images of one candidate. *)
Definition images_of_candidate (py_str : json -> string) (response_format : option string)
    (candidate : json) : result (list Image) :=
  content <- get_or "content" (JDict []) candidate ;;
  parts <- get_or "parts" (JList []) content ;;
  parts <- iterate parts ;;
  flat_map_r (image_of_part py_str response_format) parts.

(** Step 5 of [generate_image]: the list [images]. *)
Definition images_of_response (py_str : json -> string) (response_format : option string)
    (response : json) : result (list Image) :=
  candidates <- get_or "candidates" (JList []) response ;;
  candidates <- iterate candidates ;;
  flat_map_r (images_of_candidate py_str response_format) candidates.

(** What the image endpoint answers. *)
Inductive image_answer : Type :=
| ImageGenerationResponse (created : Z) (data : list Image)
| ImageHTTPException (status_code : Z) (detail : string)
| ImageUncaught (e : exn).

(** The loop of [generate_image] from iteration [attempt] on.  Iteration 0
    uses the token acquired before the loop; every later one acquires with
    [force_rotate].  Every exception of the [try] body is caught and the
    loop goes on; [None] is the [else] branch of the loop. *)
Fixpoint image_loop (worlds : nat -> CallWorld) (remaining attempt : nat)
    (tm : TokenManager) (email : string) (last_error : option exn)
  : option json * TokenManager * list Attempt * option exn :=
  match remaining with
  | O => (None, tm, [], last_error)
  | S remaining' =>
      let w := worlds attempt in
      let force_rotate := (0 <? attempt)%nat in
      let '(got, tm1) :=
        if force_rotate then
          let '(g, tm1, _) := get_token tm "image_gen" true (call_acquire w) in
          (match g with Ok (_, _, e) => Ok e | Raise x => Raise x end, tm1)
        else (Ok email, tm) in
      let email1 := match got with Ok e => e | Raise _ => email end in
      let body := match got with Ok _ => call_upstream w | Raise e => Raise e end in
      let record f :=
        {| attempt_index := attempt;
           force_rotate_of := force_rotate;
           acquired := match got with Ok e => Some e | Raise _ => None end;
           failure := f |} in
      match body with
      | Ok response => (Some response, tm1, [record None], last_error)
      | Raise e =>
          let '(r, tm2, trace, le) :=
            image_loop worlds remaining' (S attempt) tm1 email1 (Some e) in
          (r, tm2, record (Some e) :: trace, le)
      end
  end.

(** The status and detail after the loop ran out.  [str_of_nat] formats
    [max_retries]. *)
Definition image_exhausted (str_of_nat : nat -> string) (max_retries : nat)
    (last_error : option exn) : image_answer :=
  let error_msg := match last_error with Some e => exn_str e | None => "None" end in
  if str_contains "429" error_msg then
    ImageHTTPException 429 ("Rate limited after " ++ str_of_nat max_retries
                            ++ " attempts: " ++ error_msg)
  else if str_contains "403" error_msg then
    ImageHTTPException 403 ("Permission denied after " ++ str_of_nat max_retries
                            ++ " attempts: " ++ error_msg)
  else ImageHTTPException 502 ("Upstream error: " ++ error_msg).

(** [routes_images.generate_image].  [size] and [response_format] are the
    fields of the request, [created] the reading of the clock in the
    response. *)
Definition generate_image (py_int : string -> option Z) (py_str : json -> string)
    (str_of_nat : nat -> string) (size response_format : option string) (created : Z)
    (worlds : nat -> CallWorld) (tm : TokenManager)
  : image_answer * TokenManager * list Attempt :=
  let '(got, tm0, _) := get_token tm "image_gen" false (call_acquire (worlds 0%nat)) in
  match got with
  | Raise (ValueError _) => (ImageHTTPException 503 "No active accounts available", tm0, [])
  | Raise e => (ImageUncaught e, tm0, [])
  | Ok (_, _, email) =>
      match parse_aspect_ratio py_int
              (if str_truthy size then match size with Some s => s | None => "" end
               else "1024x1024") with
      | Raise e => (ImageUncaught e, tm0, [])
      | Ok _ =>
          let account_count := List.length (_tokens tm0) in
          let max_retries := Nat.max account_count 5 in
          let '(response, tm1, trace, last_error) :=
            image_loop worlds max_retries 0 tm0 email None in
          match response with
          | None => (image_exhausted str_of_nat max_retries last_error, tm1, trace)
          | Some response =>
              match images_of_response py_str response_format response with
              | Ok images => (ImageGenerationResponse created images, tm1, trace)
              | Raise e => (ImageUncaught e, tm1, trace)
              end
          end
      end
  end.

(** [model_name, method] of [generate_content]. *)
Definition parse_model_action (model_action : string) : string * string :=
  if has_char ":" model_action then
    match rsplit_once ":" model_action with
    | [model_name; method] => (model_name, method)
    | _ => (model_action, "generateContent")
    end
  else (model_action, "generateContent").

(** The loop of [generate_content] from iteration [attempt] on.  A
    [ValueError] ends the request with 503; every other exception is
    retried, and the log line of that handler formats [email], which is
    unbound until a [get_token] call has returned. *)
Fixpoint gemini_loop (stream : bool) (worlds : nat -> CallWorld) (remaining attempt : nat)
    (tm : TokenManager) (email : option string) (last_error : option exn)
  : http_response * TokenManager * list Attempt :=
  match remaining with
  | O =>
      (HTTPException 429
         ("All accounts exhausted: "
          ++ match last_error with Some e => exn_str e | None => "None" end),
       tm, [])
  | S remaining' =>
      let force_rotate := (0 <? attempt)%nat in
      let w := worlds attempt in
      let '(got, tm1, _) := get_token tm "gemini" force_rotate (call_acquire w) in
      let email1 :=
        match got with Ok (_, _, e) => Some e | Raise _ => email end in
      let body :=
        match got with
        | Ok _ =>
            if stream then Ok None
            else
              gemini_response <- call_upstream w ;;
              wrapped <- py_in "response" gemini_response ;;
              if wrapped
              then inner <- py_item "response" gemini_response ;; Ok (Some inner)
              else Ok (Some gemini_response)
        | Raise e => Raise e
        end in
      let record e :=
        {| attempt_index := attempt;
           force_rotate_of := force_rotate;
           acquired := match got with Ok (_, _, em) => Some em | Raise _ => None end;
           failure := e |} in
      match body with
      | Ok None => (StreamingResponse, tm1, [record None])
      | Ok (Some content) => (JSONResponse content, tm1, [record None])
      | Raise (ValueError msg as e) => (HTTPException 503 msg, tm1, [record (Some e)])
      | Raise e =>
          match email1 with
          | None => (Uncaught (UnboundLocalError "email"), tm1, [record (Some e)])
          | Some _ =>
              let '(resp, tm2, trace) :=
                gemini_loop stream worlds remaining' (S attempt) tm1 email1 (Some e) in
              (resp, tm2, record (Some e) :: trace)
          end
      end
  end.

(** [routes_gemini.generate_content].  [body] is what [request.json()]
    returns or raises.  The mapped model name goes into the payload and the
    log only. *)
Definition generate_content (model_action : string) (body : result json)
    (worlds : nat -> CallWorld) (tm : TokenManager)
  : http_response * TokenManager * list Attempt :=
  let '(model_name, method) := parse_model_action model_action in
  if negb (existsb (String.eqb method) ["generateContent"; "streamGenerateContent"]) then
    (HTTPException 400 ("Unsupported method: " ++ method), tm, [])
  else
    match body with
    | Raise e => (HTTPException 400 ("Invalid JSON: " ++ exn_str e), tm, [])
    | Ok _ =>
        let is_stream := String.eqb method "streamGenerateContent" in
        let account_count := List.length (_tokens tm) in
        let max_retries := Nat.max account_count 5 in
        gemini_loop is_stream worlds max_retries 0 tm None None
    end.

(** ** Predicates and data of the further statements *)

(** The two pools hold the same accounts in the same order, with the same
    email, refresh token and score each. *)
Definition same_accounts (pool pool' : list ProxyToken) : Prop :=
  map account_id pool' = map account_id pool
  /\ map email pool' = map email pool
  /\ map refresh_token pool' = map refresh_token pool
  /\ map average_quota pool' = map average_quota pool.

(** The state of the refresh loop against the pool it started from. *)
Definition refresh_loop_invariant (now : Q) (pool : list ProxyToken) (steps : nat)
    (acc : nat * TokenManager * list call) : Prop :=
  let '(refreshed, tm, calls) := acc in
  same_accounts pool (_tokens tm)
  /\ (refreshed <= steps)%nat
  /\ forall t, In t pool -> (Qfloor now < expiry_timestamp t - 300)%Z ->
               In t (_tokens tm) /\ ~ In (CallRefresh (account_id t)) calls.

(** The two pools hold the same accounts with the same credentials. *)
Definition same_credentials (pool pool' : list ProxyToken) : Prop :=
  map account_id pool' = map account_id pool
  /\ map email pool' = map email pool
  /\ map access_token pool' = map access_token pool
  /\ map refresh_token pool' = map refresh_token pool
  /\ map expiry_timestamp pool' = map expiry_timestamp pool.

(** The loop of [load_accounts] on the pool alone. *)
Definition load_pool (pool : list ProxyToken) (accounts : list Account) : list ProxyToken :=
  fold_left (fun p acc => match loadable acc with
                          | Some token => pool_set token p
                          | None => p
                          end) accounts pool.

(** [id in self._tokens] *)
Definition has_key (id : string) (pool : list ProxyToken) : bool :=
  existsb (String.eqb id) (map account_id pool).

(** The assignments [self._tokens[t.account_id] = t] for the tokens [t] in
    order. *)
Definition assign_all (tokens : list ProxyToken) (pool : list ProxyToken) : list ProxyToken :=
  fold_left (fun p t => pool_set t p) tokens pool.

(** The tokens of the rows that [load_accounts] loads, in order. *)
Definition loadable_tokens (accounts : list Account) : list ProxyToken :=
  flat_map (fun acc => match loadable acc with Some t => [t] | None => [] end) accounts.

(** A token row with the given access token. *)
Definition row (tok : string) : TokenRow :=
  {| row_access_token := tok;
     row_refresh_token := "refresh-db";
     row_expires_in := 3599;
     row_expiry_timestamp := 5000;
     row_project_id := None;
     row_subscription_tier := None;
     row_average_quota := None |}.

(** Three rows: one that loads, one with an empty access token, one
    without a token. *)
Definition rows_b_c : list Account :=
  [{| acc_id := "b"; acc_email := "b@example.com"; acc_token := Some (row "access-db") |};
   {| acc_id := "c"; acc_email := "c@example.com"; acc_token := Some (row "") |};
   {| acc_id := "d"; acc_email := "d@example.com"; acc_token := None |}].

(** The entry that stands for the web search. *)
Definition google_search : json := JDict [("googleSearch", JDict [])].

(** An entry of [contents]: a role and a list of parts that is not empty. *)
Definition content_entry (entry : json) (role : string) (parts : list json) : Prop :=
  entry = JDict [("role", JStr role); ("parts", JList parts)] /\ parts <> [].

(* ================================================================== *)
(** * Part II. Properties *)
(* ================================================================== *)

(** ** Schema cleaners *)

Lemma keep_map_spec {A B : Type} (p : A -> bool) (g : A -> B) (l : list A) :
  keep_map p g l = map g (filter p l).
Proof.
  unfold keep_map.
  induction l as [|a l IH]; simpl; [reflexivity|].
  destruct (p a); simpl; now rewrite IH.
Qed.

Lemma upper_ascii_idem (c : ascii) : upper_ascii (upper_ascii c) = upper_ascii c.
Proof.
  destruct c as [[] [] [] [] [] [] [] []]; reflexivity.
Qed.

Lemma upper_idem (s : string) : upper (upper s) = upper s.
Proof.
  unfold upper.
  induction s as [|c s IH]; simpl; [reflexivity|].
  now rewrite upper_ascii_idem, IH.
Qed.

Lemma filter_map_keys {A : Type} (p : A -> bool) (g : A -> A) (l : list A) :
  (forall a, p (g a) = p a) -> filter p (map g l) = map g (filter p l).
Proof.
  intros Hp.
  induction l as [|a l IH]; simpl; [reflexivity|].
  rewrite Hp. destruct (p a); simpl; now rewrite IH.
Qed.

Lemma filter_twice {A : Type} (p : A -> bool) (l : list A) :
  filter p (filter p l) = filter p l.
Proof.
  induction l as [|a l IH]; simpl; [reflexivity|].
  destruct (p a) eqn:E; simpl; [rewrite E|]; now rewrite IH.
Qed.

(** Cleaning a dictionary twice is cleaning it once, as soon as the entry
    step is idempotent on the kept entries and leaves keys alone. *)
Lemma keep_map_idem (g : string * json -> string * json) (d : list (string * json)) :
  (forall kv, fst (g kv) = fst kv) ->
  (forall kv, In kv d -> g (g kv) = g kv) ->
  keep_map (fun kv => allowed (fst kv)) g (keep_map (fun kv => allowed (fst kv)) g d)
  = keep_map (fun kv => allowed (fst kv)) g d.
Proof.
  intros Hkey Hidem.
  rewrite !keep_map_spec.
  rewrite filter_map_keys by (intros a; now rewrite Hkey).
  rewrite filter_twice, map_map.
  apply map_ext_in. intros kv Hin.
  apply Hidem. apply filter_In in Hin. tauto.
Qed.

Lemma clean_json_entry_key (rec : json -> json) (kv : string * json) :
  fst (clean_json_entry rec kv) = fst kv.
Proof.
  destruct kv as [k v]. unfold clean_json_entry.
  destruct (String.eqb k "type"); [reflexivity|].
  destruct (String.eqb k "properties"); [reflexivity|].
  destruct (String.eqb k "items"); reflexivity.
Qed.

Lemma clean_entry_key (rec : json -> json) (kv : string * json) :
  fst (clean_entry rec kv) = fst kv.
Proof. now destruct kv. Qed.

Lemma clean_json_schema_is_dict (d : list (string * json)) :
  exists d', _clean_json_schema (JDict d) = JDict d'.
Proof. simpl. eauto. Qed.

Lemma clean_property_idem (pv : string * json) :
  openai_idem (snd pv) ->
  clean_property _clean_json_schema (clean_property _clean_json_schema pv)
  = clean_property _clean_json_schema pv.
Proof.
  destruct pv as [name sub]. unfold openai_idem, clean_property. simpl snd.
  intros Hsub.
  destruct sub as [| | | | | |d]; try reflexivity.
  destruct (clean_json_schema_is_dict d) as [d' Hd'].
  rewrite Hd'. rewrite <- Hd'. now rewrite Hsub.
Qed.

(** The OpenAI-side cleaner is idempotent on every document; the second
    component carries the fact one level down, where [properties] needs it. *)
Lemma clean_json_schema_idem_nested (j : json) :
  openai_idem j /\
  (forall d, j = JDict d -> Forall (fun kv => openai_idem (snd kv)) d).
Proof.
  induction j as [| | | | | l _ | d IH] using json_nested_ind;
    try (split; [reflexivity | intros ? ?; discriminate]).
  assert (Hvals : Forall (fun kv => openai_idem (snd kv)) d).
  { eapply Forall_impl; [|exact IH]. intros kv [H _]. exact H. }
  split; [| intros d0 E; injection E as <-; exact Hvals].
  unfold openai_idem. simpl. f_equal.
  apply keep_map_idem; [apply clean_json_entry_key|].
  intros [k v] Hin.
  rewrite Forall_forall in IH. specialize (IH _ Hin). simpl in IH.
  destruct IH as [Hv Hsub].
  unfold clean_json_entry.
  destruct (String.eqb k "type") eqn:Et; cbn beta iota; rewrite ?Et.
  { destruct v; try reflexivity. now rewrite upper_idem. }
  destruct (String.eqb k "properties") eqn:Ep; cbn beta iota; rewrite ?Et, ?Ep.
  { destruct v as [| | | | | |props]; try reflexivity.
    do 2 f_equal. rewrite map_map. apply map_ext_in. intros pv Hpv.
    apply clean_property_idem.
    specialize (Hsub props eq_refl). rewrite Forall_forall in Hsub. now apply Hsub. }
  destruct (String.eqb k "items") eqn:Ei; cbn beta iota; rewrite ?Et, ?Ep, ?Ei;
    [|reflexivity].
  destruct v as [| | | | | |items]; try reflexivity.
  destruct (clean_json_schema_is_dict items) as [d' Hd'].
  rewrite Hd'. rewrite <- Hd'. now rewrite Hv.
Qed.

Lemma clean_idem (j : json) : clean (clean j) = clean j.
Proof.
  induction j as [| | | | | l IH | d IH] using json_nested_ind; try reflexivity.
  - simpl. f_equal. rewrite map_map. apply map_ext_in. intros x Hx.
    rewrite Forall_forall in IH. now apply IH.
  - simpl. f_equal.
    apply keep_map_idem; [apply clean_entry_key|].
    intros [k v] Hin.
    rewrite Forall_forall in IH. specialize (IH _ Hin). simpl in IH.
    unfold clean_entry.
    destruct v as [| | | |s|l|d0]; try reflexivity.
    + destruct (String.eqb k "type") eqn:Et; cbn beta iota; rewrite ?Et; [|reflexivity].
      now rewrite upper_idem.
    + f_equal. simpl in *. exact IH.
    + f_equal. simpl in *. exact IH.
Qed.

(** C9. The JSON-schema cleaner is idempotent: for every schema dictionary
    [s], cleaning the cleaned schema gives the cleaned schema again, for the
    OpenAI-side cleaner [_clean_json_schema] and for the Claude-side cleaner
    [_clean_schema]. *)
Theorem schema_cleaners_idempotent (s : list (string * json)) :
  _clean_json_schema (_clean_json_schema (JDict s)) = _clean_json_schema (JDict s)
  /\ _clean_schema (_clean_schema (JDict s)) = _clean_schema (JDict s).
Proof.
  split.
  - apply (clean_json_schema_idem_nested (JDict s)).
  - unfold _clean_schema. apply clean_idem.
Qed.

(** ** The pool as a dictionary *)

Lemma lookup_some (id : string) (pool : list ProxyToken) (t : ProxyToken) :
  lookup id pool = Some t -> In t pool /\ account_id t = id.
Proof.
  unfold lookup. intros H. apply find_some in H.
  destruct H as [Hin Heq]. apply String.eqb_eq in Heq. auto.
Qed.

Lemma keys_distinct_cons (i : string) (ids : list string) :
  keys_distinct (i :: ids) = true -> ~ In i ids /\ keys_distinct ids = true.
Proof.
  simpl. intros H. apply andb_true_iff in H. destruct H as [Hn Hd].
  split; [|exact Hd].
  intros Hin. apply negb_true_iff in Hn.
  assert (existsb (String.eqb i) ids = true) as E.
  { apply existsb_exists. exists i. split; [exact Hin | apply String.eqb_refl]. }
  congruence.
Qed.

(** In a dictionary a token is found under its own key. *)
Lemma lookup_member (pool : list ProxyToken) (t : ProxyToken) :
  keys_distinct (map account_id pool) = true ->
  In t pool -> lookup (account_id t) pool = Some t.
Proof.
  induction pool as [|x pool IH]; intros Hd Hin; [contradiction|].
  apply keys_distinct_cons in Hd. destruct Hd as [Hx Hd].
  unfold lookup. simpl.
  destruct Hin as [-> | Hin].
  - now rewrite String.eqb_refl.
  - destruct (String.eqb (account_id x) (account_id t)) eqn:E.
    + apply String.eqb_eq in E. exfalso. apply Hx. rewrite E. now apply in_map.
    + now apply IH.
Qed.

Lemma same_key_same_token (pool : list ProxyToken) (a b : ProxyToken) :
  keys_distinct (map account_id pool) = true ->
  In a pool -> In b pool -> account_id a = account_id b -> a = b.
Proof.
  intros Hd Ha Hb E.
  pose proof (lookup_member pool a Hd Ha) as La.
  pose proof (lookup_member pool b Hd Hb) as Lb.
  rewrite E in La. congruence.
Qed.

Lemma store_keys (token : ProxyToken) (pool : list ProxyToken) :
  map account_id (store token pool) = map account_id pool.
Proof.
  unfold store. rewrite map_map. apply map_ext_in. intros t _.
  destruct (String.eqb (account_id t) (account_id token)) eqn:E; [|reflexivity].
  apply String.eqb_eq in E. now rewrite E.
Qed.

Lemma store_member (token a : ProxyToken) (pool : list ProxyToken) :
  In a pool -> account_id a = account_id token -> In token (store token pool).
Proof.
  intros Hin E. unfold store. apply in_map_iff. exists a. split; [|exact Hin].
  now rewrite E, String.eqb_refl.
Qed.

Lemma store_inv (token t : ProxyToken) (pool : list ProxyToken) :
  In t (store token pool) ->
  t = token \/ (In t pool /\ account_id t <> account_id token).
Proof.
  unfold store. intros H. apply in_map_iff in H. destruct H as [x [Hx Hin]].
  destruct (String.eqb (account_id x) (account_id token)) eqn:E.
  - left. now symmetry.
  - right. subst t. split; [exact Hin|]. now apply String.eqb_neq.
Qed.

(** ** Sorting *)

Lemma insert_desc_in (t x : ProxyToken) (l : list ProxyToken) :
  In x (insert_desc t l) <-> x = t \/ In x l.
Proof.
  induction l as [|y l IH]; simpl.
  - intuition.
  - destruct (Qle_bool (quota_key y) (quota_key t)); simpl.
    + intuition.
    + rewrite IH. intuition.
Qed.

Lemma sort_desc_in (x : ProxyToken) (l : list ProxyToken) :
  In x (sort_desc l) <-> In x l.
Proof.
  induction l as [|y l IH]; simpl; [tauto|].
  rewrite insert_desc_in, IH. intuition.
Qed.

Lemma insert_desc_descending (t : ProxyToken) (l : list ProxyToken) :
  descending l -> descending (insert_desc t l).
Proof.
  induction l as [|x l IH]; simpl.
  - intros _. split; [intros y []|exact I].
  - intros [Hx Hl].
    destruct (Qle_bool (quota_key x) (quota_key t)) eqn:E.
    + apply Qle_bool_iff in E. simpl. split; [|split; assumption].
      intros y [<- | Hy]; [exact E|].
      eapply Qle_trans; [apply Hx; exact Hy | exact E].
    + assert (quota_key t < quota_key x)%Q as Hlt.
      { apply Qnot_le_lt. intros Hle. apply Qle_bool_iff in Hle. congruence. }
      simpl. split; [|apply IH; exact Hl].
      intros y Hy. apply insert_desc_in in Hy. destruct Hy as [-> | Hy].
      * now apply Qlt_le_weak.
      * now apply Hx.
Qed.

Lemma sort_desc_descending (l : list ProxyToken) : descending (sort_desc l).
Proof.
  induction l as [|x l IH]; simpl; [exact I|].
  now apply insert_desc_descending.
Qed.

(** The head of the sorted list has the highest key of the list. *)
Lemma sort_desc_head_max (l : list ProxyToken) (best : ProxyToken) (rest : list ProxyToken) :
  sort_desc l = best :: rest ->
  forall t, In t l -> (quota_key t <= quota_key best)%Q.
Proof.
  intros E t Hin.
  pose proof (sort_desc_descending l) as D. rewrite E in D. destruct D as [D _].
  apply sort_desc_in in Hin. rewrite E in Hin.
  destruct Hin as [<- | Hin]; [apply Qle_refl | now apply D].
Qed.

Lemma firstn_in {A : Type} (n : nat) (l : list A) (x : A) :
  In x (firstn n l) -> In x l.
Proof.
  revert l. induction n as [|n IH]; intros [|a l]; simpl; try tauto.
  intros [-> | H]; [now left | right; now apply IH].
Qed.

Lemma similar_in (S : list ProxyToken) (t : ProxyToken) :
  In t (similar S) -> In t S.
Proof.
  destruct S as [|top S]; [simpl; tauto|].
  unfold similar. intros H. apply filter_In in H. destruct H as [H _].
  eapply firstn_in. exact H.
Qed.

Example is_pro_tier :
  is_pro (account "a" 0 None None) = false
  /\ str_contains "pro" (lower "g1-PRO-tier") = true
  /\ str_contains "ultra" (lower "free-tier") = false.
Proof. repeat split. Qed.

Example sort_desc_is_stable :
  map account_id
      (sort_desc [account "a" 0 None (Some (5 # 10)%Q);
                  account "b" 0 None (Some (9 # 10)%Q);
                  account "c" 0 None (Some (5 # 10)%Q);
                  account "d" 0 None (Some (9 # 10)%Q)])
  = ["b"; "d"; "a"; "c"].
Proof. reflexivity. Qed.

(** ** Selection *)

Lemma round_robin_sound (tm : TokenManager) (l : list ProxyToken)
    (r : result ProxyToken) (tm' : TokenManager) :
  round_robin tm l = (r, tm') ->
  _tokens tm' = _tokens tm /\ _last_used tm' = _last_used tm
  /\ forall t, r = Ok t -> In t l.
Proof.
  unfold round_robin. intros H. injection H as <- <-. simpl.
  repeat split.
  intros t Ht.
  destruct (nth_error l (_current_index tm mod List.length l)) eqn:E; [|discriminate].
  injection Ht as <-. eapply nth_error_In. exact E.
Qed.

Lemma select_normal_sound (tm : TokenManager) (r : result ProxyToken) (tm' : TokenManager) :
  select_normal tm = (r, tm') ->
  _tokens tm' = _tokens tm /\ _last_used tm' = _last_used tm
  /\ forall t, r = Ok t -> In t (_tokens tm).
Proof.
  unfold select_normal.
  destruct (sort_desc (filter has_quota (_tokens tm))) as [|best rest] eqn:ES.
  - apply round_robin_sound.
  - assert (Hsub : forall t, In t (best :: rest) -> In t (_tokens tm)).
    { intros t Ht. rewrite <- ES in Ht. apply (proj1 (sort_desc_in _ _)) in Ht.
      apply filter_In in Ht. tauto. }
    assert (Hbest : forall r0 tm0, (Ok best, tm) = (r0, tm0) ->
              _tokens tm0 = _tokens tm /\ _last_used tm0 = _last_used tm
              /\ forall t, r0 = Ok t -> In t (_tokens tm)).
    { intros r0 tm0 H. injection H as <- <-. repeat split.
      intros t Ht. injection Ht as <-. apply Hsub. now left. }
    destruct (3 <=? List.length (best :: rest))%nat; [|apply Hbest].
    destruct (1 <? List.length (similar (best :: rest)))%nat; [|apply Hbest].
    intros H. apply round_robin_sound in H. destruct H as [H1 [H2 H3]].
    repeat split; try assumption.
    intros t Ht. apply Hsub. apply similar_in. now apply H3.
Qed.

Lemma select_image_sound (tm : TokenManager) (force : bool)
    (r : result ProxyToken) (tm' : TokenManager) :
  select_image tm force = (r, tm') ->
  _tokens tm' = _tokens tm /\ _last_used tm' = _last_used tm
  /\ forall t, r = Ok t -> In t (_tokens tm).
Proof.
  unfold select_image.
  destruct force; [apply round_robin_sound|].
  destruct (filter is_pro (_tokens tm)) as [|p pro] eqn:EP; [apply round_robin_sound|].
  assert (Hsub : forall t, In t (p :: pro) -> In t (_tokens tm)).
  { intros t Ht. rewrite <- EP in Ht. apply filter_In in Ht. tauto. }
  destruct (sort_desc (filter has_quota (p :: pro))) as [|best rest] eqn:ES.
  - intros H. apply round_robin_sound in H. destruct H as [H1 [H2 H3]].
    repeat split; try assumption. intros t Ht. apply Hsub. now apply H3.
  - intros H. injection H as <- <-. repeat split.
    intros t Ht. injection Ht as <-. apply Hsub.
    assert (In best (best :: rest)) as Hb by now left.
    rewrite <- ES in Hb. apply (proj1 (sort_desc_in _ _)) in Hb. apply filter_In in Hb. tauto.
Qed.

(** Selection leaves the pool alone and selects one of its tokens. *)
Lemma select_token_sound (tm : TokenManager) (qg : string) (force : bool) (w : World)
    (r : result ProxyToken) (tm1 : TokenManager) :
  select_token tm qg force w = (r, tm1) ->
  _tokens tm1 = _tokens tm /\ forall t, r = Ok t -> In t (_tokens tm).
Proof.
  unfold select_token.
  destruct (sticky tm qg force (t_sticky w)) as [s|] eqn:ES.
  - intros H. injection H as <- <-. split; [reflexivity|].
    intros t Ht. injection Ht as <-.
    unfold sticky in ES.
    destruct (negb force && negb (String.eqb qg "image_gen")); [|discriminate].
    destruct (_last_used tm) as [[last_id last_time]|]; [|discriminate].
    destruct (Qlt_bool (t_sticky w - last_time) 60); [|discriminate].
    now apply lookup_some in ES.
  - destruct (String.eqb qg "image_gen").
    + intros H. apply select_image_sound in H. tauto.
    + destruct (select_normal tm) as [[sel|e] tm'] eqn:EN;
        apply select_normal_sound in EN; destruct EN as [H1 [H2 H3]];
        intros H; injection H as <- <-; simpl; split; try assumption;
        intros t Ht; try discriminate; now apply H3.
Qed.

(** After a selection for a quota group other than [image_gen], the sticky
    pair names the selected token; a fresh selection stamps it with the
    reading of the clock. *)
Lemma select_token_sticky_pair (tm : TokenManager) (qg : string) (force : bool) (w : World)
    (sel : ProxyToken) (tm1 : TokenManager) :
  qg <> "image_gen" ->
  select_token tm qg force w = (Ok sel, tm1) ->
  exists last_time,
    _last_used tm1 = Some (account_id sel, last_time)
    /\ (sticky tm qg force (t_sticky w) = None -> last_time = t_select w).
Proof.
  intros Hqg. apply String.eqb_neq in Hqg.
  unfold select_token.
  destruct (sticky tm qg force (t_sticky w)) as [s|] eqn:ES.
  - intros H. injection H as <- <-.
    unfold sticky in ES.
    destruct (negb force && negb (String.eqb qg "image_gen")); [|discriminate].
    destruct (_last_used tm) as [[last_id last_time]|]; [|discriminate].
    destruct (Qlt_bool (t_sticky w - last_time) 60); [|discriminate].
    apply lookup_some in ES. destruct ES as [_ ->].
    exists last_time. split; [reflexivity | discriminate].
  - rewrite Hqg.
    destruct (select_normal tm) as [[s|e] tm']; intros H; [|discriminate].
    injection H as <- <-. simpl. eauto.
Qed.

(** ** Refresh and metadata *)

Lemma refresh_token_sound (tm : TokenManager) (token : ProxyToken) (w : World)
    (r : result ProxyToken) (tm' : TokenManager) (calls : list call) :
  In token (_tokens tm) ->
  _refresh_token tm token w = (r, tm', calls) ->
  map account_id (_tokens tm') = map account_id (_tokens tm)
  /\ _last_used tm' = _last_used tm
  /\ (forall c, In c calls -> c = CallRefresh (account_id token))
  /\ forall t, r = Ok t ->
       In t (_tokens tm')
       /\ account_id t = account_id token /\ email t = email token
       /\ refresh_token t = refresh_token token
       /\ project_id t = project_id token.
Proof.
  intros Hin. unfold _refresh_token.
  destruct (Qfloor (t_refresh w) <? expiry_timestamp token - 300)%Z.
  { intros H. injection H as <- <- <-. repeat split; try tauto.
    - intros c [].
    - injection H as <-. exact Hin.
    - now injection H as <-.
    - now injection H as <-.
    - now injection H as <-.
    - now injection H as <-. }
  destruct (refresh_access_token (refresh_token token) (refresh_reply w)) as [new|e].
  - set (token' := set_refreshed token new (Qfloor (t_refresh w))).
    assert (Hmem : In token' (store token' (_tokens tm))).
    { eapply store_member; [exact Hin | reflexivity]. }
    destruct (save_token_reply w); intros H; injection H as <- <- <-; simpl;
      rewrite store_keys; repeat split; try tauto;
      try (intros c [<- | []]; reflexivity);
      try (intros; discriminate);
      try (injection H as <-; try exact Hmem; reflexivity).
  - intros H. injection H as <- <- <-. repeat split; try tauto;
      try (intros c [<- | []]; reflexivity); intros; discriminate.
Qed.

Lemma fetch_metadata_sound (tm : TokenManager) (token : ProxyToken)
    (reply : http_result) (saved : db_result)
    (t : ProxyToken) (tm' : TokenManager) (calls : list call) :
  In token (_tokens tm) ->
  _fetch_metadata tm token reply saved = (t, tm', calls) ->
  map account_id (_tokens tm') = map account_id (_tokens tm)
  /\ _last_used tm' = _last_used tm
  /\ calls = [CallMetadata (account_id token)]
  /\ _tokens tm' = store t (_tokens tm)
  /\ In t (_tokens tm')
  /\ account_id t = account_id token /\ email t = email token
  /\ refresh_token t = refresh_token token
  /\ access_token t = access_token token
  /\ expiry_timestamp t = expiry_timestamp token.
Proof.
  intros Hin. unfold _fetch_metadata. intros H. injection H as <- <- <-.
  simpl. rewrite store_keys.
  assert (E : forall t0, account_id t0 = account_id token -> In t0 (store t0 (_tokens tm))).
  { intros t0 E0. eapply store_member; [exact Hin | now symmetry]. }
  destruct (fetch_account_info (access_token token) reply) as [[pid tier]|e];
    [destruct saved|]; simpl; repeat split; apply E; reflexivity.
Qed.

(** ** Acquisition *)

(** The path of a successful [get_token] call. *)
Lemma get_token_entry_ok (tm : TokenManager) (qg : string) (force : bool) (w : World)
    (tok : ProxyToken) (tm' : TokenManager) (calls : list call) :
  get_token_entry tm qg force w = (Ok tok, tm', calls) ->
  exists sel tm1 ref tm2 calls2,
    select_token tm qg force w = (Ok sel, tm1)
    /\ (((expiry_timestamp sel - 300 <=? Qfloor (t_check w))%Z = true
         /\ _refresh_token tm1 sel w = (Ok ref, tm2, calls2))
        \/ ((expiry_timestamp sel - 300 <=? Qfloor (t_check w))%Z = false
            /\ ref = sel /\ tm2 = tm1 /\ calls2 = []))
    /\ ((str_truthy (project_id ref) = false
         /\ exists calls3,
             _fetch_metadata tm2 ref (metadata_reply w) (save_metadata_reply w)
             = (tok, tm', calls3)
             /\ calls = (calls2 ++ calls3)%list)
        \/ (str_truthy (project_id ref) = true
            /\ tok = ref /\ tm' = tm2 /\ calls = calls2)).
Proof.
  unfold get_token_entry.
  destruct (_tokens tm) as [|t0 pool]; [discriminate|].
  destruct (select_token tm qg force w) as [[sel|e] tm1]; [|discriminate].
  intros H. exists sel, tm1.
  destruct (expiry_timestamp sel - 300 <=? Qfloor (t_check w))%Z.
  - destruct (_refresh_token tm1 sel w) as [[[ref|e] tm2] calls2]; [|discriminate].
    exists ref, tm2, calls2. split; [reflexivity|]. split; [left; auto|].
    destruct (str_truthy (project_id ref)); cbn [negb] in H.
    + right. injection H as <- <- <-. auto.
    + left. split; [reflexivity|].
      destruct (_fetch_metadata tm2 ref (metadata_reply w) (save_metadata_reply w))
        as [[t3 tm3] calls3].
      injection H as <- <- <-. eexists. split; reflexivity.
  - exists sel, tm1, []. split; [reflexivity|]. split; [right; auto|].
    destruct (str_truthy (project_id sel)); cbn [negb] in H.
    + right. injection H as <- <- <-. auto.
    + left. split; [reflexivity|].
      destruct (_fetch_metadata tm1 sel (metadata_reply w) (save_metadata_reply w))
        as [[t3 tm3] calls3].
      injection H as <- <- <-. eexists. split; reflexivity.
Qed.

(** A successful call returns a token of the pool it leaves behind, the
    one that was selected, with the same identity. *)
Lemma get_token_entry_sound (tm : TokenManager) (qg : string) (force : bool) (w : World)
    (tok : ProxyToken) (tm' : TokenManager) (calls : list call) :
  get_token_entry tm qg force w = (Ok tok, tm', calls) ->
  exists sel tm1,
    select_token tm qg force w = (Ok sel, tm1)
    /\ In sel (_tokens tm)
    /\ map account_id (_tokens tm') = map account_id (_tokens tm)
    /\ _last_used tm' = _last_used tm1
    /\ In tok (_tokens tm')
    /\ account_id tok = account_id sel
    /\ email tok = email sel
    /\ refresh_token tok = refresh_token sel.
Proof.
  intros H. apply get_token_entry_ok in H.
  destruct H as (sel & tm1 & ref & tm2 & calls2 & Hsel & Href & Hmeta).
  exists sel, tm1. split; [exact Hsel|].
  pose proof (select_token_sound _ _ _ _ _ _ Hsel) as [Hpool Hin].
  specialize (Hin sel eq_refl).
  assert (Hin1 : In sel (_tokens tm1)) by now rewrite Hpool.
  split; [exact Hin|].
  assert (R : map account_id (_tokens tm2) = map account_id (_tokens tm)
              /\ _last_used tm2 = _last_used tm1
              /\ In ref (_tokens tm2)
              /\ account_id ref = account_id sel /\ email ref = email sel
              /\ refresh_token ref = refresh_token sel).
  { destruct Href as [[_ Hr] | [_ [-> [-> _]]]].
    - pose proof (refresh_token_sound _ _ _ _ _ _ Hin1 Hr) as (K & L & _ & T).
      destruct (T ref eq_refl) as (T1 & T2 & T3 & T4 & _).
      rewrite K, Hpool. repeat split; auto.
    - rewrite Hpool. repeat split; auto. }
  destruct R as (K & L & Iref & A & E & Rt).
  destruct Hmeta as [[_ (calls3 & Hm & _)] | [_ [-> [-> _]]]].
  - pose proof (fetch_metadata_sound _ _ _ _ _ _ _ Iref Hm)
      as (K' & L' & _ & _ & I' & A' & E' & R' & _).
    rewrite K', K, L', L, A', E', R'. repeat split; auto.
  - repeat split; auto.
Qed.

(** ** Expiry of the returned token *)

Lemma above_floor (q : Q) (z : Z) : (Qfloor q < z)%Z -> (q < inject_Z z)%Q.
Proof.
  intros H.
  apply Qlt_le_trans with (inject_Z (Qfloor q + 1)); [apply Qlt_floor|].
  rewrite <- Zle_Qle. lia.
Qed.

Lemma expiry_margin (q : Q) (expiry : Z) :
  (Qfloor q < expiry - 300)%Z -> (q + 300 < inject_Z expiry)%Q.
Proof.
  intros H. apply above_floor in H.
  unfold Z.sub in H. rewrite inject_Z_plus, inject_Z_opp in H.
  change (inject_Z 300) with 300%Q in H. lra.
Qed.

Lemma refresh_token_margin (tm : TokenManager) (token : ProxyToken) (w : World)
    (t : ProxyToken) (tm' : TokenManager) (calls : list call) :
  (forall rt new,
      refresh_access_token rt (refresh_reply w) = Ok new -> (300 < tr_expires_in new)%Z) ->
  _refresh_token tm token w = (Ok t, tm', calls) ->
  (t_refresh w + 300 < inject_Z (expiry_timestamp t))%Q.
Proof.
  intros Hgrant. unfold _refresh_token.
  destruct (Qfloor (t_refresh w) <? expiry_timestamp token - 300)%Z eqn:E.
  - intros H. injection H as <- _ _. apply expiry_margin. lia.
  - destruct (refresh_access_token (refresh_token token) (refresh_reply w)) as [new|e] eqn:ER;
      [|discriminate].
    specialize (Hgrant _ _ ER).
    destruct (save_token_reply w); [discriminate|].
    intros H. injection H as <- _ _. simpl.
    apply expiry_margin. lia.
Qed.

(** C4, as the code has it.  After every successful [get_token] call
    returning [(access_token, project_id, email)], provided that a refresh,
    when one is performed, succeeds with [expires_in > 300] (and that the
    clock does not run backwards during the call), the expiry timestamp of
    the returned token is more than 300 seconds after the reading of the
    clock at the expiry test, and, when the call refreshed, more than 300
    seconds after the reading inside [_refresh_token], which is taken before
    the request is sent.  At a later instant, the return of the call among
    them, the expiry is therefore more than 300 seconds ahead less the time
    that has passed since those readings, and no more is guaranteed. *)
Theorem acquired_token_expires_later (tm : TokenManager) (qg : string) (force : bool)
    (w : World) (tok pid em : string) (tm' : TokenManager) (calls : list call) :
  get_token tm qg force w = (Ok (tok, pid, em), tm', calls) ->
  (t_check w <= t_refresh w)%Q ->
  (forall rt new,
      refresh_access_token rt (refresh_reply w) = Ok new -> (300 < tr_expires_in new)%Z) ->
  exists entry,
    In entry (_tokens tm')
    /\ access_token entry = tok /\ email entry = em
    /\ (t_check w + 300 < inject_Z (expiry_timestamp entry))%Q
    /\ (In (CallRefresh (account_id entry)) calls ->
        (t_refresh w + 300 < inject_Z (expiry_timestamp entry))%Q)
    /\ (forall t_return elapsed : Q,
          (t_return <= t_check w + elapsed)%Q
          \/ (In (CallRefresh (account_id entry)) calls
              /\ t_return <= t_refresh w + elapsed)%Q ->
          (t_return + (300 - elapsed) < inject_Z (expiry_timestamp entry))%Q).
Proof.
  unfold get_token.
  destruct (get_token_entry tm qg force w) as [[[entry|e] tm0] calls0] eqn:EG;
    intros H Hclock Hgrant; [|discriminate].
  injection H as <- _ <- <- <-.
  exists entry.
  pose proof (get_token_entry_sound _ _ _ _ _ _ _ EG) as (_ & _ & _ & _ & _ & _ & Hin & _).
  split; [exact Hin|]. split; [reflexivity|]. split; [reflexivity|].
  assert (M : (t_check w + 300 < inject_Z (expiry_timestamp entry))%Q
              /\ (In (CallRefresh (account_id entry)) calls0 ->
                  (t_refresh w + 300 < inject_Z (expiry_timestamp entry))%Q)).
  { apply get_token_entry_ok in EG.
    destruct EG as (sel & tm1 & ref & tm2 & calls2 & Hsel & Href & Hmeta).
    pose proof (select_token_sound _ _ _ _ _ _ Hsel) as [Hpool Hsin].
    specialize (Hsin sel eq_refl). rewrite <- Hpool in Hsin.
    assert (Hexp : expiry_timestamp entry = expiry_timestamp ref
                   /\ account_id entry = account_id ref
                   /\ (forall c, In c calls0 ->
                                 In c calls2 \/ c = CallMetadata (account_id ref))).
    { destruct Hmeta as [[_ (calls3 & Hm & ->)] | [_ [-> [_ ->]]]].
      - assert (Iref : In ref (_tokens tm2)).
        { destruct Href as [[_ Hr] | [_ [-> [-> _]]]]; [|exact Hsin].
          pose proof (refresh_token_sound _ _ _ _ _ _ Hsin Hr) as (_ & _ & _ & T).
          now destruct (T ref eq_refl). }
        pose proof (fetch_metadata_sound _ _ _ _ _ _ _ Iref Hm)
          as (_ & _ & -> & _ & _ & A & _ & _ & _ & X).
        repeat split; try assumption.
        intros c Hc. apply in_app_or in Hc. destruct Hc as [Hc | [<- | []]]; auto.
      - repeat split. auto. }
    destruct Hexp as (-> & -> & Hcalls).
    destruct Href as [[_ Hr] | [Hfresh [-> [-> ->]]]].
    - pose proof (refresh_token_margin _ _ _ _ _ _ Hgrant Hr) as M.
      split; [lra | intros _; exact M].
    - apply Z.leb_gt in Hfresh.
      split; [apply expiry_margin; lia|].
      intros Hc. apply Hcalls in Hc. destruct Hc as [[] | Hc]. discriminate. }
  destruct M as [M1 M2].
  split; [exact M1|]. split; [exact M2|].
  intros t_return elapsed [Ht | [Hc Ht]].
  - lra.
  - specialize (M2 Hc). lra.
Qed.

Lemma acquired_token_expires_later_witness :
  exists entry,
    In entry (_tokens (snd (fst (get_token one_expired "gemini" false
                                   (world 2000 refreshed offline)))))
    /\ access_token entry = "access-new" /\ email entry = "a@example.com"
    /\ (2000 + 300 < inject_Z (expiry_timestamp entry))%Q
    /\ (In (CallRefresh (account_id entry)) [CallRefresh "a"] ->
        (2000 + 300 < inject_Z (expiry_timestamp entry))%Q)
    /\ (forall t_return elapsed : Q,
          (t_return <= 2000 + elapsed)%Q
          \/ (In (CallRefresh (account_id entry)) [CallRefresh "a"]
              /\ t_return <= 2000 + elapsed)%Q ->
          (t_return + (300 - elapsed) < inject_Z (expiry_timestamp entry))%Q).
Proof.
  apply (acquired_token_expires_later one_expired "gemini" false
           (world 2000 refreshed offline) "access-new" "proj-a" "a@example.com").
  - vm_compute. reflexivity.
  - simpl. lra.
  - intros rt new H. vm_compute in H. injection H as <-. simpl. lia.
Defined.

(** C4 as the specification words it does not hold: the expiry is counted
    from the reading of the clock made before the refresh request is sent.
    A refresh that starts at time 2000, grants 301 seconds and returns one
    second later leaves the returned token exactly 300 seconds from its
    expiry 2301 at the return. *)
Lemma margin_at_return_fails : ~ expires_later_at_return.
Proof.
  intros claim.
  destruct (claim one_expired "gemini" false (world 2000 refreshed_briefly offline) 2001%Q
                  "access-new" "proj-a" "a@example.com"
                  (snd (fst (get_token one_expired "gemini" false
                                       (world 2000 refreshed_briefly offline))))
                  [CallRefresh "a"])
    as (entry & Hin & _ & _ & Hlate).
  - vm_compute. reflexivity.
  - simpl. lra.
  - simpl. lra.
  - intros rt new H. vm_compute in H. injection H as <-. simpl. lia.
  - vm_compute in Hin. destruct Hin as [<- | []].
    vm_compute in Hlate. discriminate Hlate.
Qed.

(** ** Sticky window *)

Lemma Qlt_bool_true (x y : Q) : (x < y)%Q -> Qlt_bool x y = true.
Proof.
  intros H. unfold Qlt_bool.
  destruct (Qle_bool y x) eqn:E; [|reflexivity].
  apply Qle_bool_iff in E. lra.
Qed.

(** C1, as the code has it.  After an acquisition with [force_rotate=false]
    and a quota group other than [image_gen], the sticky pair names the
    returned identity; its time is the time of the last fresh selection (a
    sticky hit does not renew it).  A second such acquisition made less than
    60 seconds after that recorded time, on the pool the first one left,
    returns the same identity. *)
Theorem sticky_window_same_identity (tm : TokenManager) (qg1 qg2 : string) (w1 w2 : World)
    (r1 r2 : string * string * string) (tm1 tm2 : TokenManager) (c1 c2 : list call) :
  well_keyed tm = true ->
  qg1 <> "image_gen" -> qg2 <> "image_gen" ->
  get_token tm qg1 false w1 = (Ok r1, tm1, c1) ->
  get_token tm1 qg2 false w2 = (Ok r2, tm2, c2) ->
  exists last_id last_time,
    _last_used tm1 = Some (last_id, last_time)
    /\ (sticky tm qg1 false (t_sticky w1) = None -> last_time = t_select w1)
    /\ ((t_sticky w2 - last_time < 60)%Q -> snd r2 = snd r1).
Proof.
  intros Hkeys Hq1 Hq2. unfold get_token.
  destruct (get_token_entry tm qg1 false w1) as [[[tok1|e1] tm1'] c1'] eqn:E1;
    intros H1; [|discriminate].
  injection H1 as <- <- <-.
  destruct (get_token_entry tm1' qg2 false w2) as [[[tok2|e2] tm2'] c2'] eqn:E2;
    intros H2; [|discriminate].
  injection H2 as <- <- <-. simpl.
  apply get_token_entry_sound in E1.
  destruct E1 as (sel1 & s1 & Hsel1 & _ & Hk1 & Hl1 & Hin1 & Ha1 & He1 & _).
  destruct (select_token_sticky_pair _ _ _ _ _ _ Hq1 Hsel1) as (lt & Hlt & Hfresh).
  exists (account_id sel1), lt.
  split; [now rewrite Hl1|]. split; [exact Hfresh|].
  intros Hwin.
  apply get_token_entry_sound in E2.
  destruct E2 as (sel2 & s2 & Hsel2 & _ & _ & _ & _ & _ & He2 & _).
  assert (Hst : sticky tm1' qg2 false (t_sticky w2) = Some tok1).
  { unfold sticky. apply String.eqb_neq in Hq2. rewrite Hq2. simpl.
    rewrite Hl1, Hlt. rewrite (Qlt_bool_true _ _ Hwin).
    rewrite <- Ha1. apply lookup_member; [|exact Hin1].
    unfold well_keyed in Hkeys. now rewrite Hk1. }
  unfold select_token in Hsel2. rewrite Hst in Hsel2.
  injection Hsel2 as <- _. now rewrite He2.
Qed.

Lemma sticky_window_same_identity_witness :
  exists last_id last_time,
    _last_used two_plain_used = Some (last_id, last_time)
    /\ (sticky two_plain "gemini" false (t_sticky (quiet 0)) = None
        -> last_time = t_select (quiet 0))
    /\ ((t_sticky (quiet 59) - last_time < 60)%Q
        -> snd ("access-a", "proj-a", "a@example.com")
           = snd ("access-a", "proj-a", "a@example.com")).
Proof.
  apply (sticky_window_same_identity two_plain "gemini" "claude" (quiet 0) (quiet 59)
           ("access-a", "proj-a", "a@example.com") ("access-a", "proj-a", "a@example.com")
           two_plain_used two_plain_used [] []).
  - reflexivity.
  - discriminate.
  - discriminate.
  - vm_compute. reflexivity.
  - vm_compute. reflexivity.
Defined.

(** C1 as the specification words it does not hold: a call at time 50 is a
    sticky hit on the selection made at time 0, and a call at time 70, 20
    seconds later, finds the window of that selection closed and moves on to
    the next account. *)
Lemma sticky_within_60s_fails : ~ sticky_within_60s_of_previous_call.
Proof.
  intros claim.
  assert (K := claim two_plain_used "gemini" "gemini" (quiet 50) (quiet 70) 50%Q 70%Q
                 ("access-a", "proj-a", "a@example.com")
                 ("access-b", "proj-b", "b@example.com")
                 (snd (fst (get_token two_plain_used "gemini" false (quiet 50))))
                 (snd (fst (get_token
                              (snd (fst (get_token two_plain_used "gemini" false (quiet 50))))
                              "gemini" false (quiet 70))))
                 [] []).
  assert (E : snd ("access-a", "proj-a", "a@example.com")
              = snd ("access-b", "proj-b", "b@example.com")).
  { apply K.
    - reflexivity.
    - discriminate.
    - discriminate.
    - repeat split.
    - repeat split.
    - unfold Qle. simpl. lia.
    - unfold Qlt. simpl. lia.
    - vm_compute. reflexivity.
    - vm_compute. reflexivity.
    - reflexivity.
    - reflexivity. }
  discriminate E.
Qed.

(** ** Weighted pick *)

Lemma select_normal_is_from_three (tm : TokenManager) :
  select_normal tm = select_normal_from_three tm.
Proof.
  unfold select_normal, select_normal_from_three.
  destruct (sort_desc (filter has_quota (_tokens tm))) as [|best rest]; [reflexivity|].
  destruct (3 <=? List.length (best :: rest))%nat; simpl; reflexivity.
Qed.

Lemma similar_spec (best : ProxyToken) (rest : list ProxyToken) (t : ProxyToken) :
  In t (similar (best :: rest))
  <-> In t (firstn 3 (best :: rest))
      /\ (band_floor (quota_key best) <= quota_key t)%Q.
Proof.
  unfold similar. rewrite filter_In. now rewrite Qle_bool_iff.
Qed.

Lemma nth_error_mod {A : Type} (l : list A) (i : nat) :
  (0 < List.length l)%nat -> exists x, nth_error l (i mod List.length l) = Some x.
Proof.
  intros Hlen.
  destruct (nth_error l (i mod List.length l)) as [x|] eqn:E; [now exists x|].
  apply nth_error_None in E.
  pose proof (Nat.mod_upper_bound i (List.length l)). lia.
Qed.

(** C2, as the code has it.  In a non-sticky acquisition for a quota group
    other than [image_gen], with [S] the entries whose score is set and above
    0.05, sorted by score descending, and [S] not empty: [S] holds exactly
    the scored entries of the pool, in descending order of score, so its
    head has the highest score of them.  The tie band is the list of the
    entries among the first three of [S], in the order of [S], whose score
    is at least the float product [top * 0.9] of the top score, a product
    and a comparison of doubles.  When [S] has at least three entries and
    the band more than one, the pick is the entry of the band at the shared
    counter modulo the size of the band, and the counter advances by one;
    in every other case, in particular whenever [S] has one or two entries,
    the pick is the head of [S] and the counter stays.  Either way the pool
    is unchanged and the sticky pair records the pick. *)
Theorem weighted_pick_tie_band (tm : TokenManager) (qg : string) (force : bool) (w : World)
    (best : ProxyToken) (rest : list ProxyToken) :
  qg <> "image_gen" ->
  sticky tm qg force (t_sticky w) = None ->
  sort_desc (filter has_quota (_tokens tm)) = best :: rest ->
  let S := best :: rest in
  let band := ((3 <=? List.length S)%nat && (1 <? List.length (similar S))%nat)%bool in
  (forall t, In t S <-> In t (_tokens tm) /\ has_quota t = true)
  /\ descending S
  /\ (forall t, In t (_tokens tm) -> has_quota t = true ->
                (quota_key t <= quota_key best)%Q)
  /\ similar S
     = filter (fun t => Qle_bool (double (quota_key best * double (9 # 10))) (quota_key t))
              (firstn 3 S)
  /\ (forall t, In t (similar S)
                <-> In t (firstn 3 S)
                    /\ (double (quota_key best * double (9 # 10)) <= quota_key t)%Q)
  /\ fst (select_token tm qg force w)
     = (if band then fst (round_robin tm (similar S)) else Ok best)
  /\ exists selected,
       (if band
        then nth_error (similar S) (_current_index tm mod List.length (similar S))
             = Some selected
        else selected = best)
       /\ select_token tm qg force w
          = (Ok selected,
             {| _tokens := _tokens tm;
                _current_index := if band then (1 + _current_index tm)%nat
                                  else _current_index tm;
                _last_used := Some (account_id selected, t_select w) |}).
Proof.
  intros Hqg Hst HS S band.
  assert (Hsel : select_token tm qg force w
                 = match select_normal_from_three tm with
                   | (Ok selected, tm') =>
                       (Ok selected,
                        {| _tokens := _tokens tm';
                           _current_index := _current_index tm';
                           _last_used := Some (account_id selected, t_select w) |})
                   | (Raise e, tm') => (Raise e, tm')
                   end).
  { unfold select_token. rewrite Hst.
    apply String.eqb_neq in Hqg. rewrite Hqg.
    now rewrite select_normal_is_from_three. }
  unfold select_normal_from_three in Hsel. rewrite HS in Hsel.
  fold S in Hsel. fold band in Hsel.
  split; [|split; [|split; [|split; [|split; [|split]]]]].
  - intros t. unfold S. rewrite <- HS, sort_desc_in, filter_In. tauto.
  - unfold S. rewrite <- HS. apply sort_desc_descending.
  - intros t Hin Hq. eapply sort_desc_head_max; [exact HS|].
    apply filter_In. auto.
  - reflexivity.
  - intros t. apply similar_spec.
  - rewrite Hsel. destruct band.
    + destruct (round_robin tm (similar S)) as [[sel|e] tm']; reflexivity.
    + reflexivity.
  - rewrite Hsel. destruct band eqn:Eband.
    + apply andb_true_iff in Eband. destruct Eband as [_ Hlen].
      apply Nat.ltb_lt in Hlen.
      destruct (nth_error_mod (similar S) (_current_index tm)) as [x Hx]; [lia|].
      exists x. split; [exact Hx|].
      unfold round_robin. rewrite Hx. reflexivity.
    + exists best. split; reflexivity.
Qed.

Lemma weighted_pick_tie_band_witness :
  let a := account "a" 100000 (Some "proj-a") (Some (8 # 10)%Q) in
  let b := account "b" 100000 (Some "proj-b") (Some (75 # 100)%Q) in
  let c := account "c" 100000 (Some "proj-c") (Some (2 # 10)%Q) in
  let S := [a; b; c] in
  (similar S = [a; b]
   /\ select_token three_scored "gemini" true (quiet 0)
      = (Ok a, {| _tokens := S; _current_index := 1;
                  _last_used := Some ("a", t_select (quiet 0)) |}))
  /\ (forall t, In t S <-> In t (_tokens three_scored) /\ has_quota t = true)
  /\ descending S
  /\ (forall t, In t (_tokens three_scored) -> has_quota t = true ->
                (quota_key t <= quota_key a)%Q)
  /\ similar S
     = filter (fun t => Qle_bool (double (quota_key a * double (9 # 10))) (quota_key t))
              (firstn 3 S)
  /\ (forall t, In t (similar S)
                <-> In t (firstn 3 S)
                    /\ (double (quota_key a * double (9 # 10)) <= quota_key t)%Q)
  /\ fst (select_token three_scored "gemini" true (quiet 0))
     = fst (round_robin three_scored (similar S))
  /\ exists selected,
       nth_error (similar S) 0 = Some selected
       /\ select_token three_scored "gemini" true (quiet 0)
          = (Ok selected,
             {| _tokens := S; _current_index := 1;
                _last_used := Some (account_id selected, t_select (quiet 0)) |}).
Proof.
  split; [split; vm_compute; reflexivity|].
  apply (weighted_pick_tie_band three_scored "gemini" true (quiet 0)).
  - discriminate.
  - reflexivity.
  - vm_compute. reflexivity.
Defined.

(** The band is taken on doubles.  The float product [0.8 * 0.9] is
    0.7200000000000001, above the double of 0.72: an entry of score 0.72
    under a top score of 0.8 is outside the band, the head is picked and the
    counter stays, though nine tenths of eight tenths are 0.72. *)
Example band_edge_rounds_up :
  ((8 # 10) * (9 # 10) <= 72 # 100)%Q
  /\ Qle_bool (band_floor (double (8 # 10))) (double (72 # 100)) = false
  /\ select_normal band_edge_up
     = (Ok (account "a" 100000 (Some "proj-a") (Some (8 # 10)%Q)), band_edge_up).
Proof.
  split; [unfold Qle; simpl; lia|]. split; vm_compute; reflexivity.
Qed.

(** The float product [0.503 * 0.9] rounds down onto the double of 0.4527,
    which is below nine tenths of the double of 0.503: the entry of score
    0.4527 is in the band, and the pick rotates. *)
Example band_edge_rounds_down :
  (double (4527 # 10000) < double (503 # 1000) * (9 # 10))%Q
  /\ Qle_bool (band_floor (double (503 # 1000))) (double (4527 # 10000)) = true
  /\ select_normal band_edge_down
     = (Ok (account "b" 100000 (Some "proj-b") (Some (4527 # 10000)%Q)),
        {| _tokens := _tokens band_edge_down; _current_index := 2; _last_used := None |}).
Proof.
  split; [unfold Qlt; vm_compute; reflexivity|]. split; vm_compute; reflexivity.
Qed.

(** The rounding is that of Python on the literals of the sources and on
    the two products above. *)
Example double_of_literals :
  double (9 # 10) = (8106479329266893 # 9007199254740992)%Q
  /\ double (5 # 100) = (3602879701896397 # 72057594037927936)%Q
  /\ double (double (8 # 10) * double (9 # 10))
     = (6485183463413515 # 9007199254740992)%Q
  /\ double (double (503 # 1000) * double (9 # 10))
     = (4077559102621247 # 9007199254740992)%Q
  /\ double (double (8 # 10)) = double (8 # 10)
  /\ double (- (1 # 10)) = (- double (1 # 10))%Q
  /\ double (1 # 10 ^ 400) = 0%Q.
Proof. repeat split; vm_compute; reflexivity. Qed.

(** C2 as the specification words it does not hold: with two entries of
    equal score and the counter at 1, the code picks the first entry, while
    a tie band that applied whatever the size of [S] would pick the second
    and advance the counter. *)
Lemma tie_band_needs_three :
  select_normal two_tied <> select_normal_as_specified two_tied.
Proof.
  intros H.
  assert (E : match fst (select_normal two_tied) with
              | Ok t => account_id t
              | Raise _ => ""
              end
              = match fst (select_normal_as_specified two_tied) with
                | Ok t => account_id t
                | Raise _ => ""
                end) by now rewrite H.
  vm_compute in E. discriminate E.
Qed.

(** ** Refresh token *)

Lemma dict_get_set (k : string) (v : json) (d : list (string * json)) :
  dict_get k (dict_set k v d) = Some v.
Proof.
  induction d as [|[k' v'] d IH]; simpl.
  - now rewrite String.eqb_refl.
  - destruct (String.eqb k k') eqn:E; simpl.
    + now rewrite String.eqb_refl.
    + now rewrite E.
Qed.

Lemma dict_get_set_other (k k0 : string) (v : json) (d : list (string * json)) :
  k0 <> k -> dict_get k0 (dict_set k v d) = dict_get k0 d.
Proof.
  intros Hne. apply String.eqb_neq in Hne.
  induction d as [|[k' v'] d IH]; simpl.
  - now rewrite Hne.
  - destruct (String.eqb k k') eqn:E; simpl.
    + apply String.eqb_eq in E. subst k'. now rewrite Hne.
    + now rewrite IH.
Qed.

Lemma store_same_field {A : Type} (f : ProxyToken -> A) (token' token : ProxyToken)
    (pool : list ProxyToken) :
  keys_distinct (map account_id pool) = true ->
  In token pool ->
  account_id token' = account_id token ->
  f token' = f token ->
  map f (store token' pool) = map f pool.
Proof.
  intros Hd Hin Hid Hf. unfold store. rewrite map_map.
  apply map_ext_in. intros t Ht.
  destruct (String.eqb (account_id t) (account_id token')) eqn:E; [|reflexivity].
  apply String.eqb_eq in E. rewrite Hid in E.
  rewrite (same_key_same_token pool t token Hd Ht Hin E). exact Hf.
Qed.

(** C8. A refresh whose 2xx reply omits [refresh_token] retains the prior
    refresh token: the token record [refresh_access_token] returns carries
    the refresh token the request was made with (and a well-formed 200 reply
    does return a record), and whatever the refresh does, the refresh tokens
    of the pool entries are the same after it as before. *)
Theorem refresh_keeps_refresh_token (tm : TokenManager) (token : ProxyToken) (w : World)
    (status : Z) (text : string) (json_data : list (string * json)) :
  well_keyed tm = true ->
  In token (_tokens tm) ->
  refresh_reply w = Response status text (Some (JDict json_data)) ->
  (200 <= status < 300)%Z ->
  dict_has "refresh_token" json_data = false ->
  (forall new,
      refresh_access_token (refresh_token token) (refresh_reply w) = Ok new ->
      tr_refresh_token new = Some (refresh_token token))
  /\ (forall parsed,
         status = 200%Z ->
         TokenResponse_of json_data = Ok parsed ->
         exists new,
           refresh_access_token (refresh_token token) (refresh_reply w) = Ok new
           /\ tr_access_token new = tr_access_token parsed
           /\ tr_expires_in new = tr_expires_in parsed)
  /\ (forall r tm' calls,
         _refresh_token tm token w = (r, tm', calls) ->
         map refresh_token (_tokens tm') = map refresh_token (_tokens tm)
         /\ map account_id (_tokens tm') = map account_id (_tokens tm)
         /\ forall t, r = Ok t -> refresh_token t = refresh_token token).
Proof.
  intros Hkeys Hin Hreply Hstatus Hmissing.
  split; [|split].
  - intros new. rewrite Hreply. unfold refresh_access_token.
    destruct (status =? 200)%Z; [|discriminate].
    rewrite Hmissing. cbn [negb]. unfold TokenResponse_of.
    rewrite dict_get_set. cbn [opt_str_field].
    destruct (dict_get "access_token" _) as [[| | | |s| |]|]; try discriminate.
    destruct (dict_get "expires_in" _) as [[| |n| | | |]|]; try discriminate.
    destruct (dict_get "token_type" _) as [[| | | |ty| |]|]; try discriminate;
      (destruct (opt_str_field (dict_get "scope" _)) as [scope|e]; [|discriminate]);
      intros H; injection H as <-; reflexivity.
  - intros parsed -> Hparsed. rewrite Hreply. unfold refresh_access_token.
    rewrite Z.eqb_refl, Hmissing. cbn [negb].
    revert Hparsed. unfold TokenResponse_of.
    rewrite dict_get_set. rewrite !dict_get_set_other by discriminate.
    cbn [opt_str_field].
    destruct (dict_get "access_token" json_data) as [[| | | |s| |]|]; try discriminate.
    destruct (dict_get "expires_in" json_data) as [[| |n| | | |]|]; try discriminate.
    destruct (dict_get "token_type" json_data) as [[| | | |ty| |]|]; try discriminate.
    all: destruct (dict_get "refresh_token" json_data) as [[| | | |rt| |]|];
      try discriminate.
    all: destruct (dict_get "scope" json_data) as [[| | | |scope| |]|];
      try discriminate.
    all: intros H; injection H as <-; eexists; (split; [reflexivity|]); split; reflexivity.
  - intros r tm' calls. unfold _refresh_token.
    destruct (Qfloor (t_refresh w) <? expiry_timestamp token - 300)%Z.
    { intros H. injection H as <- <- <-. repeat split.
      intros t Ht. now injection Ht as <-. }
    destruct (refresh_access_token (refresh_token token) (refresh_reply w)) as [new|e].
    + assert (Hpool : map refresh_token
                        (store (set_refreshed token new (Qfloor (t_refresh w))) (_tokens tm))
                      = map refresh_token (_tokens tm)).
      { apply store_same_field with (token := token); auto. }
      destruct (save_token_reply w); intros H; injection H as <- <- <-; simpl;
        rewrite store_keys; repeat split; try exact Hpool;
        intros t Ht; try discriminate. now injection Ht as <-.
    + intros H. injection H as <- <- <-. repeat split. intros t Ht. discriminate.
Qed.

Lemma refresh_keeps_refresh_token_witness :
  let token := account "a" 1000 (Some "proj-a") None in
  let w := world 2000 refreshed offline in
  (forall new,
      refresh_access_token (refresh_token token) (refresh_reply w) = Ok new ->
      tr_refresh_token new = Some (refresh_token token))
  /\ (forall parsed,
         200%Z = 200%Z ->
         TokenResponse_of refresh_body = Ok parsed ->
         exists new,
           refresh_access_token (refresh_token token) (refresh_reply w) = Ok new
           /\ tr_access_token new = tr_access_token parsed
           /\ tr_expires_in new = tr_expires_in parsed)
  /\ (forall r tm' calls,
         _refresh_token one_expired token w = (r, tm', calls) ->
         map refresh_token (_tokens tm') = map refresh_token (_tokens one_expired)
         /\ map account_id (_tokens tm') = map account_id (_tokens one_expired)
         /\ forall t, r = Ok t -> refresh_token t = refresh_token token).
Proof.
  apply (refresh_keeps_refresh_token one_expired (account "a" 1000 (Some "proj-a") None)
           (world 2000 refreshed offline) 200 "" refresh_body).
  - reflexivity.
  - simpl. now left.
  - reflexivity.
  - lia.
  - reflexivity.
Defined.

(** ** Metadata fetch and the fallback project id *)

Lemma fetch_account_info_total (tok : string) (reply : http_result) :
  exists r, fetch_account_info tok reply = Ok r.
Proof.
  unfold fetch_account_info.
  destruct reply as [status text [[| | | | | |data]|]|msg]; eauto.
  destruct (status =? 200)%Z; eauto.
  destruct (tier_id (dict_get "paidTier" data)) as [[i|]|e]; eauto.
  destruct (tier_id (dict_get "currentTier" data)) as [i|e]; eauto.
Qed.

Lemma fetch_account_info_failed (tok : string) (reply : http_result) :
  metadata_fails reply None = true ->
  fetch_account_info tok reply = Ok (Some fallback_project_id, None).
Proof.
  unfold metadata_fails, fetch_account_info.
  destruct reply as [status text [[| | | | | |data]|]|msg]; try reflexivity.
  rewrite orb_false_r. intros H. apply negb_true_iff in H. now rewrite H.
Qed.

Lemma fetch_metadata_failed (tm : TokenManager) (token : ProxyToken)
    (reply : http_result) (saved : db_result) :
  metadata_fails reply saved = true ->
  project_id (fst (fst (_fetch_metadata tm token reply saved))) = Some fallback_project_id.
Proof.
  intros H. unfold _fetch_metadata. simpl.
  destruct saved as [msg|].
  - destruct (fetch_account_info (access_token token) reply) as [[pid tier]|e]; reflexivity.
  - now rewrite (fetch_account_info_failed _ _ H).
Qed.

(** C7, as the code has it.  For every access token, [fetch_account_info]
    never fails: on every reply whose status is not 200 and on every
    transport error it returns the fallback project id with no tier, and
    [_fetch_metadata] then leaves the fallback project id in the token. *)
Theorem metadata_fetch_falls_back (tok : string) (reply : http_result) :
  metadata_fails reply None = true ->
  fetch_account_info tok reply = Ok (Some fallback_project_id, None)
  /\ (forall other, exists r, fetch_account_info tok other = Ok r)
  /\ (forall tm token saved,
         project_id (fst (fst (_fetch_metadata tm token reply saved)))
         = Some fallback_project_id).
Proof.
  intros H. split; [now apply fetch_account_info_failed|].
  split; [intros other; apply fetch_account_info_total|].
  intros tm token saved. apply fetch_metadata_failed.
  unfold metadata_fails in *. rewrite orb_false_r in H. now rewrite H.
Qed.

Lemma metadata_fetch_falls_back_witness :
  fetch_account_info "access-a" (Response 503 "unavailable" None)
  = Ok (Some fallback_project_id, None)
  /\ (forall other, exists r, fetch_account_info "access-a" other = Ok r)
  /\ (forall tm token saved,
         project_id (fst (fst (_fetch_metadata tm token
                                  (Response 503 "unavailable" None) saved)))
         = Some fallback_project_id).
Proof.
  apply (metadata_fetch_falls_back "access-a" (Response 503 "unavailable" None)).
  reflexivity.
Defined.

(** C7 as the specification words it does not hold: a 500 reply yields the
    fallback pair, not a failure. *)
Lemma metadata_fetch_does_not_fail : ~ metadata_fetch_fails_as_specified.
Proof.
  intros [claim _].
  destruct (claim "access-a" 500%Z "internal error" None eq_refl) as [e H].
  discriminate H.
Qed.

Lemma pinned_store (id : string) (tm : TokenManager) (token : ProxyToken) :
  pinned id tm ->
  (account_id token = id -> project_id token = Some fallback_project_id) ->
  pinned id (with_pool tm (store token (_tokens tm))).
Proof.
  intros Hp Ht t Hin Hid. simpl in Hin.
  apply store_inv in Hin. destruct Hin as [-> | [Hin _]]; auto.
Qed.

Lemma refresh_token_pinned (id : string) (tm : TokenManager) (token : ProxyToken) (w : World)
    (r : result ProxyToken) (tm' : TokenManager) (calls : list call) :
  pinned id tm -> In token (_tokens tm) ->
  _refresh_token tm token w = (r, tm', calls) ->
  pinned id tm' /\ ~ In (CallMetadata id) calls.
Proof.
  intros Hp Hin. unfold _refresh_token.
  destruct (Qfloor (t_refresh w) <? expiry_timestamp token - 300)%Z.
  { intros H. injection H as <- <- <-. split; [exact Hp | intros []]. }
  assert (Hnot : ~ In (CallMetadata id) [CallRefresh (account_id token)]).
  { intros [H | []]. discriminate H. }
  destruct (refresh_access_token (refresh_token token) (refresh_reply w)) as [new|e].
  - assert (Hp' : pinned id (with_pool tm
                     (store (set_refreshed token new (Qfloor (t_refresh w))) (_tokens tm)))).
    { apply pinned_store; [exact Hp|]. simpl. intros Hid. now apply Hp. }
    destruct (save_token_reply w); intros H; injection H as <- <- <-; auto.
  - intros H. injection H as <- <- <-. auto.
Qed.

(** A call on a pool where [id] is pinned leaves it pinned, sends no metadata
    request for [id], and returns the fallback when it returns [id]. *)
Lemma get_token_entry_pinned (id : string) (tm : TokenManager) (qg : string) (force : bool)
    (w : World) (r : result ProxyToken) (tm' : TokenManager) (calls : list call) :
  pinned id tm ->
  get_token_entry tm qg force w = (r, tm', calls) ->
  pinned id tm'
  /\ ~ In (CallMetadata id) calls
  /\ forall tok, r = Ok tok -> account_id tok = id ->
                 project_id tok = Some fallback_project_id.
Proof.
  intros Hp. unfold get_token_entry.
  destruct (_tokens tm) as [|t0 pool] eqn:Epool.
  { intros H. injection H as <- <- <-. repeat split; auto. intros; discriminate. }
  destruct (select_token tm qg force w) as [[sel|e] tm1] eqn:Hsel.
  2:{ apply select_token_sound in Hsel. destruct Hsel as [Hpool _].
      intros H. injection H as <- <- <-. repeat split; auto; try discriminate.
      intros t Ht. apply Hp. now rewrite <- Hpool. }
  pose proof (select_token_sound _ _ _ _ _ _ Hsel) as [Hpool Hin].
  specialize (Hin sel eq_refl). rewrite <- Hpool in Hin.
  assert (Hp1 : pinned id tm1) by (intros t Ht; apply Hp; now rewrite <- Hpool).
  assert (Hstep :
    forall refreshed tm2 calls2,
      (if (expiry_timestamp sel - 300 <=? Qfloor (t_check w))%Z
       then _refresh_token tm1 sel w
       else (Ok sel, tm1, [])) = (refreshed, tm2, calls2) ->
      pinned id tm2 /\ ~ In (CallMetadata id) calls2
      /\ forall ref, refreshed = Ok ref ->
           In ref (_tokens tm2)
           /\ (account_id ref = id -> project_id ref = Some fallback_project_id)).
  { intros refreshed tm2 calls2.
    destruct (expiry_timestamp sel - 300 <=? Qfloor (t_check w))%Z.
    - intros Hr.
      pose proof (refresh_token_pinned _ _ _ _ _ _ _ Hp1 Hin Hr) as [P N].
      pose proof (refresh_token_sound _ _ _ _ _ _ Hin Hr) as (_ & _ & _ & T).
      repeat split; auto.
      + now destruct (T ref H).
      + destruct (T ref H) as (_ & A & _ & _ & Pr). rewrite A, Pr. intros Hid. now apply Hp1.
    - intros H. injection H as <- <- <-. repeat split; auto.
      + now injection H as <-.
      + injection H as <-. intros Hid. now apply Hp1. }
  destruct (if (expiry_timestamp sel - 300 <=? Qfloor (t_check w))%Z
            then _refresh_token tm1 sel w
            else (Ok sel, tm1, [])) as [[refreshed tm2] calls2].
  destruct (Hstep refreshed tm2 calls2 eq_refl) as (P2 & N2 & R2).
  destruct refreshed as [ref|e].
  2:{ intros H. injection H as <- <- <-. repeat split; auto. intros; discriminate. }
  destruct (R2 ref eq_refl) as [Iref Fref].
  destruct (str_truthy (project_id ref)) eqn:Etruthy; cbn [negb].
  - intros H. injection H as <- <- <-. repeat split; auto.
    intros tok Htok. injection Htok as <-. exact Fref.
  - assert (Hother : account_id ref <> id).
    { intros Hid. rewrite (Fref Hid) in Etruthy. discriminate Etruthy. }
    destruct (_fetch_metadata tm2 ref (metadata_reply w) (save_metadata_reply w))
      as [[t3 tm3] calls3] eqn:Hm.
    pose proof (fetch_metadata_sound _ _ _ _ _ _ _ Iref Hm)
      as (_ & _ & -> & Hst & _ & A & _).
    intros H. injection H as <- <- <-. repeat split.
    + intros t Ht Hid. rewrite Hst in Ht. apply store_inv in Ht.
      destruct Ht as [-> | [Ht _]]; [congruence | now apply P2].
    + intros Hc. apply in_app_or in Hc. destruct Hc as [Hc | [Hc | []]]; [auto|].
      injection Hc as Hc. auto.
    + intros tok Htok Hid. injection Htok as <-. congruence.
Qed.

Lemma run_pinned (id : string) (events : list event) (tm : TokenManager) :
  forallb is_acquire events = true -> pinned id tm -> pinned id (run tm events).
Proof.
  revert tm. induction events as [|ev events IH]; intros tm Hall Hp; [exact Hp|].
  simpl in Hall. apply andb_true_iff in Hall. destruct Hall as [Hev Hall].
  unfold run. simpl. apply IH; [exact Hall|].
  destruct ev as [qg force w|]; [|discriminate]. simpl.
  destruct (get_token_entry tm qg force w) as [[r tm'] calls] eqn:E.
  now apply (get_token_entry_pinned id) in E.
Qed.

(** C10, as the code has it.  Once the metadata fetch of an acquisition
    fails, the entry's project id in memory is the fallback, and it stays the
    fallback as long as acquisitions are all that runs on the pool: every
    later acquisition that selects the entry returns the fallback project id
    and sends no metadata request for it. *)
Theorem fallback_stays_across_acquisitions
    (tm : TokenManager) (qg : string) (force : bool) (w : World)
    (tok : ProxyToken) (tm1 : TokenManager) (calls : list call)
    (events : list event) (qg' : string) (force' : bool) (w' : World)
    (r : result ProxyToken) (tm2 : TokenManager) (calls' : list call) :
  get_token_entry tm qg force w = (Ok tok, tm1, calls) ->
  In (CallMetadata (account_id tok)) calls ->
  metadata_fails (metadata_reply w) (save_metadata_reply w) = true ->
  forallb is_acquire events = true ->
  get_token_entry (run tm1 events) qg' force' w' = (r, tm2, calls') ->
  project_id tok = Some fallback_project_id
  /\ (forall t, In t (_tokens (run tm1 events)) -> account_id t = account_id tok ->
                project_id t = Some fallback_project_id)
  /\ ~ In (CallMetadata (account_id tok)) calls'
  /\ (forall tok', r = Ok tok' -> account_id tok' = account_id tok ->
                   project_or_fallback tok' = fallback_project_id).
Proof.
  intros Hget Hcall Hfail Hev Hlater.
  apply get_token_entry_ok in Hget.
  destruct Hget as (sel & s1 & ref & s2 & calls2 & Hsel & Href & Hmeta).
  pose proof (select_token_sound _ _ _ _ _ _ Hsel) as [Hpool Hin].
  specialize (Hin sel eq_refl). rewrite <- Hpool in Hin.
  assert (Hcalls2 : ~ In (CallMetadata (account_id tok)) calls2).
  { destruct Href as [[_ Hr] | [_ [_ [_ ->]]]]; [|intros []].
    pose proof (refresh_token_sound _ _ _ _ _ _ Hin Hr) as (_ & _ & C & _).
    intros Hc. apply C in Hc. discriminate Hc. }
  destruct Hmeta as [[_ (calls3 & Hm & ->)] | [_ [_ [_ ->]]]]; [|contradiction].
  assert (Hproj : project_id tok = Some fallback_project_id).
  { pose proof (fetch_metadata_failed s2 ref _ _ Hfail) as F. now rewrite Hm in F. }
  assert (Hst : _tokens tm1 = store tok (_tokens s2)).
  { unfold _fetch_metadata in Hm. injection Hm as <- <- _. reflexivity. }
  assert (Hp1 : pinned (account_id tok) tm1).
  { intros t Ht Hid. rewrite Hst in Ht. apply store_inv in Ht.
    destruct Ht as [-> | [_ Hne]]; [exact Hproj | contradiction]. }
  pose proof (run_pinned _ events tm1 Hev Hp1) as Hp.
  destruct (get_token_entry_pinned _ _ _ _ _ _ _ _ Hp Hlater) as (_ & N & R).
  repeat split; auto.
  intros tok' Hr Hid. unfold project_or_fallback. now rewrite (R tok' Hr Hid).
Qed.

Lemma fallback_stays_across_acquisitions_witness :
  let first := get_token_entry one_without_project "gemini" false (quiet 0) in
  let tok := set_metadata (account "a" 100000 None None) (Some fallback_project_id) None in
  let tm1 := snd (fst first) in
  let events := [Acquire "gemini" true (quiet 10)] in
  let later := get_token_entry (run tm1 events) "claude" false (quiet 20) in
  project_id tok = Some fallback_project_id
  /\ (forall t, In t (_tokens (run tm1 events)) -> account_id t = account_id tok ->
                project_id t = Some fallback_project_id)
  /\ ~ In (CallMetadata (account_id tok)) (snd later)
  /\ (forall tok', fst (fst later) = Ok tok' -> account_id tok' = account_id tok ->
                   project_or_fallback tok' = fallback_project_id).
Proof.
  apply (fallback_stays_across_acquisitions one_without_project "gemini" false (quiet 0)
           (set_metadata (account "a" 100000 None None) (Some fallback_project_id) None)
           (snd (fst (get_token_entry one_without_project "gemini" false (quiet 0))))
           [CallMetadata "a"]
           [Acquire "gemini" true (quiet 10)] "claude" false (quiet 20)
           (fst (fst (get_token_entry
                        (run (snd (fst (get_token_entry one_without_project "gemini" false
                                          (quiet 0))))
                             [Acquire "gemini" true (quiet 10)])
                        "claude" false (quiet 20))))
           (snd (fst (get_token_entry
                        (run (snd (fst (get_token_entry one_without_project "gemini" false
                                          (quiet 0))))
                             [Acquire "gemini" true (quiet 10)])
                        "claude" false (quiet 20))))
           (snd (get_token_entry
                   (run (snd (fst (get_token_entry one_without_project "gemini" false
                                     (quiet 0))))
                        [Acquire "gemini" true (quiet 10)])
                   "claude" false (quiet 20)))).
  - vm_compute. reflexivity.
  - simpl. now left.
  - reflexivity.
  - reflexivity.
  - vm_compute. reflexivity.
Defined.

(** C10 as claimed does not hold: the quota scheduler re-attempts the
    metadata fetch for an entry without a tier, which is how the failed
    fetch left it; when that attempt succeeds, the next acquisition returns
    the fetched project id, not the fallback. *)
Lemma fallback_is_not_permanent : ~ fallback_is_permanent.
Proof.
  intros claim.
  pose (first := get_token_entry one_without_project "gemini" false (quiet 0)).
  pose (tm1 := snd (fst first)).
  pose (later := get_token_entry (run tm1 [QuotaTick quota_tick_ok]) "gemini" false (quiet 700)).
  assert (K := claim one_without_project "gemini" false (quiet 0)
                 (set_metadata (account "a" 100000 None None) (Some fallback_project_id) None)
                 tm1 [CallMetadata "a"]
                 [QuotaTick quota_tick_ok] "gemini" false (quiet 700)
                 (set_metadata (account "a" 100000 None None)
                               (Some "real-project") (Some "PRO"))
                 (snd (fst later)) []).
  assert (E : project_or_fallback
                (set_metadata (account "a" 100000 None None)
                              (Some "real-project") (Some "PRO"))
              = fallback_project_id).
  { apply K.
    - vm_compute. reflexivity.
    - simpl. now left.
    - reflexivity.
    - vm_compute. reflexivity.
    - reflexivity. }
  vm_compute in E. discriminate E.
Qed.

(** ** Finish reason *)

(** What the code computes as finish reason: the upstream [finishReason]
    decides when it is [STOP] or [MAX_TOKENS]; the function calls decide
    only otherwise. *)
Lemma finish_reason_of_response (uuid : nat -> string) (gemini_response : list (string * json))
    (model : string) (resp : OpenAIChatCompletionResponse)
    (candidate : json) (others : list json) (gemini_finish : json) :
  transform_gemini_to_openai uuid gemini_response model = Ok resp ->
  dict_get "candidates" gemini_response = Some (JList (candidate :: others)) ->
  get_or "finishReason" (JStr "") candidate = Ok gemini_finish ->
  finish_reason resp
  = match gemini_finish with
    | JStr f =>
        if String.eqb f "STOP" then "stop"
        else if String.eqb f "MAX_TOKENS" then "length"
        else match resp_tool_calls resp with Some _ => "tool_calls" | None => "stop" end
    | _ => match resp_tool_calls resp with Some _ => "tool_calls" | None => "stop" end
    end.
Proof.
  unfold transform_gemini_to_openai. intros H Hc Hf. rewrite Hc in H.
  cbn [truthy] in H.
  destruct (get_or "content" (JDict []) candidate) as [content_obj|e]; [|discriminate].
  cbn [bind] in H.
  destruct (get_or "parts" (JList []) content_obj) as [[| | | | |parts|]|e];
    try discriminate.
  cbn [bind] in H.
  destruct (collect_parts uuid 1 parts) as [[text_parts function_calls]|e]; [|discriminate].
  cbn [bind] in H.
  rewrite Hf in H.
  destruct (match text_parts with
            | [] => Ok None
            | _ :: _ => s <- join_texts text_parts;; Ok (Some s)
            end) as [content|e]; [|discriminate].
  cbn [bind] in H.
  destruct (usage_field "promptTokenCount" _) as [p|e]; [|discriminate].
  destruct (usage_field "candidatesTokenCount" _) as [c|e]; [|discriminate].
  destruct (usage_field "totalTokenCount" _) as [t|e]; [|discriminate].
  cbn [bind] in H. injection H as <-. cbn [finish_reason resp_tool_calls].
  destruct function_calls; destruct gemini_finish; try reflexivity.
Qed.

(** C5 at a response whose only part is a function call and whose
    [finishReason] is [STOP]: the specification asks for ["tool_calls"], the
    code answers ["stop"], with the tool call in the message. *)
Theorem finish_reason_stop_overrides_tool_calls :
  exists resp call,
    transform_gemini_to_openai (fun _ => "0") function_call_response "gemini-3-flash" = Ok resp
    /\ resp_tool_calls resp = Some [call]
    /\ fc_name (tc_function call) = "get_weather"
    /\ finish_reason resp = "stop".
Proof.
  eexists. eexists. vm_compute. repeat split.
Qed.

(** ** Generation config *)

(** C6 at a request that supplies [max_tokens = 0], [temperature = 0] and
    [top_p = 0]: the upstream config carries the defaults 64000, 1.0 and
    1.0, not the supplied values. *)
Theorem zero_values_become_defaults :
  dict_get "maxOutputTokens" (gen_config zero_request) = Some (JInt 64000)
  /\ dict_get "temperature" (gen_config zero_request) = Some (JFloat 1)
  /\ dict_get "topP" (gen_config zero_request) = Some (JFloat 1).
Proof. repeat split. Qed.

(** Away from zero the config is as specified. *)
Lemma gen_config_nonzero (request : OpenAIRequest) (n : Z) (t p : Q) :
  max_tokens request = Some n -> n <> 0%Z ->
  temperature request = Some t -> ~ (t == 0)%Q ->
  top_p request = Some p -> ~ (p == 0)%Q ->
  dict_get "maxOutputTokens" (gen_config request) = Some (JInt n)
  /\ dict_get "temperature" (gen_config request) = Some (JFloat t)
  /\ dict_get "topP" (gen_config request) = Some (JFloat p).
Proof.
  intros Hn Hn0 Ht Ht0 Hp Hp0.
  assert (Ez : int_or (max_tokens request) 64000 = n).
  { rewrite Hn. simpl. apply Z.eqb_neq in Hn0. now rewrite Hn0. }
  assert (Et : float_or (temperature request) 1 = t).
  { rewrite Ht. simpl. destruct (Qeq_bool t 0) eqn:E; [|reflexivity].
    apply Qeq_bool_iff in E. contradiction. }
  assert (Ep : float_or (top_p request) 1 = p).
  { rewrite Hp. simpl. destruct (Qeq_bool p 0) eqn:E; [|reflexivity].
    apply Qeq_bool_iff in E. contradiction. }
  unfold gen_config. rewrite Ez, Et, Ep.
  destruct (stop request) as [[s|[|x l]]|]; [destruct (negb (String.eqb s ""))| | |];
    (destruct (response_format request) as [ty|]; [destruct (String.eqb ty "json_object")|]);
    repeat split.
Qed.

(** [responseMimeType] is set exactly for [response_format.type = "json_object"]. *)
Lemma gen_config_response_mime (request : OpenAIRequest) :
  dict_get "responseMimeType" (gen_config request)
  = match response_format request with
    | Some ty => if String.eqb ty "json_object" then Some (JStr "application/json") else None
    | None => None
    end.
Proof.
  unfold gen_config.
  destruct (stop request) as [[s|[|x l]]|]; [destruct (negb (String.eqb s ""))| | |];
    (destruct (response_format request) as [ty|]; [destruct (String.eqb ty "json_object")|]);
    reflexivity.
Qed.

Example gen_config_sample :
  gen_config sample_request
  = [("maxOutputTokens", JInt 256); ("temperature", JFloat (7 # 10));
     ("topP", JFloat (9 # 10)); ("stopSequences", JList [JStr "END"]);
     ("responseMimeType", JStr "application/json")].
Proof. reflexivity. Qed.

(** ** Retry dispatcher *)

(** The loop runs at most [remaining] iterations, numbers them from
    [attempt] on, and forces rotation on every iteration but number 0. *)
Lemma retry_loop_trace (proto : Protocol) (stream : bool) (worlds : nat -> AttemptWorld)
    (remaining : nat) :
  forall attempt tm email last_error resp tm' trace,
    retry_loop proto stream worlds remaining attempt tm email last_error = (resp, tm', trace) ->
    (List.length trace <= remaining)%nat
    /\ forall i a, nth_error trace i = Some a ->
         attempt_index a = (attempt + i)%nat
         /\ force_rotate_of a = (0 <? attempt + i)%nat.
Proof.
  induction remaining as [|remaining IH]; intros attempt tm email last_error resp tm' trace.
  - simpl. intros H. injection H as _ _ <-. split; [simpl; lia|].
    intros [|i] a Ha; discriminate Ha.
  - cbn [retry_loop].
    destruct (get_token tm (quota_group proto) (0 <? attempt)%nat
                (acquire_world (worlds attempt))) as [[got tm1] calls].
    set (email1 := match got with Ok (_, _, e) => Some e | Raise _ => email end).
    set (acq := match got with Ok (_, _, em) => Some em | Raise _ => None end).
    assert (Hone : forall resp0 tm0 f,
              (resp0, tm0,
               [{| attempt_index := attempt; force_rotate_of := (0 <? attempt)%nat;
                   acquired := acq; failure := f |}]) = (resp, tm', trace) ->
              (List.length trace <= S remaining)%nat
              /\ forall i a, nth_error trace i = Some a ->
                   attempt_index a = (attempt + i)%nat
                   /\ force_rotate_of a = (0 <? attempt + i)%nat).
    { intros resp0 tm0 f H. injection H as _ _ <-. split; [simpl; lia|].
      intros [|[|i]] a Ha; try discriminate Ha.
      injection Ha as <-. simpl. now rewrite Nat.add_0_r. }
    assert (Hgo : forall e,
              (let '(resp0, tm2, trace0) :=
                 retry_loop proto stream worlds remaining (S attempt) tm1 email1 (Some e) in
               (resp0, tm2,
                {| attempt_index := attempt; force_rotate_of := (0 <? attempt)%nat;
                   acquired := acq; failure := Some e |} :: trace0)) = (resp, tm', trace) ->
              (List.length trace <= S remaining)%nat
              /\ forall i a, nth_error trace i = Some a ->
                   attempt_index a = (attempt + i)%nat
                   /\ force_rotate_of a = (0 <? attempt + i)%nat).
    { intros e.
      destruct (retry_loop proto stream worlds remaining (S attempt) tm1 email1 (Some e))
        as [[resp0 tm2] trace0] eqn:E.
      apply IH in E. destruct E as [Hlen Hidx].
      intros H. injection H as _ _ <-. split; [simpl; lia|].
      intros [|i] a Ha.
      - injection Ha as <-. simpl. now rewrite Nat.add_0_r.
      - simpl in Ha. apply Hidx in Ha.
        replace (attempt + S i)%nat with (S attempt + i)%nat by lia. exact Ha. }
    fold email1 acq.
    destruct (match got with
              | Ok _ =>
                  match built (worlds attempt) with
                  | Some e => Raise e
                  | None =>
                      if stream then Ok None
                      else r <- upstream (worlds attempt) ;; Ok (Some r)
                  end
              | Raise e => Raise e
              end) as [[content|]|[msg|status msg|var|msg]];
      try apply Hone; try (destruct email1; [apply Hgo | apply Hone]).
    destruct email1; [|apply Hone].
    destruct (retry_status status); [apply Hgo | apply Hone].
Qed.

(** The number of attempts of a request, and the rotation flag of each. *)
Lemma dispatch_attempts (proto : Protocol) (stream : bool) (worlds : nat -> AttemptWorld)
    (tm : TokenManager) :
  let trace := snd (dispatch proto stream worlds tm) in
  (List.length trace <= Nat.max (List.length (_tokens tm)) 5)%nat
  /\ forall i a, nth_error trace i = Some a ->
       attempt_index a = i /\ force_rotate_of a = (0 <? i)%nat.
Proof.
  unfold dispatch.
  destruct (retry_loop proto stream worlds (Nat.max (List.length (_tokens tm)) 5) 0 tm None None)
    as [[resp tm'] trace] eqn:E.
  apply retry_loop_trace in E. exact E.
Qed.

Lemma last_of_nonempty {A : Type} (l : list A) (a d d' : A) :
  last (a :: l) d = last (a :: l) d'.
Proof.
  revert a. induction l as [|b l IH]; intros a; [reflexivity|].
  change (last (b :: l) d = last (b :: l) d'). apply IH.
Qed.

Lemma retry_loop_exhausted (proto : Protocol) (stream : bool) (worlds : nat -> AttemptWorld)
    (remaining : nat) :
  forall attempt tm email last_error resp tm' trace,
    retry_loop proto stream worlds remaining attempt tm email last_error = (resp, tm', trace) ->
    Forall rotated trace ->
    (email <> None \/ trace <> []) ->
    List.length trace = remaining
    /\ resp = HTTPException 429
                ("All accounts exhausted: "
                 ++ match last_failure trace last_error with
                    | Some e => exn_str e
                    | None => "None"
                    end).
Proof.
  induction remaining as [|remaining IH]; intros attempt tm email last_error resp tm' trace.
  - simpl. intros H _ [Hemail | Htrace].
    + injection H as <- _ <-. split; [reflexivity|].
      destruct email; [|contradiction]. reflexivity.
    + injection H as _ _ <-. contradiction.
  - cbn [retry_loop].
    destruct (get_token tm (quota_group proto) (0 <? attempt)%nat
                (acquire_world (worlds attempt))) as [[got tm1] calls].
    remember (match got with Ok (_, _, e) => Some e | Raise _ => email end)
      as email1 eqn:Hem.
    set (acq := match got with Ok (_, _, em) => Some em | Raise _ => None end).
    assert (Hbound : email1 = None -> acq = None).
    { subst email1 acq. destruct got as [[[? ?] ?]|]; [discriminate | reflexivity]. }
    assert (Hstop : forall resp0 tm0 f,
              (f = None \/ exists e, f = Some e /\ rotate_eligible e = false) ->
              (resp0, tm0,
               [{| attempt_index := attempt; force_rotate_of := (0 <? attempt)%nat;
                   acquired := acq; failure := f |}]) = (resp, tm', trace) ->
              Forall rotated trace -> False).
    { intros resp0 tm0 f Hf H Hall. injection H as _ _ <-.
      apply Forall_inv in Hall. destruct Hall as [_ [e [He Hr]]]. simpl in He.
      destruct Hf as [-> | [e' [-> Hr']]]; [discriminate|].
      injection He as <-. congruence. }
    assert (Hgo : forall e,
              (let '(resp0, tm2, trace0) :=
                 retry_loop proto stream worlds remaining (S attempt) tm1 email1 (Some e) in
               (resp0, tm2,
                {| attempt_index := attempt; force_rotate_of := (0 <? attempt)%nat;
                   acquired := acq; failure := Some e |} :: trace0)) = (resp, tm', trace) ->
              Forall rotated trace ->
              List.length trace = S remaining
              /\ resp = HTTPException 429
                          ("All accounts exhausted: "
                           ++ match last_failure trace last_error with
                              | Some e => exn_str e
                              | None => "None"
                              end)).
    { intros e.
      destruct (retry_loop proto stream worlds remaining (S attempt) tm1 email1 (Some e))
        as [[resp0 tm2] trace0] eqn:E.
      intros H Hall. injection H as <- _ <-.
      pose proof (Forall_inv Hall) as [Hacq _]. apply Forall_inv_tail in Hall.
      assert (Hemail1 : email1 <> None).
      { intros Hn. apply Hacq. simpl. now apply Hbound. }
      destruct (IH _ _ _ _ _ _ _ E Hall (or_introl Hemail1)) as [Hlen Hresp].
      split; [simpl; now rewrite Hlen|].
      rewrite Hresp. unfold last_failure.
      destruct trace0 as [|a0 trace0]; [reflexivity|].
      cbn [map]. now rewrite (last_of_nonempty _ _ (Some e) last_error). }
    fold acq. intros H Hall _. revert H Hall.
    destruct (match got with
              | Ok _ =>
                  match built (worlds attempt) with
                  | Some e => Raise e
                  | None =>
                      if stream then Ok None
                      else r <- upstream (worlds attempt) ;; Ok (Some r)
                  end
              | Raise e => Raise e
              end) as [[content|]|[msg|status msg|var|msg]].
    + intros H Hall. exfalso. eapply Hstop; eauto.
    + intros H Hall. exfalso. eapply Hstop; eauto.
    + intros H Hall. exfalso. eapply Hstop; [|exact H|exact Hall]. right. eauto.
    + destruct email1.
      * destruct (retry_status status) eqn:Es; [apply Hgo|].
        intros H Hall. exfalso. eapply Hstop; [|exact H|exact Hall]. right. eauto.
      * intros H Hall. exfalso.
        injection H as _ _ <-. apply Forall_inv in Hall. destruct Hall as [Hacq _].
        apply Hacq. simpl. now apply Hbound.
    + intros H Hall. exfalso.
      destruct email1.
      * destruct (retry_loop proto stream worlds remaining (S attempt) tm1 (Some s)
                    (Some (UnboundLocalError var))) as [[resp0 tm2] trace0].
        injection H as _ _ <-. apply Forall_inv in Hall.
        destruct Hall as [_ [e [He Hr]]]. simpl in He. injection He as <-. discriminate Hr.
      * eapply Hstop; [|exact H|exact Hall]. right. eauto.
    + destruct email1; [apply Hgo|].
      intros H Hall. exfalso.
      injection H as _ _ <-. apply Forall_inv in Hall. destruct Hall as [Hacq _].
      apply Hacq. simpl. now apply Hbound.
Qed.

(** When every attempt acquired an identity and then failed with a
    rotate-eligible error, the request is answered 429 with the last error
    message, after exactly [max(pool_size, 5)] attempts. *)
Lemma dispatch_exhausted (proto : Protocol) (stream : bool) (worlds : nat -> AttemptWorld)
    (tm : TokenManager) (resp : http_response) (tm' : TokenManager) (trace : list Attempt) :
  dispatch proto stream worlds tm = (resp, tm', trace) ->
  Forall rotated trace ->
  List.length trace = Nat.max (List.length (_tokens tm)) 5
  /\ exists e,
       last_failure trace None = Some e
       /\ resp = HTTPException 429 ("All accounts exhausted: " ++ exn_str e).
Proof.
  unfold dispatch. intros H Hall.
  assert (Hne : trace <> []).
  { intros ->.
    destruct (Nat.max (List.length (_tokens tm)) 5) as [|n] eqn:En; [lia|].
    cbn [retry_loop] in H.
    destruct (get_token tm (quota_group proto) (0 <? 0)%nat (acquire_world (worlds 0%nat)))
      as [[got tm1] calls].
    destruct (match got with
              | Ok _ =>
                  match built (worlds 0%nat) with
                  | Some e => Raise e
                  | None =>
                      if stream then Ok None
                      else r <- upstream (worlds 0%nat) ;; Ok (Some r)
                  end
              | Raise e => Raise e
              end) as [[content|]|[msg|status msg|var|msg]];
      repeat match type of H with
             | context [match ?x with _ => _ end] => destruct x
             end; discriminate H. }
  destruct (retry_loop_exhausted _ _ _ _ _ _ _ _ _ _ _ H Hall (or_intror Hne)) as [Hlen Hresp].
  split; [exact Hlen|].
  assert (Hlast : exists e, last_failure trace None = Some e).
  { unfold last_failure.
    clear - Hall Hne. induction trace as [|a trace IH]; [contradiction|].
    pose proof (Forall_inv Hall) as [_ [e [He _]]].
    destruct trace as [|b trace].
    - simpl. eauto.
    - apply Forall_inv_tail in Hall.
      destruct (IH Hall) as [e' He']; [discriminate|].
      exists e'. exact He'. }
  destruct Hlast as [e He]. exists e. split; [exact He|].
  rewrite Hresp, He. reflexivity.
Qed.

(** A pool of one account and an upstream that answers 503 every time:
    [max(1, 5) = 5] attempts, rotation forced from the second on, then 429
    with the last error. *)
Example exhaustion_after_five_attempts :
  let unavailable := HTTPStatusError 503 "Server error '503 Service Unavailable'" in
  let run := chat_completions false
               (always (world 2000 refreshed offline) (Raise unavailable)) one_expired in
  fst (fst run)
  = HTTPException 429 "All accounts exhausted: Server error '503 Service Unavailable'"
  /\ map force_rotate_of (snd run) = [false; true; true; true; true]
  /\ map acquired (snd run)
     = [Some "a@example.com"; Some "a@example.com"; Some "a@example.com";
        Some "a@example.com"; Some "a@example.com"].
Proof. vm_compute. repeat split. Qed.

(** An upstream 400 is not retried: the status is handed to the caller. *)
Example fatal_status_is_returned :
  fst (fst (messages false
              (always (quiet 0) (Raise (HTTPStatusError 400 "Client error '400 Bad Request'")))
              two_plain))
  = HTTPException 400 "Upstream error: Client error '400 Bad Request'".
Proof. vm_compute. reflexivity. Qed.

(** An empty pool answers 503. *)
Example empty_pool_is_503 :
  fst (fst (chat_completions false (always (quiet 0) (Ok JNull)) (fresh_manager [])))
  = HTTPException 503 "Token pool is empty. Please add accounts first.".
Proof. vm_compute. reflexivity. Qed.

(** C3 at a pool whose only account holds an expired access token while the
    token endpoint cannot be reached: the first [get_token] raises a
    connection error, a rotate-eligible error; the handler of the error
    reads [email], which no acquisition has bound yet, and the request ends
    with that [UnboundLocalError] after one attempt instead of being retried
    and answered 429. *)
Theorem first_acquire_failure_escapes :
  let run := chat_completions false (always (world 2000 offline offline) (Ok JNull))
               one_expired in
  rotate_eligible (Exception "All connection attempts failed") = true
  /\ fst (fst run) = Uncaught (UnboundLocalError "email")
  /\ snd run
     = [{| attempt_index := 0; force_rotate_of := false; acquired := None;
           failure := Some (Exception "All connection attempts failed") |}]
  /\ fst (fst (messages false (always (world 2000 offline offline) (Ok JNull)) one_expired))
     = Uncaught (UnboundLocalError "email").
Proof. vm_compute. repeat split. Qed.

(* ================================================================== *)
(** * Part III. Further properties *)
(* ================================================================== *)

(** ** What an acquisition leaves alone *)

Lemma same_accounts_refl (pool : list ProxyToken) : same_accounts pool pool.
Proof. repeat split. Qed.

Lemma same_accounts_trans (p q r : list ProxyToken) :
  same_accounts p q -> same_accounts q r -> same_accounts p r.
Proof.
  intros (A1 & A2 & A3 & A4) (B1 & B2 & B3 & B4).
  repeat split; congruence.
Qed.

Lemma store_same_accounts (token' token : ProxyToken) (pool : list ProxyToken) :
  keys_distinct (map account_id pool) = true ->
  In token pool ->
  account_id token' = account_id token ->
  email token' = email token ->
  refresh_token token' = refresh_token token ->
  average_quota token' = average_quota token ->
  same_accounts pool (store token' pool).
Proof.
  intros Hd Hin Hid He Hr Hq.
  repeat split; [apply store_keys | | | ]; apply store_same_field with (token := token); auto.
Qed.

Lemma refresh_token_keeps (tm : TokenManager) (token : ProxyToken) (w : World)
    (r : result ProxyToken) (tm' : TokenManager) (calls : list call) :
  well_keyed tm = true -> In token (_tokens tm) ->
  _refresh_token tm token w = (r, tm', calls) ->
  same_accounts (_tokens tm) (_tokens tm')
  /\ _last_used tm' = _last_used tm
  /\ _current_index tm' = _current_index tm.
Proof.
  intros Hk Hin. unfold _refresh_token.
  destruct (Qfloor (t_refresh w) <? expiry_timestamp token - 300)%Z.
  { intros H. injection H as <- <- <-. repeat split. }
  destruct (refresh_access_token (refresh_token token) (refresh_reply w)) as [new|e].
  - assert (S : same_accounts (_tokens tm)
                  (store (set_refreshed token new (Qfloor (t_refresh w))) (_tokens tm))).
    { apply store_same_accounts with (token := token); auto. }
    destruct (save_token_reply w); intros H; injection H as <- <- <-; simpl; auto.
  - intros H. injection H as <- <- <-. repeat split.
Qed.

Lemma fetch_metadata_keeps (tm : TokenManager) (token : ProxyToken)
    (reply : http_result) (saved : db_result)
    (t : ProxyToken) (tm' : TokenManager) (calls : list call) :
  well_keyed tm = true -> In token (_tokens tm) ->
  _fetch_metadata tm token reply saved = (t, tm', calls) ->
  same_accounts (_tokens tm) (_tokens tm')
  /\ _last_used tm' = _last_used tm
  /\ _current_index tm' = _current_index tm.
Proof.
  intros Hk Hin. unfold _fetch_metadata. intros H. injection H as <- <- <-. simpl.
  split; [|split; reflexivity].
  apply store_same_accounts with (token := token); auto;
    destruct (fetch_account_info (access_token token) reply) as [[pid tier]|e];
    try destruct saved; reflexivity.
Qed.

Lemma same_accounts_well_keyed (tm tm' : TokenManager) :
  same_accounts (_tokens tm) (_tokens tm') -> well_keyed tm = true -> well_keyed tm' = true.
Proof. intros (A & _) H. unfold well_keyed in *. now rewrite A. Qed.

(** Every path of a call, whatever its outcome: the selection, then the
    state the later steps keep. *)
Lemma get_token_entry_frame (tm : TokenManager) (qg : string) (force : bool) (w : World)
    (r : result ProxyToken) (tm' : TokenManager) (calls : list call) :
  well_keyed tm = true ->
  _tokens tm <> [] ->
  get_token_entry tm qg force w = (r, tm', calls) ->
  exists r1 tm1,
    select_token tm qg force w = (r1, tm1)
    /\ same_accounts (_tokens tm) (_tokens tm')
    /\ _last_used tm' = _last_used tm1
    /\ _current_index tm' = _current_index tm1
    /\ forall tok, r = Ok tok ->
         exists sel, r1 = Ok sel /\ account_id tok = account_id sel.
Proof.
  intros Hk Hne. unfold get_token_entry.
  destruct (_tokens tm) as [|t0 pool] eqn:Epool; [contradiction|].
  destruct (select_token tm qg force w) as [[sel|e] tm1] eqn:Hsel.
  2:{ pose proof (select_token_sound _ _ _ _ _ _ Hsel) as [Hpool _].
      intros H. injection H as <- <- <-. exists (Raise e), tm1.
      split; [reflexivity|]. rewrite Hpool, Epool.
      repeat split. intros; discriminate. }
  pose proof (select_token_sound _ _ _ _ _ _ Hsel) as [Hpool Hin].
  specialize (Hin sel eq_refl). rewrite <- Hpool in Hin. rewrite <- Epool, <- Hpool.
  assert (Hk1 : well_keyed tm1 = true) by (unfold well_keyed in *; now rewrite Hpool).
  intros Hget. exists (Ok sel), tm1. split; [reflexivity|].
  assert (Hstep :
    forall refreshed tm2 calls2,
      (if (expiry_timestamp sel - 300 <=? Qfloor (t_check w))%Z
       then _refresh_token tm1 sel w
       else (Ok sel, tm1, [])) = (refreshed, tm2, calls2) ->
      same_accounts (_tokens tm1) (_tokens tm2)
      /\ _last_used tm2 = _last_used tm1
      /\ _current_index tm2 = _current_index tm1
      /\ forall ref, refreshed = Ok ref ->
           In ref (_tokens tm2) /\ account_id ref = account_id sel).
  { intros refreshed tm2 calls2.
    destruct (expiry_timestamp sel - 300 <=? Qfloor (t_check w))%Z.
    - intros Hr.
      pose proof (refresh_token_keeps _ _ _ _ _ _ Hk1 Hin Hr) as (S & L & C).
      pose proof (refresh_token_sound _ _ _ _ _ _ Hin Hr) as (_ & _ & _ & T).
      split; [exact S|]. split; [exact L|]. split; [exact C|].
      intros ref Href. destruct (T ref Href) as (T1 & T2 & _). auto.
    - intros Heq. injection Heq as <- <- <-.
      split; [apply same_accounts_refl|]. split; [reflexivity|]. split; [reflexivity|].
      intros ref Href. injection Href as <-. auto. }
  revert Hget.
  destruct (if (expiry_timestamp sel - 300 <=? Qfloor (t_check w))%Z
            then _refresh_token tm1 sel w
            else (Ok sel, tm1, [])) as [[refreshed tm2] calls2].
  destruct (Hstep refreshed tm2 calls2 eq_refl) as (S2 & L2 & C2 & R2).
  destruct refreshed as [ref|e].
  2:{ intros Hres. injection Hres as <- <- <-. repeat split; try apply S2; auto.
      intros; discriminate. }
  destruct (R2 ref eq_refl) as [Iref Aref].
  destruct (str_truthy (project_id ref)); cbn [negb].
  - intros Hres. injection Hres as <- <- <-. repeat split; try apply S2; auto.
    intros tok Htok. injection Htok as <-. eauto.
  - destruct (_fetch_metadata tm2 ref (metadata_reply w) (save_metadata_reply w))
      as [[t3 tm3] calls3] eqn:Hm.
    assert (Hk2 : well_keyed tm2 = true) by (eapply same_accounts_well_keyed; eauto).
    pose proof (fetch_metadata_keeps _ _ _ _ _ _ _ Hk2 Iref Hm) as (S3 & L3 & C3).
    pose proof (fetch_metadata_sound _ _ _ _ _ _ _ Iref Hm)
      as (_ & _ & _ & _ & _ & A3 & _).
    intros Hres. injection Hres as <- <- <-.
    split; [eapply same_accounts_trans; eauto|].
    split; [congruence|]. split; [congruence|].
    intros tok Htok. injection Htok as <-. exists sel. split; [reflexivity | congruence].
Qed.

(** X1.  An acquisition never adds, removes or reorders the accounts of the
    pool and never changes the email, the refresh token or the score of any
    of them, whether it returns or raises. *)
Theorem acquisition_keeps_accounts (tm : TokenManager) (qg : string) (force : bool)
    (w : World) (r : result (string * string * string)) (tm' : TokenManager)
    (calls : list call) :
  well_keyed tm = true ->
  get_token tm qg force w = (r, tm', calls) ->
  same_accounts (_tokens tm) (_tokens tm')
  /\ well_keyed tm' = true
  /\ List.length (_tokens tm') = List.length (_tokens tm).
Proof.
  intros Hk. unfold get_token.
  destruct (get_token_entry tm qg force w) as [[r0 tm0] calls0] eqn:E.
  intros H. injection H as _ <- _.
  assert (S : same_accounts (_tokens tm) (_tokens tm0)).
  { destruct (_tokens tm) as [|t0 pool] eqn:Epool.
    - unfold get_token_entry in E. rewrite Epool in E. injection E as _ <- _.
      rewrite Epool. apply same_accounts_refl.
    - rewrite <- Epool.
      assert (Hne : _tokens tm <> []) by (rewrite Epool; discriminate).
      destruct (get_token_entry_frame _ _ _ _ _ _ _ Hk Hne E) as (_ & _ & _ & S & _).
      exact S. }
  split; [exact S|]. split; [eapply same_accounts_well_keyed; eauto|].
  destruct S as (A & _).
  rewrite <- (length_map account_id (_tokens tm0)), A. apply length_map.
Qed.

Lemma acquisition_keeps_accounts_witness :
  let out := get_token one_expired "gemini" false (world 2000 refreshed offline) in
  same_accounts (_tokens one_expired) (_tokens (snd (fst out)))
  /\ well_keyed (snd (fst out)) = true
  /\ List.length (_tokens (snd (fst out))) = List.length (_tokens one_expired).
Proof.
  apply (acquisition_keeps_accounts one_expired "gemini" false
           (world 2000 refreshed offline)
           (fst (fst (get_token one_expired "gemini" false (world 2000 refreshed offline))))
           _
           (snd (get_token one_expired "gemini" false (world 2000 refreshed offline)))).
  - reflexivity.
  - vm_compute. reflexivity.
Defined.

(** ** Forced rotation *)

Lemma sticky_forced (tm : TokenManager) (qg : string) (now : Q) :
  sticky tm qg true now = None.
Proof. reflexivity. Qed.

Lemma sticky_image (tm : TokenManager) (force : bool) (now : Q) :
  sticky tm "image_gen" force now = None.
Proof. unfold sticky. destruct force; reflexivity. Qed.

Lemma unscored_filter (pool : list ProxyToken) :
  unscored pool = true -> filter has_quota pool = [].
Proof.
  unfold unscored. induction pool as [|t pool IH]; simpl; [reflexivity|].
  intros H. apply andb_true_iff in H. destruct H as [Ht Hp].
  apply negb_true_iff in Ht. rewrite Ht. now apply IH.
Qed.

Lemma unscored_same_accounts (pool pool' : list ProxyToken) :
  same_accounts pool pool' -> unscored pool = true -> unscored pool' = true.
Proof.
  intros (_ & _ & _ & Q). unfold unscored.
  revert pool' Q. induction pool as [|t pool IH]; intros [|t' pool'] Q; simpl in *;
    try discriminate; [reflexivity|].
  injection Q as Qt Qp. intros H. apply andb_true_iff in H. destruct H as [Ht Hp].
  apply andb_true_iff. split; [|now apply IH].
  unfold has_quota in *. now rewrite Qt.
Qed.

(** A forced selection over a pool without scores, or for [image_gen], is the
    round-robin step over the whole pool. *)
Lemma forced_selection (tm : TokenManager) (qg : string) (w : World) :
  qg = "image_gen" \/ unscored (_tokens tm) = true ->
  fst (select_token tm qg true w) = fst (round_robin tm (_tokens tm))
  /\ _current_index (snd (select_token tm qg true w)) = S (_current_index tm).
Proof.
  intros Hcase. unfold select_token. rewrite sticky_forced.
  destruct (String.eqb qg "image_gen") eqn:Eqg.
  - unfold select_image. split; reflexivity.
  - destruct Hcase as [-> | Hun]; [discriminate Eqg|].
    unfold select_normal. rewrite (unscored_filter _ Hun). simpl.
    destruct (nth_error (_tokens tm) (_current_index tm mod List.length (_tokens tm)));
      split; reflexivity.
Qed.

(** X2.  With [force_rotate], over a pool in which no account carries a
    score above 0.05 (or for the quota group [image_gen], whatever the
    scores), successive acquisitions walk the pool in its order and wrap
    around: the k-th acquisition from a counter [c] returns the account at
    position [(c + k) mod n]. *)
Theorem forced_rotation_is_round_robin (ws : list World) :
  forall (tm : TokenManager) (qg : string) (k : nat) (tok : ProxyToken),
    well_keyed tm = true ->
    _tokens tm <> [] ->
    qg = "image_gen" \/ unscored (_tokens tm) = true ->
    nth_error (fst (acquisitions tm qg true ws)) k = Some (Ok tok) ->
    nth_error (map account_id (_tokens tm))
              ((_current_index tm + k) mod List.length (_tokens tm))
    = Some (account_id tok).
Proof.
  induction ws as [|w ws IH]; intros tm qg k tok Hk Hne Hcase Hnth.
  - destruct k; discriminate Hnth.
  - cbn [acquisitions] in Hnth.
    destruct (get_token_entry tm qg true w) as [[r tm'] calls] eqn:E.
    destruct (acquisitions tm' qg true ws) as [rs tm''] eqn:Ers.
    destruct (get_token_entry_frame _ _ _ _ _ _ _ Hk Hne E) as (r1 & tm1 & Hsel & S & _ & C & Hr).
    destruct (forced_selection tm qg w Hcase) as [Hfst Hidx].
    rewrite Hsel in Hfst, Hidx. simpl in Hfst, Hidx.
    destruct k as [|k]; simpl in Hnth.
    + injection Hnth as ->.
      destruct (Hr tok eq_refl) as (sel & -> & ->).
      unfold round_robin in Hfst. simpl in Hfst.
      rewrite Nat.add_0_r. rewrite nth_error_map.
      destruct (nth_error (_tokens tm) (_current_index tm mod List.length (_tokens tm)));
        [|discriminate].
      injection Hfst as ->. reflexivity.
    + assert (Hk' : well_keyed tm' = true) by (eapply same_accounts_well_keyed; eauto).
      assert (Hlen : List.length (_tokens tm') = List.length (_tokens tm)).
      { destruct S as (A & _).
        rewrite <- (length_map account_id (_tokens tm')), A. apply length_map. }
      assert (Hne' : _tokens tm' <> []).
      { intros Hnil. rewrite Hnil in Hlen. destruct (_tokens tm); [contradiction|discriminate]. }
      assert (Hcase' : qg = "image_gen" \/ unscored (_tokens tm') = true).
      { destruct Hcase as [-> | Hun]; [now left | right].
        eapply unscored_same_accounts; eauto. }
      replace (fst (acquisitions tm' qg true ws)) with rs in IH by now rewrite Ers.
      specialize (IH tm' qg k tok Hk' Hne' Hcase').
      rewrite Ers in IH. specialize (IH Hnth).
      destruct S as (A & _). rewrite A, Hlen, C, Hidx in IH.
      replace (_current_index tm + S k)%nat with (S (_current_index tm) + k)%nat by lia.
      exact IH.
Qed.

Lemma forced_rotation_is_round_robin_witness :
  nth_error (map account_id (_tokens two_plain))
            ((_current_index two_plain + 2) mod List.length (_tokens two_plain))
  = Some (account_id (account "a" 100000 (Some "proj-a") None)).
Proof.
  apply (forced_rotation_is_round_robin [quiet 0; quiet 1; quiet 2] two_plain "claude").
  - reflexivity.
  - discriminate.
  - right. reflexivity.
  - vm_compute. reflexivity.
Defined.

(** X3.  With [force_rotate] and a quota group other than [image_gen], when
    the scored entries give no tie band (fewer than three of them, or only
    one of the first three at or above the float product of the best score
    and 0.9), the acquisition returns the best-scored account again and
    leaves the counter alone: forcing rotation does not move away from it. *)
Theorem forced_rotation_keeps_best (tm : TokenManager) (qg : string) (w : World)
    (best : ProxyToken) (rest : list ProxyToken)
    (tok : ProxyToken) (tm' : TokenManager) (calls : list call) :
  well_keyed tm = true ->
  qg <> "image_gen" ->
  sort_desc (filter has_quota (_tokens tm)) = best :: rest ->
  ((3 <=? List.length (best :: rest))%nat
   && (1 <? List.length (similar (best :: rest)))%nat)%bool = false ->
  get_token_entry tm qg true w = (Ok tok, tm', calls) ->
  account_id tok = account_id best
  /\ _current_index tm' = _current_index tm.
Proof.
  intros Hk Hqg HS Hband E.
  assert (Hne : _tokens tm <> []).
  { intros Hnil. rewrite Hnil in HS. discriminate HS. }
  destruct (get_token_entry_frame _ _ _ _ _ _ _ Hk Hne E) as (r1 & tm1 & Hsel & _ & _ & C & Hr).
  destruct (Hr tok eq_refl) as (sel & -> & ->).
  unfold select_token in Hsel. rewrite sticky_forced in Hsel.
  apply String.eqb_neq in Hqg. rewrite Hqg in Hsel.
  rewrite select_normal_is_from_three in Hsel. unfold select_normal_from_three in Hsel.
  rewrite HS, Hband in Hsel. injection Hsel as <- <-. simpl in C. auto.
Qed.

Lemma forced_rotation_keeps_best_witness :
  let a := account "a" 100000 (Some "proj-a") (Some (8 # 10)%Q) in
  (fst (fst (get_token_entry band_edge_up "gemini" true (quiet 0))) = Ok a
   /\ List.length (similar (_tokens band_edge_up)) = 1%nat)
  /\ account_id a = account_id a
  /\ _current_index (snd (fst (get_token_entry band_edge_up "gemini" true (quiet 0))))
     = _current_index band_edge_up.
Proof.
  split; [split; vm_compute; reflexivity|].
  apply (forced_rotation_keeps_best band_edge_up "gemini" (quiet 0)
           (account "a" 100000 (Some "proj-a") (Some (8 # 10)%Q))
           [account "b" 100000 (Some "proj-b") (Some (72 # 100)%Q);
            account "c" 100000 (Some "proj-c") (Some (2 # 10)%Q)]
           (account "a" 100000 (Some "proj-a") (Some (8 # 10)%Q))
           _ []).
  - reflexivity.
  - discriminate.
  - vm_compute. reflexivity.
  - vm_compute. reflexivity.
  - vm_compute. reflexivity.
Defined.

(** X4.  An acquisition for [image_gen] never writes the sticky pair, and an
    acquisition that is answered from the sticky pair writes neither the
    pair nor the counter. *)
Theorem sticky_pair_untouched (tm : TokenManager) (qg : string) (force : bool) (w : World)
    (r : result ProxyToken) (tm' : TokenManager) (calls : list call) :
  well_keyed tm = true ->
  get_token_entry tm qg force w = (r, tm', calls) ->
  (qg = "image_gen" -> _last_used tm' = _last_used tm)
  /\ (sticky tm qg force (t_sticky w) <> None ->
      _last_used tm' = _last_used tm /\ _current_index tm' = _current_index tm).
Proof.
  intros Hk E.
  destruct (_tokens tm) as [|t0 pool] eqn:Epool.
  { unfold get_token_entry in E. rewrite Epool in E. injection E as _ <- _. auto. }
  assert (Hne : _tokens tm <> []) by (rewrite Epool; discriminate).
  destruct (get_token_entry_frame _ _ _ _ _ _ _ Hk Hne E) as (r1 & tm1 & Hsel & _ & L & C & _).
  split.
  - intros ->. unfold select_token in Hsel. rewrite sticky_image in Hsel. simpl in Hsel.
    apply select_image_sound in Hsel. destruct Hsel as (_ & L1 & _). congruence.
  - intros Hst. unfold select_token in Hsel.
    destruct (sticky tm qg force (t_sticky w)); [|contradiction].
    injection Hsel as _ <-. auto.
Qed.

Lemma sticky_pair_untouched_witness :
  let out := get_token_entry two_plain_used "image_gen" false (quiet 10) in
  ("image_gen" = "image_gen" -> _last_used (snd (fst out)) = _last_used two_plain_used)
  /\ (sticky two_plain_used "image_gen" false (t_sticky (quiet 10)) <> None ->
      _last_used (snd (fst out)) = _last_used two_plain_used
      /\ _current_index (snd (fst out)) = _current_index two_plain_used).
Proof.
  apply (sticky_pair_untouched two_plain_used "image_gen" false (quiet 10)
           (fst (fst (get_token_entry two_plain_used "image_gen" false (quiet 10))))
           _
           (snd (get_token_entry two_plain_used "image_gen" false (quiet 10)))).
  - reflexivity.
  - vm_compute. reflexivity.
Defined.

(** X5.  The project id of a returned triple is never empty: it is the
    project id stored in the returned entry when that is not empty, and the
    fallback otherwise. *)
Theorem returned_project_id_not_empty (tm : TokenManager) (qg : string) (force : bool)
    (w : World) (tok pid em : string) (tm' : TokenManager) (calls : list call) :
  get_token tm qg force w = (Ok (tok, pid, em), tm', calls) ->
  pid <> ""
  /\ exists entry,
       In entry (_tokens tm') /\ access_token entry = tok /\ email entry = em
       /\ (pid = fallback_project_id /\ str_truthy (project_id entry) = false
           \/ project_id entry = Some pid).
Proof.
  unfold get_token.
  destruct (get_token_entry tm qg force w) as [[[entry|e] tm0] calls0] eqn:E;
    intros H; [|discriminate].
  injection H as <- <- <- <- <-.
  pose proof (get_token_entry_sound _ _ _ _ _ _ _ E) as (_ & _ & _ & _ & _ & _ & Hin & _).
  unfold project_or_fallback.
  destruct (project_id entry) as [p|] eqn:Ep.
  - destruct (String.eqb p "") eqn:Eq.
    + split; [discriminate|]. exists entry. repeat split; auto.
      left. split; [reflexivity|]. unfold str_truthy. now rewrite Ep, Eq.
    + split; [now apply String.eqb_neq|]. exists entry. repeat split; auto.
  - split; [discriminate|]. exists entry. repeat split; auto.
    left. split; [reflexivity|]. now rewrite Ep.
Qed.

Lemma returned_project_id_not_empty_witness :
  "proj-a" <> ""
  /\ exists entry,
       In entry (_tokens two_plain_used)
       /\ access_token entry = "access-a" /\ email entry = "a@example.com"
       /\ ("proj-a" = fallback_project_id /\ str_truthy (project_id entry) = false
           \/ project_id entry = Some "proj-a").
Proof.
  apply (returned_project_id_not_empty two_plain "gemini" false (quiet 0)
           "access-a" "proj-a" "a@example.com" two_plain_used []).
  vm_compute. reflexivity.
Defined.

(** ** Background refresh *)

Lemma refresh_expiring_step_invariant (now : Q) (w : string -> World)
    (pool : list ProxyToken) (steps : nat) (acc : nat * TokenManager * list call)
    (id : string) :
  keys_distinct (map account_id pool) = true ->
  refresh_loop_invariant now pool steps acc ->
  refresh_loop_invariant now pool (S steps) (refresh_expiring_step now w acc id).
Proof.
  intros Hd. destruct acc as [[refreshed tm] calls]. intros (S & Hn & Hfresh).
  assert (Hk : well_keyed tm = true).
  { unfold well_keyed. destruct S as (A & _). now rewrite A. }
  unfold refresh_expiring_step.
  destruct (lookup id (_tokens tm)) as [token|] eqn:El.
  2:{ split; [exact S|]. split; [lia | exact Hfresh]. }
  apply lookup_some in El. destruct El as [Hin Hid].
  destruct (expiry_timestamp token - 300 <=? Qfloor now)%Z eqn:Eexp.
  2:{ split; [exact S|]. split; [lia | exact Hfresh]. }
  apply Z.leb_le in Eexp.
  destruct (_refresh_token tm token (w id)) as [[r tm'] c] eqn:Er.
  pose proof (refresh_token_keeps _ _ _ _ _ _ Hk Hin Er) as (S' & _ & _).
  pose proof (refresh_token_sound _ _ _ _ _ _ Hin Er) as (_ & _ & Hc & _).
  assert (Hkeep : forall t, In t pool -> (Qfloor now < expiry_timestamp t - 300)%Z ->
                    In t (_tokens tm') /\ ~ In (CallRefresh (account_id t)) (calls ++ c)).
  { intros t Ht Hfr. destruct (Hfresh t Ht Hfr) as [Htin Hno].
    assert (Hne : account_id t <> account_id token).
    { intros Heq.
      assert (t = token) by (eapply same_key_same_token; eauto).
      subst t. lia. }
    split.
    - revert Er. unfold _refresh_token.
      destruct (Qfloor (t_refresh (w id)) <? expiry_timestamp token - 300)%Z.
      { intros H. injection H as _ <- _. exact Htin. }
      destruct (refresh_access_token (refresh_token token) (refresh_reply (w id))) as [new|e].
      + assert (In t (store (set_refreshed token new (Qfloor (t_refresh (w id))))
                         (_tokens tm))).
        { unfold store. apply in_map_iff. exists t. split; [|exact Htin].
          simpl. apply String.eqb_neq in Hne. now rewrite Hne. }
        destruct (save_token_reply (w id)); intros H0; injection H0 as _ <- _; exact H.
      + intros H. injection H as _ <- _. exact Htin.
    - intros Hc'. apply in_app_or in Hc'. destruct Hc' as [Hc' | Hc']; [auto|].
      apply Hc in Hc'. injection Hc' as Hc'. auto. }
  destruct r as [t1|e]; (split; [eapply same_accounts_trans; eauto|]);
    (split; [lia | exact Hkeep]).
Qed.

Lemma refresh_loop_fold (now : Q) (w : string -> World) (pool : list ProxyToken)
    (ids : list string) :
  keys_distinct (map account_id pool) = true ->
  forall steps acc,
    refresh_loop_invariant now pool steps acc ->
    refresh_loop_invariant now pool (steps + List.length ids)
      (fold_left (refresh_expiring_step now w) ids acc).
Proof.
  intros Hd. induction ids as [|id ids IH]; intros steps acc Hinv; simpl.
  - now rewrite Nat.add_0_r.
  - replace (steps + S (List.length ids))%nat with (S steps + List.length ids)%nat by lia.
    apply IH. now apply refresh_expiring_step_invariant.
Qed.

Lemma refresh_token_request (tm : TokenManager) (token : ProxyToken) (w : World)
    (r : result ProxyToken) (tm' : TokenManager) (c : list call) :
  _refresh_token tm token w = (r, tm', c) ->
  (forall t, In t (_tokens tm) -> account_id t <> account_id token -> In t (_tokens tm'))
  /\ ((expiry_timestamp token - 300 <= Qfloor (t_refresh w))%Z ->
      c = [CallRefresh (account_id token)]).
Proof.
  unfold _refresh_token.
  destruct (Qfloor (t_refresh w) <? expiry_timestamp token - 300)%Z eqn:Edc.
  { intros H. injection H as _ <- _. apply Z.ltb_lt in Edc. split; [auto | lia]. }
  destruct (refresh_access_token (refresh_token token) (refresh_reply w)) as [new|e].
  - assert (K : forall t, In t (_tokens tm) -> account_id t <> account_id token ->
                          In t (store (set_refreshed token new (Qfloor (t_refresh w)))
                                      (_tokens tm))).
    { intros t Ht Hne. unfold store. apply in_map_iff. exists t. split; [|exact Ht].
      simpl. apply String.eqb_neq in Hne. now rewrite Hne. }
    destruct (save_token_reply w); intros H; injection H as _ <- <-; split; auto.
  - intros H. injection H as _ <- <-. split; auto.
Qed.

(** Every key the loop has passed whose token was expiring has had its
    request, whatever became of the requests before it; the tokens under
    the keys still to come are as they were. *)
Lemma refresh_loop_requests (now : Q) (w : string -> World) (pool : list ProxyToken) :
  keys_distinct (map account_id pool) = true ->
  forall ids done acc,
    keys_distinct ids = true ->
    (forall id, In id ids -> ~ In id done) ->
    (let '(_, tmi, cs) := acc in
     map account_id (_tokens tmi) = map account_id pool
     /\ (forall t, In t pool -> ~ In (account_id t) done -> In t (_tokens tmi))
     /\ (forall t, In t pool -> In (account_id t) done ->
           (expiry_timestamp t - 300 <= Qfloor now)%Z ->
           (now <= t_refresh (w (account_id t)))%Q ->
           In (CallRefresh (account_id t)) cs)) ->
    let '(_, _, cs) := fold_left (refresh_expiring_step now w) ids acc in
    forall t, In t pool -> In (account_id t) (done ++ ids) ->
      (expiry_timestamp t - 300 <= Qfloor now)%Z ->
      (now <= t_refresh (w (account_id t)))%Q ->
      In (CallRefresh (account_id t)) cs.
Proof.
  intros Hd. induction ids as [|id ids IH]; intros done acc Hids Hnew Hinv; simpl.
  - destruct acc as [[n tmi] cs]. destruct Hinv as (_ & _ & H).
    intros t Ht Hin. rewrite app_nil_r in Hin. now apply H.
  - simpl in Hids. apply andb_true_iff in Hids. destruct Hids as [Hid Hids].
    apply negb_true_iff in Hid.
    assert (Hfresh : ~ In id ids).
    { intros Hin. apply Bool.not_true_iff_false in Hid. apply Hid.
      apply existsb_exists. exists id. split; [exact Hin | apply String.eqb_refl]. }
    specialize (IH (done ++ [id])%list (refresh_expiring_step now w acc id) Hids).
    rewrite <- app_assoc in IH. simpl in IH. apply IH; clear IH.
    { intros id' Hin' Hdone'. apply in_app_or in Hdone'.
      destruct Hdone' as [Hdone' | [<- | []]].
      - apply (Hnew id'); [now right | exact Hdone'].
      - contradiction. }
    destruct acc as [[n tmi] cs]. destruct Hinv as (Hkeys & Hrest & Hdone).
    assert (Hki : keys_distinct (map account_id (_tokens tmi)) = true)
      by (rewrite Hkeys; exact Hd).
    assert (Hhere : forall t, In t pool -> account_id t = id -> In t (_tokens tmi)).
    { intros t Ht Heq. apply Hrest; [exact Ht|]. rewrite Heq. apply Hnew. now left. }
    assert (Hsame : forall t, In t pool -> In (account_id t) (done ++ [id]) ->
                      In (account_id t) done \/ (account_id t = id /\ In t (_tokens tmi))).
    { intros t Ht Hin. apply in_app_or in Hin. destruct Hin as [Hin | [Hin | []]]; auto. }
    assert (Hlater : forall t, In t pool -> ~ In (account_id t) (done ++ [id]) ->
                       In t (_tokens tmi) /\ account_id t <> id).
    { intros t Ht Hno. split.
      - apply Hrest; [exact Ht|]. intros H. apply Hno. apply in_or_app. now left.
      - intros H. apply Hno. apply in_or_app. right. now left. }
    unfold refresh_expiring_step.
    destruct (lookup id (_tokens tmi)) as [token|] eqn:El.
    2:{ split; [exact Hkeys|]. split; [intros t Ht Hno; now apply Hlater|].
        intros t Ht Hin Hexp Hclock.
        destruct (Hsame t Ht Hin) as [Hin' | [Heq Htin]]; [now apply Hdone|].
        pose proof (lookup_member _ _ Hki Htin) as L. rewrite Heq in L. congruence. }
    pose proof (lookup_some _ _ _ El) as [Hin Hidt].
    destruct (expiry_timestamp token - 300 <=? Qfloor now)%Z eqn:Eexp.
    2:{ split; [exact Hkeys|]. split; [intros t Ht Hno; now apply Hlater|].
        intros t Ht Hin' Hexp Hclock.
        destruct (Hsame t Ht Hin') as [Hin'' | [Heq Htin]]; [now apply Hdone|].
        assert (t = token) by (eapply same_key_same_token; eauto; congruence).
        subst t. apply Z.leb_gt in Eexp. lia. }
    apply Z.leb_le in Eexp.
    destruct (_refresh_token tmi token (w id)) as [[r tm'] c] eqn:Er.
    pose proof (refresh_token_sound _ _ _ _ _ _ Hin Er) as (Hkeys' & _ & _ & _).
    pose proof (refresh_token_request _ _ _ _ _ _ Er) as [Hothers Hcall].
    assert (Hstep : map account_id (_tokens tm') = map account_id pool
              /\ (forall t, In t pool -> ~ In (account_id t) (done ++ [id]) ->
                            In t (_tokens tm'))
              /\ (forall t, In t pool -> In (account_id t) (done ++ [id]) ->
                    (expiry_timestamp t - 300 <= Qfloor now)%Z ->
                    (now <= t_refresh (w (account_id t)))%Q ->
                    In (CallRefresh (account_id t)) (cs ++ c))).
    { split; [congruence|]. split.
      - intros t Ht Hno. destruct (Hlater t Ht Hno) as [Htin Hne].
        apply Hothers; [exact Htin | congruence].
      - intros t Ht Hin' Hexp Hclock. apply in_or_app.
        destruct (Hsame t Ht Hin') as [Hin'' | [Heq Htin]]; [left; now apply Hdone|].
        right.
        assert (t = token) by (eapply same_key_same_token; eauto; congruence).
        subst t. rewrite Hcall; [now left|].
        rewrite Hidt in Hclock. pose proof (Qfloor_resp_le _ _ Hclock). lia. }
    destruct r; exact Hstep.
Qed.

(** X6.  The background refresh keeps the accounts of the pool, reports at
    most as many refreshes as there are accounts, and leaves every token
    that is more than 300 seconds from expiry exactly as it was, without a
    request for it.  A failing refresh ends neither the loop nor the call:
    the call returns its count, and every token within 300 seconds of
    expiry has had its refresh request by then, whatever replies the
    requests of the other tokens met (the clock not running backwards
    between the reading before the loop and the reading of that refresh). *)
Theorem background_refresh_spares_fresh_tokens (tm : TokenManager) (now : Q)
    (w : string -> World) (refreshed : nat) (tm' : TokenManager) (calls : list call) :
  well_keyed tm = true ->
  refresh_all_expiring_tokens tm now w = (refreshed, tm', calls) ->
  same_accounts (_tokens tm) (_tokens tm')
  /\ (refreshed <= List.length (_tokens tm))%nat
  /\ (forall t, In t (_tokens tm) -> (Qfloor now < expiry_timestamp t - 300)%Z ->
                In t (_tokens tm') /\ ~ In (CallRefresh (account_id t)) calls)
  /\ (forall t, In t (_tokens tm) -> (expiry_timestamp t - 300 <= Qfloor now)%Z ->
                (now <= t_refresh (w (account_id t)))%Q ->
                In (CallRefresh (account_id t)) calls).
Proof.
  intros Hk E. unfold refresh_all_expiring_tokens in E.
  assert (Hinit : refresh_loop_invariant now (_tokens tm) 0 (0%nat, tm, [])).
  { split; [apply same_accounts_refl|]. split; [lia|]. intros t Ht _. auto. }
  pose proof (refresh_loop_fold now w (_tokens tm) (map account_id (_tokens tm)) Hk _ _ Hinit)
    as Hend.
  pose proof (refresh_loop_requests now w (_tokens tm) Hk (map account_id (_tokens tm)) []
                (0%nat, tm, []) Hk (fun _ _ H => H)) as Hreq.
  rewrite E in Hend, Hreq. simpl in Hend. rewrite length_map in Hend.
  destruct Hend as (A & B & C).
  split; [exact A|]. split; [exact B|]. split; [exact C|].
  intros t Ht Hexp Hclock. apply Hreq; try assumption.
  - split; [reflexivity|]. split; [auto | intros ? _ []].
  - simpl. now apply in_map.
Qed.

Lemma background_refresh_spares_fresh_tokens_witness :
  let tm := fresh_manager [account "a" 1000 (Some "proj-a") None;
                           account "b" 1000 (Some "proj-b") None;
                           account "c" 100000 (Some "proj-c") None] in
  let w := fun id => if String.eqb id "a" then quiet 2000
                     else world 2000 refreshed offline in
  let out := refresh_all_expiring_tokens tm 2000 w in
  (fst (fst out) = 1%nat
   /\ snd out = [CallRefresh "a"; CallRefresh "b"]
   /\ map expiry_timestamp (_tokens (snd (fst out))) = [1000; 5599; 100000]%Z)
  /\ same_accounts (_tokens tm) (_tokens (snd (fst out)))
  /\ (fst (fst out) <= List.length (_tokens tm))%nat
  /\ (forall t, In t (_tokens tm) -> (Qfloor 2000 < expiry_timestamp t - 300)%Z ->
                In t (_tokens (snd (fst out)))
                /\ ~ In (CallRefresh (account_id t)) (snd out))
  /\ (forall t, In t (_tokens tm) -> (expiry_timestamp t - 300 <= Qfloor 2000)%Z ->
                (2000 <= t_refresh (w (account_id t)))%Q ->
                In (CallRefresh (account_id t)) (snd out)).
Proof.
  split; [repeat split; vm_compute; reflexivity|].
  apply (background_refresh_spares_fresh_tokens
           (fresh_manager [account "a" 1000 (Some "proj-a") None;
                           account "b" 1000 (Some "proj-b") None;
                           account "c" 100000 (Some "proj-c") None])
           2000
           (fun id => if String.eqb id "a" then quiet 2000
                      else world 2000 refreshed offline)).
  - reflexivity.
  - vm_compute. reflexivity.
Defined.

(** X7.  When every refresh the background loop sends is answered with a
    token that lasts more than 300 seconds and is saved, no token of the
    pool is within 300 seconds of expiry at the end, measured from the
    reading of the clock before the loop (the clock not running backwards). *)
Theorem background_refresh_renews_all (tm : TokenManager) (now : Q)
    (w : string -> World) (refreshed : nat) (tm' : TokenManager) (calls : list call) :
  well_keyed tm = true ->
  (forall id, (now <= t_refresh (w id))%Q) ->
  (forall id rt, exists new,
      refresh_access_token rt (refresh_reply (w id)) = Ok new
      /\ (300 < tr_expires_in new)%Z) ->
  (forall id, save_token_reply (w id) = None) ->
  refresh_all_expiring_tokens tm now w = (refreshed, tm', calls) ->
  forall t, In t (_tokens tm') -> (Qfloor now < expiry_timestamp t - 300)%Z.
Proof.
  intros Hk Hclock Hgrant Hsave E. unfold refresh_all_expiring_tokens in E.
  (* invariant: every key already visited holds a fresh token, and the
     others are as they were *)
  assert (Hgen : forall ids done acc,
    (let '(_, tmi, _) := acc in
     map account_id (_tokens tmi) = map account_id (_tokens tm)
     /\ forall t, In t (_tokens tmi) ->
          In (account_id t) done -> (Qfloor now < expiry_timestamp t - 300)%Z) ->
    let '(_, tme, _) := fold_left (refresh_expiring_step now w) ids acc in
    map account_id (_tokens tme) = map account_id (_tokens tm)
    /\ forall t, In t (_tokens tme) ->
         In (account_id t) (done ++ ids) -> (Qfloor now < expiry_timestamp t - 300)%Z).
  { induction ids as [|id ids IH]; intros done acc Hinv; simpl.
    - destruct acc as [[n tmi] cs]. now rewrite app_nil_r.
    - specialize (IH (done ++ [id])%list (refresh_expiring_step now w acc id)).
      rewrite <- app_assoc in IH. simpl in IH. apply IH. clear IH.
      destruct acc as [[n tmi] cs]. destruct Hinv as [Hkeys Hdone].
      assert (Hki : keys_distinct (map account_id (_tokens tmi)) = true).
      { rewrite Hkeys. exact Hk. }
      unfold refresh_expiring_step.
      destruct (lookup id (_tokens tmi)) as [token|] eqn:El.
      2:{ split; [exact Hkeys|]. intros t Ht Hid. apply in_app_or in Hid.
          destruct Hid as [Hid | [Hid | []]]; [now apply Hdone|].
          exfalso. pose proof (lookup_member _ _ Hki Ht) as L. rewrite Hid in El.
          congruence. }
      pose proof (lookup_some _ _ _ El) as [Hin Hid].
      destruct (expiry_timestamp token - 300 <=? Qfloor now)%Z eqn:Eexp.
      2:{ split; [exact Hkeys|]. intros t Ht Hd. apply in_app_or in Hd.
          destruct Hd as [Hd | [Hd | []]]; [now apply Hdone|].
          assert (t = token).
          { eapply same_key_same_token; eauto. congruence. }
          subst t. apply Z.leb_gt in Eexp. lia. }
      unfold _refresh_token.
      destruct (Qfloor (t_refresh (w id)) <? expiry_timestamp token - 300)%Z eqn:Edc.
      { apply Z.leb_le in Eexp. apply Z.ltb_lt in Edc.
        split; [exact Hkeys|]. intros t Ht Hd. apply in_app_or in Hd.
        destruct Hd as [Hd | [Hd | []]]; [now apply Hdone|].
        assert (t = token).
        { eapply same_key_same_token; eauto. congruence. }
        subst t. pose proof (Qfloor_resp_le _ _ (Hclock id)). lia. }
      destruct (Hgrant id (refresh_token token)) as (new & -> & Hlong).
      rewrite Hsave. simpl. rewrite store_keys.
      split; [exact Hkeys|]. intros t Ht Hd.
      apply store_inv in Ht. destruct Ht as [-> | [Ht Hne]].
      + simpl. pose proof (Qfloor_resp_le _ _ (Hclock id)). lia.
      + apply in_app_or in Hd. destruct Hd as [Hd | [Hd | []]]; [now apply Hdone|].
        simpl in Hne. congruence. }
  specialize (Hgen (map account_id (_tokens tm)) [] (0%nat, tm, [])).
  rewrite E in Hgen. simpl in Hgen.
  destruct Hgen as [Hkeys Hall]; [split; [reflexivity | intros t _ []]|].
  intros t Ht. apply Hall; [exact Ht|].
  rewrite <- Hkeys. now apply in_map.
Qed.

Lemma background_refresh_renews_all_witness :
  let tm := fresh_manager [account "a" 1000 (Some "proj-a") None;
                           account "b" 100000 (Some "proj-b") None] in
  let out := refresh_all_expiring_tokens tm 2000 (fun _ => world 2000 refreshed offline) in
  Forall (fun t => (Qfloor 2000 < expiry_timestamp t - 300)%Z) (_tokens (snd (fst out))).
Proof.
  apply Forall_forall.
  apply (background_refresh_renews_all
           (fresh_manager [account "a" 1000 (Some "proj-a") None;
                           account "b" 100000 (Some "proj-b") None])
           2000 (fun _ => world 2000 refreshed offline)
           (fst (fst (refresh_all_expiring_tokens
                        (fresh_manager [account "a" 1000 (Some "proj-a") None;
                                        account "b" 100000 (Some "proj-b") None])
                        2000 (fun _ => world 2000 refreshed offline))))
           _
           (snd (refresh_all_expiring_tokens
                   (fresh_manager [account "a" 1000 (Some "proj-a") None;
                                   account "b" 100000 (Some "proj-b") None])
                   2000 (fun _ => world 2000 refreshed offline)))).
  - reflexivity.
  - intros id. simpl. unfold Qle. simpl. lia.
  - intros id rt. eexists. split; [reflexivity|]. simpl. lia.
  - reflexivity.
  - vm_compute. reflexivity.
Defined.

(** ** Quota rounds *)

Lemma same_credentials_trans (p q r : list ProxyToken) :
  same_credentials p q -> same_credentials q r -> same_credentials p r.
Proof.
  intros (A1 & A2 & A3 & A4 & A5) (B1 & B2 & B3 & B4 & B5).
  repeat split; congruence.
Qed.

Lemma store_same_credentials (token' token : ProxyToken) (pool : list ProxyToken) :
  keys_distinct (map account_id pool) = true ->
  In token pool ->
  account_id token' = account_id token ->
  email token' = email token ->
  access_token token' = access_token token ->
  refresh_token token' = refresh_token token ->
  expiry_timestamp token' = expiry_timestamp token ->
  same_credentials pool (store token' pool).
Proof.
  intros Hd Hin Hid He Ha Hr Hx.
  repeat split; [apply store_keys | | | | ];
    apply store_same_field with (token := token); auto.
Qed.

Lemma update_quota_of_keeps (tm : TokenManager) (id : string) (w : QuotaWorld) :
  well_keyed tm = true ->
  same_credentials (_tokens tm) (_tokens (update_quota_of tm id w))
  /\ _last_used (update_quota_of tm id w) = _last_used tm
  /\ _current_index (update_quota_of tm id w) = _current_index tm.
Proof.
  intros Hk. unfold update_quota_of.
  destruct (lookup id (_tokens tm)) as [token|] eqn:El; [|repeat split].
  apply lookup_some in El. destruct El as [Hin _].
  set (step := if negb (str_truthy (subscription_tier token))
               then let '(t, tm', _) :=
                      _fetch_metadata tm token (q_metadata_reply w) (q_save_metadata_reply w) in
                    (t, tm')
               else (token, tm)).
  assert (Hstep : same_credentials (_tokens tm) (_tokens (snd step))
                  /\ _last_used (snd step) = _last_used tm
                  /\ _current_index (snd step) = _current_index tm
                  /\ In (fst step) (_tokens (snd step))).
  { subst step. destruct (negb (str_truthy (subscription_tier token))).
    - destruct (_fetch_metadata tm token (q_metadata_reply w) (q_save_metadata_reply w))
        as [[t tm1] c] eqn:Hm.
      pose proof (fetch_metadata_sound _ _ _ _ _ _ _ Hin Hm)
        as (_ & L & _ & Hst & I & A & E & R & T & X).
      simpl. split; [|split; [exact L|split; [|exact I]]].
      + rewrite Hst. apply store_same_credentials with (token := token); auto.
      + unfold _fetch_metadata in Hm. injection Hm as _ <- _. reflexivity.
    - simpl. repeat split. exact Hin. }
  destruct step as [t1 tm1]. simpl in Hstep. destruct Hstep as (S1 & L1 & C1 & I1).
  destruct (polled w) as [q|]; [|auto].
  simpl. split; [|split; assumption].
  eapply same_credentials_trans; [exact S1|].
  apply store_same_credentials with (token := t1); auto.
  destruct S1 as (A & _). rewrite A. exact Hk.
Qed.

(** X8.  A round of the quota scheduler changes neither the set or order of
    the accounts nor any email, access token, refresh token or expiry, and
    touches neither the counter nor the sticky pair. *)
Theorem quota_round_keeps_credentials (tm : TokenManager) (w : string -> QuotaWorld) :
  well_keyed tm = true ->
  same_credentials (_tokens tm) (_tokens (update_quotas tm w))
  /\ _last_used (update_quotas tm w) = _last_used tm
  /\ _current_index (update_quotas tm w) = _current_index tm.
Proof.
  intros Hk. unfold update_quotas.
  assert (Hgen : forall ids tmi,
    same_credentials (_tokens tm) (_tokens tmi) ->
    _last_used tmi = _last_used tm -> _current_index tmi = _current_index tm ->
    let tme := fold_left (fun tm0 id => update_quota_of tm0 id (w id)) ids tmi in
    same_credentials (_tokens tm) (_tokens tme)
    /\ _last_used tme = _last_used tm /\ _current_index tme = _current_index tm).
  { induction ids as [|id ids IH]; intros tmi S L C; simpl; [auto|].
    assert (Hki : well_keyed tmi = true).
    { unfold well_keyed in *. destruct S as (A & _). now rewrite A. }
    destruct (update_quota_of_keeps tmi id (w id) Hki) as (S' & L' & C').
    apply IH; [eapply same_credentials_trans; eauto | congruence | congruence]. }
  apply Hgen; [repeat split | reflexivity | reflexivity].
Qed.

Lemma quota_round_keeps_credentials_witness :
  let tm := snd (fst (get_token_entry one_without_project "gemini" false (quiet 0))) in
  same_credentials (_tokens tm) (_tokens (update_quotas tm quota_tick_ok))
  /\ _last_used (update_quotas tm quota_tick_ok) = _last_used tm
  /\ _current_index (update_quotas tm quota_tick_ok) = _current_index tm.
Proof.
  apply (quota_round_keeps_credentials
           (snd (fst (get_token_entry one_without_project "gemini" false (quiet 0))))
           quota_tick_ok).
  reflexivity.
Defined.

(** ** Loading the pool *)

Lemma pool_set_lookup (token : ProxyToken) (pool : list ProxyToken) :
  lookup (account_id token) (pool_set token pool) = Some token.
Proof.
  unfold lookup. induction pool as [|t pool IH]; simpl.
  - now rewrite String.eqb_refl.
  - destruct (String.eqb (account_id t) (account_id token)) eqn:E; simpl.
    + now rewrite String.eqb_refl.
    + now rewrite E.
Qed.

Lemma pool_set_lookup_other (token : ProxyToken) (pool : list ProxyToken) (id : string) :
  id <> account_id token -> lookup id (pool_set token pool) = lookup id pool.
Proof.
  intros Hne. unfold lookup. induction pool as [|t pool IH]; simpl.
  - apply not_eq_sym in Hne. apply String.eqb_neq in Hne. now rewrite Hne.
  - destruct (String.eqb (account_id t) (account_id token)) eqn:E; simpl.
    + apply String.eqb_eq in E.
      assert (String.eqb (account_id t) id = false) as ->
          by (apply String.eqb_neq; congruence).
      assert (String.eqb (account_id token) id = false) as ->
          by (apply String.eqb_neq; congruence).
      reflexivity.
    + destruct (String.eqb (account_id t) id); [reflexivity | exact IH].
Qed.

(** The keys after an assignment: the old keys, and the new one at the end
    when it was not among them. *)
Lemma pool_set_keys (token : ProxyToken) (pool : list ProxyToken) :
  map account_id (pool_set token pool)
  = if existsb (String.eqb (account_id token)) (map account_id pool)
    then map account_id pool
    else (map account_id pool ++ [account_id token])%list.
Proof.
  induction pool as [|t pool IH]; simpl; [reflexivity|].
  rewrite (String.eqb_sym (account_id token) (account_id t)).
  destruct (String.eqb (account_id t) (account_id token)) eqn:E; simpl.
  - apply String.eqb_eq in E. now rewrite E.
  - rewrite IH. destruct (existsb _ _); reflexivity.
Qed.

Lemma keys_distinct_app_new (ids : list string) (i : string) :
  keys_distinct ids = true -> existsb (String.eqb i) ids = false ->
  keys_distinct (ids ++ [i]) = true.
Proof.
  induction ids as [|j ids IH]; simpl; [reflexivity|].
  intros Hd Hi. apply andb_true_iff in Hd. destruct Hd as [Hj Hd].
  apply orb_false_iff in Hi. destruct Hi as [Hij Hi].
  apply andb_true_iff. split; [|now apply IH].
  rewrite existsb_app. simpl. rewrite orb_false_r.
  apply negb_true_iff in Hj. rewrite Hj. simpl.
  rewrite String.eqb_sym. now rewrite Hij.
Qed.

Lemma pool_set_keys_distinct (token : ProxyToken) (pool : list ProxyToken) :
  keys_distinct (map account_id pool) = true ->
  keys_distinct (map account_id (pool_set token pool)) = true.
Proof.
  intros Hd. rewrite pool_set_keys.
  destruct (existsb _ _) eqn:E; [exact Hd | now apply keys_distinct_app_new].
Qed.

Lemma pool_set_old_entries (token t : ProxyToken) (pool : list ProxyToken) :
  In t pool -> account_id t <> account_id token -> In t (pool_set token pool).
Proof.
  intros Hin Hne. induction pool as [|x pool IH]; [contradiction|]. simpl.
  destruct (String.eqb (account_id x) (account_id token)) eqn:E.
  - destruct Hin as [-> | Hin]; [|now right].
    apply String.eqb_eq in E. contradiction.
  - destruct Hin as [-> | Hin]; [now left | right; now apply IH].
Qed.

Lemma load_accounts_pool (accounts : list Account) :
  forall n tm,
    fold_left
      (fun (st : nat * TokenManager) acc =>
         match loadable acc with
         | Some token => (S (fst st), with_pool (snd st) (pool_set token (_tokens (snd st))))
         | None => st
         end) accounts (n, tm)
    = ((n + List.length (filter (fun acc => match loadable acc with
                                            | Some _ => true | None => false end)
                                accounts))%nat,
       with_pool tm (load_pool (_tokens tm) accounts)).
Proof.
  induction accounts as [|acc accounts IH]; intros n tm; simpl.
  - rewrite Nat.add_0_r. now destruct tm.
  - unfold load_pool. simpl. destruct (loadable acc) as [token|]; simpl.
    + rewrite IH. simpl. f_equal. lia.
    + apply IH.
Qed.

Lemma pool_set_has_key (token : ProxyToken) (pool : list ProxyToken) :
  has_key (account_id token) (pool_set token pool) = true.
Proof.
  unfold has_key. induction pool as [|t pool IH]; simpl.
  - now rewrite String.eqb_refl.
  - destruct (String.eqb (account_id t) (account_id token)) eqn:E; simpl.
    + now rewrite String.eqb_refl.
    + rewrite IH. apply orb_true_r.
Qed.

Lemma pool_set_has_key_mono (token : ProxyToken) (pool : list ProxyToken) (id : string) :
  has_key id pool = true -> has_key id (pool_set token pool) = true.
Proof.
  unfold has_key. induction pool as [|t pool IH]; simpl; [discriminate|].
  intros H. apply orb_true_iff in H.
  destruct (String.eqb (account_id t) (account_id token)) eqn:E; simpl.
  - apply String.eqb_eq in E. destruct H as [H | H].
    + rewrite <- E, H. reflexivity.
    + rewrite H. apply orb_true_r.
  - destruct H as [H | H]; [now rewrite H | rewrite (IH H); apply orb_true_r].
Qed.

Lemma pool_set_absorb (t u : ProxyToken) (pool : list ProxyToken) :
  account_id t = account_id u -> pool_set t (pool_set u pool) = pool_set t pool.
Proof.
  intros Hid. induction pool as [|x pool IH]; simpl.
  - now rewrite Hid, String.eqb_refl.
  - rewrite Hid.
    destruct (String.eqb (account_id x) (account_id u)) eqn:E; simpl.
    + now rewrite Hid, String.eqb_refl.
    + rewrite Hid, E. now rewrite IH.
Qed.

Lemma pool_set_commute (t u : ProxyToken) (pool : list ProxyToken) :
  account_id u <> account_id t ->
  has_key (account_id u) pool = true ->
  pool_set u (pool_set t pool) = pool_set t (pool_set u pool).
Proof.
  intros Hne. unfold has_key.
  induction pool as [|x pool IH]; simpl; [discriminate|].
  intros H.
  destruct (String.eqb (account_id x) (account_id t)) eqn:Et;
    destruct (String.eqb (account_id x) (account_id u)) eqn:Eu; simpl.
  - apply String.eqb_eq in Et. apply String.eqb_eq in Eu. congruence.
  - assert (String.eqb (account_id t) (account_id u) = false) as ->
        by (apply String.eqb_neq; congruence).
    now rewrite Et.
  - assert (String.eqb (account_id u) (account_id t) = false) as ->
        by (now apply String.eqb_neq).
    now rewrite Eu.
  - rewrite Et, Eu. f_equal. apply IH.
    rewrite String.eqb_sym in H. rewrite Eu in H. exact H.
Qed.

Lemma assign_all_has_key_mono (tokens : list ProxyToken) :
  forall pool id, has_key id pool = true -> has_key id (assign_all tokens pool) = true.
Proof.
  induction tokens as [|t tokens IH]; intros pool id H; simpl; [exact H|].
  apply IH. now apply pool_set_has_key_mono.
Qed.

Lemma assign_all_has_keys (tokens : list ProxyToken) :
  forall pool t, In t tokens -> has_key (account_id t) (assign_all tokens pool) = true.
Proof.
  induction tokens as [|u tokens IH]; intros pool t Hin; [contradiction|]. simpl.
  destruct Hin as [-> | Hin]; [|now apply IH].
  apply assign_all_has_key_mono. apply pool_set_has_key.
Qed.

Lemma assign_all_again (tokens : list ProxyToken) :
  forall pool t,
    (forall u, In u tokens -> has_key (account_id u) pool = true) ->
    pool_set t (assign_all tokens (pool_set t pool)) = pool_set t (assign_all tokens pool).
Proof.
  induction tokens as [|u tokens IH]; intros pool t Hkeys; simpl.
  - apply pool_set_absorb. reflexivity.
  - destruct (String.eqb (account_id u) (account_id t)) eqn:E.
    + apply String.eqb_eq in E. now rewrite (pool_set_absorb u t pool E).
    + apply String.eqb_neq in E.
      rewrite (pool_set_commute t u pool E) by (apply Hkeys; now left).
      apply IH. intros v Hv. apply pool_set_has_key_mono. apply Hkeys. now right.
Qed.

Lemma assign_all_idempotent (tokens : list ProxyToken) (pool : list ProxyToken) :
  assign_all tokens (assign_all tokens pool) = assign_all tokens pool.
Proof.
  induction tokens as [|t tokens IH] using rev_ind; [reflexivity|].
  unfold assign_all in *. rewrite !fold_left_app. simpl.
  set (R := fold_left (fun p t0 => pool_set t0 p) tokens pool) in *.
  change (fold_left (fun p t0 => pool_set t0 p) tokens (pool_set t R))
    with (assign_all tokens (pool_set t R)).
  rewrite assign_all_again.
  - unfold assign_all. now rewrite IH.
  - intros u Hu. subst R. now apply assign_all_has_keys.
Qed.

Lemma load_pool_assign (accounts : list Account) :
  forall pool, load_pool pool accounts = assign_all (loadable_tokens accounts) pool.
Proof.
  unfold load_pool, assign_all.
  induction accounts as [|acc accounts IH]; intros pool; simpl; [reflexivity|].
  rewrite fold_left_app. destruct (loadable acc) as [t|]; simpl; apply IH.
Qed.

(** X9.  Loading the pool twice from the same rows gives the same pool and
    the same count as loading it once. *)
Theorem load_accounts_idempotent (tm : TokenManager) (accounts : list Account) :
  load_accounts (snd (load_accounts tm accounts)) accounts = load_accounts tm accounts.
Proof.
  unfold load_accounts. rewrite !load_accounts_pool. simpl.
  f_equal. unfold with_pool. simpl. f_equal.
  rewrite !load_pool_assign. apply assign_all_idempotent.
Qed.

Lemma loadable_key (acc : Account) (t : ProxyToken) :
  loadable acc = Some t -> account_id t = acc_id acc /\ access_token t <> "".
Proof.
  unfold loadable. destruct (acc_token acc) as [row|]; [|discriminate].
  destruct (String.eqb (row_access_token row) "") eqn:E; [discriminate|].
  intros H. injection H as <-. simpl. split; [reflexivity|]. now apply String.eqb_neq.
Qed.

Lemma assign_all_summary (tokens : list ProxyToken) :
  forall pool,
    keys_distinct (map account_id pool) = true ->
    keys_distinct (map account_id (assign_all tokens pool)) = true
    /\ (exists extra, map account_id (assign_all tokens pool)
                      = (map account_id pool ++ extra)%list)
    /\ forall t, In t pool ->
         (forall u, In u tokens -> account_id u <> account_id t) ->
         In t (assign_all tokens pool).
Proof.
  induction tokens as [|u tokens IH]; intros pool Hd; simpl.
  - split; [exact Hd|]. split; [exists []; now rewrite app_nil_r | auto].
  - destruct (IH (pool_set u pool) (pool_set_keys_distinct u pool Hd)) as (D & [extra E] & Old).
    split; [exact D|]. split.
    + rewrite E, pool_set_keys. destruct (existsb _ _).
      * now exists extra.
      * exists (account_id u :: extra). now rewrite <- app_assoc.
    + intros t Ht Hne. apply Old.
      * apply pool_set_old_entries; [exact Ht|]. apply not_eq_sym. apply Hne. now left.
      * intros v Hv. apply Hne. now right.
Qed.

(** X10.  Loading keeps the pool a dictionary and never removes an entry:
    the old keys stay in place, in order, new keys go to the end, and an
    entry whose account is not among the loaded rows (a deleted account,
    say) stays in the pool as it was.  The count is the number of rows with
    a token and a non-empty access token; counter and sticky pair are not
    touched. *)
Theorem load_accounts_never_removes (tm : TokenManager) (accounts : list Account)
    (count : nat) (tm' : TokenManager) :
  well_keyed tm = true ->
  load_accounts tm accounts = (count, tm') ->
  well_keyed tm' = true
  /\ count = List.length (loadable_tokens accounts)
  /\ (exists extra,
        map account_id (_tokens tm') = (map account_id (_tokens tm) ++ extra)%list)
  /\ (forall t, In t (_tokens tm) ->
        (forall acc, In acc accounts -> loadable acc <> None -> acc_id acc <> account_id t) ->
        In t (_tokens tm'))
  /\ _last_used tm' = _last_used tm
  /\ _current_index tm' = _current_index tm.
Proof.
  intros Hk. unfold load_accounts. rewrite load_accounts_pool. intros H.
  injection H as <- <-. simpl. rewrite load_pool_assign.
  destruct (assign_all_summary (loadable_tokens accounts) (_tokens tm) Hk) as (D & E & Old).
  split; [exact D|]. split.
  { clear. induction accounts as [|acc accounts IH]; [reflexivity|]. simpl.
    unfold loadable_tokens in *. simpl. rewrite length_app.
    destruct (loadable acc); simpl; now rewrite IH. }
  split; [exact E|]. split; [|split; reflexivity].
  intros t Ht Hne. apply Old; [exact Ht|].
  intros u Hu. unfold loadable_tokens in Hu. apply in_flat_map in Hu.
  destruct Hu as (acc & Hacc & Hu).
  destruct (loadable acc) as [t0|] eqn:El; [|contradiction].
  destruct Hu as [<- | []].
  destruct (loadable_key _ _ El) as [-> _].
  apply Hne; [exact Hacc | congruence].
Qed.

Lemma load_accounts_never_removes_witness :
  let out := load_accounts two_plain rows_b_c in
  well_keyed (snd out) = true
  /\ fst out = List.length (loadable_tokens rows_b_c)
  /\ (exists extra,
        map account_id (_tokens (snd out)) = (map account_id (_tokens two_plain) ++ extra)%list)
  /\ (forall t, In t (_tokens two_plain) ->
        (forall acc, In acc rows_b_c -> loadable acc <> None -> acc_id acc <> account_id t) ->
        In t (_tokens (snd out)))
  /\ _last_used (snd out) = _last_used two_plain
  /\ _current_index (snd out) = _current_index two_plain.
Proof.
  apply (load_accounts_never_removes two_plain rows_b_c).
  - reflexivity.
  - vm_compute. reflexivity.
Defined.

(** X11.  After [reload_account] found a row with a token, the pool is
    still a dictionary, the account is found under its id with exactly the
    values of the row, and every other key holds what it held; a missing row
    or a row without token changes nothing and is reported as [False]. *)
Theorem reload_account_then_lookup (tm : TokenManager) (found : option Account) :
  well_keyed tm = true ->
  well_keyed (snd (reload_account tm found)) = true
  /\ (forall acc token,
        found = Some acc -> acc_token acc = Some token ->
        fst (reload_account tm found) = true
        /\ lookup (acc_id acc) (_tokens (snd (reload_account tm found)))
           = Some (proxy_token_of acc token)
        /\ forall id, id <> acc_id acc ->
             lookup id (_tokens (snd (reload_account tm found))) = lookup id (_tokens tm))
  /\ ((forall acc, found = Some acc -> acc_token acc = None) ->
      reload_account tm found = (false, tm)).
Proof.
  intros Hk. unfold reload_account. split; [|split].
  - destruct found as [acc|]; [|exact Hk].
    destruct (acc_token acc) as [token|]; [|exact Hk].
    simpl. now apply pool_set_keys_distinct.
  - intros acc token -> ->. simpl. split; [reflexivity|]. split.
    + apply (pool_set_lookup (proxy_token_of acc token)).
    + intros id Hne. now apply pool_set_lookup_other.
  - intros Hnone. destruct found as [acc|]; [|reflexivity].
    now rewrite (Hnone acc eq_refl).
Qed.

Lemma reload_account_then_lookup_witness :
  let found := Some {| acc_id := "b"; acc_email := "b@example.com";
                       acc_token := Some (row "access-db") |} in
  well_keyed (snd (reload_account two_plain found)) = true
  /\ (forall acc token,
        found = Some acc -> acc_token acc = Some token ->
        fst (reload_account two_plain found) = true
        /\ lookup (acc_id acc) (_tokens (snd (reload_account two_plain found)))
           = Some (proxy_token_of acc token)
        /\ forall id, id <> acc_id acc ->
             lookup id (_tokens (snd (reload_account two_plain found)))
             = lookup id (_tokens two_plain))
  /\ ((forall acc, found = Some acc -> acc_token acc = None) ->
      reload_account two_plain found = (false, two_plain)).
Proof.
  apply (reload_account_then_lookup two_plain).
  reflexivity.
Defined.

(** ** Account metadata and user info *)

(** X12.  In a 200 reply of [loadCodeAssist], a paid tier with a non-empty
    id decides the subscription tier whatever the current tier holds (even a
    value that is no object); the current tier decides when the paid tier is
    missing or null.  The project id is the reply's
    [cloudaicompanionProject] in both cases, none when the reply has none. *)
Theorem paid_tier_wins (tok text : string) (data : list (string * json))
    (source : string) (tier_data : list (string * json)) (tier : string) :
  source = "paidTier"
  \/ (source = "currentTier"
      /\ (dict_get "paidTier" data = None \/ dict_get "paidTier" data = Some JNull)) ->
  dict_get source data = Some (JDict tier_data) ->
  dict_get "id" tier_data = Some (JStr tier) ->
  tier <> "" ->
  exists project,
    fetch_account_info tok (Response 200 text (Some (JDict data)))
    = Ok (project, Some tier)
    /\ (forall p, dict_get "cloudaicompanionProject" data = Some (JStr p) ->
                  project = Some p)
    /\ (dict_get "cloudaicompanionProject" data = None -> project = None).
Proof.
  intros Hsource Hget Hid Hne.
  exists (as_opt_str (dict_get "cloudaicompanionProject" data)).
  split; [|split; [intros p -> | intros ->]; reflexivity].
  unfold fetch_account_info. simpl.
  assert (Htier : tier_id (Some (JDict tier_data)) = Ok (Some (JStr tier))).
  { unfold tier_id. destruct tier_data as [|kv rest]; [discriminate Hid|]. cbn [truthy].
    rewrite Hid. cbn [truthy]. apply String.eqb_neq in Hne. now rewrite Hne. }
  destruct Hsource as [-> | [-> Hpaid]].
  - rewrite Hget, Htier. reflexivity.
  - assert (E : tier_id (dict_get "paidTier" data) = Ok None).
    { destruct Hpaid as [-> | ->]; reflexivity. }
    rewrite E, Hget, Htier. reflexivity.
Qed.

Lemma paid_tier_wins_witness :
  let data := [("cloudaicompanionProject", JStr "real-project");
               ("currentTier", JStr "not an object");
               ("paidTier", JDict [("id", JStr "g1-pro-tier")])] in
  exists project,
    fetch_account_info "access-a" (Response 200 "" (Some (JDict data)))
    = Ok (project, Some "g1-pro-tier")
    /\ (forall p, dict_get "cloudaicompanionProject" data = Some (JStr p) ->
                  project = Some p)
    /\ (dict_get "cloudaicompanionProject" data = None -> project = None).
Proof.
  apply (paid_tier_wins "access-a" ""
           [("cloudaicompanionProject", JStr "real-project");
            ("currentTier", JStr "not an object");
            ("paidTier", JDict [("id", JStr "g1-pro-tier")])]
           "paidTier" [("id", JStr "g1-pro-tier")] "g1-pro-tier").
  - now left.
  - reflexivity.
  - reflexivity.
  - discriminate.
Defined.

Lemma join_truthy_not_empty (l : list (option ustr)) :
  truthy_strs l <> [] -> join_space (truthy_strs l) <> [].
Proof.
  assert (Hall : Forall (fun s => s <> []) (truthy_strs l)).
  { unfold truthy_strs. apply Forall_forall. intros s Hs. apply in_flat_map in Hs.
    destruct Hs as ([[|c x]|] & _ & Hx); try contradiction.
    destruct Hx as [<- | []]. discriminate. }
  destruct (truthy_strs l) as [|s [|s' rest]]; [contradiction| |]; intros _.
  - simpl. now inversion Hall.
  - inversion Hall as [|? ? Hs _]. subst.
    destruct s as [|c s]; [contradiction | discriminate].
Qed.

(** X13.  [get_display_name] returns no name exactly when the name is
    missing or holds nothing but white space (that of [str.strip()], over
    all of Unicode) and both the given and the family name are missing or
    empty; a name it returns is never the empty string. *)
Theorem display_name_none_or_not_empty (self : UserInfo) :
  (get_display_name self = None
   <-> (match ui_name self with Some n => blank n = true | None => True end)
       /\ ustr_truthy (ui_given_name self) = false
       /\ ustr_truthy (ui_family_name self) = false)
  /\ forall s, get_display_name self = Some s -> s <> [].
Proof.
  assert (Hparts : ustr_truthy (ui_given_name self) || ustr_truthy (ui_family_name self) = true ->
                   join_space (truthy_strs [ui_given_name self; ui_family_name self]) <> []).
  { intros H. apply join_truthy_not_empty. unfold truthy_strs, ustr_truthy in *. simpl.
    destruct (ui_given_name self) as [[|cg g]|]; destruct (ui_family_name self) as [[|cf f]|];
      simpl in *; try discriminate. }
  unfold get_display_name. split.
  - destruct (ui_name self) as [name|].
    + destruct name as [|c name]; simpl ustr_truthy; cbv iota beta.
      * simpl.
        destruct (ustr_truthy (ui_given_name self) || ustr_truthy (ui_family_name self)) eqn:E.
        -- split; [discriminate|]. intros (_ & G & F). rewrite G, F in E. discriminate.
        -- apply orb_false_iff in E. tauto.
      * rewrite andb_true_l.
        destruct (blank (c :: name)) eqn:Eb; cbv [negb].
        -- destruct (ustr_truthy (ui_given_name self) || ustr_truthy (ui_family_name self)) eqn:E.
           ++ split; [discriminate|]. intros (_ & G & F). rewrite G, F in E. discriminate.
           ++ apply orb_false_iff in E. tauto.
        -- split; [discriminate|]. intros (B & _). discriminate.
    + destruct (ustr_truthy (ui_given_name self) || ustr_truthy (ui_family_name self)) eqn:E.
      * split; [discriminate|]. intros (_ & G & F). rewrite G, F in E. discriminate.
      * apply orb_false_iff in E. tauto.
  - intros s.
    destruct (ui_name self) as [name|].
    + destruct (ustr_truthy (Some name) && negb (blank name)) eqn:En.
      * intros H. injection H as <-. apply andb_true_iff in En. destruct En as [En _].
        destruct name; [discriminate En | discriminate].
      * destruct (ustr_truthy (ui_given_name self) || ustr_truthy (ui_family_name self)) eqn:E;
          [|discriminate].
        intros H. injection H as <-. now apply Hparts.
    + destruct (ustr_truthy (ui_given_name self) || ustr_truthy (ui_family_name self)) eqn:E;
        [|discriminate].
      intros H. injection H as <-. now apply Hparts.
Qed.

(** A name that is a no-break space (U+00A0), an ideographic space (U+3000)
    or empty is no display name; the given and the family name are joined
    by one space. *)
Example display_name_of_spaces :
  let user (name given family : option ustr) :=
    {| ui_email := "a@example.com"; ui_name := name; ui_given_name := given;
       ui_family_name := family; ui_picture := None |} in
  get_display_name (user (Some [160%N]) None None) = None
  /\ get_display_name (user (Some [32%N; 12288%N; 9%N]) None (Some [])) = None
  /\ get_display_name (user (Some []) (Some [65%N]) (Some [66%N])) = Some [65%N; 32%N; 66%N]
  /\ get_display_name (user (Some [160%N]) None (Some [66%N])) = Some [66%N]
  /\ get_display_name (user (Some [32%N; 65%N]) (Some [66%N]) None) = Some [32%N; 65%N].
Proof. repeat split. Qed.

(** ** Claude content through the two mappers *)

Lemma block_to_part (py_str : json -> string) (block : list (string * json)) (p : piece) :
  block_carries block p ->
  exists part, claude_block_parts py_str block = Ok [part] /\ part_carries part p.
Proof.
  destruct p as [s|s|name args]; simpl; unfold claude_block_parts, dict_get_or.
  - intros (Ht & Hx & Hs). rewrite Ht, Hx. simpl.
    apply String.eqb_neq in Hs. rewrite Hs. simpl.
    eexists. split; [reflexivity|]. eexists. split; [reflexivity|]. now split.
  - intros (Ht & Hx & Hs). rewrite Ht, Hx. simpl.
    apply String.eqb_neq in Hs. rewrite Hs. simpl.
    eexists. split; [reflexivity|]. eexists. split; [reflexivity|]. now split.
  - intros (Ht & Hn & Hi). rewrite Ht, Hn, Hi. simpl.
    eexists. split; [reflexivity|]. eexists. split; [reflexivity|].
    split; [reflexivity|]. split; [reflexivity|].
    eexists. split; [reflexivity|]. now split.
Qed.

Lemma blocks_to_parts (py_str : json -> string) blocks ps :
  Forall2 block_carries blocks ps ->
  exists parts, flat_map_r (claude_block_parts py_str) blocks = Ok parts
                /\ Forall2 part_carries parts ps.
Proof.
  induction 1 as [|block p blocks ps Hb _ IH].
  - exists []. split; [reflexivity | constructor].
  - destruct (block_to_part py_str block p Hb) as (part & E & Hp).
    destruct IH as (parts & E' & Hps).
    exists (part :: parts). split; [|now constructor].
    cbn [flat_map_r]. rewrite E, E'. reflexivity.
Qed.

Lemma parts_to_blocks (uuid : nat -> string) parts ps :
  Forall2 part_carries parts ps ->
  forall n, exists out, content_blocks uuid n parts = Ok out /\ Forall2 answers out ps.
Proof.
  induction 1 as [|part p parts ps Hp _ IH]; intros n.
  - exists []. split; [reflexivity | constructor].
  - destruct Hp as (d & -> & Hp). destruct p as [s|s|name args].
    + destruct Hp as (Hth & Hx). destruct (IH n) as (out & E & Hout).
      eexists. split.
      * cbn [content_blocks]. rewrite Hth, Hx. cbn [optional_str bind]. rewrite E.
        reflexivity.
      * constructor; [|exact Hout]. simpl. auto.
    + destruct Hp as (Hth & Hx). destruct (IH n) as (out & E & Hout).
      eexists. split.
      * cbn [content_blocks]. rewrite Hth. unfold dict_get_or at 1. rewrite Hx.
        cbn [optional_str bind]. rewrite E. reflexivity.
      * constructor; [|exact Hout]. simpl. auto.
    + destruct Hp as (Hth & Hx & fc & Hfc & Hn & Ha).
      destruct (IH (S n)) as (out & E & Hout).
      eexists. split.
      * cbn [content_blocks]. rewrite Hth, Hx, Hfc. cbn [get_or]. rewrite Hn, Ha.
        cbn [optional_str optional_dict bind]. rewrite E. reflexivity.
      * constructor; [|exact Hout]. simpl. auto.
Qed.

(** X14.  The text, thinking and tool-use blocks of an assistant message
    survive the way upstream and back: the Claude request mapper turns them
    into one [model] entry whose parts the Claude response mapper answers
    with blocks of the same kinds in the same order, carrying the same text,
    tool name and tool input (the tool-use id is drawn anew). *)
Theorem claude_blocks_survive_upstream (py_str : json -> string) (uuid : nat -> string)
    (n : nat) (blocks : list (list (string * json))) (ps : list piece) :
  Forall2 block_carries blocks ps ->
  ps <> [] ->
  exists parts out,
    claude_content_entry py_str {| cm_role := "assistant"; cm_content := ContentBlocks blocks |}
    = Ok [JDict [("role", JStr "model"); ("parts", JList parts)]]
    /\ content_blocks uuid n parts = Ok out
    /\ Forall2 answers out ps.
Proof.
  intros Hb Hne.
  destruct (blocks_to_parts py_str blocks ps Hb) as (parts & E & Hps).
  destruct (parts_to_blocks uuid parts ps Hps n) as (out & E' & Hout).
  exists parts, out. split; [|now split].
  unfold claude_content_entry. cbn [cm_role cm_content]. rewrite E. cbn [bind].
  destruct parts as [|part parts]; [|reflexivity].
  inversion Hps. subst. contradiction.
Qed.

Lemma claude_blocks_survive_upstream_witness :
  let blocks :=
    [[("type", JStr "thinking"); ("thinking", JStr "look it up"); ("signature", JStr "sig")];
     [("type", JStr "text"); ("text", JStr "One moment.")];
     [("type", JStr "tool_use"); ("id", JStr "toolu_1"); ("name", JStr "get_weather");
      ("input", JDict [("city", JStr "Paris")])]] in
  let ps := [Thought "look it up"; Text "One moment.";
             Call "get_weather" [("city", JStr "Paris")]] in
  Forall2 block_carries blocks ps
  /\ exists parts out,
       claude_content_entry (fun _ => "") {| cm_role := "assistant";
                                              cm_content := ContentBlocks blocks |}
       = Ok [JDict [("role", JStr "model"); ("parts", JList parts)]]
       /\ content_blocks (fun _ => "0123456789ab") 1 parts = Ok out
       /\ Forall2 answers out ps.
Proof.
  assert (H : Forall2 block_carries
                [[("type", JStr "thinking"); ("thinking", JStr "look it up");
                  ("signature", JStr "sig")];
                 [("type", JStr "text"); ("text", JStr "One moment.")];
                 [("type", JStr "tool_use"); ("id", JStr "toolu_1");
                  ("name", JStr "get_weather");
                  ("input", JDict [("city", JStr "Paris")])]]
                [Thought "look it up"; Text "One moment.";
                 Call "get_weather" [("city", JStr "Paris")]]).
  { repeat constructor; discriminate. }
  split; [exact H|].
  apply (claude_blocks_survive_upstream (fun _ => "") (fun _ => "0123456789ab") 1 _ _ H).
  discriminate.
Defined.

Lemma echo_of_answer (py_str : json -> string) (b : ClaudeResponseContentBlock) (p : piece) :
  answers b p -> claude_block_parts py_str (block_json b) = Ok (echo p).
Proof.
  destruct b as [ty text id name input]. destruct p as [s|s|nm args]; simpl.
  - intros (-> & -> & _). unfold claude_block_parts, dict_get_or. simpl.
    now destruct (String.eqb s "").
  - intros (-> & -> & _). reflexivity.
  - intros (-> & -> & -> & ->). reflexivity.
Qed.

(** X15.  When the client sends the content blocks of an answer back as
    they came, the Claude request mapper rebuilds the upstream parts that
    were a function call or a non-empty text, in order, and adds nothing for
    a thought: the answer carries a thought under [text], the request
    mapper reads [thinking]. *)
Theorem claude_answer_echo (py_str : json -> string) (uuid : nat -> string) (n : nat)
    (parts : list json) (ps : list piece) :
  Forall2 part_carries parts ps ->
  exists out,
    content_blocks uuid n parts = Ok out
    /\ flat_map_r (claude_block_parts py_str) (map block_json out) = Ok (flat_map echo ps).
Proof.
  intros Hps. destruct (parts_to_blocks uuid parts ps Hps n) as (out & E & Hout).
  exists out. split; [exact E|]. clear E Hps.
  induction Hout as [|b p out ps Hb _ IH]; [reflexivity|].
  cbn [map flat_map_r flat_map]. rewrite (echo_of_answer py_str b p Hb). cbn [bind].
  rewrite IH. reflexivity.
Qed.

Lemma claude_answer_echo_witness :
  let parts :=
    [JDict [("text", JStr "look it up"); ("thought", JBool true)];
     JDict [("text", JStr "One moment.")];
     JDict [("functionCall", JDict [("name", JStr "get_weather");
                                    ("args", JDict [("city", JStr "Paris")])])]] in
  let ps := [Thought "look it up"; Text "One moment.";
             Call "get_weather" [("city", JStr "Paris")]] in
  Forall2 part_carries parts ps
  /\ exists out,
       content_blocks (fun _ => "0123456789ab") 1 parts = Ok out
       /\ flat_map_r (claude_block_parts (fun _ => "")) (map block_json out)
          = Ok (flat_map echo ps).
Proof.
  assert (H : Forall2 part_carries
                [JDict [("text", JStr "look it up"); ("thought", JBool true)];
                 JDict [("text", JStr "One moment.")];
                 JDict [("functionCall", JDict [("name", JStr "get_weather");
                                                ("args", JDict [("city", JStr "Paris")])])]]
                [Thought "look it up"; Text "One moment.";
                 Call "get_weather" [("city", JStr "Paris")]]).
  { constructor; [eexists; split; [reflexivity|]; split; reflexivity|].
    constructor; [eexists; split; [reflexivity|]; split; reflexivity|].
    constructor; [|constructor].
    eexists. split; [reflexivity|]. split; [reflexivity|]. split; [reflexivity|].
    eexists. split; [reflexivity|]. split; reflexivity. }
  split; [exact H|].
  apply (claude_answer_echo (fun _ => "") (fun _ => "0123456789ab") 1 _ _ H).
Defined.

(** X16.  A content block validates back from [model_dump(exclude_none=True)]
    to itself, so the response carries the blocks the loop built; and its
    stop reason is one of [end_turn], [max_tokens] and [tool_use], read off
    [finishReason] alone: an answer made of tool-use blocks whose
    [finishReason] is [STOP] says [end_turn]. *)
Theorem claude_response_blocks_and_stop (uuid : nat -> string)
    (gemini_response : list (string * json)) (model : string)
    (response : ClaudeMessagesResponse) :
  transform_gemini_to_claude uuid gemini_response model = Ok response ->
  (forall b, ClaudeResponseContentBlock_of (model_dump_set b) = Ok b)
  /\ (forall parts, candidate_parts gemini_response = Ok parts ->
                    content_blocks uuid 1 parts = Ok (msg_content response))
  /\ In (stop_reason response) ["end_turn"; "max_tokens"; "tool_use"]
  /\ (stop_reason response = "tool_use"
      <-> exists candidate others,
            dict_get "candidates" gemini_response = Some (JList (JDict candidate :: others))
            /\ dict_get "finishReason" candidate = Some (JStr "TOOL_USE")).
Proof.
  assert (Hdump : forall b, ClaudeResponseContentBlock_of (model_dump_set b) = Ok b).
  { intros [ty [text|] [id|] [name|] [input|]]; reflexivity. }
  assert (Hmap : forall l, map_r (fun b => ClaudeResponseContentBlock_of (model_dump_set b)) l
                           = Ok l).
  { induction l as [|b l IH]; [reflexivity|]. cbn [map_r]. rewrite Hdump, IH. reflexivity. }
  assert (Hstop : forall f, In (stop_reason_of f) ["end_turn"; "max_tokens"; "tool_use"]).
  { intros f. unfold stop_reason_of. destruct f; simpl; auto.
    destruct (String.eqb s "STOP"); simpl; auto.
    destruct (String.eqb s "MAX_TOKENS"); simpl; auto.
    destruct (String.eqb s "TOOL_USE"); simpl; auto. }
  assert (Htool : forall f, stop_reason_of f = "tool_use" <-> f = JStr "TOOL_USE").
  { intros f. unfold stop_reason_of. split.
    - destruct f; try discriminate.
      destruct (String.eqb s "STOP"); [discriminate|].
      destruct (String.eqb s "MAX_TOKENS"); [discriminate|].
      destruct (String.eqb s "TOOL_USE") eqn:E; [|discriminate].
      apply String.eqb_eq in E. now subst.
    - intros ->. reflexivity. }
  intros H. split; [exact Hdump|].
  unfold transform_gemini_to_claude in H. unfold candidate_parts.
  remember (dict_get_or "candidates" (JList []) gemini_response) as candidates eqn:Ec.
  destruct (truthy candidates) eqn:Et.
  - destruct candidates as [| | | | |l|]; try discriminate H.
    destruct l as [|candidate others]; [discriminate Et|].
    destruct (get_or "content" (JDict []) candidate) as [content_obj|e] eqn:E1;
      [|discriminate H].
    cbn [bind] in H |- *.
    destruct (get_or "parts" (JList []) content_obj) as [parts|e] eqn:E2; [|discriminate H].
    cbn [bind] in H |- *.
    destruct (iterate parts) as [items|e] eqn:E3; [|discriminate H].
    cbn [bind] in H.
    destruct (content_blocks uuid 1 items) as [blocks|e] eqn:E4; [|discriminate H].
    cbn [bind] in H.
    destruct (get_or "finishReason" (JStr "") candidate) as [finish|e] eqn:E5;
      [|discriminate H].
    cbn [bind fst snd] in H.
    destruct (usage_field "promptTokenCount" _) as [i|e]; [|discriminate H].
    destruct (usage_field "candidatesTokenCount" _) as [o|e]; [|discriminate H].
    cbn [bind] in H. rewrite Hmap in H. cbn [bind] in H. injection H as <-.
    cbn [msg_content stop_reason].
    split; [intros ps Hps; injection Hps as <-; exact E4|].
    split; [apply Hstop|].
    rewrite Htool. split.
    + intros ->. destruct candidate as [| | | | | |c]; try discriminate E1.
      exists c, others. unfold dict_get_or in Ec.
      destruct (dict_get "candidates" gemini_response) as [v|]; [|discriminate Ec].
      subst v. split; [reflexivity|].
      cbn [get_or] in E5. destruct (dict_get "finishReason" c) as [v|]; [|discriminate E5].
      now injection E5 as ->.
    + intros (c & others' & Hc & Hf). unfold dict_get_or in Ec. rewrite Hc in Ec.
      injection Ec as -> ->. cbn [get_or] in E5. rewrite Hf in E5. now injection E5.
  - cbn [bind fst snd] in H.
    destruct (usage_field "promptTokenCount" _) as [i|e]; [|discriminate H].
    destruct (usage_field "candidatesTokenCount" _) as [o|e]; [|discriminate H].
    cbn [bind] in H. injection H as <-. cbn [msg_content stop_reason].
    split; [intros ps Hps; injection Hps as <-; reflexivity|].
    split; [simpl; auto|].
    split; [discriminate|].
    intros (c & others & Hc & _). unfold dict_get_or in Ec. rewrite Hc in Ec.
    subst candidates. discriminate Et.
Qed.

Lemma claude_response_blocks_and_stop_witness :
  let gemini_response :=
    [("candidates",
      JList [JDict [("content",
                     JDict [("parts",
                             JList [JDict [("functionCall",
                                            JDict [("name", JStr "get_weather");
                                                   ("args", JDict [])])]])]);
                    ("finishReason", JStr "STOP")]])] in
  exists response,
    transform_gemini_to_claude (fun _ => "0123456789ab") gemini_response "claude-3-opus"
    = Ok response
    /\ (forall b, ClaudeResponseContentBlock_of (model_dump_set b) = Ok b)
    /\ (forall parts, candidate_parts gemini_response = Ok parts ->
                      content_blocks (fun _ => "0123456789ab") 1 parts
                      = Ok (msg_content response))
    /\ In (stop_reason response) ["end_turn"; "max_tokens"; "tool_use"]
    /\ (stop_reason response = "tool_use"
        <-> exists candidate others,
              dict_get "candidates" gemini_response
              = Some (JList (JDict candidate :: others))
              /\ dict_get "finishReason" candidate = Some (JStr "TOOL_USE")).
Proof.
  eexists. split; [reflexivity|].
  apply (claude_response_blocks_and_stop (fun _ => "0123456789ab") _ "claude-3-opus").
  reflexivity.
Defined.

(** ** Building the upstream request again *)

Lemma dict_set_twice (k : string) (v : json) (d : list (string * json)) :
  dict_set k v (dict_set k v d) = dict_set k v d.
Proof.
  induction d as [|[k' v'] d IH]; simpl.
  - now rewrite String.eqb_refl.
  - destruct (String.eqb k k') eqn:E; simpl.
    + now rewrite String.eqb_refl.
    + now rewrite E, IH.
Qed.

Lemma filter_dict_set (p : string -> bool) (k : string) (v : json)
    (d : list (string * json)) :
  p k = true ->
  filter (fun kv => p (fst kv)) (dict_set k v d)
  = dict_set k v (filter (fun kv => p (fst kv)) d).
Proof.
  intros Hk. induction d as [|[k' v'] d IH]; simpl.
  - now rewrite Hk.
  - destruct (String.eqb k k') eqn:E; simpl.
    + apply String.eqb_eq in E. subst k'. rewrite Hk. simpl.
      now rewrite String.eqb_refl.
    + destruct (p k') eqn:Ek'; simpl; rewrite ?E, IH; reflexivity.
Qed.

Lemma dict_get_filter (p : string -> bool) (k : string) (d : list (string * json)) :
  p k = true ->
  dict_get k (filter (fun kv => p (fst kv)) d) = dict_get k d.
Proof.
  intros Hk. induction d as [|[k' v'] d IH]; simpl; [reflexivity|].
  destruct (String.eqb k k') eqn:E.
  - apply String.eqb_eq in E. subst k'. rewrite Hk. simpl. now rewrite String.eqb_refl.
  - destruct (p k'); simpl; rewrite ?E; exact IH.
Qed.

Lemma dict_set_same (k : string) (v : json) (d : list (string * json)) :
  dict_get k d = Some v -> dict_set k v d = d.
Proof.
  induction d as [|[k' v'] d IH]; simpl; [discriminate|].
  destruct (String.eqb k k') eqn:E.
  - intros H. injection H as ->. apply String.eqb_eq in E. now subst.
  - intros H. now rewrite IH.
Qed.

(** Step 5 on one dictionary [func] whose schema is already clean leaves it
    alone. *)
Lemma declare_function_again (tool : list (string * json)) (decl : json)
    (tool' : list (string * json)) :
  declare_function tool = Ok (decl, tool') ->
  declare_function tool' = Ok (decl, tool').
Proof.
  set (p := fun k => negb (existsb (String.eqb k) ["type"; "strict"; "additionalProperties"])).
  assert (Hp : p "parameters" = true) by reflexivity.
  unfold declare_function, dict_get_or.
  change (fun kv : string * json =>
            negb (existsb (String.eqb (fst kv)) ["type"; "strict"; "additionalProperties"]))
    with (fun kv : string * json => p (fst kv)).
  destruct (dict_get "function" tool) as [func|] eqn:Ef.
  - destruct func as [| | | | | |func]; try discriminate.
    rewrite (dict_get_filter p "parameters" func Hp).
    destruct (dict_get "parameters" func) as [params|] eqn:Eparams.
    + destruct params as [| | | | | |schema]; try discriminate.
      intros H. injection H as <- <-.
      rewrite dict_get_set.
      rewrite (dict_get_filter p "parameters" _ Hp), dict_get_set.
      set (cleaned := JDict (keep_map _ _ schema)).
      assert (Hidem : _clean_json_schema cleaned = cleaned)
        by exact (proj1 (clean_json_schema_idem_nested (JDict schema))).
      rewrite Hidem. rewrite !dict_set_twice.
      rewrite (filter_dict_set p "parameters" _ func Hp), dict_set_twice. reflexivity.
    + intros H. injection H as <- <-. rewrite Ef.
      rewrite (dict_get_filter p "parameters" func Hp), Eparams. reflexivity.
  - rewrite (dict_get_filter p "parameters" tool Hp).
    destruct (dict_get "parameters" tool) as [params|] eqn:Eparams.
    + destruct params as [| | | | | |schema]; try discriminate.
      intros H. injection H as <- <-.
      rewrite dict_get_set_other by discriminate. rewrite Ef.
      rewrite (dict_get_filter p "parameters" _ Hp), dict_get_set.
      set (cleaned := JDict (keep_map _ _ schema)).
      assert (Hidem : _clean_json_schema cleaned = cleaned)
        by exact (proj1 (clean_json_schema_idem_nested (JDict schema))).
      rewrite Hidem. rewrite !dict_set_twice.
      rewrite (filter_dict_set p "parameters" _ tool Hp), dict_set_twice. reflexivity.
    + intros H. injection H as <- <-. rewrite Ef.
      rewrite (dict_get_filter p "parameters" tool Hp), Eparams. reflexivity.
Qed.

Lemma declare_functions_again tools :
  forall decls tools',
    declare_functions tools = Ok (decls, tools') ->
    declare_functions tools' = Ok (decls, tools')
    /\ List.length tools' = List.length tools.
Proof.
  induction tools as [|tool tools IH]; intros decls tools' H.
  - injection H as <- <-. now split.
  - cbn [declare_functions] in H.
    destruct (declare_function tool) as [[d t]|e] eqn:E1; [|discriminate H].
    cbn [bind] in H.
    destruct (declare_functions tools) as [[ds ts]|e] eqn:E2; [|discriminate H].
    cbn [bind fst snd] in H. injection H as <- <-.
    destruct (IH ds ts eq_refl) as [IH1 IH2].
    cbn [declare_functions]. rewrite (declare_function_again tool d t E1). cbn [bind].
    rewrite IH1. cbn [bind fst snd List.length]. now rewrite IH2.
Qed.

(** X17.  Building the upstream request a second time, as every retry
    does, gives the same inner request and changes the request no further:
    the first build cleans the tool schemas of the request in place, and
    cleaning is idempotent.  Only the request id, the project and the model
    of the wrapper can differ. *)
Theorem rebuild_gives_same_request (uuid uuid' : string) (loads : string -> option json)
    (request request' : OpenAIChatRequest) (project_id project_id' : string)
    (mapped_model mapped_model' : string) (payload : list (string * json)) :
  transform_openai_to_gemini uuid loads request project_id mapped_model
  = Ok (payload, request') ->
  exists inner_request,
    payload = wrap_request ("openai-" ++ uuid) project_id mapped_model inner_request
    /\ transform_openai_to_gemini uuid' loads request' project_id' mapped_model'
       = Ok (wrap_request ("openai-" ++ uuid') project_id' mapped_model' inner_request,
             request').
Proof.
  unfold transform_openai_to_gemini. intros H.
  destruct (flat_map_r (openai_content_entry loads) (chat_messages request))
    as [contents|e] eqn:Ec; [|discriminate H].
  cbn [bind] in H.
  destruct (declare_tools (chat_tools request)) as [[decls tools']|e] eqn:Ed;
    [|discriminate H].
  cbn [bind fst snd] in H.
  assert (Hagain : declare_tools tools' = Ok (decls, tools')).
  { unfold declare_tools in Ed |- *.
    destruct (chat_tools request) as [[|tool tools]|].
    - injection Ed as <- <-. reflexivity.
    - destruct (declare_functions (tool :: tools)) as [[ds ts]|e] eqn:E; [|discriminate Ed].
      cbn [bind fst snd] in Ed. injection Ed as <- <-.
      destruct (declare_functions_again _ _ _ E) as [E' Hlen].
      destruct ts as [|t ts]; [discriminate Hlen|].
      rewrite E'. reflexivity.
    - injection Ed as <- <-. reflexivity. }
  destruct (match flat_map system_instructions_of (chat_messages request) with
            | [] => Ok _
            | _ :: _ => _
            end) as [inner|e] eqn:Es; [|discriminate H].
  cbn [bind] in H. injection H as <- <-.
  exists inner. split; [reflexivity|].
  cbn [chat_messages chat_tools chat_config chat_model chat_stream].
  rewrite Ec. cbn [bind]. rewrite Hagain. cbn [bind fst snd]. rewrite Es. reflexivity.
Qed.

Lemma rebuild_gives_same_request_witness :
  let request :=
    {| chat_model := "gpt-4";
       chat_messages :=
         [{| om_role := "system"; om_content := Some (ContentStr "Be brief.");
             om_tool_calls := None; om_tool_call_id := None; om_name := None |};
          {| om_role := "user"; om_content := Some (ContentStr "Weather in Paris?");
             om_tool_calls := None; om_tool_call_id := None; om_name := None |}];
       chat_stream := false;
       chat_tools :=
         Some [[("type", JStr "function");
                ("function",
                 JDict [("name", JStr "get_weather");
                        ("strict", JBool true);
                        ("parameters",
                         JDict [("type", JStr "object");
                                ("additionalProperties", JBool false);
                                ("properties",
                                 JDict [("city", JDict [("type", JStr "string");
                                                        ("minLength", JInt 1)])])])])]];
       chat_config := sample_request |} in
  exists payload request' inner_request,
    transform_openai_to_gemini "u1" (fun _ => None) request "project-a" "gemini-3-pro-high"
    = Ok (payload, request')
    /\ request' <> request
    /\ payload = wrap_request "openai-u1" "project-a" "gemini-3-pro-high" inner_request
    /\ transform_openai_to_gemini "u2" (fun _ => None) request' "project-b" "gemini-3-pro-high"
       = Ok (wrap_request "openai-u2" "project-b" "gemini-3-pro-high" inner_request,
             request').
Proof.
  intros request.
  destruct (transform_openai_to_gemini "u1" (fun _ => None) request "project-a"
              "gemini-3-pro-high") as [[payload request']|e] eqn:E;
    [|vm_compute in E; discriminate E].
  destruct (rebuild_gives_same_request "u1" "u2" (fun _ => None) request request'
              "project-a" "project-b" "gemini-3-pro-high" "gemini-3-pro-high" payload E)
    as (inner & Hp & Hagain).
  exists payload, request', inner.
  split; [reflexivity|]. split; [|split; [exact Hp | exact Hagain]].
  vm_compute in E. injection E as _ <-. discriminate.
Defined.

(** ** Tools and contents of the upstream request *)

Lemma claude_tools_value (tools : list ClaudeTool) (l : list json) :
  claude_tools (Some tools) = Some l ->
  let plain := filter (fun tool => negb (is_web_search tool)) tools in
  let declared :=
    match plain with
    | [] => []
    | _ :: _ => [JDict [("functionDeclarations", JList (map func_decl plain))]]
    end in
  l <> []
  /\ l = (declared ++ if existsb is_web_search tools then [google_search] else [])%list
  /\ (In google_search l <-> exists tool, In tool tools /\ is_web_search tool = true)
  /\ forall tool, In tool plain -> tool_name tool <> "web_search".
Proof.
  intros H plain declared. subst plain declared.
  assert (Hl : l = (match filter (fun tool => negb (is_web_search tool)) tools with
                    | [] => []
                    | _ :: _ =>
                        [JDict [("functionDeclarations",
                                 JList (map func_decl
                                          (filter (fun tool => negb (is_web_search tool))
                                                  tools)))]]
                    end ++ if existsb is_web_search tools then [google_search] else [])%list
               /\ l <> []).
  { unfold claude_tools in H. destruct tools as [|tool tools]; [discriminate H|].
    remember (tool :: tools) as ts eqn:Ets.
    destruct (filter (fun tool => negb (is_web_search tool)) ts) as [|t plain] eqn:Ef.
    - cbn [map] in H. destruct (existsb is_web_search ts); [|discriminate H].
      injection H as <-. split; [reflexivity | discriminate].
    - cbn [map] in H. destruct (existsb is_web_search ts); injection H as <-;
        (split; [reflexivity | discriminate]). }
  destruct Hl as [Hl Hne]. split; [exact Hne|]. split; [exact Hl|]. split.
  - rewrite <- existsb_exists. rewrite Hl. rewrite in_app_iff. split.
    + intros [Hin | Hin].
      * destruct (filter _ tools); [contradiction|].
        destruct Hin as [Hin | []]. discriminate Hin.
      * destruct (existsb is_web_search tools); [reflexivity | contradiction].
    + intros ->. right. now left.
  - intros tool Hin. apply filter_In in Hin. destruct Hin as [_ Hweb].
    apply negb_true_iff in Hweb. unfold is_web_search in Hweb.
    apply orb_false_iff in Hweb. destruct Hweb as [_ Hname].
    now apply String.eqb_neq.
Qed.

Lemma flat_map_r_in {A B : Type} (f : A -> result (list B)) (l : list A) :
  forall out, flat_map_r f l = Ok out ->
  forall b, In b out -> exists a x, In a l /\ f a = Ok x /\ In b x.
Proof.
  induction l as [|a l IH]; intros out H b Hb.
  - injection H as <-. contradiction.
  - cbn [flat_map_r] in H. destruct (f a) as [x|e] eqn:Ea; [|discriminate H].
    cbn [bind] in H. destruct (flat_map_r f l) as [r|e] eqn:Er; [|discriminate H].
    cbn [bind] in H. injection H as <-. apply in_app_iff in Hb. destruct Hb as [Hb | Hb].
    + exists a, x. split; [now left|]. now split.
    + destruct (IH r eq_refl b Hb) as (a' & x' & Hin & Hf & Hx).
      exists a', x'. split; [now right|]. now split.
Qed.

Lemma flat_map_r_length {A B : Type} (f : A -> result (list B)) (p : A -> bool)
    (l : list A) :
  (forall a x, f a = Ok x -> (List.length x <= if p a then 1 else 0)%nat) ->
  forall out, flat_map_r f l = Ok out ->
  (List.length out <= List.length (filter p l))%nat.
Proof.
  intros Hf. induction l as [|a l IH]; intros out H.
  - injection H as <-. simpl. lia.
  - cbn [flat_map_r] in H. destruct (f a) as [x|e] eqn:Ea; [|discriminate H].
    cbn [bind] in H. destruct (flat_map_r f l) as [r|e] eqn:Er; [|discriminate H].
    cbn [bind] in H. injection H as <-. rewrite length_app.
    specialize (IH r eq_refl). specialize (Hf a x Ea). cbn [filter].
    destruct (p a); cbn [List.length]; lia.
Qed.

Lemma content_entries (loads : string -> option json)
    (py_str : json -> string) (openai_messages : list OpenAIMessage)
    (claude_messages : list ClaudeMessage) (contents contents' : list json) :
  flat_map_r (openai_content_entry loads) openai_messages = Ok contents ->
  flat_map_r (claude_content_entry py_str) claude_messages = Ok contents' ->
  (forall entry, In entry contents ->
     exists msg parts,
       In msg openai_messages /\ om_role msg <> "system"
       /\ message_parts loads msg = Ok parts
       /\ content_entry entry (gemini_role (om_role msg)) parts
       /\ gemini_role (om_role msg) <> "system")
  /\ (List.length contents
      <= List.length (filter (fun msg => negb (String.eqb (om_role msg) "system"))
                             openai_messages))%nat
  /\ (forall entry, In entry contents' ->
        exists role parts, content_entry entry role parts /\ (role = "model" \/ role = "user"))
  /\ (List.length contents' <= List.length claude_messages)%nat.
Proof.
  intros Ho Hc. split; [|split; [|split]].
  - intros entry Hin.
    destruct (flat_map_r_in _ _ _ Ho entry Hin) as (msg & x & Hmsg & Hx & Hentry).
    unfold openai_content_entry in Hx.
    destruct (String.eqb (om_role msg) "system") eqn:Er.
    { injection Hx as <-. contradiction. }
    destruct (message_parts loads msg) as [parts|e] eqn:Ep; [|discriminate Hx].
    cbn [bind] in Hx. injection Hx as <-.
    destruct parts as [|part parts]; [contradiction|].
    destruct Hentry as [<- | []].
    exists msg, (part :: parts).
    apply String.eqb_neq in Er.
    split; [exact Hmsg|]. split; [exact Er|]. split; [exact Ep|].
    split; [split; [reflexivity | discriminate]|].
    unfold gemini_role. destruct (String.eqb (om_role msg) "assistant"); [discriminate|].
    destruct (existsb _ _); [discriminate | exact Er].
  - apply (flat_map_r_length _ (fun msg => negb (String.eqb (om_role msg) "system")) _)
      with (2 := Ho).
    intros msg x. unfold openai_content_entry.
    destruct (String.eqb (om_role msg) "system").
    { intros H. injection H as <-. simpl. lia. }
    destruct (message_parts loads msg) as [parts|e]; [|discriminate].
    cbn [bind]. intros H. injection H as <-. destruct parts; simpl; lia.
  - intros entry Hin.
    destruct (flat_map_r_in _ _ _ Hc entry Hin) as (msg & x & Hmsg & Hx & Hentry).
    unfold claude_content_entry in Hx.
    destruct (match cm_content msg with
              | ContentStr s => _
              | ContentBlocks blocks => _
              end) as [parts|e]; [|discriminate Hx].
    cbn [bind] in Hx. injection Hx as <-.
    destruct parts as [|part parts]; [contradiction|].
    destruct Hentry as [<- | []].
    eexists _, (part :: parts). split; [split; [reflexivity | discriminate]|].
    destruct (String.eqb (cm_role msg) "assistant"); auto.
  - pose proof (flat_map_r_length (claude_content_entry py_str) (fun _ => true)
                  claude_messages) as Hlen.
    assert (Hall : filter (fun _ : ClaudeMessage => true) claude_messages = claude_messages).
    { clear. induction claude_messages as [|m l IH]; simpl; [reflexivity | now rewrite IH]. }
    rewrite Hall in Hlen.
    apply Hlen; [|exact Hc]. intros msg x. unfold claude_content_entry.
    destruct (match cm_content msg with
              | ContentStr s => _
              | ContentBlocks blocks => _
              end) as [parts|e]; [|discriminate].
    cbn [bind]. intros H. injection H as <-. destruct parts; simpl; lia.
Qed.

Lemma openai_payload_contents (uuid : string) (loads : string -> option json)
    (request request' : OpenAIChatRequest) (project_id mapped_model : string)
    (payload : list (string * json)) :
  transform_openai_to_gemini uuid loads request project_id mapped_model
  = Ok (payload, request') ->
  exists contents,
    flat_map_r (openai_content_entry loads) (chat_messages request) = Ok contents
    /\ request_field "contents" payload = Some (JList contents).
Proof.
  unfold transform_openai_to_gemini. intros H.
  destruct (flat_map_r (openai_content_entry loads) (chat_messages request))
    as [contents|e]; [|discriminate H].
  cbn [bind] in H.
  destruct (declare_tools (chat_tools request)) as [[decls tools']|e]; [|discriminate H].
  cbn [bind fst snd] in H.
  exists contents. split; [reflexivity|].
  destruct (flat_map system_instructions_of (chat_messages request)) as [|x l].
  - cbn [bind] in H. injection H as <- _. unfold request_field, wrap_request.
    cbn [dict_get String.eqb]. simpl dict_get at 1.
    destruct decls; reflexivity.
  - destruct (join_strs (nl ++ nl) (x :: l)) as [text|e]; [|discriminate H].
    cbn [bind] in H. injection H as <- _. unfold request_field, wrap_request.
    simpl dict_get at 1. destruct decls; reflexivity.
Qed.

Lemma claude_payload_fields (uuid : string) (py_str : json -> string)
    (request : ClaudeRequest) (project_id mapped_model : string)
    (payload : list (string * json)) :
  transform_claude_to_gemini uuid py_str request project_id mapped_model = Ok payload ->
  exists contents,
    flat_map_r (claude_content_entry py_str) (cr_messages request) = Ok contents
    /\ request_field "contents" payload = Some (JList contents)
    /\ request_field "tools" payload
       = match claude_tools (cr_tools request) with
         | Some tools => Some (JList tools)
         | None => None
         end.
Proof.
  unfold transform_claude_to_gemini. intros H.
  destruct (claude_system_text (cr_system request)) as [system_text|e]; [|discriminate H].
  cbn [bind] in H.
  destruct (flat_map_r (claude_content_entry py_str) (cr_messages request))
    as [contents|e]; [|discriminate H].
  cbn [bind] in H. injection H as <-.
  exists contents. split; [reflexivity|].
  unfold request_field, wrap_request. simpl dict_get at 1. simpl dict_get at 2.
  destruct (negb (String.eqb system_text ""));
    destruct (claude_tools (cr_tools request)); split; reflexivity.
Qed.

(** X18.  In the payload of the Claude request mapper, the [tools] of a
    request that names tools are never empty: they hold at most one
    [functionDeclarations] entry, with one declaration for each tool that is
    no web search, in the order of the request, and then [googleSearch]
    exactly when some tool is a web search (by its type or by its name).
    No web-search tool is declared as a function. *)
Theorem claude_tools_shape (uuid : string) (py_str : json -> string)
    (request : ClaudeRequest) (project_id mapped_model : string)
    (payload : list (string * json)) (tools : list ClaudeTool) :
  transform_claude_to_gemini uuid py_str request project_id mapped_model = Ok payload ->
  cr_tools request = Some tools ->
  tools <> [] ->
  let plain := filter (fun tool => negb (is_web_search tool)) tools in
  let declared :=
    match plain with
    | [] => []
    | _ :: _ => [JDict [("functionDeclarations", JList (map func_decl plain))]]
    end in
  exists l,
    request_field "tools" payload = Some (JList l)
    /\ l <> []
    /\ l = (declared ++ if existsb is_web_search tools then [google_search] else [])%list
    /\ (In google_search l <-> exists tool, In tool tools /\ is_web_search tool = true)
    /\ forall tool, In tool plain -> tool_name tool <> "web_search".
Proof.
  intros H Htools Hne plain declared.
  destruct (claude_payload_fields _ _ _ _ _ _ H) as (contents & _ & _ & Hfield).
  rewrite Htools in Hfield.
  destruct (claude_tools (Some tools)) as [l|] eqn:El.
  - exists l. split; [exact Hfield|]. exact (claude_tools_value tools l El).
  - exfalso. unfold claude_tools in El. destruct tools as [|tool tools]; [contradiction|].
    cbn [filter existsb map] in El.
    destruct (is_web_search tool); cbn [negb orb map] in El; [discriminate El|].
    destruct (existsb is_web_search tools); discriminate El.
Qed.

Lemma claude_tools_shape_witness :
  let tools :=
    [{| tool_name := "web_search"; tool_description := None;
        tool_input_schema := None; tool_type := Some "web_search_20250305" |};
     {| tool_name := "get_weather"; tool_description := Some "Weather of a city";
        tool_input_schema := Some [("type", JStr "object"); ("title", JStr "Args")];
        tool_type := None |}] in
  let request :=
    {| cr_model := "claude-3-opus";
       cr_messages := [{| cm_role := "user"; cm_content := ContentStr "Weather in Paris?" |}];
       cr_system := Some (ContentStr "Be brief.");
       cr_tools := Some tools;
       cr_stream := false;
       cr_max_tokens := Some 256%Z;
       cr_temperature := None;
       cr_top_p := None;
       cr_top_k := None;
       cr_thinking := None |} in
  let plain := filter (fun tool => negb (is_web_search tool)) tools in
  let declared :=
    match plain with
    | [] => []
    | _ :: _ => [JDict [("functionDeclarations", JList (map func_decl plain))]]
    end in
  exists payload,
    transform_claude_to_gemini "u1" (fun _ => "") request "project-a"
      "claude-opus-4-5-thinking" = Ok payload
    /\ exists l,
         request_field "tools" payload = Some (JList l)
         /\ l <> []
         /\ l = (declared ++ if existsb is_web_search tools then [google_search] else [])%list
         /\ (In google_search l <-> exists tool, In tool tools /\ is_web_search tool = true)
         /\ forall tool, In tool plain -> tool_name tool <> "web_search".
Proof.
  intros tools request plain declared.
  eexists. split; [reflexivity|].
  apply (claude_tools_shape "u1" (fun _ => "") request "project-a" "claude-opus-4-5-thinking"
           _ tools).
  - reflexivity.
  - reflexivity.
  - discriminate.
Defined.

(** X19.  The [contents] in the payloads of both request mappers hold no
    system message and no empty entry: every entry is a role with at least
    one part, there are at most as many entries as messages that are no
    system message of the OpenAI request, an OpenAI role other than
    [assistant], [user], [tool] and [function] is passed on as it is, and
    the role of a Claude entry is [model] or [user]. *)
Theorem contents_hold_no_system_and_no_empty_entry (uuid : string)
    (loads : string -> option json) (py_str : json -> string)
    (openai_request openai_request' : OpenAIChatRequest) (claude_request : ClaudeRequest)
    (project_id mapped_model : string) (payload payload' : list (string * json)) :
  transform_openai_to_gemini uuid loads openai_request project_id mapped_model
  = Ok (payload, openai_request') ->
  transform_claude_to_gemini uuid py_str claude_request project_id mapped_model
  = Ok payload' ->
  exists contents contents',
    request_field "contents" payload = Some (JList contents)
    /\ request_field "contents" payload' = Some (JList contents')
    /\ (forall entry, In entry contents ->
          exists msg parts,
            In msg (chat_messages openai_request) /\ om_role msg <> "system"
            /\ message_parts loads msg = Ok parts
            /\ content_entry entry (gemini_role (om_role msg)) parts
            /\ gemini_role (om_role msg) <> "system")
    /\ (List.length contents
        <= List.length (filter (fun msg => negb (String.eqb (om_role msg) "system"))
                               (chat_messages openai_request)))%nat
    /\ (forall entry, In entry contents' ->
          exists role parts,
            content_entry entry role parts /\ (role = "model" \/ role = "user"))
    /\ (List.length contents' <= List.length (cr_messages claude_request))%nat.
Proof.
  intros Ho Hc.
  destruct (openai_payload_contents _ _ _ _ _ _ _ Ho) as (contents & Eo & Fo).
  destruct (claude_payload_fields _ _ _ _ _ _ Hc) as (contents' & Ec & Fc & _).
  exists contents, contents'. split; [exact Fo|]. split; [exact Fc|].
  exact (content_entries loads py_str _ _ _ _ Eo Ec).
Qed.

Lemma contents_hold_no_system_and_no_empty_entry_witness :
  let openai_request :=
    {| chat_model := "gpt-4";
       chat_messages :=
         [{| om_role := "system"; om_content := Some (ContentStr "Be brief.");
             om_tool_calls := None; om_tool_call_id := None; om_name := None |};
          {| om_role := "developer"; om_content := Some (ContentStr "Answer in French.");
             om_tool_calls := None; om_tool_call_id := None; om_name := None |};
          {| om_role := "assistant"; om_content := None;
             om_tool_calls := None; om_tool_call_id := None; om_name := None |};
          {| om_role := "tool"; om_content := Some (ContentStr "21 C");
             om_tool_calls := None; om_tool_call_id := Some "call_1"; om_name := None |}];
       chat_stream := false;
       chat_tools := None;
       chat_config := sample_request |} in
  let claude_request :=
    {| cr_model := "claude-3-opus";
       cr_messages := [{| cm_role := "user"; cm_content := ContentStr "" |};
                       {| cm_role := "assistant"; cm_content := ContentStr "Bonjour." |}];
       cr_system := None;
       cr_tools := None;
       cr_stream := false;
       cr_max_tokens := None;
       cr_temperature := None;
       cr_top_p := None;
       cr_top_k := None;
       cr_thinking := None |} in
  exists payload payload',
    transform_openai_to_gemini "u1" (fun _ => None) openai_request "project-a"
      "gemini-3-pro-high" = Ok (payload, openai_request)
    /\ transform_claude_to_gemini "u1" (fun _ => "") claude_request "project-a"
         "gemini-3-pro-high" = Ok payload'
    /\ exists contents contents',
         request_field "contents" payload = Some (JList contents)
         /\ request_field "contents" payload' = Some (JList contents')
         /\ (forall entry, In entry contents ->
               exists msg parts,
                 In msg (chat_messages openai_request) /\ om_role msg <> "system"
                 /\ message_parts (fun _ => None) msg = Ok parts
                 /\ content_entry entry (gemini_role (om_role msg)) parts
                 /\ gemini_role (om_role msg) <> "system")
         /\ (List.length contents
             <= List.length (filter (fun msg => negb (String.eqb (om_role msg) "system"))
                                    (chat_messages openai_request)))%nat
         /\ (forall entry, In entry contents' ->
               exists role parts,
                 content_entry entry role parts /\ (role = "model" \/ role = "user"))
         /\ (List.length contents' <= List.length (cr_messages claude_request))%nat.
Proof.
  intros openai_request claude_request.
  eexists. eexists.
  split; [reflexivity|]. split; [reflexivity|].
  apply (contents_hold_no_system_and_no_empty_entry "u1" (fun _ => None) (fun _ => "")
           openai_request openai_request claude_request "project-a" "gemini-3-pro-high");
    reflexivity.
Defined.

(** ** Data URLs *)

Lemma split_once_app (sep : ascii) (a b : string) :
  has_char sep a = false ->
  split_once sep (a ++ String sep b) = [a; b].
Proof.
  induction a as [|c a IH]; simpl.
  - now rewrite Ascii.eqb_refl.
  - intros H. apply orb_false_iff in H. destruct H as [Hc Ha].
    rewrite Hc, (IH Ha). reflexivity.
Qed.

Lemma split_app (sep : ascii) (a b : string) :
  has_char sep a = false ->
  split sep (a ++ String sep b) = a :: split sep b.
Proof.
  induction a as [|c a IH]; simpl.
  - now rewrite Ascii.eqb_refl.
  - intros H. apply orb_false_iff in H. destruct H as [Hc Ha].
    rewrite Hc, (IH Ha). reflexivity.
Qed.

Lemma split_without (sep : ascii) (a : string) :
  has_char sep a = false -> split sep a = [a].
Proof.
  induction a as [|c a IH]; simpl; [reflexivity|].
  intros H. apply orb_false_iff in H. destruct H as [Hc Ha].
  rewrite Hc, (IH Ha). reflexivity.
Qed.

Lemma split_once_without (sep : ascii) (a : string) :
  has_char sep a = false -> split_once sep a = [a].
Proof.
  induction a as [|c a IH]; simpl; [reflexivity|].
  intros H. apply orb_false_iff in H. destruct H as [Hc Ha].
  rewrite Hc, (IH Ha). reflexivity.
Qed.

Lemma has_char_app (sep : ascii) (a b : string) :
  has_char sep (a ++ b) = has_char sep a || has_char sep b.
Proof.
  induction a as [|c a IH]; simpl; [reflexivity|]. now rewrite IH, orb_assoc.
Qed.

Lemma string_app_assoc (a b c : string) : ((a ++ b) ++ c = a ++ (b ++ c))%string.
Proof. induction a as [|x a IH]; simpl; [reflexivity | now rewrite IH]. Qed.

Lemma data_url_decodes (mime data : string) :
  has_char "," mime = false -> has_char ":" mime = false -> has_char ";" mime = false ->
  data_url_part ("data:" ++ mime ++ ";base64," ++ data)
  = Some (JDict [("inlineData", JDict [("mimeType", JStr mime); ("data", JStr data)])]).
Proof.
  intros Hcomma Hcolon Hsemi. unfold data_url_part.
  replace ("data:" ++ mime ++ ";base64," ++ data)
    with (("data:" ++ mime ++ ";base64") ++ String "," data).
  2:{ rewrite !string_app_assoc. reflexivity. }
  rewrite split_once_app.
  2:{ rewrite !has_char_app, Hcomma. reflexivity. }
  change ("data:" ++ mime ++ ";base64") with ("data" ++ String ":" (mime ++ ";base64")).
  rewrite split_app by reflexivity.
  rewrite split_without.
  2:{ rewrite has_char_app, Hcolon. reflexivity. }
  cbn [nth_error].
  change (mime ++ ";base64") with (mime ++ String ";" "base64").
  rewrite split_app by exact Hsemi. reflexivity.
Qed.

Lemma image_url_block (block image_url_data : list (string * json)) (url : string) :
  dict_get "type" block = Some (JStr "image_url") ->
  dict_get "image_url" block = Some (JDict image_url_data) ->
  dict_get "url" image_url_data = Some (JStr url) ->
  openai_block_parts block
  = if String.prefix "data:" url
    then Ok match data_url_part url with Some part => [part] | None => [] end
    else if String.prefix "http" url
         then Ok [JDict [("fileData",
                          JDict [("fileUri", JStr url); ("mimeType", JStr "image/jpeg")])]]
         else Ok [].
Proof.
  intros Htype Himage Hurl. unfold openai_block_parts, dict_get_or.
  rewrite Htype, Himage. simpl is_str. cbn iota. cbn [get_or]. rewrite Hurl. reflexivity.
Qed.

(** X20.  An image that the image endpoint returns as a data URL can be
    sent back in a chat message: for an upstream part with a MIME type free
    of commas, colons and semicolons and with data that is not empty, the
    URL of the returned image, put into an [image_url] block, reaches
    upstream as an [inlineData] part with the same MIME type and the same
    data.  A [data:] URL without a comma adds no part and raises nothing. *)
Theorem returned_data_url_decodes (py_str : json -> string) (part : list (string * json))
    (inline_data : list (string * json)) (mime data : string) :
  dict_get "inlineData" part = Some (JDict inline_data) ->
  dict_get "mimeType" inline_data = Some (JStr mime) ->
  dict_get "data" inline_data = Some (JStr data) ->
  data <> "" ->
  has_char "," mime = false -> has_char ":" mime = false -> has_char ";" mime = false ->
  exists url,
    image_of_part py_str (Some "url") (JDict part)
    = Ok [{| image_url := Some url; image_b64_json := None; image_revised_prompt := None |}]
    /\ forall block image_url_data,
         dict_get "type" block = Some (JStr "image_url") ->
         dict_get "image_url" block = Some (JDict image_url_data) ->
         (dict_get "url" image_url_data = Some (JStr url) ->
          openai_block_parts block
          = Ok [JDict [("inlineData",
                        JDict [("mimeType", JStr mime); ("data", JStr data)])]])
         /\ (forall malformed,
               dict_get "url" image_url_data = Some (JStr malformed) ->
               String.prefix "data:" malformed = true ->
               has_char "," malformed = false ->
               openai_block_parts block = Ok []).
Proof.
  intros Hinline Hmime Hdata Hne Hcomma Hcolon Hsemi.
  exists ("data:" ++ mime ++ ";base64," ++ data). split.
  - unfold image_of_part. cbn [get_or]. rewrite Hinline. cbn [bind get_or].
    rewrite Hdata. cbn [bind truthy]. apply String.eqb_neq in Hne. rewrite Hne.
    simpl String.eqb. cbn [negb]. cbn iota. rewrite Hmime. reflexivity.
  - intros block image_url_data Htype Himage. split.
    + intros Hurl. rewrite (image_url_block _ _ _ Htype Himage Hurl).
      rewrite data_url_decodes by assumption.
      assert (Hprefix : String.prefix "data:" ("data:" ++ mime ++ ";base64," ++ data) = true)
        by (destruct mime; reflexivity).
      rewrite Hprefix. reflexivity.
    + intros malformed Hurl Hprefix Hnone.
      rewrite (image_url_block _ _ _ Htype Himage Hurl), Hprefix.
      unfold data_url_part. rewrite split_once_without by exact Hnone. reflexivity.
Qed.

Lemma returned_data_url_decodes_witness :
  let part := [("inlineData", JDict [("mimeType", JStr "image/png"); ("data", JStr "iVBORw0=")])] in
  exists url,
    image_of_part (fun _ => "") (Some "url") (JDict part)
    = Ok [{| image_url := Some url; image_b64_json := None; image_revised_prompt := None |}]
    /\ forall block image_url_data,
         dict_get "type" block = Some (JStr "image_url") ->
         dict_get "image_url" block = Some (JDict image_url_data) ->
         (dict_get "url" image_url_data = Some (JStr url) ->
          openai_block_parts block
          = Ok [JDict [("inlineData",
                        JDict [("mimeType", JStr "image/png"); ("data", JStr "iVBORw0=")])]])
         /\ (forall malformed,
               dict_get "url" image_url_data = Some (JStr malformed) ->
               String.prefix "data:" malformed = true ->
               has_char "," malformed = false ->
               openai_block_parts block = Ok []).
Proof.
  apply (returned_data_url_decodes (fun _ => "")
           [("inlineData", JDict [("mimeType", JStr "image/png"); ("data", JStr "iVBORw0=")])]
           [("mimeType", JStr "image/png"); ("data", JStr "iVBORw0=")]
           "image/png" "iVBORw0=");
    try reflexivity.
  discriminate.
Defined.

(** ** Streamed chunks and whole responses *)

Lemma string_app_empty (s : string) : (s ++ "")%string = s.
Proof. induction s as [|c s IH]; simpl; [reflexivity | now rewrite IH]. Qed.

Lemma delta_text_collect (uuid : nat -> string) (parts : list json) :
  forall n texts calls s acc,
    collect_parts uuid n parts = Ok (texts, calls) ->
    join_texts texts = Ok s ->
    delta_text acc parts = Ok (acc ++ s).
Proof.
  induction parts as [|part parts IH]; intros n texts calls s acc Hc Hj.
  - injection Hc as <- <-. injection Hj as <-. simpl. now rewrite string_app_empty.
  - destruct part as [| | | | | |d]; try discriminate Hc.
    cbn [collect_parts] in Hc. cbn [delta_text py_in bind]. unfold dict_has.
    destruct (dict_get "text" d) as [text|] eqn:Et.
    + destruct (collect_parts uuid n parts) as [[ts cs]|e] eqn:E; [|discriminate Hc].
      cbn [bind fst snd] in Hc. injection Hc as <- <-.
      cbn [py_item]. rewrite Et. cbn [bind].
      destruct text as [| | | |t| |]; try discriminate Hj.
      cbn [join_texts] in Hj.
      destruct (join_texts ts) as [r|e] eqn:Er; [|discriminate Hj].
      cbn [bind] in Hj. injection Hj as <-.
      rewrite (IH n ts cs r (acc ++ t) E Er). now rewrite string_app_assoc.
    + destruct (dict_get "functionCall" d) as [fc|].
      * destruct (get_or "name" (JStr "") fc) as [name|e]; [|discriminate Hc].
        cbn [bind] in Hc.
        destruct (get_or "args" (JDict []) fc) as [args|e]; [|discriminate Hc].
        cbn [bind] in Hc.
        destruct name as [| | | |name| |]; try discriminate Hc.
        destruct (collect_parts uuid (S n) parts) as [[ts cs]|e] eqn:E; [|discriminate Hc].
        cbn [bind fst snd] in Hc. injection Hc as <- <-.
        exact (IH (S n) ts cs s acc E Hj).
      * exact (IH n texts calls s acc Hc Hj).
Qed.

(** X21.  The streaming and the whole-response path of the OpenAI endpoint
    deliver the same text: on upstream data that the response mapper
    translates, the chunk converter returns the chunk whose delta holds the
    content of the translated message, and an empty delta when that content
    is missing or empty. *)
Theorem stream_chunk_agrees_with_response (uuid : nat -> string) (stamp : string)
    (created : Z) (gemini_data : list (string * json)) (model : string)
    (response : OpenAIChatCompletionResponse) :
  transform_gemini_to_openai uuid gemini_data model = Ok response ->
  _convert_stream_chunk stamp created gemini_data model
  = Ok (stream_chunk stamp created model
          match resp_content response with Some s => s | None => "" end).
Proof.
  unfold transform_gemini_to_openai, _convert_stream_chunk, candidate_parts, dict_get_or.
  intros H.
  destruct (truthy match dict_get "candidates" gemini_data with
                   | Some c => c
                   | None => JList []
                   end) eqn:Et.
  - destruct (match dict_get "candidates" gemini_data with
              | Some c => c
              | None => JList []
              end) as [| | | | |l|]; try discriminate H.
    destruct l as [|candidate others]; [discriminate Et|].
    destruct (get_or "content" (JDict []) candidate) as [content_obj|e]; [|discriminate H].
    cbn [bind] in H |- *.
    destruct (get_or "parts" (JList []) content_obj) as [parts|e]; [|discriminate H].
    cbn [bind] in H |- *.
    destruct parts as [| | | | |parts|]; try discriminate H.
    cbn [iterate bind].
    destruct (collect_parts uuid 1 parts) as [[texts calls]|e] eqn:Ec; [|discriminate H].
    cbn [bind] in H.
    destruct (match texts with
              | [] => Ok None
              | _ :: _ => s <- join_texts texts ;; Ok (Some s)
              end) as [content|e] eqn:Ej; [|discriminate H].
    cbn [bind] in H.
    destruct (get_or "finishReason" (JStr "") candidate) as [finish|e]; [|discriminate H].
    cbn [bind] in H.
    destruct (usage_field "promptTokenCount" _) as [p|e]; [|discriminate H].
    destruct (usage_field "candidatesTokenCount" _) as [c|e]; [|discriminate H].
    destruct (usage_field "totalTokenCount" _) as [t|e]; [|discriminate H].
    cbn [bind] in H. injection H as <-. cbn [resp_content].
    assert (Hjoin : join_texts texts
                    = Ok match content with Some s => s | None => "" end).
    { destruct texts as [|text texts].
      - injection Ej as <-. reflexivity.
      - destruct (join_texts (text :: texts)) as [s|e]; [|discriminate Ej].
        cbn [bind] in Ej. injection Ej as <-. reflexivity. }
    rewrite (delta_text_collect uuid parts 1 texts calls _ "" Ec Hjoin). reflexivity.
  - cbn [bind] in H |- *.
    destruct (usage_field "promptTokenCount" _) as [p|e]; [|discriminate H].
    destruct (usage_field "candidatesTokenCount" _) as [c|e]; [|discriminate H].
    destruct (usage_field "totalTokenCount" _) as [t|e]; [|discriminate H].
    cbn [bind] in H. injection H as <-. reflexivity.
Qed.

Lemma stream_chunk_agrees_with_response_witness :
  let gemini_data :=
    [("candidates",
      JList [JDict [("content",
                     JDict [("parts", JList [JDict [("text", JStr "Bon")];
                                             JDict [("text", JStr "jour")]])])]])] in
  exists response,
    transform_gemini_to_openai (fun _ => "0123456789ab") gemini_data "gpt-4" = Ok response
    /\ resp_content response = Some "Bonjour"
    /\ _convert_stream_chunk "1700000000" 1700000000 gemini_data "gpt-4"
       = Ok (stream_chunk "1700000000" 1700000000 "gpt-4"
               match resp_content response with Some s => s | None => "" end).
Proof.
  eexists. split; [reflexivity|]. split; [reflexivity|].
  apply (stream_chunk_agrees_with_response (fun _ => "0123456789ab")).
  reflexivity.
Defined.

Lemma first_text_blocks (uuid : nat -> string) (parts : list json) :
  forall n blocks,
    content_blocks uuid n parts = Ok blocks ->
    first_text parts
    = Ok match find (fun b => String.eqb (block_type b) "text") blocks with
         | Some b => match block_text b with Some s => JStr s | None => JNull end
         | None => JStr ""
         end.
Proof.
  induction parts as [|part parts IH]; intros n blocks H.
  - injection H as <-. reflexivity.
  - destruct part as [| | | | | |d]; try discriminate H.
    cbn [content_blocks] in H. cbn [first_text py_in bind get_or]. unfold dict_has.
    unfold dict_get_or in H at 1.
    destruct (dict_get "text" d) as [text|] eqn:Et.
    + destruct (dict_get "thought" d) as [thought|] eqn:Eth.
      * destruct (truthy thought) eqn:Etr.
        -- unfold dict_get_or in H. rewrite Et in H.
           destruct (optional_str text) as [t|e]; [|discriminate H].
           cbn [bind] in H.
           destruct (content_blocks uuid n parts) as [bs|e] eqn:E; [|discriminate H].
           cbn [bind] in H. injection H as <-. cbn [find block_type]. simpl String.eqb.
           cbn iota. exact (IH n bs E).
        -- destruct (optional_str text) as [t|e] eqn:Eo; [|discriminate H].
           cbn [bind] in H.
           destruct (content_blocks uuid n parts) as [bs|e] eqn:E; [|discriminate H].
           cbn [bind] in H. injection H as <-. cbn [find block_type]. simpl String.eqb.
           cbn iota. cbn [block_text py_item]. rewrite Et.
           destruct text; try discriminate Eo; injection Eo as <-; reflexivity.
      * cbn [truthy] in H |- *.
        destruct (optional_str text) as [t|e] eqn:Eo; [|discriminate H].
        cbn [bind] in H.
        destruct (content_blocks uuid n parts) as [bs|e] eqn:E; [|discriminate H].
        cbn [bind] in H. injection H as <-. cbn [find block_type]. simpl String.eqb.
        cbn iota. cbn [block_text py_item]. rewrite Et.
        destruct text; try discriminate Eo; injection Eo as <-; reflexivity.
    + destruct (truthy match dict_get "thought" d with
                       | Some v => v
                       | None => JNull
                       end).
      * unfold dict_get_or in H. rewrite Et in H. cbn [optional_str bind] in H.
        destruct (content_blocks uuid n parts) as [bs|e] eqn:E; [|discriminate H].
        cbn [bind] in H. injection H as <-. cbn [find block_type]. simpl String.eqb.
        cbn iota. exact (IH n bs E).
      * destruct (dict_get "functionCall" d) as [fc|].
        -- destruct (get_or "name" (JStr "") fc) as [name|e]; [|discriminate H].
           cbn [bind] in H.
           destruct (get_or "args" (JDict []) fc) as [args|e]; [|discriminate H].
           cbn [bind] in H.
           destruct (optional_str name) as [nm|e]; [|discriminate H].
           cbn [bind] in H.
           destruct (optional_dict args) as [input|e]; [|discriminate H].
           cbn [bind] in H.
           destruct (content_blocks uuid (S n) parts) as [bs|e] eqn:E; [|discriminate H].
           cbn [bind] in H. injection H as <-. cbn [find block_type]. simpl String.eqb.
           cbn iota. exact (IH (S n) bs E).
        -- exact (IH n blocks H).
Qed.

(** X22.  A streamed chunk of the Claude endpoint carries the text of the
    first [text] block that the response mapper makes of the same upstream
    data, and the empty string when there is none: thoughts and function
    calls are never streamed as text, and of several text parts in one chunk
    the first alone is streamed. *)
Theorem text_delta_is_first_text_block (uuid : nat -> string)
    (gemini_data : list (string * json)) (model : string)
    (response : ClaudeMessagesResponse) :
  transform_gemini_to_claude uuid gemini_data model = Ok response ->
  _extract_text_delta gemini_data
  = Ok match find (fun b => String.eqb (block_type b) "text") (msg_content response) with
       | Some b => match block_text b with Some s => JStr s | None => JNull end
       | None => JStr ""
       end.
Proof.
  intros H.
  assert (Hmap : forall l, map_r (fun b => ClaudeResponseContentBlock_of (model_dump_set b)) l
                           = Ok l).
  { induction l as [|b l IH]; [reflexivity|]. cbn [map_r].
    assert (Hb : ClaudeResponseContentBlock_of (model_dump_set b) = Ok b)
      by (destruct b as [ty [text|] [id|] [name|] [input|]]; reflexivity).
    rewrite Hb, IH. reflexivity. }
  unfold transform_gemini_to_claude in H. unfold _extract_text_delta, candidate_parts.
  destruct (truthy (dict_get_or "candidates" (JList []) gemini_data)) eqn:Et.
  - destruct (dict_get_or "candidates" (JList []) gemini_data) as [| | | | |l|];
      try discriminate H.
    destruct l as [|candidate others]; [discriminate Et|].
    destruct (get_or "content" (JDict []) candidate) as [content_obj|e]; [|discriminate H].
    cbn [bind] in H |- *.
    destruct (get_or "parts" (JList []) content_obj) as [parts|e]; [|discriminate H].
    cbn [bind] in H |- *.
    destruct (iterate parts) as [items|e]; [|discriminate H].
    cbn [bind] in H |- *.
    destruct (content_blocks uuid 1 items) as [blocks|e] eqn:Eb; [|discriminate H].
    cbn [bind] in H.
    destruct (get_or "finishReason" (JStr "") candidate) as [finish|e]; [|discriminate H].
    cbn [bind fst snd] in H.
    destruct (usage_field "promptTokenCount" _) as [i|e]; [|discriminate H].
    destruct (usage_field "candidatesTokenCount" _) as [o|e]; [|discriminate H].
    cbn [bind] in H. rewrite Hmap in H. cbn [bind] in H. injection H as <-.
    cbn [msg_content]. exact (first_text_blocks uuid items 1 blocks Eb).
  - cbn [bind fst snd] in H.
    destruct (usage_field "promptTokenCount" _) as [i|e]; [|discriminate H].
    destruct (usage_field "candidatesTokenCount" _) as [o|e]; [|discriminate H].
    cbn [bind] in H. injection H as <-. reflexivity.
Qed.

Lemma text_delta_is_first_text_block_witness :
  let gemini_data :=
    [("candidates",
      JList [JDict [("content",
                     JDict [("parts",
                             JList [JDict [("text", JStr "hm"); ("thought", JBool true)];
                                    JDict [("text", JStr "Bon")];
                                    JDict [("text", JStr "jour")]])])]])] in
  exists response,
    transform_gemini_to_claude (fun _ => "0123456789ab") gemini_data "claude-3-opus"
    = Ok response
    /\ List.length (msg_content response) = 3%nat
    /\ _extract_text_delta gemini_data = Ok (JStr "Bon")
    /\ _extract_text_delta gemini_data
       = Ok match find (fun b => String.eqb (block_type b) "text") (msg_content response) with
            | Some b => match block_text b with Some s => JStr s | None => JNull end
            | None => JStr ""
            end.
Proof.
  eexists. split; [reflexivity|]. split; [reflexivity|]. split; [reflexivity|].
  apply (text_delta_is_first_text_block (fun _ => "0123456789ab") _ "claude-3-opus").
  reflexivity.
Defined.

(** ** Model names *)

Lemma mapping_get_in (k : string) (table : list (string * string)) (v : string) :
  mapping_get k table = Some v -> In v (map snd table).
Proof.
  induction table as [|[k' v'] table IH]; simpl; [discriminate|].
  destruct (String.eqb k k').
  - intros H. injection H as <-. now left.
  - intros H. right. now apply IH.
Qed.

(** X23.  Without a custom mapping, the model name each of the two routes
    maps a request to is a fixed point of the mapping and names one of the
    families [gemini], [claude] and [gpt]: mapping it again changes nothing,
    and an unknown name ends as [gemini-3-flash]. *)
Theorem mapped_model_is_stable (requested_model : string) :
  forall table, table = MODEL_MAPPING \/ table = CLAUDE_MODEL_MAPPING ->
  let mapped := get_mapped_model table None requested_model in
  get_mapped_model table None mapped = mapped
  /\ looks_valid mapped = true
  /\ (mapping_get requested_model table = None -> looks_valid requested_model = false ->
      mapped = "gemini-3-flash").
Proof.
  intros table Htable mapped. subst mapped. unfold get_mapped_model.
  assert (Htargets : forall v, In v (map snd table) ->
            match mapping_get v table with
            | Some m => m
            | None => if looks_valid v then v else "gemini-3-flash"
            end = v /\ looks_valid v = true).
  { destruct Htable as [-> | ->]; intros v Hv; simpl in Hv;
      repeat (destruct Hv as [<- | Hv]; [split; reflexivity|]); contradiction. }
  assert (Hflash : match mapping_get "gemini-3-flash" table with
                   | Some m => m
                   | None => "gemini-3-flash"
                   end = "gemini-3-flash").
  { destruct Htable as [-> | ->]; reflexivity. }
  destruct (mapping_get requested_model table) as [m|] eqn:E.
  - apply mapping_get_in in E. destruct (Htargets m E) as [H1 H2].
    split; [exact H1|]. split; [exact H2 | discriminate].
  - destruct (looks_valid requested_model) eqn:Ev.
    + rewrite E, Ev. split; [reflexivity|]. split; [reflexivity | discriminate].
    + split; [|split; [reflexivity | reflexivity]].
      change (looks_valid "gemini-3-flash") with true. cbn iota. exact Hflash.
Qed.

Lemma mapped_model_is_stable_witness :
  let mapped := get_mapped_model MODEL_MAPPING None "gpt-4-turbo" in
  mapped = "gemini-3-pro-high"
  /\ get_mapped_model MODEL_MAPPING None mapped = mapped
  /\ looks_valid mapped = true
  /\ (mapping_get "gpt-4-turbo" MODEL_MAPPING = None -> looks_valid "gpt-4-turbo" = false ->
      mapped = "gemini-3-flash").
Proof.
  split; [reflexivity|].
  apply (mapped_model_is_stable "gpt-4-turbo" MODEL_MAPPING). now left.
Defined.

(** ** Rounding to a double *)

Lemma two_to_pos (e : Z) : (0 < two_to e)%Q.
Proof. apply Qpower_0_lt. reflexivity. Qed.

Lemma two_to_le (a b : Z) : (a <= b)%Z -> (two_to a <= two_to b)%Q.
Proof. intros H. apply Qpower_le_compat_l; [exact H|]. discriminate. Qed.

Lemma two_to_Z (a : Z) : (0 <= a)%Z -> (two_to a == inject_Z (2 ^ a))%Q.
Proof. intros H. unfold two_to. now rewrite Zpower_Qpower. Qed.

(** The rounded integer is within one half of its argument. *)
Lemma nearest_even_near (q : Q) :
  (q - (1 # 2) <= inject_Z (nearest_even q) <= q + (1 # 2))%Q.
Proof.
  unfold nearest_even.
  pose proof (Qfloor_le q) as Hlo. pose proof (Qlt_floor q) as Hhi.
  rewrite inject_Z_plus in Hhi. change (inject_Z 1) with 1%Q in Hhi.
  destruct (Qcompare (q - inject_Z (Qfloor q)) (1 # 2)) eqn:E.
  - apply Qeq_alt in E.
    destruct (Z.even (Qfloor q)).
    + split; lra.
    + rewrite inject_Z_plus. change (inject_Z 1) with 1%Q. split; lra.
  - apply Qlt_alt in E. split; lra.
  - apply Qgt_alt in E. rewrite inject_Z_plus. change (inject_Z 1) with 1%Q. split; lra.
Qed.

(** [binade q] is not above the binary exponent of [q]. *)
Lemma binade_lower (q : Q) : (0 < q)%Q -> (two_to (binade q) <= q)%Q.
Proof.
  intros Hq. unfold binade.
  set (a := Z.log2 (Qnum q)). set (b := Z.log2 (Z.pos (Qden q))).
  destruct (Qle_bool (two_to (a - b)) q) eqn:E; [now apply Qle_bool_iff|].
  assert (Hn : (0 < Qnum q)%Z).
  { destruct q as [n d]. unfold Qlt in Hq. simpl in *. lia. }
  assert (Ha : (0 <= a)%Z) by apply Z.log2_nonneg.
  assert (Hb : (0 <= b)%Z) by apply Z.log2_nonneg.
  destruct (Z.log2_spec (Qnum q) Hn) as [Ha1 _]. fold a in Ha1.
  destruct (Z.log2_spec (Z.pos (Qden q)) eq_refl) as [_ Hb2]. fold b in Hb2.
  replace (a - b - 1)%Z with (a - (b + 1))%Z by lia.
  unfold two_to. rewrite Qpower_minus by discriminate.
  fold (two_to a). fold (two_to (b + 1)).
  rewrite (two_to_Z a Ha), (two_to_Z (b + 1)) by lia.
  assert (Hq' : (q == inject_Z (Qnum q) / inject_Z (Z.pos (Qden q)))%Q).
  { destruct q as [n d]. simpl. apply Qmake_Qdiv. }
  rewrite Hq'.
  assert (H2 : (0 < inject_Z (2 ^ (b + 1)))%Q).
  { rewrite <- two_to_Z by lia. apply two_to_pos. }
  assert (Hd : (0 < inject_Z (Z.pos (Qden q)))%Q) by (rewrite <- (Zlt_Qlt 0); lia).
  apply Qle_shift_div_l; [exact Hd|].
  unfold Qdiv. rewrite <- Qmult_assoc, (Qmult_comm (/ _)), Qmult_assoc.
  apply Qle_shift_div_r; [exact H2|].
  rewrite <- !inject_Z_mult, <- Zle_Qle.
  apply Z.mul_le_mono_nonneg; lia.
Qed.

(** Rounding moves a positive number by at most half a unit of the last
    place. *)
Lemma double_pos_near (q : Q) :
  (0 < q)%Q ->
  (Qabs (double_pos q - q) <= (1 # 2) * two_to (Z.max (binade q - 52) (-1074)))%Q.
Proof.
  intros Hq. unfold double_pos. rewrite Qred_correct.
  set (e := Z.max (binade q - 52) (-1074)).
  pose proof (two_to_pos e) as He.
  pose proof (nearest_even_near (q / two_to e)) as [Hlo Hhi].
  set (n := inject_Z (nearest_even (q / two_to e))) in *.
  assert (Hm : (q / two_to e * two_to e == q)%Q) by (field; lra).
  apply Qabs_Qle_condition. split.
  - assert (H : ((q / two_to e - (1 # 2)) * two_to e <= n * two_to e)%Q).
    { apply Qmult_le_compat_r; [exact Hlo | lra]. }
    lra.
  - assert (H : (n * two_to e <= (q / two_to e + (1 # 2)) * two_to e)%Q).
    { apply Qmult_le_compat_r; [exact Hhi | lra]. }
    lra.
Qed.

Lemma double_pos_upper (q : Q) : (0 < q)%Q -> (double_pos q <= q + q + 1)%Q.
Proof.
  intros Hq.
  pose proof (double_pos_near q Hq) as H.
  apply Qabs_Qle_condition in H. destruct H as [_ H].
  assert (He : (two_to (Z.max (binade q - 52) (-1074)) <= q + 1)%Q).
  { destruct (Z.max_spec (binade q - 52) (-1074)) as [[_ ->] | [_ ->]].
    - apply Qle_trans with (two_to 0); [apply two_to_le; lia|].
      change (two_to 0) with 1%Q. lra.
    - apply Qle_trans with (two_to (binade q)); [apply two_to_le; lia|].
      pose proof (binade_lower q Hq). lra. }
  lra.
Qed.

Lemma double_pos_nonneg (q : Q) : (0 < q)%Q -> (0 <= double_pos q)%Q.
Proof.
  intros Hq. unfold double_pos. rewrite Qred_correct.
  set (e := Z.max (binade q - 52) (-1074)).
  pose proof (two_to_pos e) as He.
  apply Qmult_le_0_compat; [|lra].
  assert (Hm : (0 <= q / two_to e)%Q).
  { apply Qle_shift_div_l; [exact He | lra]. }
  pose proof (nearest_even_near (q / two_to e)) as [Hlo _].
  assert (Hz : (-1 < nearest_even (q / two_to e))%Z).
  { rewrite Zlt_Qlt. change (inject_Z (-1)) with (-1 # 1)%Q. lra. }
  rewrite <- (Zle_Qle 0). lia.
Qed.

(** Rounding at most doubles a magnitude, up to one. *)
Lemma double_bound (q : Q) : (Qabs (double q) <= Qabs q + Qabs q + 1)%Q.
Proof.
  unfold double. destruct q as [[|p|p] d]; simpl Qnum.
  - unfold Qabs, Z.abs, Qle. simpl. lia.
  - assert (Hq : (0 < Z.pos p # d)%Q) by reflexivity.
    rewrite (Qabs_pos (Z.pos p # d)) by lra.
    rewrite Qabs_pos by now apply double_pos_nonneg.
    now apply double_pos_upper.
  - assert (Hq : (0 < - (Z.neg p # d))%Q) by reflexivity.
    rewrite Qabs_opp.
    rewrite (Qabs_neg (Z.neg p # d)) by (unfold Qle; simpl; lia).
    rewrite Qabs_pos by now apply double_pos_nonneg.
    now apply double_pos_upper.
Qed.

(** ** Image sizes *)

(** A quotient of integers has at most the magnitude of its dividend. *)
Lemma quotient_magnitude (w h : Z) :
  h <> 0%Z -> (Qabs (inject_Z w / inject_Z h) <= inject_Z (Z.abs w))%Q.
Proof.
  intros Hh. unfold Qdiv. rewrite Qabs_Qmult, Qabs_Qinv.
  assert (Ew : (Qabs (inject_Z w) == inject_Z (Z.abs w))%Q) by reflexivity.
  assert (Eh : (Qabs (inject_Z h) == inject_Z (Z.abs h))%Q) by reflexivity.
  rewrite Ew, Eh.
  assert (H1 : (1 <= inject_Z (Z.abs h))%Q).
  { change 1%Q with (inject_Z 1). rewrite <- Zle_Qle. lia. }
  assert (H0 : (0 <= inject_Z (Z.abs w))%Q).
  { change 0%Q with (inject_Z 0). rewrite <- Zle_Qle. lia. }
  apply Qle_shift_div_r; [lra|].
  rewrite <- inject_Z_mult, <- Zle_Qle. nia.
Qed.

(** The division of a size below [2 ** 1023] does not overflow. *)
Lemma true_div_in_range (w h : Z) :
  (Z.abs w < 2 ^ 1023)%Z -> h <> 0%Z ->
  true_div w h = Ok (double (inject_Z w / inject_Z h)).
Proof.
  intros Hw Hh. unfold true_div.
  apply Z.eqb_neq in Hh. rewrite Hh. cbv zeta.
  apply Z.eqb_neq in Hh.
  destruct (Qle_bool (two_to 1024) (Qabs (double (inject_Z w / inject_Z h)))) eqn:E;
    [|reflexivity].
  exfalso. apply Qle_bool_iff in E.
  pose proof (double_bound (inject_Z w / inject_Z h)) as B.
  pose proof (quotient_magnitude w h Hh) as M.
  assert (Hw' : (inject_Z (Z.abs w) <= inject_Z (2 ^ 1023 - 1))%Q).
  { rewrite <- Zle_Qle. lia. }
  assert (E1024 : (two_to 1024 == inject_Z (2 ^ 1023 - 1) + inject_Z (2 ^ 1023 - 1) + 2)%Q).
  { rewrite two_to_Z by lia. rewrite <- !inject_Z_plus.
    change 2%Q with (inject_Z 2). rewrite <- inject_Z_plus.
    apply inject_Z_injective. lia. }
  rewrite E1024 in E. lra.
Qed.

Lemma true_div_raises (w h : Z) (e : exn) :
  true_div w h = Raise e <->
  (e = Exception "ZeroDivisionError" /\ h = 0%Z)
  \/ (e = Exception "OverflowError" /\ h <> 0%Z
      /\ (two_to 1024 <= Qabs (double (inject_Z w / inject_Z h)))%Q).
Proof.
  unfold true_div.
  destruct (h =? 0)%Z eqn:E0.
  - apply Z.eqb_eq in E0. split.
    + intros H. injection H as <-. now left.
    + intros [[-> _] | (_ & H & _)]; [reflexivity | contradiction].
  - apply Z.eqb_neq in E0. cbv zeta.
    destruct (Qle_bool (two_to 1024) (Qabs (double (inject_Z w / inject_Z h)))) eqn:E.
    + apply Qle_bool_iff in E. split.
      * intros H. injection H as <-. right. auto.
      * intros [[_ H] | (-> & _)]; [contradiction | reflexivity].
    + split; [discriminate|].
      intros [[_ H] | (_ & _ & H)]; [contradiction|].
      apply Qle_bool_iff in H. congruence.
Qed.

Lemma ratio_of_range (w h : Z) (r : string) :
  ratio_of w h = Ok r -> In r ["16:9"; "9:16"; "4:3"; "3:4"; "1:1"].
Proof.
  unfold ratio_of.
  destruct (w =? h)%Z; [intros H; injection H as <-; simpl; tauto|].
  destruct (h <? w)%Z.
  - destruct (true_div w h); [|discriminate].
    destruct (Qlt_bool _ _); intros H; injection H as <-; simpl; tauto.
  - destruct (true_div h w); [|discriminate].
    destruct (Qlt_bool _ _); intros H; injection H as <-; simpl; tauto.
Qed.

Lemma ratio_of_raises (w h : Z) (e : exn) :
  ratio_of w h = Raise e <->
  (e = Exception "ZeroDivisionError" /\ ((h = 0 /\ 0 < w) \/ (w = 0 /\ 0 < h))%Z)
  \/ (e = Exception "OverflowError" /\ w <> 0%Z /\ h <> 0%Z
      /\ (two_to 1024
          <= Qabs (double (inject_Z (Z.max w h) / inject_Z (Z.min w h))))%Q).
Proof.
  unfold ratio_of.
  destruct (w =? h)%Z eqn:Ewh.
  { apply Z.eqb_eq in Ewh. subst h. split; [discriminate|].
    intros [[_ H] | (_ & Hw & _ & H)]; [lia|].
    exfalso. rewrite Z.max_id, Z.min_id in H.
    assert (E1 : (inject_Z w / inject_Z w == 1)%Q).
    { field. intros H0. apply Hw. apply inject_Z_injective. exact H0. }
    pose proof (double_bound (inject_Z w / inject_Z w)) as B.
    assert (A1 : (Qabs (inject_Z w / inject_Z w) == 1)%Q) by now rewrite E1.
    assert (E1024 : (4 <= two_to 1024)%Q).
    { change 4%Q with (two_to 2). apply two_to_le. lia. }
    lra. }
  apply Z.eqb_neq in Ewh.
  destruct (h <? w)%Z eqn:Elt.
  - apply Z.ltb_lt in Elt.
    rewrite Z.max_l, Z.min_r by lia.
    destruct (true_div w h) as [q|e'] eqn:Ed.
    + split; [discriminate|].
      intros [[-> H] | (-> & Hw & Hh & H)].
      * assert (K : true_div w h = Raise (Exception "ZeroDivisionError")).
        { apply true_div_raises. left. split; [reflexivity | lia]. }
        congruence.
      * assert (K : true_div w h = Raise (Exception "OverflowError")).
        { apply true_div_raises. right. auto. }
        congruence.
    + apply true_div_raises in Ed. split.
      * intros H. injection H as <-.
        destruct Ed as [[-> Hh] | (-> & Hh & H)].
        -- left. split; [reflexivity|]. left. lia.
        -- right. repeat split; try assumption.
           intros ->.
           (* w = 0 and h < 0: the quotient is zero *)
           assert (E0 : (inject_Z 0 / inject_Z h == 0)%Q) by (unfold Qdiv; ring).
           pose proof (double_bound (inject_Z 0 / inject_Z h)) as B.
           assert (A0 : (Qabs (inject_Z 0 / inject_Z h) == 0)%Q) by now rewrite E0.
           assert (E1024 : (4 <= two_to 1024)%Q).
           { change 4%Q with (two_to 2). apply two_to_le. lia. }
           lra.
      * intros [[-> H] | (-> & Hw & Hh & H)].
        -- destruct Ed as [[E _] | (_ & Hh & _)]; [now rewrite E | lia].
        -- destruct Ed as [[_ Hh'] | (E & _)]; [contradiction | now rewrite E].
  - apply Z.ltb_ge in Elt.
    rewrite Z.max_r, Z.min_l by lia.
    destruct (true_div h w) as [q|e'] eqn:Ed.
    + split; [discriminate|].
      intros [[-> H] | (-> & Hw & Hh & H)].
      * assert (K : true_div h w = Raise (Exception "ZeroDivisionError")).
        { apply true_div_raises. left. split; [reflexivity | lia]. }
        congruence.
      * assert (K : true_div h w = Raise (Exception "OverflowError")).
        { apply true_div_raises. right. auto. }
        congruence.
    + apply true_div_raises in Ed. split.
      * intros H. injection H as <-.
        destruct Ed as [[-> Hw] | (-> & Hw & H)].
        -- left. split; [reflexivity|]. right. lia.
        -- right. repeat split; try assumption.
           intros ->.
           assert (E0 : (inject_Z 0 / inject_Z w == 0)%Q) by (unfold Qdiv; ring).
           pose proof (double_bound (inject_Z 0 / inject_Z w)) as B.
           assert (A0 : (Qabs (inject_Z 0 / inject_Z w) == 0)%Q) by now rewrite E0.
           assert (E1024 : (4 <= two_to 1024)%Q).
           { change 4%Q with (two_to 2). apply two_to_le. lia. }
           lra.
      * intros [[-> H] | (-> & Hw & Hh & H)].
        -- destruct Ed as [[E _] | (_ & Hw & _)]; [now rewrite E | lia].
        -- destruct Ed as [[_ Hw'] | (E & _)]; [contradiction | now rewrite E].
Qed.

(** X24.  [parse_aspect_ratio] answers one of the five ratios [16:9],
    [9:16], [4:3], [3:4] and [1:1] on every input but two kinds, both of
    them sizes without a ratio suffix and made of two numbers: a zero and a
    positive number, on which the division raises [ZeroDivisionError], and
    two numbers whose quotient, the larger by the smaller, rounds to a
    double of magnitude [2 ** 1024] or more, on which it raises
    [OverflowError]; the function catches neither.  No size whose numbers
    are below [2 ** 1023] in magnitude overflows.  The quotient is compared
    with 1.5 after it was rounded to a double.  Exchanging width and height
    exchanges [16:9] with [9:16] and [4:3] with [3:4]. *)
Theorem aspect_ratio_or_arithmetic_error (py_int : string -> option Z)
    (size_or_model : string) :
  (forall r, parse_aspect_ratio py_int size_or_model = Ok r ->
             In r ["16:9"; "9:16"; "4:3"; "3:4"; "1:1"])
  /\ (forall e, parse_aspect_ratio py_int size_or_model = Raise e <->
        no_ratio_suffix size_or_model = true
        /\ str_contains "x" size_or_model = true
        /\ exists a b w h,
             split "x" (lower size_or_model) = [a; b]
             /\ py_int a = Some w /\ py_int b = Some h
             /\ ((e = Exception "ZeroDivisionError"
                  /\ ((h = 0 /\ 0 < w) \/ (w = 0 /\ 0 < h))%Z)
                 \/ (e = Exception "OverflowError" /\ w <> 0%Z /\ h <> 0%Z
                     /\ (two_to 1024
                         <= Qabs (double (inject_Z (Z.max w h)
                                          / inject_Z (Z.min w h))))%Q)))
  /\ (forall w h e, (Z.abs w < 2 ^ 1023)%Z -> (Z.abs h < 2 ^ 1023)%Z ->
                    ratio_of w h = Raise e ->
                    e = Exception "ZeroDivisionError")
  /\ (forall w h, (h < w)%Z -> (Z.abs w < 2 ^ 1023)%Z -> h <> 0%Z ->
                  ratio_of w h
                  = Ok (if Qlt_bool (15 # 10) (double (inject_Z w / inject_Z h))
                        then "16:9" else "4:3"))
  /\ (forall w h, ratio_of h w
                  = match ratio_of w h with
                    | Ok r => Ok (transposed r)
                    | Raise e => Raise e
                    end).
Proof.
  split; [|split; [|split; [|split]]].
  - intros r. unfold parse_aspect_ratio.
    repeat match goal with
           | |- (if ?c then Ok _ else _) = Ok _ -> _ =>
               destruct c; [intros H; injection H as <-; simpl; tauto|]
           end.
    destruct (str_contains "x" size_or_model); [|intros H; injection H as <-; simpl; tauto].
    destruct (split "x" (lower size_or_model)) as [|a [|b [|c l]]];
      try (intros H; injection H as <-; simpl; tauto).
    destruct (py_int a) as [w|]; [|intros H; injection H as <-; simpl; tauto].
    destruct (py_int b) as [h|]; [|intros H; injection H as <-; simpl; tauto].
    apply ratio_of_range.
  - intros e. unfold parse_aspect_ratio, no_ratio_suffix. cbn [existsb].
    destruct (str_contains "-16x9" size_or_model);
      [split; [discriminate | intros (H & _); discriminate H]|].
    destruct (str_contains "-9x16" size_or_model);
      [split; [discriminate | intros (H & _); discriminate H]|].
    destruct (str_contains "-4x3" size_or_model);
      [split; [discriminate | intros (H & _); discriminate H]|].
    destruct (str_contains "-3x4" size_or_model);
      [split; [discriminate | intros (H & _); discriminate H]|].
    destruct (str_contains "-1x1" size_or_model);
      [split; [discriminate | intros (H & _); discriminate H]|].
    cbn [orb negb].
    destruct (str_contains "x" size_or_model);
      [|split; [discriminate | intros (_ & H & _); discriminate H]].
    destruct (split "x" (lower size_or_model)) as [|a [|b [|c l]]];
      try (split; [discriminate | intros (_ & _ & a' & b' & w & h & H & _);
                                  discriminate H]).
    destruct (py_int a) as [w|] eqn:Ea.
    2:{ split; [discriminate|].
        intros (_ & _ & a' & b' & w & h & H & Ha' & _).
        injection H as <- <-. rewrite Ea in Ha'. discriminate Ha'. }
    destruct (py_int b) as [h|] eqn:Eb.
    2:{ split; [discriminate|].
        intros (_ & _ & a' & b' & w' & h & H & _ & Hb' & _).
        injection H as <- <-. rewrite Eb in Hb'. discriminate Hb'. }
    rewrite ratio_of_raises. split.
    + intros H. split; [reflexivity|]. split; [reflexivity|].
      exists a, b, w, h. now repeat split.
    + intros (_ & _ & a' & b' & w' & h' & H & Ha' & Hb' & Hz).
      injection H as <- <-. rewrite Ea in Ha'. rewrite Eb in Hb'.
      injection Ha' as <-. injection Hb' as <-. exact Hz.
  - intros w h e Hw Hh. unfold ratio_of.
    destruct (w =? h)%Z; [discriminate|].
    destruct (h <? w)%Z.
    + destruct (Z.eq_dec h 0) as [-> | Hh0].
      * unfold true_div. simpl. intros H. now injection H as <-.
      * rewrite (true_div_in_range w h Hw Hh0). discriminate.
    + destruct (Z.eq_dec w 0) as [-> | Hw0].
      * unfold true_div. simpl. intros H. now injection H as <-.
      * rewrite (true_div_in_range h w Hh Hw0). discriminate.
  - intros w h Hlt Hw Hh. unfold ratio_of.
    assert (E : (w =? h)%Z = false) by (apply Z.eqb_neq; lia).
    rewrite E. apply Z.ltb_lt in Hlt. rewrite Hlt.
    now rewrite (true_div_in_range w h Hw Hh).
  - intros w h. unfold ratio_of. rewrite (Z.eqb_sym h w).
    destruct (w =? h)%Z eqn:Ewh; [reflexivity|].
    apply Z.eqb_neq in Ewh.
    destruct (h <? w)%Z eqn:E1; destruct (w <? h)%Z eqn:E2;
      try apply Z.ltb_lt in E1; try apply Z.ltb_lt in E2;
      try apply Z.ltb_ge in E1; try apply Z.ltb_ge in E2; try lia.
    + destruct (true_div w h); [|reflexivity]. now destruct (Qlt_bool _ _).
    + destruct (true_div h w); [|reflexivity]. now destruct (Qlt_bool _ _).
Qed.

(** The sizes of the usual requests, a quotient that rounds to 1.5, and a
    width of 401 digits. *)
Example ratio_of_sizes :
  ratio_of 1920 1080 = Ok "16:9"
  /\ ratio_of 1024 768 = Ok "4:3"
  /\ ratio_of 768 1024 = Ok "3:4"
  /\ ratio_of 3 2 = Ok "4:3"
  /\ ratio_of 300000000000000001 200000000000000000 = Ok "4:3"
  /\ (15 # 10 < inject_Z 300000000000000001 / inject_Z 200000000000000000)%Q
  /\ ratio_of 1024 0 = Raise (Exception "ZeroDivisionError")
  /\ ratio_of (10 ^ 400) 1 = Raise (Exception "OverflowError")
  /\ ratio_of (-1) (10 ^ 400) = Raise (Exception "OverflowError")
  /\ ratio_of 1 (- 10 ^ 400) = Ok "4:3".
Proof. repeat split; vm_compute; reflexivity. Qed.

(** ** What the dispatcher answers *)

Lemma retry_loop_answer (proto : Protocol) (stream : bool) (worlds : nat -> AttemptWorld)
    (remaining : nat) :
  forall attempt tm email last_error resp tm' trace,
    retry_loop proto stream worlds remaining attempt tm email last_error = (resp, tm', trace) ->
    answer_allowed stream email remaining attempt resp trace.
Proof.
  induction remaining as [|remaining IH]; intros attempt tm email last_error resp tm' trace.
  - simpl. intros H. injection H as <- _ <-.
    destruct email as [em|]; [simpl; now left|].
    destruct (logs_exhaustion proto); simpl; [|now left].
    split; [reflexivity|]. split; [reflexivity|]. now left.
  - cbn [retry_loop].
    destruct (get_token tm (quota_group proto) (0 <? attempt)%nat
                (acquire_world (worlds attempt))) as [[got tm1] calls].
    assert (Hgo : forall em e a,
              (let '(resp0, tm2, trace0) :=
                 retry_loop proto stream worlds remaining (S attempt) tm1 (Some em) (Some e) in
               (resp0, tm2, a :: trace0)) = (resp, tm', trace) ->
              answer_allowed stream email (S remaining) attempt resp trace).
    { intros em e a.
      destruct (retry_loop proto stream worlds remaining (S attempt) tm1 (Some em) (Some e))
        as [[resp0 tm2] trace0] eqn:E.
      apply IH in E. intros H. injection H as <- _ _.
      destruct resp0; simpl in E |- *; try exact E.
      destruct E as (_ & E & _). discriminate E. }
    destruct got as [[[tok proj] em]|e0].
    + destruct (built (worlds attempt)) as [e|].
      * destruct e as [msg|status msg|var|msg]; try apply Hgo.
        -- intros H. injection H as <- _ _. simpl. right. now left.
        -- destruct (retry_status status) eqn:Es; [apply Hgo|].
           intros H. injection H as <- _ _. simpl. right. now right.
      * destruct stream.
        -- intros H. injection H as <- _ _. reflexivity.
        -- destruct (upstream (worlds attempt)) as [content|e]; cbn [bind].
           ++ intros H. injection H as <- _ _. reflexivity.
           ++ destruct e as [msg|status msg|var|msg]; try apply Hgo.
              ** intros H. injection H as <- _ _. simpl. right. now left.
              ** destruct (retry_status status) eqn:Es; [apply Hgo|].
                 intros H. injection H as <- _ _. simpl. right. now right.
    + destruct e0 as [msg|status msg|var|msg].
      * intros H. injection H as <- _ _. simpl. right. now left.
      * destruct email as [em|].
        -- destruct (retry_status status) eqn:Es; [apply Hgo|].
           intros H. injection H as <- _ _. simpl. right. now right.
        -- intros H. injection H as <- _ <-. simpl.
           split; [reflexivity|]. split; [reflexivity|]. right.
           eexists. split; [reflexivity|]. now split.
      * destruct email as [em|]; [apply Hgo|].
        intros H. injection H as <- _ <-. simpl.
        split; [reflexivity|]. split; [reflexivity|]. right.
        eexists. split; [reflexivity|]. now split.
      * destruct email as [em|]; [apply Hgo|].
        intros H. injection H as <- _ <-. simpl.
        split; [reflexivity|]. split; [reflexivity|]. right.
        eexists. split; [reflexivity|]. now split.
Qed.

(** X25.  The two retrying handlers never pass a retried status on: an
    [HTTPException] they raise carries 429 (all attempts failed), 503 (a
    [ValueError], as of an empty pool) or an upstream status outside 429,
    403, 500, 502, 503 and 504.  A streaming request is answered by a stream
    and no other by one.  An exception escapes a handler only as the
    [UnboundLocalError] of its own log line, on attempt 0, when the first
    acquisition failed. *)
Theorem dispatcher_answers (proto : Protocol) (stream : bool)
    (worlds : nat -> AttemptWorld) (tm tm' : TokenManager) (resp : http_response)
    (trace : list Attempt) :
  dispatch proto stream worlds tm = (resp, tm', trace) ->
  match resp with
  | JSONResponse _ => stream = false
  | StreamingResponse => stream = true
  | HTTPException status detail =>
      status = 429%Z \/ status = 503%Z \/ retry_status status = false
  | Uncaught e =>
      e = UnboundLocalError "email"
      /\ exists a, trace = [a] /\ attempt_index a = 0%nat /\ acquired a = None
                   /\ force_rotate_of a = false
  end.
Proof.
  unfold dispatch. intros H.
  pose proof (retry_loop_trace _ _ _ _ _ _ _ _ _ _ _ H) as [Hlen Hidx].
  pose proof (retry_loop_answer _ _ _ _ _ _ _ _ _ _ _ H) as Ha.
  destruct resp as [content| |status detail|e]; try exact Ha.
  destruct Ha as (He & _ & [Hnil | (a & Ht & Hi & Hacq)]).
  - lia.
  - split; [exact He|]. exists a. split; [exact Ht|]. split; [exact Hi|].
    split; [exact Hacq|].
    subst trace. destruct (Hidx 0%nat a eq_refl) as [_ Hf]. exact Hf.
Qed.

Lemma dispatcher_answers_witness :
  let worlds := always (quiet 0) (Raise (HTTPStatusError 500 "Server error")) in
  let run := dispatch claude false worlds two_plain in
  (exists detail, fst (fst run) = HTTPException 429 detail)
  /\ List.length (snd run) = 5%nat
  /\ match fst (fst run) with
     | JSONResponse _ => false = false
     | StreamingResponse => false = true
     | HTTPException status detail =>
         status = 429%Z \/ status = 503%Z \/ retry_status status = false
     | Uncaught e =>
         e = UnboundLocalError "email"
         /\ exists a, snd run = [a] /\ attempt_index a = 0%nat /\ acquired a = None
                      /\ force_rotate_of a = false
     end.
Proof.
  intros worlds run.
  split; [eexists; vm_compute; reflexivity|].
  split; [vm_compute; reflexivity|].
  apply (dispatcher_answers claude false worlds two_plain (snd (fst run)) (fst (fst run))
           (snd run)).
  vm_compute. reflexivity.
Defined.

Lemma retry_loop_stream_ext (proto : Protocol) (worlds worlds' : nat -> AttemptWorld)
    (remaining : nat) :
  (forall k, acquire_world (worlds k) = acquire_world (worlds' k)
             /\ built (worlds k) = built (worlds' k)) ->
  forall attempt tm email last_error,
    retry_loop proto true worlds remaining attempt tm email last_error
    = retry_loop proto true worlds' remaining attempt tm email last_error.
Proof.
  intros Hw. induction remaining as [|remaining IH]; intros attempt tm email last_error;
    [reflexivity|].
  cbn [retry_loop]. destruct (Hw attempt) as [Ha Hb]. rewrite <- Ha, <- Hb.
  destruct (get_token tm (quota_group proto) (0 <? attempt)%nat
              (acquire_world (worlds attempt))) as [[got tm1] calls].
  destruct got as [[[tok proj] em]|e0].
  - destruct (built (worlds attempt)) as [e|]; [|reflexivity].
    destruct e as [msg|status msg|var|msg]; rewrite ?IH; reflexivity.
  - destruct e0 as [msg|status msg|var|msg]; destruct email as [em|];
      rewrite ?IH; reflexivity.
Qed.

Lemma retry_loop_stream_success (proto : Protocol) (worlds : nat -> AttemptWorld)
    (remaining : nat) :
  forall last_error email attempt tm resp tm' trace a,
    retry_loop proto true worlds remaining attempt tm email last_error = (resp, tm', trace) ->
    In a trace -> acquired a <> None -> failure a = None ->
    resp = StreamingResponse /\ last trace a = a.
Proof.
  induction remaining as [|remaining IH]; intros last_error email attempt tm resp tm' trace a.
  - simpl. intros H. injection H as _ _ <-. contradiction.
  - cbn [retry_loop].
    destruct (get_token tm (quota_group proto) (0 <? attempt)%nat
                (acquire_world (worlds attempt))) as [[got tm1] calls].
    assert (Hgo : forall em e a0,
              failure a0 = Some e ->
              (let '(resp0, tm2, trace0) :=
                 retry_loop proto true worlds remaining (S attempt) tm1 em (Some e) in
               (resp0, tm2, a0 :: trace0)) = (resp, tm', trace) ->
              In a trace -> acquired a <> None -> failure a = None ->
              resp = StreamingResponse /\ last trace a = a).
    { intros em e a0 Hfail.
      destruct (retry_loop proto true worlds remaining (S attempt) tm1 em (Some e))
        as [[resp0 tm2] trace0] eqn:E.
      intros H. injection H as <- _ <-. intros [-> | Hin] Hacq Hnone.
      * rewrite Hfail in Hnone. discriminate Hnone.
      * destruct (IH _ _ _ _ _ _ _ _ E Hin Hacq Hnone) as [Hr Hl].
        split; [exact Hr|]. destruct trace0 as [|b trace0]; [contradiction|]. exact Hl. }
    assert (Hone : forall resp0 a0,
              (acquired a0 <> None -> failure a0 = None -> resp0 = StreamingResponse) ->
              (resp0, tm1, [a0]) = (resp, tm', trace) ->
              In a trace -> acquired a <> None -> failure a = None ->
              resp = StreamingResponse /\ last trace a = a).
    { intros resp0 a0 Hok H. injection H as <- _ <-. intros [-> | []] Hacq Hnone.
      split; [now apply Hok | reflexivity]. }
    destruct got as [[[tok proj] em]|e0].
    + destruct (built (worlds attempt)) as [e|].
      * destruct e as [msg|status msg|var|msg];
          try (apply Hgo; reflexivity);
          try (apply Hone; cbn; intros _ Hf; discriminate Hf).
        destruct (retry_status status); [apply Hgo; reflexivity|].
        apply Hone. cbn. intros _ Hf. discriminate Hf.
      * apply Hone. reflexivity.
    + destruct e0 as [msg|status msg|var|msg];
        try (apply Hone; cbn; intros _ Hf; discriminate Hf);
        destruct email as [em|];
        try (apply Hone; cbn; intros _ Hf; discriminate Hf);
        try (apply Hgo; reflexivity).
      destruct (retry_status status); [apply Hgo; reflexivity|].
      apply Hone. cbn. intros _ Hf. discriminate Hf.
Qed.

(** X26.  For a streaming request the retries cover the acquisition of a
    token and the building of the upstream request only: what upstream
    answers has no part in the response of the handler, in the state of the
    pool or in the attempts made, and once a token is acquired and the
    request built, the handler answers with the stream at once. *)
Theorem streaming_never_retries_upstream (proto : Protocol)
    (worlds worlds' : nat -> AttemptWorld) (tm : TokenManager) :
  (forall k, acquire_world (worlds k) = acquire_world (worlds' k)
             /\ built (worlds k) = built (worlds' k)) ->
  dispatch proto true worlds tm = dispatch proto true worlds' tm
  /\ forall resp tm' trace a,
       dispatch proto true worlds tm = (resp, tm', trace) ->
       In a trace -> acquired a <> None -> failure a = None ->
       resp = StreamingResponse /\ last trace a = a.
Proof.
  intros Hw. split.
  - unfold dispatch. now apply retry_loop_stream_ext.
  - unfold dispatch. intros resp tm' trace a. apply retry_loop_stream_success.
Qed.

Lemma streaming_never_retries_upstream_witness :
  let worlds := always (quiet 0) (Ok JNull) in
  let worlds' := always (quiet 0) (Raise (HTTPStatusError 500 "Server error")) in
  dispatch openai true worlds two_plain = dispatch openai true worlds' two_plain
  /\ forall resp tm' trace a,
       dispatch openai true worlds two_plain = (resp, tm', trace) ->
       In a trace -> acquired a <> None -> failure a = None ->
       resp = StreamingResponse /\ last trace a = a.
Proof.
  apply (streaming_never_retries_upstream openai
           (always (quiet 0) (Ok JNull))
           (always (quiet 0) (Raise (HTTPStatusError 500 "Server error")))
           two_plain).
  intros k. split; reflexivity.
Defined.

(** ** Retries walk the pool *)

Lemma same_accounts_length (pool pool' : list ProxyToken) :
  same_accounts pool pool' -> List.length pool' = List.length pool.
Proof.
  intros (A & _). rewrite <- (length_map account_id pool'), A. apply length_map.
Qed.

Lemma same_accounts_email_at (pool pool' : list ProxyToken) (k : nat) (t' : ProxyToken) :
  same_accounts pool pool' ->
  nth_error pool' k = Some t' ->
  exists t, nth_error pool k = Some t /\ email t = email t'.
Proof.
  intros (_ & E & _) Hk.
  assert (H : nth_error (map email pool) k = Some (email t')).
  { rewrite <- E. rewrite nth_error_map, Hk. reflexivity. }
  rewrite nth_error_map in H. destruct (nth_error pool k) as [t|]; [|discriminate H].
  injection H as H. now exists t.
Qed.

(** A forced acquisition over a pool without scores: the account at the
    counter, and the counter moves on, whatever the outcome. *)
Lemma forced_get_token (tm : TokenManager) (qg : string) (w : World)
    (got : result (string * string * string)) (tm1 : TokenManager) (calls : list call) :
  well_keyed tm = true ->
  _tokens tm <> [] ->
  unscored (_tokens tm) = true ->
  get_token tm qg true w = (got, tm1, calls) ->
  same_accounts (_tokens tm) (_tokens tm1)
  /\ _current_index tm1 = S (_current_index tm)
  /\ forall tok pid em, got = Ok (tok, pid, em) ->
       exists t, nth_error (_tokens tm) (_current_index tm mod List.length (_tokens tm))
                 = Some t
                 /\ email t = em.
Proof.
  intros Hk Hne Hun. unfold get_token.
  destruct (get_token_entry tm qg true w) as [[r tm'] calls'] eqn:E.
  intros H. injection H as <- <- <-.
  destruct (get_token_entry_frame _ _ _ _ _ _ _ Hk Hne E) as (r1 & tm0 & Hsel & S & _ & C & _).
  destruct (forced_selection tm qg w (or_intror Hun)) as [Hfst Hidx].
  rewrite Hsel in Hfst, Hidx. simpl in Hfst, Hidx.
  split; [exact S|]. split; [congruence|].
  intros tok pid em Hgot. destruct r as [entry|e]; [|discriminate Hgot].
  injection Hgot as _ _ <-.
  destruct (get_token_entry_sound _ _ _ _ _ _ _ E)
    as (sel & tm0' & Hsel' & _ & _ & _ & _ & _ & Hemail & _).
  rewrite Hsel in Hsel'. injection Hsel' as -> _.
  unfold round_robin in Hfst. simpl in Hfst.
  destruct (nth_error (_tokens tm) (_current_index tm mod List.length (_tokens tm)))
    as [t|]; [|discriminate Hfst].
  injection Hfst as ->. now exists t.
Qed.

Lemma retry_loop_walks (proto : Protocol) (stream : bool) (worlds : nat -> AttemptWorld)
    (remaining : nat) :
  forall attempt tm bound last_error resp tm' trace,
    well_keyed tm = true ->
    _tokens tm <> [] ->
    unscored (_tokens tm) = true ->
    (0 < attempt)%nat ->
    retry_loop proto stream worlds remaining attempt tm bound last_error = (resp, tm', trace) ->
    forall i a em,
      nth_error trace i = Some a -> acquired a = Some em ->
      exists t, nth_error (_tokens tm)
                  ((_current_index tm + i) mod List.length (_tokens tm)) = Some t
                /\ email t = em.
Proof.
  induction remaining as [|remaining IH];
    intros attempt tm bound last_error resp tm' trace Hk Hne Hun Hpos.
  - simpl. intros H. injection H as _ _ <-. intros [|i] a em Ha; discriminate Ha.
  - cbn [retry_loop].
    assert (Hforce : (0 <? attempt)%nat = true) by now apply Nat.ltb_lt.
    rewrite Hforce.
    destruct (get_token tm (quota_group proto) true (acquire_world (worlds attempt)))
      as [[got tm1] calls] eqn:Eg.
    destruct (forced_get_token _ _ _ _ _ _ Hk Hne Hun Eg) as (S1 & C1 & Hat).
    set (email1 := match got with Ok (_, _, e) => Some e | Raise _ => bound end).
    set (acq := match got with Ok (_, _, em) => Some em | Raise _ => None end).
    assert (Hhead : forall em, acq = Some em ->
              exists t, nth_error (_tokens tm)
                          ((_current_index tm + 0) mod List.length (_tokens tm)) = Some t
                        /\ email t = em).
    { intros em Hacq. rewrite Nat.add_0_r. subst acq.
      destruct got as [[[tok pid] em']|e]; [|discriminate Hacq].
      injection Hacq as <-. exact (Hat tok pid em' eq_refl). }
    assert (Hone : forall resp0 tm0 f,
              (resp0, tm0,
               [{| attempt_index := attempt; force_rotate_of := true;
                   acquired := acq; failure := f |}]) = (resp, tm', trace) ->
              forall i a em,
                nth_error trace i = Some a -> acquired a = Some em ->
                exists t, nth_error (_tokens tm)
                            ((_current_index tm + i) mod List.length (_tokens tm)) = Some t
                          /\ email t = em).
    { intros resp0 tm0 f H. injection H as _ _ <-.
      intros [|[|i]] a em Ha; try discriminate Ha.
      injection Ha as <-. exact (Hhead em). }
    assert (Hgo : forall e,
              (let '(resp0, tm2, trace0) :=
                 retry_loop proto stream worlds remaining (S attempt) tm1 email1 (Some e) in
               (resp0, tm2,
                {| attempt_index := attempt; force_rotate_of := true;
                   acquired := acq; failure := Some e |} :: trace0)) = (resp, tm', trace) ->
              forall i a em,
                nth_error trace i = Some a -> acquired a = Some em ->
                exists t, nth_error (_tokens tm)
                            ((_current_index tm + i) mod List.length (_tokens tm)) = Some t
                          /\ email t = em).
    { intros e.
      destruct (retry_loop proto stream worlds remaining (S attempt) tm1 email1 (Some e))
        as [[resp0 tm2] trace0] eqn:E.
      intros H. injection H as _ _ <-. intros [|i] a em Ha Hacq.
      - injection Ha as <-. exact (Hhead em Hacq).
      - simpl in Ha.
        assert (Hk1 : well_keyed tm1 = true) by (eapply same_accounts_well_keyed; eauto).
        assert (Hlen : List.length (_tokens tm1) = List.length (_tokens tm))
          by now apply same_accounts_length.
        assert (Hne1 : _tokens tm1 <> []).
        { intros Hnil. rewrite Hnil in Hlen. destruct (_tokens tm); [contradiction|].
          discriminate Hlen. }
        assert (Hun1 : unscored (_tokens tm1) = true)
          by (eapply unscored_same_accounts; eauto).
        destruct (IH (S attempt) tm1 email1 (Some e) resp0 tm2 trace0 Hk1 Hne1 Hun1
                    (Nat.lt_0_succ attempt) E i a em Ha Hacq) as (t1 & Ht1 & He1).
        rewrite C1, Hlen in Ht1.
        replace (S (_current_index tm) + i)%nat with (_current_index tm + S i)%nat
          in Ht1 by lia.
        destruct (same_accounts_email_at _ _ _ _ S1 Ht1) as (t & Ht & He).
        exists t. split; [exact Ht | congruence]. }
    fold email1 acq.
    destruct (match got with
              | Ok _ =>
                  match built (worlds attempt) with
                  | Some e => Raise e
                  | None =>
                      if stream then Ok None
                      else r <- upstream (worlds attempt) ;; Ok (Some r)
                  end
              | Raise e => Raise e
              end) as [[content|]|[msg|status msg|var|msg]];
      try apply Hone; try (destruct email1; [apply Hgo | apply Hone]).
    destruct email1; [|apply Hone].
    destruct (retry_status status); [apply Hgo | apply Hone].
Qed.

(** X27.  Over a pool in which no account carries a score above 0.05, the
    retries of a request walk the pool in its order: with [c] the counter
    after the first attempt, retry number [i + 1], when it acquires a token,
    acquires the one of the account at position [(c + i) mod n], whether the
    attempts before it acquired one or not.  So a request that runs out of
    attempts on a pool of at most four accounts, each attempt having acquired
    a token, has tried every account. *)
Theorem retries_walk_the_pool (proto : Protocol) (stream : bool)
    (worlds : nat -> AttemptWorld) (tm tm' : TokenManager) (resp : http_response)
    (trace : list Attempt) :
  well_keyed tm = true ->
  unscored (_tokens tm) = true ->
  dispatch proto stream worlds tm = (resp, tm', trace) ->
  let n := List.length (_tokens tm) in
  let c := _current_index
             (snd (fst (get_token tm (quota_group proto) false (acquire_world (worlds 0%nat))))) in
  (forall i a em,
      nth_error trace (S i) = Some a -> acquired a = Some em ->
      exists t, nth_error (_tokens tm) ((c + i) mod n) = Some t /\ email t = em)
  /\ ((n <= 4)%nat -> List.length trace = Nat.max n 5 ->
      (forall a, In a trace -> acquired a <> None) ->
      forall t, In t (_tokens tm) -> exists a, In a trace /\ acquired a = Some (email t)).
Proof.
  intros Hk Hun Hd n c.
  assert (Hwalk : forall i a em,
            nth_error trace (S i) = Some a -> acquired a = Some em ->
            exists t, nth_error (_tokens tm) ((c + i) mod n) = Some t /\ email t = em).
  { subst n c. unfold dispatch in Hd.
    destruct (Nat.max (List.length (_tokens tm)) 5) as [|remaining] eqn:En; [lia|].
    cbn [retry_loop] in Hd. change (0 <? 0)%nat with false in Hd.
    destruct (get_token tm (quota_group proto) false (acquire_world (worlds 0%nat)))
      as [[got tm1] calls] eqn:Eg.
    cbn [fst snd].
    set (email1 := match got with Ok (_, _, e) => Some e | Raise _ => None end) in Hd.
    assert (Hone : forall resp0 tm0 a0,
              (resp0, tm0, [a0]) = (resp, tm', trace) ->
              forall i a em,
                nth_error trace (S i) = Some a -> acquired a = Some em ->
                exists t, nth_error (_tokens tm)
                            ((_current_index tm1 + i) mod List.length (_tokens tm)) = Some t
                          /\ email t = em).
    { intros resp0 tm0 a0 H. injection H as _ _ <-. intros [|i] a em Ha; discriminate Ha. }
    assert (Hgo : forall e a0,
              (let '(resp0, tm2, trace0) :=
                 retry_loop proto stream worlds remaining 1 tm1 email1 (Some e) in
               (resp0, tm2, a0 :: trace0)) = (resp, tm', trace) ->
              forall i a em,
                nth_error trace (S i) = Some a -> acquired a = Some em ->
                exists t, nth_error (_tokens tm)
                            ((_current_index tm1 + i) mod List.length (_tokens tm)) = Some t
                          /\ email t = em).
    { intros e a0.
      destruct (retry_loop proto stream worlds remaining 1 tm1 email1 (Some e))
        as [[resp0 tm2] trace0] eqn:E.
      intros H. injection H as _ _ <-. intros i a em Ha Hacq. simpl in Ha.
      destruct (_tokens tm) as [|t0 pool] eqn:Epool.
      { (* an empty pool: the first attempt ends the request *)
        exfalso. unfold get_token, get_token_entry in Eg. rewrite Epool in Eg.
        injection Eg as <- <- _. subst email1.
        destruct remaining as [|r]; [simpl in E; injection E as _ _ <-;
                                     destruct i; discriminate Ha|].
        cbn [retry_loop] in E. unfold get_token, get_token_entry in E.
        rewrite Epool in E. injection E as _ _ <-.
        destruct i as [|[|i]]; try discriminate Ha.
        injection Ha as <-. discriminate Hacq. }
      assert (Hne : _tokens tm <> []) by (rewrite Epool; discriminate).
      rewrite <- Epool in *.
      assert (S1 : same_accounts (_tokens tm) (_tokens tm1)).
      { unfold get_token in Eg.
        destruct (get_token_entry tm (quota_group proto) false (acquire_world (worlds 0%nat)))
          as [[r tm0] calls0] eqn:Ee.
        injection Eg as _ <- _.
        now destruct (get_token_entry_frame _ _ _ _ _ _ _ Hk Hne Ee) as (_ & _ & _ & S & _). }
      assert (Hk1 : well_keyed tm1 = true) by (eapply same_accounts_well_keyed; eauto).
      assert (Hlen : List.length (_tokens tm1) = List.length (_tokens tm))
        by now apply same_accounts_length.
      assert (Hne1 : _tokens tm1 <> []).
      { intros Hnil. rewrite Hnil in Hlen. destruct (_tokens tm); [contradiction|].
        discriminate Hlen. }
      assert (Hun1 : unscored (_tokens tm1) = true)
        by (eapply unscored_same_accounts; eauto).
      destruct (retry_loop_walks _ _ _ _ _ _ _ _ _ _ _ Hk1 Hne1 Hun1 Nat.lt_0_1 E i a em
                  Ha Hacq) as (t1 & Ht1 & He1).
      rewrite Hlen in Ht1.
      destruct (same_accounts_email_at _ _ _ _ S1 Ht1) as (t & Ht & He).
      exists t. split; [exact Ht | congruence]. }
    revert Hd.
    destruct (match got with
              | Ok _ =>
                  match built (worlds 0%nat) with
                  | Some e => Raise e
                  | None =>
                      if stream then Ok None
                      else r <- upstream (worlds 0%nat) ;; Ok (Some r)
                  end
              | Raise e => Raise e
              end) as [[content|]|[msg|status msg|var|msg]];
      try apply Hone; try (destruct email1; [apply Hgo | apply Hone]).
    destruct email1; [|apply Hone].
    destruct (retry_status status); [apply Hgo | apply Hone]. }
  split; [exact Hwalk|].
  intros Hn Hlen Hall t Hin.
  destruct (In_nth_error _ _ Hin) as [p Hp].
  assert (Hpn : (p < n)%nat) by (apply nth_error_Some; rewrite Hp; discriminate).
  set (i := ((p + n - c mod n) mod n)%nat).
  assert (Hn0 : n <> 0%nat) by lia.
  assert (Hi : (i < n)%nat) by (apply Nat.mod_upper_bound; exact Hn0).
  assert (Hci : ((c + i) mod n = p)%nat).
  { subst i. rewrite Nat.Div0.add_mod_idemp_r.
    pose proof (Nat.mod_upper_bound c n Hn0) as Hc.
    rewrite (Nat.Div0.div_mod c n) at 1.
    replace (n * (c / n) + c mod n + (p + n - c mod n))%nat
      with (p + (1 + c / n) * n)%nat by nia.
    rewrite Nat.Div0.mod_add. now apply Nat.mod_small. }
  assert (Hsi : (S i < List.length trace)%nat) by lia.
  destruct (nth_error trace (S i)) as [a|] eqn:Ea.
  2:{ apply nth_error_None in Ea. lia. }
  assert (Hina : In a trace) by (eapply nth_error_In; eauto).
  destruct (acquired a) as [em|] eqn:Eacq.
  2:{ exfalso. exact (Hall a Hina Eacq). }
  destruct (Hwalk i a em Ea Eacq) as (t1 & Ht1 & He1).
  rewrite Hci, Hp in Ht1. injection Ht1 as <-.
  exists a. split; [exact Hina | congruence].
Qed.

Lemma retries_walk_the_pool_witness :
  let worlds := always (quiet 0) (Raise (HTTPStatusError 429 "Too Many Requests")) in
  let run := dispatch openai false worlds two_plain in
  let n := List.length (_tokens two_plain) in
  let c := _current_index
             (snd (fst (get_token two_plain (quota_group openai) false
                          (acquire_world (worlds 0%nat))))) in
  map acquired (snd run)
  = [Some "a@example.com"; Some "b@example.com"; Some "a@example.com";
     Some "b@example.com"; Some "a@example.com"]
  /\ (forall i a em,
        nth_error (snd run) (S i) = Some a -> acquired a = Some em ->
        exists t, nth_error (_tokens two_plain) ((c + i) mod n) = Some t /\ email t = em)
  /\ ((n <= 4)%nat -> List.length (snd run) = Nat.max n 5 ->
      (forall a, In a (snd run) -> acquired a <> None) ->
      forall t, In t (_tokens two_plain) ->
                exists a, In a (snd run) /\ acquired a = Some (email t)).
Proof.
  intros worlds run n c.
  split; [vm_compute; reflexivity|].
  apply (retries_walk_the_pool openai false worlds two_plain (snd (fst run)) (fst (fst run))
           (snd run)).
  - reflexivity.
  - reflexivity.
  - vm_compute. reflexivity.
Defined.

(** ** The image endpoint *)

Lemma get_token_length (tm : TokenManager) (qg : string) (force : bool) (w : World)
    (got : result (string * string * string)) (tm' : TokenManager) (calls : list call) :
  get_token tm qg force w = (got, tm', calls) ->
  forall r, got = Ok r -> List.length (_tokens tm') = List.length (_tokens tm).
Proof.
  unfold get_token.
  destruct (get_token_entry tm qg force w) as [[[entry|e] tm0] calls0] eqn:E;
    intros H; injection H as <- <- <-; intros r Hr; [|discriminate Hr].
  destruct (get_token_entry_sound _ _ _ _ _ _ _ E) as (_ & _ & _ & _ & Hids & _).
  rewrite <- (length_map account_id (_tokens tm0)), Hids. apply length_map.
Qed.

Lemma last_in {A : Type} (l : list A) (a d : A) : In (last (a :: l) d) (a :: l).
Proof.
  revert a. induction l as [|b l IH]; intros a; [now left|].
  right. exact (IH b).
Qed.

Lemma image_loop_trace (worlds : nat -> CallWorld) (remaining : nat) :
  forall attempt tm em last_error r tm' trace le,
    image_loop worlds remaining attempt tm em last_error = (r, tm', trace, le) ->
    (List.length trace <= remaining)%nat
    /\ (forall i a, nth_error trace i = Some a ->
          attempt_index a = (attempt + i)%nat
          /\ force_rotate_of a = (0 <? attempt + i)%nat)
    /\ match r with
       | Some _ =>
           exists front a,
             trace = (front ++ [a])%list /\ failure a = None
             /\ Forall (fun b => failure b <> None) front
       | None =>
           List.length trace = remaining
           /\ Forall (fun b => failure b <> None) trace
           /\ le = last_failure trace last_error
       end.
Proof.
  induction remaining as [|remaining IH]; intros attempt tm em last_error r tm' trace le.
  - simpl. intros H. injection H as <- _ <- <-.
    split; [simpl; lia|]. split; [intros [|i] a Ha; discriminate Ha|].
    split; [reflexivity|]. split; [constructor | reflexivity].
  - cbn [image_loop].
    destruct (if (0 <? attempt)%nat
              then
                let '(g, tm1, _) :=
                  get_token tm "image_gen" true (call_acquire (worlds attempt)) in
                (match g with Ok (_, _, e) => Ok e | Raise x => Raise x end, tm1)
              else (Ok em, tm)) as [got tm1].
    destruct (match got with
              | Ok _ => call_upstream (worlds attempt)
              | Raise e => Raise e
              end) as [response|e].
    + intros H. injection H as <- _ <- _.
      split; [simpl; lia|]. split.
      * intros [|[|i]] a Ha; try discriminate Ha.
        injection Ha as <-. simpl. now rewrite Nat.add_0_r.
      * eexists [], _. split; [reflexivity|]. split; [reflexivity | constructor].
    + destruct (image_loop worlds remaining (S attempt) tm1
                  match got with Ok e0 => e0 | Raise _ => em end (Some e))
        as [[[r0 tm2] trace0] le0] eqn:E.
      apply IH in E. destruct E as (Hlen & Hidx & Hr).
      intros H. injection H as <- _ <- <-.
      split; [simpl; lia|]. split.
      * intros [|i] a Ha.
        -- injection Ha as <-. simpl. now rewrite Nat.add_0_r.
        -- simpl in Ha. apply Hidx in Ha.
           replace (attempt + S i)%nat with (S attempt + i)%nat by lia. exact Ha.
      * destruct r0 as [response|].
        -- destruct Hr as (front & a & -> & Ha & Hfront).
           eexists (_ :: front), a. split; [reflexivity|]. split; [exact Ha|].
           constructor; [discriminate | exact Hfront].
        -- destruct Hr as (Hl & Hall & Hle). split; [simpl; lia|].
           split; [constructor; [discriminate | exact Hall]|].
           rewrite Hle. unfold last_failure. cbn [map].
           destruct trace0 as [|b trace0]; [reflexivity|].
           change (last (failure b :: map failure trace0) (Some e)
                   = last (failure b :: map failure trace0) last_error).
           apply last_of_nonempty.
Qed.

(** X28.  The image endpoint answers 503 only before its loop, when the
    first acquisition raises a [ValueError].  In the loop every failure is
    retried, whatever its kind: the endpoint gives up only after
    [max(n, 5)] failed attempts, and then with 429, 403 or 502 as the
    message of the last error contains [429], [403] or neither; it never
    passes another upstream status on.  An answer with images follows one
    successful attempt, the last one.  Attempt 0 uses the token acquired
    before the loop, every later attempt forces rotation. *)
Theorem image_endpoint_answers (py_int : string -> option Z) (py_str : json -> string)
    (str_of_nat : nat -> string) (size response_format : option string) (created : Z)
    (worlds : nat -> CallWorld) (tm tm' : TokenManager) (answer : image_answer)
    (trace : list Attempt) :
  generate_image py_int py_str str_of_nat size response_format created worlds tm
  = (answer, tm', trace) ->
  let max_retries := Nat.max (List.length (_tokens tm)) 5 in
  (List.length trace <= max_retries)%nat
  /\ (forall i a, nth_error trace i = Some a ->
        attempt_index a = i /\ force_rotate_of a = (0 <? i)%nat)
  /\ match answer with
     | ImageGenerationResponse _ _ =>
         exists front a,
           trace = (front ++ [a])%list /\ failure a = None
           /\ Forall (fun b => failure b <> None) front
     | ImageHTTPException status detail =>
         (status = 503%Z /\ trace = [])
         \/ (List.length trace = max_retries
             /\ Forall (fun b => failure b <> None) trace
             /\ exists e,
                  last_failure trace None = Some e
                  /\ status = (if str_contains "429" (exn_str e) then 429
                               else if str_contains "403" (exn_str e) then 403
                               else 502)%Z)
     | ImageUncaught _ => True
     end.
Proof.
  intros H. cbv zeta. unfold generate_image in H.
  destruct (get_token tm "image_gen" false (call_acquire (worlds 0%nat)))
    as [[got tm0] calls] eqn:Eg.
  assert (Hnone : forall (ans : image_answer),
            (ans, tm0, @nil Attempt) = (answer, tm', trace) ->
            (List.length trace <= Nat.max (List.length (_tokens tm)) 5)%nat
            /\ (forall i a, nth_error trace i = Some a ->
                  attempt_index a = i /\ force_rotate_of a = (0 <? i)%nat)).
  { intros ans H0. injection H0 as _ _ <-. split; [simpl; lia|].
    intros [|i] a Ha; discriminate Ha. }
  destruct got as [[[tok pid] em]|e].
  2:{ destruct e as [msg|status msg|var|msg];
        (destruct (Hnone _ H) as [H1 H2]; split; [exact H1|]; split; [exact H2|]);
        injection H as <- _ <-; try exact I.
      left. now split. }
  pose proof (get_token_length _ _ _ _ _ _ _ Eg _ eq_refl) as Hlen0.
  destruct (parse_aspect_ratio py_int _) as [ratio|e].
  2:{ destruct (Hnone _ H) as [H1 H2]. split; [exact H1|]. split; [exact H2|].
      injection H as <- _ _. exact I. }
  rewrite Hlen0 in H.
  destruct (image_loop worlds (Nat.max (List.length (_tokens tm)) 5) 0 tm0 em None)
    as [[[response tm1] trace0] le] eqn:El.
  destruct (image_loop_trace _ _ _ _ _ _ _ _ _ _ El) as (Hlen & Hidx & Hr).
  assert (Htrace : trace = trace0).
  { destruct response as [response|]; [|now injection H].
    destruct (images_of_response py_str response_format response); now injection H. }
  subst trace0. split; [exact Hlen|]. split; [exact Hidx|].
  destruct response as [response|].
  - destruct (images_of_response py_str response_format response) as [images|e];
      injection H as <- _; [exact Hr | exact I].
  - destruct Hr as (Hl & Hall & Hle). injection H as <- _.
    assert (Hlast : exists e, last_failure trace None = Some e).
    { destruct trace as [|a trace]; [simpl in Hl; lia|].
      unfold last_failure.
      pose proof (last_in (map failure trace) (failure a) None) as Hin.
      change (failure a :: map failure trace) with (map failure (a :: trace)) in Hin.
      apply in_map_iff in Hin. destruct Hin as (b & Hb & Hinb).
      rewrite Forall_forall in Hall. specialize (Hall b Hinb).
      destruct (failure b) as [e|] eqn:Ef; [|contradiction].
      exists e. now rewrite <- Hb. }
    destruct Hlast as [e He]. rewrite He in Hle. subst le.
    unfold image_exhausted.
    destruct (str_contains "429" (exn_str e)) eqn:E429;
      [|destruct (str_contains "403" (exn_str e)) eqn:E403];
      right; (split; [exact Hl|]); (split; [exact Hall|]); exists e; (split; [exact He|]);
      rewrite ?E429, ?E403; reflexivity.
Qed.

Lemma image_endpoint_answers_witness :
  let worlds := fun _ : nat =>
    {| call_acquire := quiet 0;
       call_upstream := Raise (HTTPStatusError 400 "Client error '400 Bad Request'") |} in
  let run := generate_image (fun _ => None) (fun _ => "") (fun _ => "5")
               (Some "1024x1024") None 0 worlds two_plain in
  let max_retries := Nat.max (List.length (_tokens two_plain)) 5 in
  fst (fst run) = ImageHTTPException 502 "Upstream error: Client error '400 Bad Request'"
  /\ (List.length (snd run) <= max_retries)%nat
  /\ (forall i a, nth_error (snd run) i = Some a ->
        attempt_index a = i /\ force_rotate_of a = (0 <? i)%nat)
  /\ match fst (fst run) with
     | ImageGenerationResponse _ _ =>
         exists front a,
           snd run = (front ++ [a])%list /\ failure a = None
           /\ Forall (fun b => failure b <> None) front
     | ImageHTTPException status detail =>
         (status = 503%Z /\ snd run = [])
         \/ (List.length (snd run) = max_retries
             /\ Forall (fun b => failure b <> None) (snd run)
             /\ exists e,
                  last_failure (snd run) None = Some e
                  /\ status = (if str_contains "429" (exn_str e) then 429
                               else if str_contains "403" (exn_str e) then 403
                               else 502)%Z)
     | ImageUncaught _ => True
     end.
Proof.
  intros worlds run max_retries.
  split; [vm_compute; reflexivity|].
  apply (image_endpoint_answers (fun _ => None) (fun _ => "") (fun _ => "5")
           (Some "1024x1024") None 0 worlds two_plain (snd (fst run)) (fst (fst run))
           (snd run)).
  vm_compute. reflexivity.
Defined.

(** ** The Gemini-native endpoint *)

Lemma rsplit_once_without (sep : ascii) (a : string) :
  has_char sep a = false -> rsplit_once sep a = [a].
Proof.
  induction a as [|c a IH]; simpl; [reflexivity|].
  intros H. apply orb_false_iff in H. destruct H as [Hc Ha].
  rewrite (IH Ha), Hc. reflexivity.
Qed.

Lemma rsplit_once_app (sep : ascii) (a b : string) :
  has_char sep b = false ->
  rsplit_once sep (a ++ String sep b) = [a; b].
Proof.
  intros Hb. induction a as [|c a IH]; simpl.
  - rewrite (rsplit_once_without sep b Hb), Ascii.eqb_refl. reflexivity.
  - rewrite IH. reflexivity.
Qed.

Lemma gemini_loop_answer (stream : bool) (worlds : nat -> CallWorld) (remaining : nat) :
  forall attempt tm bound last_error resp tm' trace,
    gemini_loop stream worlds remaining attempt tm bound last_error = (resp, tm', trace) ->
    match resp with
    | JSONResponse _ => stream = false
    | StreamingResponse => stream = true
    | HTTPException status detail =>
        status = 503%Z \/ (status = 429%Z /\ List.length trace = remaining)
    | Uncaught e =>
        e = UnboundLocalError "email" /\ bound = None
        /\ exists a, trace = [a] /\ attempt_index a = attempt /\ acquired a = None
    end.
Proof.
  induction remaining as [|remaining IH]; intros attempt tm bound last_error resp tm' trace.
  - simpl. intros H. injection H as <- _ <-. right. now split.
  - cbn [gemini_loop].
    destruct (get_token tm "gemini" (0 <? attempt)%nat (call_acquire (worlds attempt)))
      as [[got tm1] calls].
    assert (Hgo : forall em e a,
              (let '(resp0, tm2, trace0) :=
                 gemini_loop stream worlds remaining (S attempt) tm1 (Some em) (Some e) in
               (resp0, tm2, a :: trace0)) = (resp, tm', trace) ->
              match resp with
              | JSONResponse _ => stream = false
              | StreamingResponse => stream = true
              | HTTPException status detail =>
                  status = 503%Z \/ (status = 429%Z /\ List.length trace = S remaining)
              | Uncaught e =>
                  e = UnboundLocalError "email" /\ bound = None
                  /\ exists a, trace = [a] /\ attempt_index a = attempt /\ acquired a = None
              end).
    { intros em e a.
      destruct (gemini_loop stream worlds remaining (S attempt) tm1 (Some em) (Some e))
        as [[resp0 tm2] trace0] eqn:E.
      apply IH in E. intros H. injection H as <- _ <-.
      destruct resp0 as [content| |status detail|e0]; try exact E.
      - destruct E as [E | [E1 E2]]; [now left | right]. split; [exact E1|].
        simpl. now rewrite E2.
      - destruct E as (_ & E & _). discriminate E. }
    destruct got as [[[tok proj] em]|e0].
    + destruct stream.
      * intros H. injection H as <- _ _. reflexivity.
      * destruct (call_upstream (worlds attempt)) as [gemini_response|e]; cbn [bind].
        -- destruct (py_in "response" gemini_response) as [[|]|e]; cbn [bind].
           ++ destruct (py_item "response" gemini_response) as [inner|e]; cbn [bind].
              ** intros H. injection H as <- _ _. reflexivity.
              ** destruct e as [msg|status msg|var|msg]; try apply Hgo.
                 intros H. injection H as <- _ _. now left.
           ++ intros H. injection H as <- _ _. reflexivity.
           ++ destruct e as [msg|status msg|var|msg]; try apply Hgo.
              intros H. injection H as <- _ _. now left.
        -- destruct e as [msg|status msg|var|msg]; try apply Hgo.
           intros H. injection H as <- _ _. now left.
    + destruct e0 as [msg|status msg|var|msg];
        try (intros H; injection H as <- _ _; now left);
        (destruct bound as [em|]; [apply Hgo|]);
        intros H; injection H as <- _ <-;
        (split; [reflexivity|]); (split; [reflexivity|]);
        eexists; (split; [reflexivity|]); now split.
Qed.

(** X29.  The Gemini-native endpoint answers 400 only before any token is
    acquired (an unsupported method or a body that is no JSON), leaving the
    pool as it was.  In its loop a [ValueError] ends the request with 503
    and every other failure is retried, an upstream 400 included: it gives up
    only after [max(n, 5)] attempts, with 429, and passes no upstream status
    on.  The method alone decides between a stream and a JSON answer, and
    the method is what follows the last colon of the path, so a model name
    may hold colons. *)
Theorem gemini_native_answers (model_action : string) (body : result json)
    (worlds : nat -> CallWorld) (tm tm' : TokenManager) (resp : http_response)
    (trace : list Attempt) :
  generate_content model_action body worlds tm = (resp, tm', trace) ->
  match resp with
  | JSONResponse _ => snd (parse_model_action model_action) = "generateContent"
  | StreamingResponse => snd (parse_model_action model_action) = "streamGenerateContent"
  | HTTPException status detail =>
      (status = 400%Z /\ trace = [] /\ tm' = tm)
      \/ status = 503%Z
      \/ (status = 429%Z
          /\ List.length trace = Nat.max (List.length (_tokens tm)) 5)
  | Uncaught e =>
      e = UnboundLocalError "email"
      /\ exists a, trace = [a] /\ attempt_index a = 0%nat /\ acquired a = None
  end
  /\ forall model_name method,
       has_char ":" method = false ->
       parse_model_action (model_name ++ String ":" method) = (model_name, method).
Proof.
  intros H. split.
  - unfold generate_content in H.
    destruct (parse_model_action model_action) as [model_name method] eqn:Ep.
    cbn [snd].
    destruct (existsb (String.eqb method) ["generateContent"; "streamGenerateContent"])
      eqn:Em; cbn [negb] in H.
    2:{ injection H as <- <- <-. left. now repeat split. }
    destruct body as [b|e].
    2:{ injection H as <- <- <-. left. now repeat split. }
    apply gemini_loop_answer in H.
    assert (Hmethod : method = "generateContent" \/ method = "streamGenerateContent").
    { cbn [existsb] in Em. apply orb_true_iff in Em. destruct Em as [Em | Em].
      - left. now apply String.eqb_eq.
      - apply orb_true_iff in Em. destruct Em as [Em | Em]; [|discriminate Em].
        right. now apply String.eqb_eq. }
    destruct resp as [content| |status detail|e].
    + destruct Hmethod as [-> | ->]; [reflexivity | discriminate H].
    + destruct Hmethod as [-> | ->]; [discriminate H | reflexivity].
    + destruct H as [H | H]; [right; now left | right; now right].
    + destruct H as (H1 & _ & H2). now split.
  - intros model_name method Hm. unfold parse_model_action.
    assert (Hhas : has_char ":" (model_name ++ String ":" method) = true).
    { clear. induction model_name as [|c s IH]; simpl; [reflexivity|].
      rewrite IH. apply orb_true_r. }
    rewrite Hhas, (rsplit_once_app ":" model_name method Hm). reflexivity.
Qed.

Lemma gemini_native_answers_witness :
  let worlds := fun _ : nat =>
    {| call_acquire := quiet 0;
       call_upstream := Raise (HTTPStatusError 400 "Client error '400 Bad Request'") |} in
  let run := generate_content "tuned:gemini-3-flash:generateContent" (Ok (JDict []))
               worlds two_plain in
  fst (fst run)
  = HTTPException 429 "All accounts exhausted: Client error '400 Bad Request'"
  /\ match fst (fst run) with
     | JSONResponse _ =>
         snd (parse_model_action "tuned:gemini-3-flash:generateContent") = "generateContent"
     | StreamingResponse =>
         snd (parse_model_action "tuned:gemini-3-flash:generateContent")
         = "streamGenerateContent"
     | HTTPException status detail =>
         (status = 400%Z /\ snd run = [] /\ snd (fst run) = two_plain)
         \/ status = 503%Z
         \/ (status = 429%Z
             /\ List.length (snd run) = Nat.max (List.length (_tokens two_plain)) 5)
     | Uncaught e =>
         e = UnboundLocalError "email"
         /\ exists a, snd run = [a] /\ attempt_index a = 0%nat /\ acquired a = None
     end
  /\ forall model_name method,
       has_char ":" method = false ->
       parse_model_action (model_name ++ String ":" method) = (model_name, method).
Proof.
  intros worlds run.
  split; [vm_compute; reflexivity|].
  apply (gemini_native_answers "tuned:gemini-3-flash:generateContent" (Ok (JDict []))
           worlds two_plain (snd (fst run)) (fst (fst run)) (snd run)).
  vm_compute. reflexivity.
Defined.
